(** * ulmld: a shallow embedding of the linker engine

    The development follows [ulmld.cpp] and [archive-reader.hpp]:
    - machine integers are [Z] with the wrap-around of [std::uint64_t]
      written out ([wrap64]);
    - [std::map<std::uint64_t, ...>] is a [gmap Z _]; [std::map<std::string,
      ...>], whose iteration order the linker observes, is a sorted
      association list ([SMap]); [std::set<std::string>] is a [gset string]
      where only membership is used and a sorted list where it is iterated;
    - code that throws, asserts or aborts returns a [Result];
    - the lexical layer ([std::getline], [operator>>]) is represented by the
      fields it extracts from a line. *)

From Stdlib Require Import ZArith String Ascii List Lia Bool Sorted Permutation.
From Stdlib Require OrderedTypeEx.
From stdpp Require Import gmap strings list fin_maps.

Local Open Scope string_scope.
Local Open Scope list_scope.
Local Open Scope Z_scope.

(** ** Machine integers *)

Definition two64 : Z := 2 ^ 64.

(** Arithmetic on [std::uint64_t] / [std::size_t] is modulo [2^64]. *)
Definition wrap64 (z : Z) : Z := z mod two64.

(** Conversion of a 64-bit pattern to [std::int64_t]. *)
Definition toInt64 (z : Z) : Z := (z + 2 ^ 63) mod two64 - 2 ^ 63.

(** ** Outcomes of code that may not return normally *)

Inductive Failure : Type :=
| Throw (msg : string)        (* throw Exception(msg), caught in main *)
| AssertFail (what : string)  (* a failed assert(): abort() *)
| Crash (what : string)       (* no defined behaviour: division by zero,
                                 read of an uninitialised or null object *)
| BadAlloc                    (* std::bad_alloc out of std::map::operator[] *)
| Spin (what : string)        (* a loop that makes no progress: never returns *)
| OutOfFuel                   (* the model's bound on an unbounded loop *)
| Exit (code : Z) (msg : string). (* return / std::exit from main *)

Inductive Result (A : Type) : Type :=
| Ok (a : A)
| Fail (f : Failure).
Arguments Ok {A} a.
Arguments Fail {A} f.

Definition bind {A B : Type} (r : Result A) (k : A -> Result B) : Result B :=
  match r with
  | Ok a => k a
  | Fail f => Fail f
  end.

Notation "x <- c1 ;; c2" := (bind c1 (fun x => c2))
  (at level 100, c1 at next level, right associativity).

Definition assert (b : bool) (what : string) : Result unit :=
  if b then Ok tt else Fail (AssertFail what).

(** ** alignAddr *)

(** [((addr + alignTo - 1) / alignTo) * alignTo] on [std::uint64_t];
    the division traps when [alignTo] is zero. *)
Definition alignAddr (addr alignTo : Z) : Result Z :=
  if alignTo =? 0 then Fail (Crash "alignAddr: division by zero")
  else Ok (wrap64 (wrap64 (addr + alignTo - 1) / alignTo * alignTo)).

(** ** The byte store of a segment *)

(** A [std::map] cannot hold more entries than its [size_type] counts:
    [operator[]] on a fresh key fails with [std::bad_alloc] before
    [size()] could wrap. *)
Definition map_max_size : Z := two64 - 1.

(** [memory[k] = v] *)
Definition mem_store (m : gmap Z Z) (k v : Z) : Result (gmap Z Z) :=
  match m !! k with
  | Some _ => Ok (<[k := v]> m)
  | None =>
      if Z.of_nat (size m) <? map_max_size then Ok (<[k := v]> m)
      else Fail BadAlloc
  end.

(** ** [in >> std::hex >> byte] on a two-character group *)

Definition hexDigit (c : ascii) : option Z :=
  let n := Z.of_N (N_of_ascii c) in
  if (48 <=? n) && (n <=? 57) then Some (n - 48)
  else if (65 <=? n) && (n <=? 70) then Some (n - 55)
  else if (97 <=? n) && (n <=? 102) then Some (n - 87)
  else None.

(** [isspace] in the "C" locale. *)
Definition isspace (c : ascii) : bool :=
  let n := Z.of_N (N_of_ascii c) in
  (n =? 32) || ((9 <=? n) && (n <=? 13)).

Inductive Extracted : Type :=
| Parsed (v : Z)   (* the extraction succeeded *)
| NoConv           (* failbit: no digits; the target is set to 0 *)
| NoInput.         (* the sentry failed: the target is left as it was *)

(** Extraction of an [int] in base 16 from a string of one character. *)
Definition hexExtract1 (c : ascii) : Extracted :=
  match hexDigit c with
  | Some d => Parsed d
  | None => NoConv
  end.

(** Extraction of an [int] in base 16 from the string [c1 c2]: leading
    white space is skipped, a sign and a [0x] prefix are accepted, and the
    conversion stops at the first character that is not a hex digit. *)
Definition hexExtract (c1 c2 : ascii) : Extracted :=
  if isspace c1 then
    if isspace c2 then NoInput else hexExtract1 c2
  else
    match hexDigit c1, hexDigit c2 with
    | Some d1, Some d2 => Parsed (16 * d1 + d2)
    | Some d1, None =>
        if (Ascii.eqb c1 "0") && (Ascii.eqb c2 "x" || Ascii.eqb c2 "X")
        then NoConv else Parsed d1
    | None, Some d2 =>
        if Ascii.eqb c1 "+" then Parsed d2
        else if Ascii.eqb c1 "-" then Parsed (- d2)
        else NoConv
    | None, None => NoConv
    end.

(** ** Segment *)

Module Segment.

Record t : Type := mk {
  alignment : Z;
  baseAddr : Z;
  fill : Z;
  memory : gmap Z Z;
  annotation : gmap Z string;
  header : gmap Z (list string);
  label : gmap Z (list string);
  mark : gmap string Z
}.

(** [Segment()] *)
Definition init : t :=
  {| alignment := 1; baseAddr := 0; fill := 253;
     memory := ∅; annotation := ∅; header := ∅; label := ∅; mark := ∅ |}.

Definition with_memory (s : t) (m : gmap Z Z) : t :=
  {| alignment := alignment s; baseAddr := baseAddr s; fill := fill s;
     memory := m; annotation := annotation s; header := header s;
     label := label s; mark := mark s |}.

Definition with_alignment (s : t) (a : Z) : t :=
  {| alignment := a; baseAddr := baseAddr s; fill := fill s;
     memory := memory s; annotation := annotation s; header := header s;
     label := label s; mark := mark s |}.

Definition with_baseAddr (s : t) (b : Z) : t :=
  {| alignment := alignment s; baseAddr := b; fill := fill s;
     memory := memory s; annotation := annotation s; header := header s;
     label := label s; mark := mark s |}.

Definition with_annotation (s : t) (a : gmap Z string) : t :=
  {| alignment := alignment s; baseAddr := baseAddr s; fill := fill s;
     memory := memory s; annotation := a; header := header s;
     label := label s; mark := mark s |}.

Definition with_header (s : t) (h : gmap Z (list string)) : t :=
  {| alignment := alignment s; baseAddr := baseAddr s; fill := fill s;
     memory := memory s; annotation := annotation s; header := h;
     label := label s; mark := mark s |}.

Definition with_label (s : t) (l : gmap Z (list string)) : t :=
  {| alignment := alignment s; baseAddr := baseAddr s; fill := fill s;
     memory := memory s; annotation := annotation s; header := header s;
     label := l; mark := mark s |}.

Definition with_mark (s : t) (k : gmap string Z) : t :=
  {| alignment := alignment s; baseAddr := baseAddr s; fill := fill s;
     memory := memory s; annotation := annotation s; header := header s;
     label := label s; mark := k |}.

(** [size()]: the number of entries of [memory]. *)
Definition size (s : t) : Z := wrap64 (Z.of_nat (base.size (memory s))).

(** [mark[filename]]: [operator[]] yields 0 for a name without mark. *)
Definition markOf (s : t) (filename : string) : Z :=
  default 0 (mark s !! filename).

Definition setMark (s : t) (filename : string) : t :=
  with_mark s (<[filename := size s]> (mark s)).

Definition getMark (s : t) (filename : string) : Z :=
  wrap64 (baseAddr s + markOf s filename).

Definition isAtMark (s : t) (filename : string) : bool :=
  markOf s filename =? size s.

Definition insertAnnotation (s : t) (text : string) (addr : Z) : t :=
  let addr := wrap64 (addr - baseAddr s) in
  let old :=
    match annotation s !! addr with
    | Some a => a +:+ ", "
    | None => "# "
    end in
  with_annotation s (<[addr := old +:+ text]> (annotation s)).

Definition appendAnnotation (s : t) (text : string) : t :=
  let addr := if size s >? 0 then wrap64 (size s - 1) else 0 in
  insertAnnotation s text (wrap64 (baseAddr s + addr)).

Definition insertLabel (s : t) (text : string) (addr : Z) : t :=
  let k := wrap64 (addr - baseAddr s) in
  with_label s (<[k := (default [] (label s !! k) ++ [text])%list]> (label s)).

Definition appendHeader (s : t) (text : string) : t :=
  let k := size s in
  with_header s
    (<[k := (default [] (header s !! k) ++ [text])%list]> (header s)).

Definition appendByte (s : t) (byte : Z) : Result t :=
  m <- mem_store (memory s) (size s) byte ;;
  Ok (with_memory s m).

(** [while (addr > size()) appendByte(fill);] with a budget of
    [addr - size()] iterations. An iteration that does not grow the
    store leaves the state as it is, so that the loop runs for ever:
    that is the only way to use up the budget with the condition still
    true, and it is reported as [Spin]. *)
Fixpoint advanceLoop (budget : nat) (addr : Z) (s : t) : Result t :=
  if addr >? size s then
    match budget with
    | O => Fail (Spin "advanceTo")
    | S budget' =>
        s' <- appendByte s (fill s) ;;
        advanceLoop budget' addr s'
    end
  else Ok s.

Definition advanceTo (s : t) (addr : Z) : Result t :=
  let addr := wrap64 (addr - baseAddr s) in
  _ <- assert (addr >=? size s) "addr >= size()" ;;
  let oldSize := size s in
  s1 <- advanceLoop (Z.to_nat (addr - oldSize)) addr s ;;
  let s2 :=
    if size s1 =? oldSize then s1
    else appendAnnotation s1 "      (ulmld: padding for alignment)" in
  _ <- assert (size s2 =? addr) "size() == addr" ;;
  Ok s2.

Definition setAlignment (s : t) (alignment_ : Z) : Result t :=
  if alignment_ =? 0 then Fail (Crash "setAlignment: division by zero")
  else
    _ <- assert (baseAddr s mod alignment_ =? 0)
           "baseAddr % alignment_ == 0" ;;
    let s1 :=
      if alignment_ >? alignment s then with_alignment s alignment_
      else s in
    newSize <- alignAddr (size s1) (alignment s1) ;;
    advanceTo s1 newSize.

(** [for (i = numBytes; i-- > 0;) { byte = value & 0xFF; value >>= 8;
    memory[addr + i] = byte; }] *)
Fixpoint patchLoop (i : nat) (addr value : Z) (m : gmap Z Z)
  : Result (gmap Z Z) :=
  match i with
  | O => Ok m
  | S i' =>
      let byte := Z.land value 255 in
      let value' := Z.shiftr value 8 in
      m' <- mem_store m (wrap64 (addr + Z.of_nat i')) byte ;;
      patchLoop i' addr value' m'
  end.

Definition patchBytes (s : t) (addr numBytes value : Z) : Result t :=
  let addr := wrap64 (addr - baseAddr s) in
  m <- patchLoop (Z.to_nat numBytes) addr value (memory s) ;;
  Ok (with_memory s m).

Definition requiresAdvanceTo (s : t) (addr : Z) : bool :=
  wrap64 (addr - baseAddr s) >? size s.

(** The loop of [insertByteString]: [i] counts up, [hexDigits] loses two
    characters per round. A group that does not convert only produces a
    diagnostic on [std::cerr]; the byte stored is then the 0 that the
    failed extraction leaves in [byte]. *)
Fixpoint insertLoop (n : nat) (i addr : Z) (hexDigits : string)
    (m : gmap Z Z) : Result (gmap Z Z) :=
  match n with
  | O => Ok m
  | S n' =>
      match hexDigits with
      | String c1 (String c2 rest) =>
          byte <- match hexExtract c1 c2 with
                  | Parsed v => Ok v
                  | NoConv => Ok 0
                  | NoInput => Fail (Crash "byte is not initialised")
                  end ;;
          m' <- mem_store m (wrap64 (addr + i)) (Z.land byte 255) ;;
          insertLoop n' (i + 1) addr rest m'
      | _ => Fail (Crash "std::out_of_range")
      end
  end.

Definition insertByteString (s : t) (addr : Z) (hexDigits : string)
  : Result t :=
  let addr := wrap64 (addr - baseAddr s) in
  s1 <- (if requiresAdvanceTo s addr then advanceTo s addr else Ok s) ;;
  let numBytes := String.length hexDigits in
  _ <- assert (Nat.even numBytes) "numBytes % 2 == 0" ;;
  m <- insertLoop (Nat.div2 numBytes) 0 addr hexDigits (memory s1) ;;
  Ok (with_memory s1 m).

Definition setBaseAddr (s : t) (baseAddr_ : Z) : Result t :=
  if alignment s =? 0 then Fail (Crash "setBaseAddr: division by zero")
  else
    _ <- assert (baseAddr_ mod alignment s =? 0)
           "baseAddr_ % alignment == 0" ;;
    Ok (with_baseAddr s baseAddr_).

Definition getEndAddr (s : t) : Z := wrap64 (baseAddr s + size s).

End Segment.

(** ** [std::map<std::string, V>] and [std::set<std::string>]

    Both are iterated in ascending key order, [std::string] being compared
    character by character as unsigned bytes ([String.compare]). *)

Module SMap.

Definition t (V : Type) : Type := list (string * V).

(** [m.find(k)], [m.count(k)] *)
Fixpoint find {V : Type} (k : string) (m : t V) : option V :=
  match m with
  | [] => None
  | (k', v) :: m' => if String.eqb k k' then Some v else find k m'
  end.

Definition count {V : Type} (k : string) (m : t V) : bool :=
  match find k m with
  | Some _ => true
  | None => false
  end.

(** [m[k] = v] *)
Fixpoint set {V : Type} (k : string) (v : V) (m : t V) : t V :=
  match m with
  | [] => [(k, v)]
  | (k', v') :: m' =>
      match String.compare k k' with
      | Lt => (k, v) :: m
      | Eq => (k, v) :: m'
      | Gt => (k', v') :: set k v m'
      end
  end.

(** [m.insert({k, v})]: [None] when the key is taken ([res.second] is
    false), the map is then unchanged. *)
Definition insert {V : Type} (k : string) (v : V) (m : t V)
  : option (t V) :=
  if count k m then None else Some (set k v m).

(** [m[k].push_back(v)] *)
Definition push_back {V : Type} (k : string) (v : V) (m : t (list V))
  : t (list V) :=
  set k (default [] (find k m) ++ [v])%list m.

Definition keys {V : Type} (m : t V) : list string := map fst m.

End SMap.

Module SSet.

Definition t : Type := list string.

(** [s.insert(k)] *)
Fixpoint insert (k : string) (s : t) : t :=
  match s with
  | [] => [k]
  | k' :: s' =>
      match String.compare k k' with
      | Lt => k :: s
      | Eq => s
      | Gt => k' :: insert k s'
      end
  end.

End SSet.

(** ** Characters and numbers in text *)

(** The value of a [char] as an [int]: [char] is signed on the platform
    of the linker, the characters from 128 on are negative. *)
Definition toInt (c : ascii) : Z :=
  let n := Z.of_N (N_of_ascii c) in
  if n <? 128 then n else n - 256.

(** [std::toupper] on an [int], in the "C" locale. The function is meant
    for the values of [unsigned char] and for [EOF], which is -1; the
    table of the C library answers the other negative values of a [char]
    with the unsigned value of the character, so that [toupper(c) != c]
    holds for them. *)
Definition toupper (c : Z) : Z :=
  if (97 <=? c) && (c <=? 122) then c - 32
  else if (-128 <=? c) && (c <? -1) then c + 256
  else c.

(** [isupper] in the "C" locale. *)
Definition isupper (c : ascii) : bool :=
  let n := N_of_ascii c in ((65 <=? n) && (n <=? 90))%N.

(** The sentry of an extractor skips white space. *)
Fixpoint skipSpace (s : string) : string :=
  match s with
  | String c r => if isspace c then skipSpace r else s
  | EmptyString => EmptyString
  end.

(** [s[0]], which is the terminating 0 for the empty string *)
Definition firstChar (s : string) : ascii :=
  match s with
  | String c _ => c
  | EmptyString => zero
  end.

Definition decDigit (c : ascii) : option Z :=
  let n := Z.of_N (N_of_ascii c) in
  if (48 <=? n) && (n <=? 57) then Some (n - 48) else None.

(** The longest prefix of decimal digits: its value and its length. *)
Fixpoint decPrefix (s : string) (acc : Z) (n : nat) : Z * nat :=
  match s with
  | String c r =>
      match decDigit c with
      | Some d => decPrefix r (10 * acc + d) (S n)
      | None => (acc, n)
      end
  | EmptyString => (acc, n)
  end.

(** [std::istringstream(s) >> displace] for a [std::int64_t] that holds 0
    and a string without white space: a sign, then decimal digits. Without
    digits the result is 0; a value out of range is clamped. *)
Definition extractInt64 (s : string) : Z :=
  match s with
  | EmptyString => 0
  | String c r =>
      let neg := Ascii.eqb c "-" in
      let body := if neg || Ascii.eqb c "+" then r else s in
      let '(v, n) := decPrefix body 0 0 in
      match n with
      | O => 0
      | S _ =>
          let v := if neg then - v else v in
          Z.max (- 2 ^ 63) (Z.min (2 ^ 63 - 1) v)
      end
  end.

(** [s.substr(p)] for [p <= s.length()] *)
Definition substr_from (p : nat) (s : string) : string :=
  substring p (String.length s - p) s.

(** ** The lines of an object file

    A line is given by what the linker extracts from it. The directives
    are recognised by their prefix, whatever the current section is; any
    other line that is neither empty nor a comment is read according to
    the section it stands in, so such a line carries the three readings. *)

(** A byte line of [#TEXT] or [#DATA]. *)
Record ByteLine : Type := {
  bl_comment : string;    (* text after '#' (one blank dropped); "" if none *)
  bl_addr : option Z;     (* the address before ':', when there is a ':' *)
  bl_digits : string      (* what is left without comment, blanks, address *)
}.

(** [>> kind >> ident >> std::hex >> value] *)
Record SymLine : Type := {
  sl_kind : ascii;
  sl_ident : string;
  sl_value : Z
}.

(** [>> segment >> std::hex >> address >> std::dec >> offset >> numBytes
    >> kind >> ident] *)
Record FixLine : Type := {
  fl_segment : string;
  fl_address : Z;
  fl_offset : Z;
  fl_numBytes : Z;
  fl_kind : string;
  fl_ident : string
}.

Record Payload : Type := {
  asBytes : ByteLine;
  asSym : SymLine;
  asFix : FixLine
}.

Inductive Line : Type :=
| LText (alignment : option Z)   (* "#TEXT", and the number after it if any *)
| LData (alignment : option Z)   (* "#DATA", likewise *)
| LBss (args : option (Z * Z))   (* "#BSS"; [None]: nothing follows *)
| LSymtab                        (* "#SYMTAB" *)
| LFixups                        (* "#FIXUPS" *)
| LComment                       (* any other line that starts with '#' *)
| LEmpty                         (* a line of length 0 *)
| LPayload (p : Payload).

(** A line of [__SYMTAB_INDEX]: [>> kind >> ident >> member] *)
Record IndexLine : Type := {
  ix_kind : ascii;
  ix_ident : string;
  ix_member : string
}.

(** A text: the same characters read as an object ([lines]) and read as a
    symbol index ([index]). *)
Record Text : Type := {
  lines : list Line;
  index : list IndexLine
}.

(** [in.peek() == '#'] at the start of the text *)
Definition startsWithHash (t : Text) : bool :=
  match lines t with
  | LEmpty :: _ | LPayload _ :: _ | [] => false
  | _ => true
  end.

(** ** archive_reader

    An archive is given by what [archive_header::scan] makes of its member
    headers; the byte layout of the 60-byte headers is not modelled. Of the
    scanned fields the linker reads the name only. *)

Module Ar.

Record Header : Type := {
  name : string;
  is_string_table : bool
}.

(** A member as it lies in the file: its header ([None] when
    [archive_header::scan] rejects it) and its body. *)
Record Entry : Type := {
  hdr : option Header;
  body : Text
}.

(** A file that starts with the archive magic: its members in file order;
    [tail_ok] says that the last member ends where the file ends
    ([cp == addr + len]). *)
Record File : Type := {
  entries : list Entry;
  tail_ok : bool
}.

(** The reader once [open] has succeeded: [directory] is a
    [std::map<std::string, member>]. *)
Record archive_reader : Type := {
  symtable : option Text;
  members : SMap.t Text
}.

(** The loop of [archive_reader::scan] *)
Fixpoint scanLoop (es : list Entry) (string_table : bool)
    (symtable : option Text) (members : SMap.t Text)
  : option archive_reader :=
  match es with
  | [] => Some {| symtable := symtable; members := members |}
  | e :: es' =>
      match hdr e with
      | None => None
      | Some h =>
          if is_string_table h then
            if (0 <? length members)%nat || string_table then None
            else scanLoop es' true symtable members
          else if String.eqb (name h) "" then
            match symtable with
            | Some _ => None
            | None => scanLoop es' string_table (Some (body e)) members
            end
          else
            match SMap.insert (name h) (body e) members with
            | None => None
            | Some members' => scanLoop es' string_table symtable members'
            end
      end
  end.

Definition scan (f : File) : option archive_reader :=
  match scanLoop (entries f) false None [] with
  | Some r => if tail_ok f then Some r else None
  | None => None
  end.

End Ar.

(** ** Files *)

Inductive File : Type :=
| FArchive (a : Ar.File)   (* a regular file that starts with "!<arch>\n" *)
| FText (t : Text).        (* any other readable file *)

(** The file system: the files that can be read, and for every path the
    descriptor that [open(path, O_WRONLY | O_CREAT | O_TRUNC, 0777)]
    returns, which is -1 when the file can neither be created nor
    written. *)
Record FS : Type := mkFS {
  content :> string -> option File;
  creat : string -> Z
}.

(** [archive.open(filename)]: [None] when it returns false. *)
Definition archive_open (fs : FS) (filename : string)
  : option Ar.archive_reader :=
  match fs filename with
  | Some (FArchive a) => Ar.scan a
  | _ => None
  end.

(** ** ObjectFile: the state of a link job *)

Module FixEntry.

Record t : Type := mk {
  segment : string;
  kind : string;
  addr : Z;
  offset : Z;
  numBytes : Z;
  displace : Z
}.

End FixEntry.

Definition SymEntry : Type := ascii * Z.

Module ObjectFile.

Record t : Type := mk {
  segments : list Segment.t;
  symTab : SMap.t SymEntry;
  localSymTab : SMap.t (list SymEntry);
  unresolved : gset string;
  fixables : SMap.t (list FixEntry.t);
  libpath : SSet.t
}.

Definition numSegments : nat := 3.

Definition with_segments (o : t) (ss : list Segment.t) : t :=
  {| segments := ss; symTab := symTab o; localSymTab := localSymTab o;
     unresolved := unresolved o; fixables := fixables o;
     libpath := libpath o |}.

Definition with_symTab (o : t) (st : SMap.t SymEntry) : t :=
  {| segments := segments o; symTab := st; localSymTab := localSymTab o;
     unresolved := unresolved o; fixables := fixables o;
     libpath := libpath o |}.

Definition with_localSymTab (o : t) (st : SMap.t (list SymEntry)) : t :=
  {| segments := segments o; symTab := symTab o; localSymTab := st;
     unresolved := unresolved o; fixables := fixables o;
     libpath := libpath o |}.

Definition with_unresolved (o : t) (u : gset string) : t :=
  {| segments := segments o; symTab := symTab o;
     localSymTab := localSymTab o; unresolved := u;
     fixables := fixables o; libpath := libpath o |}.

Definition with_fixables (o : t) (f : SMap.t (list FixEntry.t)) : t :=
  {| segments := segments o; symTab := symTab o;
     localSymTab := localSymTab o; unresolved := unresolved o;
     fixables := f; libpath := libpath o |}.

Definition with_libpath (o : t) (l : SSet.t) : t :=
  {| segments := segments o; symTab := symTab o;
     localSymTab := localSymTab o; unresolved := unresolved o;
     fixables := fixables o; libpath := l |}.

(** [segments[i]]: the code forms the indices 0, 1 and 2 of the three
    segments only. An index out of range reads as a fresh segment, and
    [set_seg] then changes nothing. *)
Definition seg (o : t) (i : nat) : Segment.t :=
  default Segment.init (segments o !! i).

Definition set_seg (o : t) (i : nat) (s : Segment.t) : t :=
  with_segments o (<[i := s]> (segments o)).

(** The loop of the constructor over [ULM_LIBRARY_PATH]: the pieces
    between ':' *)
Fixpoint splitPath (s : string) (cur : string) : list string :=
  match s with
  | EmptyString => [cur]
  | String c r =>
      if Ascii.eqb c ":" then cur :: splitPath r ""
      else splitPath r (cur +:+ String c "")
  end.

(** [ObjectFile()], [env] being [std::getenv("ULM_LIBRARY_PATH")] *)
Definition init (env : option string) : t :=
  {| segments := replicate numSegments Segment.init;
     symTab := []; localSymTab := []; unresolved := ∅; fixables := [];
     libpath :=
       match env with
       | Some e => fold_left (fun s p => SSet.insert p s) (splitPath e "") []
       | None => []
       end |}.

(** *** readSegments *)

(** The locals of [readSegments] that live across lines. *)
Record Locals : Type := {
  obj : t;
  cur : Z;        (* seg; starts as (std::size_t) -1 *)
  localBase : Z   (* baseAddr; starts as 0 *)
}.

Definition gapMessage (i : nat) : string :=
  "In segment '" +:+ (if Nat.eqb i 0 then "0" else "1") +:+
  "' (0=text, 1=data, 2=bss) there is a gap that would require fillin bytes. That's only allowed for alignment".

(** [#TEXT] and [#DATA]: the alignment, if one is given, then the mark. *)
Definition readTextData (o : t) (i : nat) (a : option Z) (source : string)
  : Result t :=
  s <- match a with
       | Some alignment => Segment.setAlignment (seg o i) alignment
       | None => Ok (seg o i)
       end ;;
  Ok (set_seg o i (Segment.setMark s source)).

(** [#BSS]: the mark first, then alignment and size. *)
Definition readBss (o : t) (args : option (Z * Z)) (source : string)
  : Result t :=
  let s := Segment.setMark (seg o 2) source in
  match args with
  | None => Fail (AssertFail "line.length()")
  | Some (alignment, size) =>
      s1 <- Segment.setAlignment s alignment ;;
      s2 <- (if size =? 0 then Ok s1
             else Segment.advanceTo s1
                    (wrap64 (size + Segment.getMark s1 source))) ;;
      Ok (set_seg o 2 s2)
  end.

(** The address of a byte line relative to its unit, and the new value of
    the local [baseAddr]: the address in front of the ':' if there is one,
    else the current end of the unit's bytes. *)
Definition lineAddr (s : Segment.t) (base : Z) (source : string)
    (b : ByteLine) : Z * Z :=
  match bl_addr b with
  | Some a =>
      let base := if Segment.isAtMark s source then a else base in
      (wrap64 (a - base), base)
  | None =>
      let a := wrap64 (Segment.size s - Segment.getMark s source) in
      (a, if Segment.isAtMark s source then a else base)
  end.

(** A byte line in segment [i] (0 or 1). *)
Definition readBytes (o : t) (i : nat) (base : Z) (source : string)
    (b : ByteLine) : Result (t * Z) :=
  let s := seg o i in
  let s := if Segment.isAtMark s source
           then Segment.appendHeader s ("# from: " +:+ source) else s in
  let r := lineAddr s base source b in
  let addr := wrap64 (fst r + Segment.getMark s source) in
  if Segment.requiresAdvanceTo s addr then Fail (Throw (gapMessage i))
  else
    s <- Segment.insertByteString s addr (bl_digits b) ;;
    let s := if (0 <? String.length (bl_comment b))%nat
             then Segment.appendAnnotation s (bl_comment b) else s in
    Ok (set_seg o i s, snd r).

(** A case of the [switch (kind)] of the symbol table: an upper-case
    definition leaves the unresolved set; the value is made relative to
    the segment and a label is attached. *)
Definition biasSym (o : t) (source : string) (i : nat) (upper : bool)
    (ident : string) (value : Z) : t * Z :=
  let o := if upper then with_unresolved o (unresolved o ∖ {[ident]})
           else o in
  let value := wrap64 (value + Segment.getMark (seg o i) source) in
  (set_seg o i (Segment.insertLabel (seg o i) ("#" +:+ ident +:+ ":") value),
   value).

(** The [switch (kind)] of a line of [#SYMTAB]: the state and the value
    after it. *)
Definition symSwitch (o : t) (source : string) (l : SymLine) : t * Z :=
  let kind := sl_kind l in
  let ident := sl_ident l in
  if Ascii.eqb kind "T" then biasSym o source 0 true ident (sl_value l)
  else if Ascii.eqb kind "t" then biasSym o source 0 false ident (sl_value l)
  else if Ascii.eqb kind "D" then biasSym o source 1 true ident (sl_value l)
  else if Ascii.eqb kind "d" then biasSym o source 1 false ident (sl_value l)
  else if Ascii.eqb kind "B" then biasSym o source 2 true ident (sl_value l)
  else if Ascii.eqb kind "b" then biasSym o source 2 false ident (sl_value l)
  else (o, sl_value l).

(** A line of [#SYMTAB]. *)
Definition readSym (o : t) (source : string) (l : SymLine) : Result t :=
  let kind := sl_kind l in
  let ident := sl_ident l in
  let r := symSwitch o source l in
  let o := fst r in
  let value := snd r in
  if Ascii.eqb kind "U" then
    Ok (if negb (SMap.count ident (symTab o)) ||
           negb (isupper (fst (default (zero, 0) (SMap.find ident (symTab o)))))
        then with_unresolved o ({[ident]} ∪ unresolved o)
        else o)
  else if Ascii.eqb (firstChar ident) "." then Ok o
  else if negb (toupper (toInt kind) =? toInt kind) then
    Ok (with_localSymTab o (SMap.push_back ident (kind, value) (localSymTab o)))
  else if SMap.count ident (symTab o) then
    Fail (Throw (" multiple definition of `" +:+ ident))
  else Ok (with_symTab o (SMap.set ident (kind, value) (symTab o))).

(** [ident+N] or [ident-N]: the ident and the displacement. *)
Definition splitDisplace (ident : string) : string * Z :=
  match String.index 0 "+" ident with
  | Some p => (substring 0 p ident, extractInt64 (substr_from p ident))
  | None =>
      match String.index 0 "-" ident with
      | Some p => (substring 0 p ident, extractInt64 (substr_from p ident))
      | None => (ident, 0)
      end
  end.

(** A line of [#FIXUPS]. *)
Definition readFixup (o : t) (source : string) (l : FixLine) : Result t :=
  _ <- assert (fl_offset l mod 8 =? 0) "offset % 8 == 0" ;;
  _ <- assert (fl_numBytes l mod 4 =? 0) "numBytes % 4 == 0" ;;
  let offset := fl_offset l / 8 in
  let numBytes := fl_numBytes l / 8 in
  let fixInSeg := if String.eqb (fl_segment l) "text" then 0%nat else 1%nat in
  let address :=
    wrap64 (fl_address l + Segment.getMark (seg o fixInSeg) source) in
  let ident := fst (splitDisplace (fl_ident l)) in
  let displace := snd (splitDisplace (fl_ident l)) in
  let displace :=
    if String.eqb ident "[text]" then
      toInt64 (displace + Segment.getMark (seg o 0) source)
    else if String.eqb ident "[data]" then
      toInt64 (displace + Segment.getMark (seg o 1) source)
    else if String.eqb ident "[bss]" then
      toInt64 (displace + Segment.getMark (seg o 2) source)
    else displace in
  Ok (with_fixables o
        (SMap.push_back ident
           (FixEntry.mk (fl_segment l) (fl_kind l) address offset numBytes
              displace)
           (fixables o))).

Definition neg1 : Z := wrap64 (-1).

(** One round of [while (std::getline(in, line))]. *)
Definition readLine (source : string) (st : Locals) (line : Line)
  : Result Locals :=
  let o := obj st in
  match line with
  | LText a =>
      o' <- readTextData o 0 a source ;;
      Ok {| obj := o'; cur := 0; localBase := localBase st |}
  | LData a =>
      o' <- readTextData o 1 a source ;;
      Ok {| obj := o'; cur := 1; localBase := localBase st |}
  | LBss args =>
      o' <- readBss o args source ;;
      Ok {| obj := o'; cur := 2; localBase := localBase st |}
  | LSymtab => Ok {| obj := o; cur := 3; localBase := localBase st |}
  | LFixups => Ok {| obj := o; cur := 4; localBase := localBase st |}
  | LComment | LEmpty => Ok st
  | LPayload p =>
      if (cur st =? 0) || (cur st =? 1) then
        r <- readBytes o (Z.to_nat (cur st)) (localBase st) source
               (asBytes p) ;;
        Ok {| obj := fst r; cur := cur st; localBase := snd r |}
      else if cur st =? 3 then
        o' <- readSym o source (asSym p) ;;
        Ok {| obj := o'; cur := cur st; localBase := localBase st |}
      else if cur st =? 4 then
        o' <- readFixup o source (asFix p) ;;
        Ok {| obj := o'; cur := cur st; localBase := localBase st |}
      else Ok st
  end.

Fixpoint readLines (source : string) (st : Locals) (ls : list Line)
  : Result Locals :=
  match ls with
  | [] => Ok st
  | l :: ls' =>
      st' <- readLine source st l ;;
      readLines source st' ls'
  end.

(** [readSegments(in, source)]; [None] is a stream that is not readable
    ([in.peek()] then yields end of file). *)
Definition readSegments (o : t) (text : option Text) (source : string)
  : Result t :=
  match text with
  | Some tx =>
      if startsWithHash tx then
        st <- readLines source {| obj := o; cur := neg1; localBase := 0 |}
                (lines tx) ;;
        Ok (obj st)
      else Fail (Throw ("not an object file " +:+ source))
  | None => Fail (Throw ("not an object file " +:+ source))
  end.

(** *** addLibOrObject *)

(** [readSymtabIndex(in)] on the index read from its start: the member of
    the first line whose ident is unresolved. *)
Fixpoint readSymtabIndex (o : t) (idx : list IndexLine) : option string :=
  match idx with
  | [] => None
  | l :: idx' =>
      if bool_decide (ix_ident l ∈ unresolved o) then Some (ix_member l)
      else readSymtabIndex o idx'
  end.

(** The [for] over [libpath] of a [-lNAME] argument: the first directory
    whose [libNAME.a] opens as an archive. *)
Fixpoint findLib (fs : FS) (paths : list string) (name : string)
  : option (string * Ar.archive_reader) :=
  match paths with
  | [] => None
  | path :: paths' =>
      let path := path +:+ "/lib" +:+ name +:+ ".a" in
      match archive_open fs path with
      | Some r => Some (path, r)
      | None => findLib fs paths' name
      end
  end.

(** The [for (auto &member : archive)] of an archive without index:
    [members] is the directory, in the order of its keys. *)
Fixpoint readMembers (o : t) (file : string) (members : SMap.t Text)
  : Result t :=
  match members with
  | [] => Ok o
  | (name, body) :: members' =>
      o' <- readSegments o (Some body) (file +:+ "(" +:+ name +:+ ")") ;;
      readMembers o' file members'
  end.

(** The [while (1)] of an archive with index: as long as the index names
    a member for an unresolved ident, that member is read and the index
    is read again from its start. *)
Fixpoint readIndexed (fuel : nat) (o : t) (file : string)
    (archive : Ar.archive_reader) (idx : Text) (resolved : Z)
  : Result (t * Z) :=
  match readSymtabIndex o (index idx) with
  | Some member =>
      match fuel with
      | O => Fail OutOfFuel
      | S fuel' =>
          o' <- readSegments o (SMap.find member (Ar.members archive))
                  (file +:+ "(" +:+ member +:+ ")") ;;
          readIndexed fuel' o' file archive idx 1
      end
  | None => Ok (o, resolved)
  end.

Definition isLibArg (file : string) : bool := String.prefix "-l" file.

(** [addLibOrObject(file, onlyLibs)]: the new state and the value
    returned. *)
Definition addLibOrObject (fuel : nat) (fs : FS) (o : t) (file : string)
    (onlyLibs : bool) : Result (t * Z) :=
  let opened :=
    if isLibArg file then findLib fs (libpath o) (substr_from 2 file)
    else match archive_open fs file with
         | Some r => Some (file, r)
         | None => None
         end in
  match opened with
  | None =>
      if negb onlyLibs then
        match fs file with
        | None =>
            Fail (Throw ((if isLibArg file then "can not find "
                          else "can not open ") +:+ file))
        | Some (FText tx) =>
            o' <- readSegments o (Some tx) file ;;
            Ok (o', 0)
        | Some (FArchive _) =>
            (* an archive that does not scan, read as text: it starts
               with '!' *)
            Fail (Throw ("not an object file " +:+ file))
        end
      else
        (* the closed reader has no members *)
        Ok (o, 0)
  | Some (file, archive) =>
      match SMap.find "__SYMTAB_INDEX" (Ar.members archive) with
      | None =>
          o' <- readMembers o file (Ar.members archive) ;;
          Ok (o', 0)
      | Some idx => readIndexed fuel o file archive idx 0
      end
  end.

(** *** link *)

Definition kindMessage (k : ascii) : string :=
  "Can't handle symTab kind '" +:+ String k "" +:+ "' in this case".

(** [for (auto &[ident, e] : symTab)]: the segment-relative values become
    addresses. *)
Fixpoint placeSymbols (textAddr dataAddr bssAddr : Z) (st : SMap.t SymEntry)
  : Result (SMap.t SymEntry) :=
  match st with
  | [] => Ok []
  | (ident, (k, v)) :: st' =>
      v' <- (if Ascii.eqb k "T" then Ok (wrap64 (v + textAddr))
             else if Ascii.eqb k "D" then Ok (wrap64 (v + dataAddr))
             else if Ascii.eqb k "B" then Ok (wrap64 (v + bssAddr))
             else if negb (Ascii.eqb k "A") then Fail (Throw (kindMessage k))
             else Ok v) ;;
      rest <- placeSymbols textAddr dataAddr bssAddr st' ;;
      Ok ((ident, (k, v')) :: rest)
  end.

(** The address of the site and the index of its segment. *)
Definition fixupSite (textAddr dataAddr : Z) (f : FixEntry.t)
  : Result (Z * nat) :=
  if String.eqb (FixEntry.segment f) "text" then
    Ok (wrap64 (FixEntry.addr f + textAddr), 0%nat)
  else if String.eqb (FixEntry.segment f) "data" then
    Ok (wrap64 (FixEntry.addr f + dataAddr), 1%nat)
  else Fail (Throw ("Can't apply a fix in segment " +:+ FixEntry.segment f)).

(** The address the fixup refers to. *)
Definition fixupTarget (textAddr dataAddr bssAddr : Z) (st : SMap.t SymEntry)
    (ident : string) (f : FixEntry.t) : Result Z :=
  let value := wrap64 (FixEntry.displace f) in
  if String.eqb ident "[text]" then Ok (wrap64 (value + textAddr))
  else if String.eqb ident "[data]" then Ok (wrap64 (value + dataAddr))
  else if String.eqb ident "[bss]" then Ok (wrap64 (value + bssAddr))
  else
    match SMap.find ident st with
    | Some e => Ok (wrap64 (value + snd e))
    | None => Fail (Throw ("Unresolved symbol " +:+ ident))
    end.

(** The value to patch, by the kind of the fixup. *)
Definition fixupValue (kind : string) (addr value : Z) : Result Z :=
  if String.eqb kind "relative" then
    if negb (wrap64 (value - addr) mod 4 =? 0) then
      Fail (Throw "address for relative jump is not a multiple of 4 ")
    else Ok (wrap64 (value - addr) / 4)
  else if String.eqb kind "w0" then Ok (Z.land value 65535)
  else if String.eqb kind "w1" then Ok (Z.land (Z.shiftr value 16) 65535)
  else if String.eqb kind "w2" then Ok (Z.land (Z.shiftr value 32) 65535)
  else if String.eqb kind "w3" then Ok (Z.land (Z.shiftr value 48) 65535)
  else if negb (String.eqb kind "absolute") then
    Fail (Throw ("Can not apply a '" +:+ kind +:+ "' fix."))
  else Ok value.

(** The body of the loop over the fixups of [ident]. *)
Definition applyFixup (textAddr dataAddr bssAddr : Z) (o : t)
    (ident : string) (f : FixEntry.t) : Result t :=
  site <- fixupSite textAddr dataAddr f ;;
  let addr := fst site in
  let i := snd site in
  value <- fixupTarget textAddr dataAddr bssAddr (symTab o) ident f ;;
  value <- fixupValue (FixEntry.kind f) addr value ;;
  s <- Segment.patchBytes (seg o i) (wrap64 (addr + FixEntry.offset f))
         (FixEntry.numBytes f) value ;;
  Ok (set_seg o i s).

Fixpoint applyFixups (textAddr dataAddr bssAddr : Z) (o : t)
    (ident : string) (fs : list FixEntry.t) : Result t :=
  match fs with
  | [] => Ok o
  | f :: fs' =>
      o' <- applyFixup textAddr dataAddr bssAddr o ident f ;;
      applyFixups textAddr dataAddr bssAddr o' ident fs'
  end.

Fixpoint resolveFixables (textAddr dataAddr bssAddr : Z) (o : t)
    (fx : SMap.t (list FixEntry.t)) : Result t :=
  match fx with
  | [] => Ok o
  | (ident, fs) :: fx' =>
      o' <- applyFixups textAddr dataAddr bssAddr o ident fs ;;
      resolveFixables textAddr dataAddr bssAddr o' fx'
  end.

(** The first half of [link]: the base addresses of the segments and the
    addresses of the global symbols. *)
Record Placement : Type := {
  placed : t;
  textAddr : Z;
  dataAddr : Z;
  bssAddr : Z
}.

Definition place (o : t) : Result Placement :=
  let textAddr := Segment.baseAddr (seg o 0) in
  dataAddr <- alignAddr (Segment.getEndAddr (seg o 0))
                (Segment.alignment (seg o 1)) ;;
  s1 <- Segment.setBaseAddr (seg o 1) dataAddr ;;
  let o := set_seg o 1 s1 in
  s0 <- Segment.advanceTo (seg o 0) dataAddr ;;
  let o := set_seg o 0 s0 in
  bssAddr <- alignAddr (Segment.getEndAddr (seg o 1))
               (Segment.alignment (seg o 2)) ;;
  s2 <- Segment.setBaseAddr (seg o 2) bssAddr ;;
  let o := set_seg o 2 s2 in
  st <- placeSymbols textAddr dataAddr bssAddr (symTab o) ;;
  Ok {| placed := with_symTab o st; textAddr := textAddr;
        dataAddr := dataAddr; bssAddr := bssAddr |}.

(** [link()]: placement, then the loop over [fixables]. *)
Definition link (o : t) : Result t :=
  p <- place o ;;
  resolveFixables (textAddr p) (dataAddr p) (bssAddr p) (placed p)
    (fixables (placed p)).

End ObjectFile.

(** ** main

    [argv] is the argument vector without the command name. [main] ends
    with the linked object; the emitter ([ObjectFile::print]) that writes
    it is modelled apart ([Emit]). [call_start.hpp], which is included
    ahead of the argument loops, declares the name [ulm] of the runtime
    that only the emitter reads. *)

Record MainState : Type := {
  objectFile : ObjectFile.t;
  startAddr : Z;
  pOut : option string;
  startGroup : option nat;
  files : FS
}.

Definition usage : Failure := Exit 1 "usage: ulmld [options] file...".

(** The first loop of [main]: the [-L] options. *)
Fixpoint libArgs (n i : nat) (argv : list string) (o : ObjectFile.t)
  : Result ObjectFile.t :=
  match n with
  | O => Ok o
  | S n' =>
      match argv !! i with
      | None => Ok o
      | Some a =>
          if String.eqb a "-L" then
            match argv !! S i with
            | None => Fail usage
            | Some dir =>
                libArgs n' (S (S i)) argv
                  (ObjectFile.with_libpath o
                     (SSet.insert dir (ObjectFile.libpath o)))
            end
          else if String.prefix "-L" a then
            libArgs n' (S i) argv
              (ObjectFile.with_libpath o
                 (SSet.insert (substr_from 2 a) (ObjectFile.libpath o)))
          else libArgs n' (S i) argv o
      end
  end.

(** The longest prefix of hex digits: its value and its length. *)
Fixpoint hexPrefix (s : string) (acc : Z) (n : nat) : Z * nat :=
  match s with
  | String c r =>
      match hexDigit c with
      | Some d => hexPrefix r (16 * acc + d) (S n)
      | None => (acc, n)
      end
  | EmptyString => (acc, n)
  end.

(** The prefix [0x] or [0X] that an extraction in base 16 passes over. *)
Definition skipHexPrefix (s : string) : string :=
  match s with
  | String c0 (String c1 r) =>
      if Ascii.eqb c0 "0" && (Ascii.eqb c1 "x" || Ascii.eqb c1 "X") then r
      else s
  | _ => s
  end.

(** [in >> std::hex >> startAddr] for a [std::uint64_t]: white space, a
    sign, the prefix [0x], then the hex digits. The result is 0 without
    digits and the largest value when the digits exceed it; a value with
    the sign [-] is negated modulo [2^64]. *)
Definition extractHex64 (s : string) : Z :=
  let s := skipSpace s in
  let neg := Ascii.eqb (firstChar s) "-" in
  let s := match s with
           | String c r => if neg || Ascii.eqb c "+" then r else s
           | EmptyString => s
           end in
  let r := hexPrefix (skipHexPrefix s) 0 0 in
  match snd r with
  | O => 0
  | S _ =>
      if fst r >? two64 - 1 then two64 - 1
      else if neg then wrap64 (- fst r) else fst r
  end.

(** [open_executable(filename)]: [open] creates or truncates the file
    when it succeeds. The test [!fd] only meets the descriptor 0; the -1
    of a call that failed passes it, the file system then stays as it is
    and the stream that is returned is not open. *)
Definition open_executable (fs : FS) (filename : string) : Result FS :=
  let fd := creat fs filename in
  if fd =? 0 then Fail (Exit 1 ("cannot create '%s'" +:+ filename))
  else if fd <? 0 then Ok fs
  else
    Ok (mkFS (fun f => if String.eqb f filename
                       then Some (FText {| lines := []; index := [] |})
                       else fs f)
             (creat fs)).

(** One sweep [for (g = startGroup; g < i; ++g)] over the group. *)
Fixpoint groupSweep (fuel : nat) (fs : FS) (o : ObjectFile.t)
    (group : list string) (resolved : Z) : Result (ObjectFile.t * Z) :=
  match group with
  | [] => Ok (o, resolved)
  | file :: group' =>
      r <- ObjectFile.addLibOrObject fuel fs o file true ;;
      groupSweep fuel fs (fst r) group'
        (resolved + (if snd r >? 0 then 1 else 0))
  end.

(** [do { ... } while (true)]: sweeps until one resolves nothing. *)
Fixpoint groupLoop (fuel : nat) (inner : nat) (fs : FS) (o : ObjectFile.t)
    (group : list string) : Result ObjectFile.t :=
  match fuel with
  | O => Fail OutOfFuel
  | S fuel' =>
      r <- groupSweep inner fs o group 0 ;;
      if snd r =? 0 then Ok (fst r)
      else groupLoop fuel' inner fs (fst r) group
  end.

(** The second loop of [main]; [n] bounds the number of rounds by the
    number of arguments. *)
Fixpoint argLoop (fuel : nat) (n i : nat) (argv : list string)
    (st : MainState) : Result MainState :=
  match n with
  | O => Ok st
  | S n' =>
      match argv !! i with
      | None => Ok st
      | Some a =>
          if String.eqb a "-o" then
            match argv !! S i with
            | None => Fail (Crash "argv[argc]")
            | Some f =>
                fs' <- open_executable (files st) f ;;
                argLoop fuel n' (S (S i)) argv
                  {| objectFile := objectFile st; startAddr := startAddr st;
                     pOut := Some f; startGroup := startGroup st;
                     files := fs' |}
            end
          else if String.eqb a "-textseg" then
            match argv !! S i with
            | None => Fail (Crash "argv[argc]")
            | Some h =>
                argLoop fuel n' (S i) argv
                  {| objectFile := objectFile st;
                     startAddr := extractHex64 h;
                     pOut := pOut st; startGroup := startGroup st;
                     files := files st |}
            end
          else if String.eqb a "-L" then argLoop fuel n' (S (S i)) argv st
          else if String.prefix "-L" a then argLoop fuel n' (S i) argv st
          else if String.eqb a "--start-group" || String.eqb a "-(" then
            argLoop fuel n' (S i) argv
              {| objectFile := objectFile st; startAddr := startAddr st;
                 pOut := pOut st; startGroup := Some (S i);
                 files := files st |}
          else if String.eqb a "--end-group" || String.eqb a "-)" then
            match startGroup st with
            | None => Fail (Exit 1 "missing --start-group or -(")
            | Some g =>
                o <- groupLoop fuel fuel (files st) (objectFile st)
                       (take (i - g) (drop g argv)) ;;
                argLoop fuel n' (S i) argv
                  {| objectFile := o; startAddr := startAddr st;
                     pOut := pOut st; startGroup := startGroup st;
                     files := files st |}
            end
          else
            r <- ObjectFile.addLibOrObject fuel (files st) (objectFile st)
                   a false ;;
            argLoop fuel n' (S i) argv
              {| objectFile := fst r; startAddr := startAddr st;
                 pOut := pOut st; startGroup := startGroup st;
                 files := files st |}
      end
  end.

(** The inputs of [main] up to the end of the argument loops. *)
Definition processArgs (fuel : nat) (env : option string) (fs : FS)
    (argv : list string) : Result MainState :=
  if Nat.eqb (length argv) 0 then Fail usage
  else
    o <- libArgs (length argv) 0 argv (ObjectFile.init env) ;;
    argLoop fuel (length argv) 0 argv
      {| objectFile := o; startAddr := 0; pOut := None;
         startGroup := None; files := fs |}.

(** [main]: [Ok] is exit status 0, with the linked object that is then
    printed (to [a.out] when there is no [-o]); an exception ends in
    [std::exit(1)] after the output files are removed. *)
Definition main (fuel : nat) (env : option string) (fs : FS)
    (argv : list string) : Result ObjectFile.t :=
  st <- processArgs fuel env fs argv ;;
  match startGroup st with
  | Some _ => Fail (Exit 1 "--start-group not terminated with --end-group")
  | None =>
      _ <- match pOut st with
           | None => open_executable (files st) "a.out"
           | Some _ => Ok (files st)
           end ;;
      ObjectFile.link (objectFile st)
  end.

(** ** Building example inputs

    A payload line written for one section: the readings under the other
    sections are left empty, the examples never stand under them. *)

Definition noBytes : ByteLine :=
  {| bl_comment := ""; bl_addr := None; bl_digits := "" |}.
Definition noSym : SymLine :=
  {| sl_kind := zero; sl_ident := ""; sl_value := 0 |}.
Definition noFix : FixLine :=
  {| fl_segment := ""; fl_address := 0; fl_offset := 0; fl_numBytes := 0;
     fl_kind := ""; fl_ident := "" |}.

Definition byteLine (digits : string) : Line :=
  LPayload {| asBytes := {| bl_comment := ""; bl_addr := None;
                            bl_digits := digits |};
              asSym := noSym; asFix := noFix |}.

Definition byteLineAt (addr : Z) (digits : string) : Line :=
  LPayload {| asBytes := {| bl_comment := ""; bl_addr := Some addr;
                            bl_digits := digits |};
              asSym := noSym; asFix := noFix |}.

Definition symLine (kind : ascii) (ident : string) (value : Z) : Line :=
  LPayload {| asBytes := noBytes;
              asSym := {| sl_kind := kind; sl_ident := ident;
                          sl_value := value |};
              asFix := noFix |}.

Definition fixLine (segment : string) (address offset numBytes : Z)
    (kind ident : string) : Line :=
  LPayload {| asBytes := noBytes; asSym := noSym;
              asFix := {| fl_segment := segment; fl_address := address;
                          fl_offset := offset; fl_numBytes := numBytes;
                          fl_kind := kind; fl_ident := ident |} |}.

Definition object (ls : list Line) : Text := {| lines := ls; index := [] |}.

Definition indexText (ix : list IndexLine) : Text :=
  {| lines := []; index := ix |}.

Definition member (name : string) (body : Text) : Ar.Entry :=
  {| Ar.hdr := Some {| Ar.name := name; Ar.is_string_table := false |};
     Ar.body := body |}.

Definition archive (es : list Ar.Entry) : File :=
  FArchive {| Ar.entries := es; Ar.tail_ok := true |}.

(** The file of a name in a list of named files. *)
Fixpoint lookupFile (l : list (string * File)) (f : string) : option File :=
  match l with
  | [] => None
  | (n, c) :: l' => if String.eqb f n then Some c else lookupFile l' f
  end.

(** A file system given by a list of named files, in a directory in
    which every file can be created: [open] returns the first descriptor
    behind the three standard streams. *)
Definition fsOf (l : list (string * File)) : FS :=
  mkFS (lookupFile l) (fun _ => 3).

(** The bytes of segment [i], from offset 0 up to the first unset one. *)
Fixpoint bytesFrom (n : nat) (k : Z) (m : gmap Z Z) : list Z :=
  match n with
  | O => []
  | S n' =>
      match m !! k with
      | Some b => b :: bytesFrom n' (k + 1) m
      | None => []
      end
  end.

Definition segBytes (o : ObjectFile.t) (i : nat) : list Z :=
  let m := Segment.memory (ObjectFile.seg o i) in
  bytesFrom (size m) 0 m.

(** ** Properties stated below *)

(** The offset of byte [k] of the range that [patchBytes(addr, ...)]
    writes. *)
Definition patchSite (s : Segment.t) (addr k : Z) : Z :=
  wrap64 (wrap64 (addr - Segment.baseAddr s) + k).

(** The written offsets are exactly [0 .. size-1]. *)
Definition contiguous (m : gmap Z Z) : Prop :=
  forall k, is_Some (m !! k) <-> 0 <= k < Z.of_nat (size m).

(** A segment during the parse phase. *)
Record SegInv (s : Segment.t) : Prop := {
  inv_contiguous : contiguous (Segment.memory s);
  inv_room : Z.of_nat (size (Segment.memory s)) <= map_max_size;
  inv_base : Segment.baseAddr s = 0
}.

(** The operations that the parser applies to a segment;
    [insertByteString] stands behind the check of [requiresAdvanceTo], as
    in [readSegments]. *)
Inductive ParseOp : Type :=
| OpAppendByte (byte : Z)
| OpAdvanceTo (addr : Z)
| OpSetAlignment (alignment : Z)
| OpInsertByteString (addr : Z) (hexDigits : string)
| OpSetMark (filename : string)
| OpAppendHeader (text : string)
| OpAppendAnnotation (text : string)
| OpInsertLabel (text : string) (addr : Z).

Definition runOp (s : Segment.t) (op : ParseOp) : Result Segment.t :=
  match op with
  | OpAppendByte b => Segment.appendByte s b
  | OpAdvanceTo addr => Segment.advanceTo s addr
  | OpSetAlignment a => Segment.setAlignment s a
  | OpInsertByteString addr hexDigits =>
      if Segment.requiresAdvanceTo s addr
      then Fail (Throw (ObjectFile.gapMessage 0))
      else Segment.insertByteString s addr hexDigits
  | OpSetMark f => Ok (Segment.setMark s f)
  | OpAppendHeader t => Ok (Segment.appendHeader s t)
  | OpAppendAnnotation t => Ok (Segment.appendAnnotation s t)
  | OpInsertLabel t addr => Ok (Segment.insertLabel s t addr)
  end.

Fixpoint runOps (s : Segment.t) (ops : list ParseOp) : Result Segment.t :=
  match ops with
  | [] => Ok s
  | op :: ops' => s' <- runOp s op ;; runOps s' ops'
  end.

(** No ident of the global table starts with a dot. *)
Definition noDot (id : string) : bool := negb (Ascii.eqb (firstChar id) ".").

(** The keys of a [std::map] ascend strictly. *)
Fixpoint ascending (l : list string) : bool :=
  match l with
  | a :: l' =>
      match l' with
      | b :: _ =>
          match String.compare a b with
          | Lt => ascending l'
          | _ => false
          end
      | [] => true
      end
  | [] => true
  end.

(** The global table is a map, and none of its idents starts with a
    dot. *)
Definition wfKeys (l : list string) : bool := forallb noDot l && ascending l.

Definition symTab_wf (o : ObjectFile.t) : Prop :=
  wfKeys (SMap.keys (ObjectFile.symTab o)) = true.

(** The link job during the parse phase. *)
Record ObjInv (o : ObjectFile.t) : Prop := {
  inv_segments : forall i, SegInv (ObjectFile.seg o i);
  inv_symTab : symTab_wf o
}.

(** What every step of the parse phase keeps: the invariant, and the
    entries that the global table holds. *)
Definition keeps (o o' : ObjectFile.t) : Prop :=
  (ObjInv o -> ObjInv o') /\
  (forall id e, SMap.find id (ObjectFile.symTab o) = Some e ->
     SMap.find id (ObjectFile.symTab o') = Some e).

(** The kinds of a definition that enters the global table. *)
Definition isDefinitionKind (k : ascii) : bool :=
  Ascii.eqb k "T" || Ascii.eqb k "D" || Ascii.eqb k "B" || Ascii.eqb k "A".

(** The value of the symbol of scenario S5. *)
Definition S5_value : Z := 0xDEADBEEFCAFEBABE.

(** The text segment lies at address 0. *)
Definition textAtZero (o : ObjectFile.t) : Prop :=
  Segment.baseAddr (ObjectFile.seg o 0) = 0.

(** [operator<] on [std::string] *)
Definition slt (a b : string) : Prop := String.compare a b = Lt.


(** The value of [seg] after a line. *)
Definition nextCur (cur : Z) (l : Line) : Z :=
  match l with
  | LText _ => 0
  | LData _ => 1
  | LBss _ => 2
  | LSymtab => 3
  | LFixups => 4
  | _ => cur
  end.

(** A line that, read with [seg = cur], defines [id] globally. *)
Definition definesAt (cur : Z) (l : Line) (id : string) : bool :=
  match l with
  | LPayload p =>
      (cur =? 3) && isDefinitionKind (sl_kind (asSym p)) &&
      String.eqb (sl_ident (asSym p)) id &&
      negb (Ascii.eqb (firstChar id) ".")
  | _ => false
  end.

Fixpoint definesFrom (cur : Z) (ls : list Line) (id : string) : bool :=
  match ls with
  | [] => false
  | l :: ls' => definesAt cur l id || definesFrom (nextCur cur l) ls' id
  end.

(** The text holds an upper-case or absolute definition of [id]. *)
Definition defines (tx : Text) (id : string) : bool :=
  definesFrom ObjectFile.neg1 (lines tx) id.

(** ** Scenarios *)

(** What a run of the argument loops leaves: the unresolved idents and the
    idents of the global table. *)
Definition symbolsAfter (r : Result MainState)
  : option (list string * list string) :=
  match r with
  | Ok st =>
      Some (elements (ObjectFile.unresolved (objectFile st)),
            SMap.keys (ObjectFile.symTab (objectFile st)))
  | Fail _ => None
  end.

(** The bytes of the text segment of a linked object. *)
Definition textBytes (r : Result ObjectFile.t) : option (list Z) :=
  match r with
  | Ok o => Some (segBytes o 0)
  | Fail _ => None
  end.

(** S1: one object with the word 00112233, linked with [-textseg 1000]. *)
Definition S1_object : File :=
  FText (object [LText None; byteLineAt 0 "00112233"]).
Definition S1_argv : list string := ["-textseg"; "1000"; "a.o"].
Definition S1_files : FS := fsOf [("a.o", S1_object)].
(** The same with a file named 1000 that is an object without content. *)
Definition S1_files' : FS :=
  fsOf [("a.o", S1_object); ("1000", FText (object [LComment]))].
Definition S1_linked : ObjectFile.t :=
  match main 0 None S1_files' S1_argv with
  | Ok o => o
  | Fail _ => ObjectFile.init None
  end.

(** S2: [a.o] defines [main], refers to [f] by a relative fixup at its
    first word; [b.o] defines [f]. *)
Definition S2_files : FS :=
  fsOf [("a.o", FText (object [LText (Some 4); byteLine "00000000";
                               LSymtab; symLine "T" "main" 0;
                               symLine "U" "f" 0;
                               LFixups; fixLine "text" 0 8 24 "relative" "f"]));
        ("b.o", FText (object [LText (Some 4); byteLine "11223344";
                               LSymtab; symLine "T" "f" 0]))].
Definition S2_parsed : ObjectFile.t :=
  match processArgs 0 None S2_files ["a.o"; "b.o"] with
  | Ok st => objectFile st
  | Fail _ => ObjectFile.init None
  end.
Definition S2_placed : ObjectFile.Placement :=
  match ObjectFile.place S2_parsed with
  | Ok p => p
  | Fail _ => {| ObjectFile.placed := S2_parsed; ObjectFile.textAddr := 0;
                 ObjectFile.dataAddr := 0; ObjectFile.bssAddr := 0 |}
  end.
Definition S2_fixup : FixEntry.t := FixEntry.mk "text" "relative" 0 1 3 0.

(** A jump backwards: [a.o] holds sixteen bytes and defines [f] at their
    start; a relative fixup at address 8 refers to [f], in a field of
    three bytes behind the first byte of the word, or in a field of eight
    bytes. *)
Definition back_files : FS :=
  fsOf [("a.o", FText (object [LText (Some 4);
                               byteLine "00000000000000000000000000000000";
                               LSymtab; symLine "T" "f" 0]))].
Definition back_placed : ObjectFile.Placement :=
  match processArgs 0 None back_files ["a.o"] with
  | Ok st =>
      match ObjectFile.place (objectFile st) with
      | Ok p => p
      | Fail _ => {| ObjectFile.placed := objectFile st;
                     ObjectFile.textAddr := 0; ObjectFile.dataAddr := 0;
                     ObjectFile.bssAddr := 0 |}
      end
  | Fail _ => {| ObjectFile.placed := ObjectFile.init None;
                 ObjectFile.textAddr := 0; ObjectFile.dataAddr := 0;
                 ObjectFile.bssAddr := 0 |}
  end.
Definition back_fixup3 : FixEntry.t := FixEntry.mk "text" "relative" 8 1 3 0.
Definition back_fixup8 : FixEntry.t := FixEntry.mk "text" "relative" 8 0 8 0.

(** S4: two archives with an index that need each other, and an object
    that refers to [p] or to [q]. *)
Definition S4_p : Text :=
  object [LText None; byteLine "AA"; LSymtab; symLine "T" "p" 0;
          symLine "U" "q" 0].
Definition S4_q : Text :=
  object [LText None; byteLine "BB"; LSymtab; symLine "T" "q" 0;
          symLine "U" "p" 0].
Definition S4_libp : File :=
  archive [member "p.o" S4_p;
           member "__SYMTAB_INDEX"
             (indexText [{| ix_kind := "T"; ix_ident := "p";
                            ix_member := "p.o" |}])].
Definition S4_libq : File :=
  archive [member "q.o" S4_q;
           member "__SYMTAB_INDEX"
             (indexText [{| ix_kind := "T"; ix_ident := "q";
                            ix_member := "q.o" |}])].
Definition S4_refers (ident : string) : FS :=
  fsOf [("a.o", FText (object [LText None; byteLine "01"; LSymtab;
                               symLine "U" ident 0]));
        ("libp.a", S4_libp); ("libq.a", S4_libq)].

(** The same archives without their index. *)
Definition S4_plain (ident : string) : FS :=
  fsOf [("a.o", FText (object [LText None; byteLine "01"; LSymtab;
                               symLine "U" ident 0]));
        ("libp.a", archive [member "p.o" S4_p]);
        ("libq.a", archive [member "q.o" S4_q])].

(** S4 with the kinds of the two definitions left open: [libp.a] holds
    the member [p.o], which defines [p] with the kind [kp] and refers to
    [q], and the index that lists [p]; [libq.a] likewise; [a.o] refers to
    [ident]. *)
Definition S4_member (kind : ascii) (def ref : string) : Text :=
  object [LText None; byteLine "AA"; LSymtab; symLine kind def 0;
          symLine "U" ref 0].
Definition S4_lib (kind : ascii) (def ref name : string) : File :=
  archive [member name (S4_member kind def ref);
           member "__SYMTAB_INDEX"
             (indexText [{| ix_kind := kind; ix_ident := def;
                            ix_member := name |}])].
Definition S4_files (kp kq : ascii) (ident : string) : FS :=
  fsOf [("a.o", FText (object [LText None; byteLine "01"; LSymtab;
                               symLine "U" ident 0]));
        ("libp.a", S4_lib kp "p" "q" "p.o");
        ("libq.a", S4_lib kq "q" "p" "q.o")].

(** The kinds of a definition that lies in a segment. *)
Definition isSegmentKind (k : ascii) : bool :=
  Ascii.eqb k "T" || Ascii.eqb k "D" || Ascii.eqb k "B".

(** S5: a [w1] fixup of two bytes to the absolute symbol [S]. *)
Definition S5_files : FS :=
  fsOf [("a.o", FText (object [LText (Some 4); byteLine "00000000";
                               LSymtab; symLine "A" "S" S5_value;
                               LFixups; fixLine "text" 0 0 16 "w1" "S"]))].
Definition S5_parsed : ObjectFile.t :=
  match processArgs 0 None S5_files ["a.o"] with
  | Ok st => objectFile st
  | Fail _ => ObjectFile.init None
  end.
Definition S5_placed : ObjectFile.Placement :=
  match ObjectFile.place S5_parsed with
  | Ok p => p
  | Fail _ => {| ObjectFile.placed := S5_parsed; ObjectFile.textAddr := 0;
                 ObjectFile.dataAddr := 0; ObjectFile.bssAddr := 0 |}
  end.
Definition S5_fixup : FixEntry.t := FixEntry.mk "text" "w1" 0 0 2 0.



(** A segment of four bytes. *)
Definition four_bytes : Segment.t :=
  match Segment.insertByteString Segment.init 0 "00112233" with
  | Ok s => s
  | Fail _ => Segment.init
  end.

(** The claims as the specification words them. *)

(** "[patchBytes] stores [value] in little-endian order: byte [k] of the
    range equals [(value >> (8*k)) & 0xFF]." *)
Definition patchBytes_is_little_endian : Prop :=
  forall (s s' : Segment.t) (addr n value : Z),
    0 <= n < two64 ->
    Segment.patchBytes s addr n value = Ok s' ->
    forall k, 0 <= k < n ->
      Segment.memory s' !! patchSite s addr k =
      Some (Z.land (Z.shiftr value (8 * k)) 255).

(** "For every fixup of kind [relative] whose target lies a multiple of 4
    from the site, the value patched into the field is [(V - site) / 4]":
    byte [k] of the field, the most significant first, is byte [k] of
    that quotient in two's complement. *)
Definition relative_field_is_quotient : Prop :=
  forall (textAddr dataAddr bssAddr : Z) (o o' : ObjectFile.t)
         (ident : string) (f : FixEntry.t) (site V : Z) (i : nat),
    FixEntry.kind f = "relative" ->
    ObjectFile.fixupSite textAddr dataAddr f = Ok (site, i) ->
    ObjectFile.fixupTarget textAddr dataAddr bssAddr (ObjectFile.symTab o)
      ident f = Ok V ->
    (V - site) mod 4 = 0 ->
    ObjectFile.applyFixup textAddr dataAddr bssAddr o ident f = Ok o' ->
    forall k, 0 <= k < FixEntry.numBytes f ->
      Segment.memory (ObjectFile.seg o' i) !!
        patchSite (ObjectFile.seg o i) (wrap64 (site + FixEntry.offset f)) k =
      Some (Z.land (Z.shiftr ((V - site) / 4)
                      (8 * (FixEntry.numBytes f - 1 - k))) 255).


(** A run of parse operations on a fresh segment. *)
Definition sample_ops : list ParseOp :=
  [OpSetAlignment 4; OpSetMark "a.o"; OpAppendHeader "# from: a.o";
   OpInsertByteString 0 "0011"; OpAppendAnnotation "half a word";
   OpSetAlignment 4; OpInsertByteString 2 "AABBCCDD"; OpAppendByte 7;
   OpAdvanceTo 16; OpInsertLabel "#f:" 8].

Definition sample_segment : Segment.t :=
  match runOps Segment.init sample_ops with
  | Ok s => s
  | Fail _ => Segment.init
  end.

(** What a fixup that was applied has passed: its segment is text or
    data, its target resolves, and a relative target lies a multiple of 4
    from the site. *)
Definition fixupPassed (textAddr dataAddr bssAddr : Z) (st : SMap.t SymEntry)
    (ident : string) (f : FixEntry.t) : Prop :=
  exists site i V,
    ObjectFile.fixupSite textAddr dataAddr f = Ok (site, i) /\
    ObjectFile.fixupTarget textAddr dataAddr bssAddr st ident f = Ok V /\
    (FixEntry.kind f = "relative" -> (V - site) mod 4 = 0).

(** ** Further inputs and invariants *)

(** A segment of three bytes. *)
Definition three_bytes : Segment.t :=
  match Segment.insertByteString Segment.init 0 "AABBCC" with
  | Ok s => s
  | Fail _ => Segment.init
  end.

(** An ident that is defined in a segment is not unresolved. *)
Definition definedIsResolved (o : ObjectFile.t) : Prop :=
  forall id e,
    SMap.find id (ObjectFile.symTab o) = Some e ->
    isSegmentKind (fst e) = true -> id ∉ ObjectFile.unresolved o.

(** The global table holds no kind that [std::toupper] changes and no
    reference; the table of the local symbols holds only kinds that
    [std::toupper] changes. *)
Definition tablesByCase (o : ObjectFile.t) : Prop :=
  (forall id e,
     SMap.find id (ObjectFile.symTab o) = Some e ->
     toupper (toInt (fst e)) = toInt (fst e) /\ fst e <> "U"%char) /\
  (forall id es e,
     SMap.find id (ObjectFile.localSymTab o) = Some es -> In e es ->
     toupper (toInt (fst e)) <> toInt (fst e)).

(** The ident is unresolved although the global table defines it. *)
Definition stuck (id : string) (o : ObjectFile.t) : Prop :=
  id ∈ ObjectFile.unresolved o /\
  SMap.count id (ObjectFile.symTab o) = true.

(** The alignments of [o'] are not below those of [o]. *)
Definition alignmentsGrow (o o' : ObjectFile.t) : Prop :=
  forall i, Segment.alignment (ObjectFile.seg o i) <=
            Segment.alignment (ObjectFile.seg o' i).

(** The address of a symbol once the segments are placed. *)
Definition relocate (textAddr dataAddr bssAddr : Z) (e : SymEntry) : SymEntry :=
  (fst e,
   if Ascii.eqb (fst e) "T" then wrap64 (snd e + textAddr)
   else if Ascii.eqb (fst e) "D" then wrap64 (snd e + dataAddr)
   else if Ascii.eqb (fst e) "B" then wrap64 (snd e + bssAddr)
   else snd e).

(** [s'] differs from [s] in its bytes only. *)
Definition sameButMemory (s s' : Segment.t) : Prop :=
  exists m, s' = Segment.with_memory s m.

(** The name of a segment, as a fixup may refer to it. *)
Definition isSegmentName (ident : string) : bool :=
  String.eqb ident "[text]" || String.eqb ident "[data]" ||
  String.eqb ident "[bss]".

(** ** Further scenarios *)

(** S6: one object with bytes in text and data, a bss segment, and a
    symbol of every kind. *)
Definition S6_files : FS :=
  fsOf [("a.o", FText (object [LText (Some 4); byteLine "0102030405";
                               LData (Some 8); byteLine "AABBCC";
                               LBss (Some (16, 3));
                               LSymtab; symLine "T" "main" 0;
                               symLine "D" "d" 1; symLine "B" "b" 2;
                               symLine "A" "abs" 16; symLine "t" "loc" 4;
                               symLine "U" "main" 0;
                               LFixups;
                               fixLine "text" 0 8 16 "w0" "d";
                               fixLine "data" 0 0 8 "absolute" "[bss]+1"]))].
Definition S6_state : MainState :=
  match processArgs 0 None S6_files ["a.o"] with
  | Ok st => st
  | Fail _ => {| objectFile := ObjectFile.init None; startAddr := 0;
                 pOut := None; startGroup := None; files := S6_files |}
  end.
Definition S6_linked : ObjectFile.t :=
  match ObjectFile.link (objectFile S6_state) with
  | Ok o => o
  | Fail _ => ObjectFile.init None
  end.

(** S7: [a.o] with two bytes, then [b.o] whose first byte line carries the
    address 0x10. *)
Definition S7_files : FS :=
  fsOf [("a.o", FText (object [LText None; byteLine "1122"]));
        ("b.o", FText (object [LText None; byteLineAt 16 "AA"]))].
Definition S7_state : MainState :=
  match processArgs 0 None S7_files ["a.o"; "b.o"] with
  | Ok st => st
  | Fail _ => {| objectFile := ObjectFile.init None; startAddr := 0;
                 pOut := None; startGroup := None; files := S7_files |}
  end.

(** S8: [x] is referred to and then defined as an absolute symbol; the
    archive [libx.a] lists [x] in its index. *)
Definition S8_files : FS :=
  fsOf [("a.o", FText (object [LText None; byteLine "01"; LSymtab;
                               symLine "U" "x" 0; symLine "A" "x" 5]));
        ("libx.a",
         archive [member "x.o" (object [LText None; byteLine "02"; LSymtab;
                                        symLine "T" "x" 0]);
                  member "__SYMTAB_INDEX"
                    (indexText [{| ix_kind := "T"; ix_ident := "x";
                                   ix_member := "x.o" |}])])].
Definition S8_state : MainState :=
  match processArgs 0 None S8_files ["a.o"] with
  | Ok st => st
  | Fail _ => {| objectFile := ObjectFile.init None; startAddr := 0;
                 pOut := None; startGroup := None; files := S8_files |}
  end.

(** ** archive_header: the bytes of a member header

    The layout is that of [struct ar_hdr] in [<ar.h>]: sixty characters
    in the fields [ar_name[16]], [ar_date[12]], [ar_uid[6]], [ar_gid[6]],
    [ar_mode[8]], [ar_size[10]] and [ar_fmag[2]]; [ARMAG] is the eight
    characters [!<arch>] and a line feed, [ARFMAG] a backquote and a line
    feed. A field is the list of its characters. *)

Module ArHeader.

Definition code (c : ascii) : Z := Z.of_N (N_of_ascii c).

Definition isBlank (c : ascii) : bool := code c =? 32.
Definition isSlash (c : ascii) : bool := code c =? 47.
Definition isNewline (c : ascii) : bool := code c =? 10.

(** [ch < '0' || ch > '9'] *)
Definition notDigit (c : ascii) : bool := (code c <? 48) || (code c >? 57).

(** [std::numeric_limits<unsigned int>::max()] *)
Definition uint_max : Z := 2 ^ 32 - 1.

(** The loop of [extract_value]: the value and the flag [skip] at its
    end, [None] when it returns false. *)
Fixpoint extract_value_loop (s : list ascii) (base val : Z)
    (skip padding : bool) : option (Z * bool) :=
  match s with
  | [] => Some (val, skip)
  | ch :: s' =>
      if skip && isBlank ch then extract_value_loop s' base val true padding
      else if padding then
        if negb (isBlank ch) then None
        else extract_value_loop s' base val false true
      else if isBlank ch then extract_value_loop s' base val false true
      else if notDigit ch then None
      else
        let digit := code ch - 48 in
        if digit >=? base then None
        else extract_value_loop s' base (wrap64 (val * base + digit))
               false false
  end.

Definition extract_value (s : list ascii) (base : Z) : option Z :=
  match extract_value_loop s base 0 true false with
  | Some (val, skip) =>
      if skip then None
      else if val >? uint_max then None
      else Some val
  | None => None
  end.

(** The loop of [extract_offset], from index 1; [first] says that the
    index is 1. *)
Fixpoint extract_offset_loop (s : list ascii) (first : bool) (val : Z)
  : option Z :=
  match s with
  | [] => Some val
  | ch :: s' =>
      if isBlank ch then (if first then None else Some val)
      else if notDigit ch then None
      else extract_offset_loop s' false (wrap64 (val * 10 + (code ch - 48)))
  end.

Definition extract_offset (s : list ascii) : option Z :=
  match extract_offset_loop (tail s) true 0 with
  | Some val => if val >? uint_max then None else Some val
  | None => None
  end.

Record ar_hdr : Type := {
  ar_name : list ascii;
  ar_date : list ascii;
  ar_uid : list ascii;
  ar_gid : list ascii;
  ar_mode : list ascii;
  ar_size : list ascii;
  ar_fmag : list ascii
}.

(** [ARFMAG] *)
Definition ARFMAG : list ascii := ["`"; "010"]%char.

Record t : Type := {
  name : list ascii;
  is_string_table : bool;
  date : Z;
  uid : Z;
  gid : Z;
  mode : Z;
  size : Z
}.

(** The search for the '/' that ends a name in the string table, on the
    table from [offset] on; [k] is [i - offset]. The result is [len],
    [None] when the function returns false. *)
Fixpoint table_name_len (suffix : list ascii) (k : nat) : option nat :=
  match suffix with
  | c :: rest =>
      match rest with
      | c' :: _ =>
          if isSlash c then
            if Nat.eqb k 0 || negb (isNewline c') then None else Some k
          else table_name_len rest (S k)
      | [] => Some 0%nat
      end
  | [] => Some 0%nat
  end.

(** A name given by a reference into the string table. *)
Definition table_name (ar_name : list ascii)
    (string_table : option (list ascii)) : option (list ascii) :=
  match string_table with
  | None => None
  | Some table =>
      match extract_offset ar_name with
      | None => None
      | Some offset =>
          if offset >=? Z.of_nat (length table) then None
          else
            match table_name_len (drop (Z.to_nat offset) table) 0 with
            | None => None
            | Some len =>
                if Nat.eqb len 0 then None
                else Some (take len (drop (Z.to_nat offset) table))
            end
      end
  end.

(** The loop over [ar_name] of a name that lies in the header: the index
    [i] at its end, [blank], and whether it ended at a '/'. *)
Fixpoint name_loop (s : list ascii) (i blank : nat) : nat * nat * bool :=
  match s with
  | [] => (i, blank, false)
  | ch :: s' =>
      if isSlash ch then (i, blank, true)
      else name_loop s' (S i)
             (if negb (isBlank ch) then 0%nat
              else if Nat.eqb blank 0 then i else blank)
  end.

Definition plain_name (ar_name : list ascii) : option (list ascii) :=
  let r := name_loop ar_name 0 0 in
  let i := fst (fst r) in
  let blank := snd (fst r) in
  if snd r then Some (take i ar_name)
  else if negb (Nat.eqb blank 0) then Some (take blank ar_name)
  else if Nat.eqb i 0 then Some []
  else None.

(** [hdr->ar_name[k]] *)
Definition at_ (s : list ascii) (k : nat) : ascii := nth k s zero.

(** [archive_header::scan]: [None] when it returns false. *)
Definition scan (hdr : ar_hdr) (string_table : option (list ascii))
  : option t :=
  if negb (bool_decide (ar_fmag hdr = ARFMAG)) then None
  else if isSlash (at_ (ar_name hdr) 0) && isSlash (at_ (ar_name hdr) 1) then
    match extract_value (ar_size hdr) 10 with
    | Some size =>
        Some {| name := []; is_string_table := true; date := 0; uid := 0;
                gid := 0; mode := 0; size := size |}
    | None => None
    end
  else
    match (if isSlash (at_ (ar_name hdr) 0) &&
              negb (isBlank (at_ (ar_name hdr) 1))
           then table_name (ar_name hdr) string_table
           else plain_name (ar_name hdr)) with
    | None => None
    | Some name =>
        match extract_value (ar_date hdr) 10 with
        | None => None
        | Some date =>
        match extract_value (ar_uid hdr) 10 with
        | None => None
        | Some uid =>
        match extract_value (ar_gid hdr) 10 with
        | None => None
        | Some gid =>
        match extract_value (ar_mode hdr) 8 with
        | None => None
        | Some mode =>
        match extract_value (ar_size hdr) 10 with
        | None => None
        | Some size =>
            Some {| name := name; is_string_table := false; date := date;
                    uid := uid; gid := gid; mode := mode; size := size |}
        end end end end end
    end.

End ArHeader.

(** ** archive_reader on the bytes of a file *)

Module ArReader.

(** [ARMAG], [SARMAG] and [sizeof(struct ar_hdr)] *)
Definition ARMAG : list ascii :=
  ["!"; "<"; "a"; "r"; "c"; "h"; ">"; "010"]%char.
Definition SARMAG : nat := 8.
Definition hdr_size : nat := 60.

(** The header that lies at [cp]: the cast of [cp] to a pointer to
    [struct ar_hdr]. *)
Definition header_at (file : list ascii) (cp : nat) : ArHeader.ar_hdr :=
  let b := drop cp file in
  {| ArHeader.ar_name := take 16 b;
     ArHeader.ar_date := take 12 (drop 16 b);
     ArHeader.ar_uid := take 6 (drop 28 b);
     ArHeader.ar_gid := take 6 (drop 34 b);
     ArHeader.ar_mode := take 8 (drop 40 b);
     ArHeader.ar_size := take 10 (drop 48 b);
     ArHeader.ar_fmag := take 2 (drop 58 b) |}.

Record member : Type := {
  m_name : string;
  mtime : Z;
  m_uid : Z;
  m_gid : Z;
  m_mode : Z;
  m_size : Z;
  addr : nat      (* the offset of the content in the file *)
}.

(** The state of the reader that [scan] builds. *)
Record t : Type := {
  symtable : option (nat * Z);   (* offset and length of the symbol table *)
  members : SMap.t member
}.

(** The string table once it is found: its offset and its length. *)
Definition table_bytes (file : list ascii) (st : option (nat * Z))
  : option (list ascii) :=
  match st with
  | Some (begin, len) => Some (take (Z.to_nat len) (drop begin file))
  | None => None
  end.

(** The [while] of [archive_reader::scan]; every round moves [cp] on by
    sixty characters at least, so that [fuel] rounds with [fuel] the
    length of the file are enough. [Ok None] is the result false. *)
Fixpoint scanLoop (fuel : nat) (file : list ascii) (cp : nat)
    (string_table : option (nat * Z)) (r : t) : Result (option t) :=
  if (cp + hdr_size <=? length file)%nat then
    match fuel with
    | O => Fail OutOfFuel
    | S fuel' =>
        match ArHeader.scan (header_at file cp)
                (table_bytes file string_table) with
        | None => Ok None
        | Some header =>
            let begin := (cp + hdr_size)%nat in
            let size := ArHeader.size header in
            let pad := if size mod 2 =? 0 then 0%nat else 1%nat in
            let cp' := (begin + Z.to_nat size + pad)%nat in
            if ArHeader.is_string_table header then
              if (0 <? length (members r))%nat ||
                 (match string_table with Some _ => true | None => false end)
              then Ok None
              else scanLoop fuel' file cp' (Some (begin, size)) r
            else if Nat.eqb (length (ArHeader.name header)) 0 then
              match symtable r with
              | Some _ => Ok None
              | None =>
                  scanLoop fuel' file cp' string_table
                    {| symtable := Some (begin, size); members := members r |}
              end
            else
              let name := string_of_list_ascii (ArHeader.name header) in
              match SMap.insert name
                      {| m_name := name; mtime := ArHeader.date header;
                         m_uid := ArHeader.uid header;
                         m_gid := ArHeader.gid header;
                         m_mode := ArHeader.mode header;
                         m_size := size; addr := begin |}
                      (members r) with
              | None => Ok None
              | Some members' =>
                  scanLoop fuel' file cp' string_table
                    {| symtable := symtable r; members := members' |}
              end
        end
    end
  else Ok (if Nat.eqb cp (length file) then Some r else None).

Definition scan (file : list ascii) : Result (option t) :=
  scanLoop (length file) file SARMAG None {| symtable := None; members := [] |}.

(** [open] on a regular file that can be mapped: the magic, then [scan];
    a reader that is not open has no members. *)
Definition open (file : list ascii) : Result (option t) :=
  if bool_decide (take SARMAG file = ARMAG) then scan file else Ok None.

(** [archive_stream::open(name)] and [open_symtable]: the characters that
    the stream then yields, [None] for the fail state. *)
Definition stream_open (file : list ascii) (r : t) (name : string)
  : option (list ascii) :=
  match SMap.find name (members r) with
  | Some m => Some (take (Z.to_nat (m_size m)) (drop (addr m) file))
  | None => None
  end.

Definition open_symtable (file : list ascii) (r : t) : option (list ascii) :=
  match symtable r with
  | Some (begin, len) => Some (take (Z.to_nat len) (drop begin file))
  | None => None
  end.

End ArReader.

(** ** Building archive files *)

Definition blanks (n : nat) : list ascii := repeat " "%char n.

(** The character of a digit. *)
Definition digitChar (d : Z) : ascii := ascii_of_N (Z.to_N (48 + d)).

(** The value of a list of digits in a base, most significant first. *)
Definition digitsValue (base : Z) (ds : list Z) : Z :=
  fold_left (fun acc d => acc * base + d) ds 0.

(** A field of [n] characters that holds [s], padded with blanks. *)
Definition field (n : nat) (s : string) : list ascii :=
  take n (list_ascii_of_string s ++ blanks n).

(** A member of an archive file: its header and its content, and the
    line feed that pads a content of odd length. *)
Definition ar_member (name size : string) (content : string) : list ascii :=
  field 16 name ++ field 12 "0" ++ field 6 "0" ++ field 6 "0" ++
  field 8 "644" ++ field 10 size ++ ArHeader.ARFMAG ++
  list_ascii_of_string content ++
  (if Nat.even (String.length content) then [] else ["010"%char]).

(** An archive with the members [a.o] (three characters) and [bb.o]
    (four characters). *)
Definition sample_archive : list ascii :=
  ArReader.ARMAG ++ ar_member "a.o/" "3" "#T
" ++ ar_member "bb.o/" "4" "#TX
".

(** A member of the directory lies in the first [bound] characters of the
    file, at an even offset, under its own name, which is not empty. *)
Definition memberOk (bound : nat) (name : string) (m : ArReader.member)
  : Prop :=
  ArReader.m_name m = name /\ name <> "" /\
  Nat.even (ArReader.addr m) = true /\
  (ArReader.addr m + Z.to_nat (ArReader.m_size m) <= bound)%nat /\
  0 <= ArReader.m_size m <= ArHeader.uint_max.

Definition readerOk (bound : nat) (r : ArReader.t) : Prop :=
  (forall name m,
     SMap.find name (ArReader.members r) = Some m -> memberOk bound name m) /\
  (forall b l,
     ArReader.symtable r = Some (b, l) ->
     Nat.even b = true /\ (b + Z.to_nat l <= bound)%nat /\
     0 <= l <= ArHeader.uint_max).

(** The index of the first blank of the run of blanks that ends a name, as
    the loop of [archive_header::scan] keeps it. *)
Definition blank_after (i : nat) (blank : nat) (c : ascii) : nat :=
  if negb (ArHeader.isBlank c) then 0%nat
  else if Nat.eqb blank 0 then i else blank.

(** ** std::ostream

    The characters written so far and the format state that the
    manipulators of [print] set: the base, [uppercase], the fill
    character, the adjustment and the width, which every formatted output
    resets to 0. *)

Module ostream.

Inductive Base : Type := Dec | Hex.

Record t : Type := mk {
  buf : string;
  base : Base;
  upper : bool;
  fillc : ascii;
  left : bool;
  width : nat
}.

(** A stream that was just opened. *)
Definition init : t :=
  {| buf := ""; base := Dec; upper := false; fillc := " "; left := false;
     width := 0 |}.

Definition setw (n : Z) (out : t) : t :=
  mk (buf out) (base out) (upper out) (fillc out) (left out) (Z.to_nat n).
Definition setfill (c : ascii) (out : t) : t :=
  mk (buf out) (base out) (upper out) c (left out) (width out).
Definition hex (out : t) : t :=
  mk (buf out) Hex (upper out) (fillc out) (left out) (width out).
Definition dec (out : t) : t :=
  mk (buf out) Dec (upper out) (fillc out) (left out) (width out).
Definition uppercase (out : t) : t :=
  mk (buf out) (base out) true (fillc out) (left out) (width out).
Definition set_left (out : t) : t :=
  mk (buf out) (base out) (upper out) (fillc out) true (width out).
Definition set_right (out : t) : t :=
  mk (buf out) (base out) (upper out) (fillc out) false (width out).

Fixpoint fill (c : ascii) (n : nat) : string :=
  match n with
  | O => ""
  | S n' => String c (fill c n')
  end.

(** [out << s] for a string: padded to the width, which is then 0. *)
Definition put (out : t) (s : string) : t :=
  let padding := fill (fillc out) (width out - String.length s) in
  mk (buf out +:+ (if left out then s +:+ padding else padding +:+ s))
     (base out) (upper out) (fillc out) (left out) 0.

(** [out << c] for a character *)
Definition put_char (out : t) (c : ascii) : t := put out (String c "").

(** [out << std::endl] *)
Definition endl (out : t) : t :=
  mk (buf out +:+ String "010" "") (base out) (upper out) (fillc out)
     (left out) (width out).

Definition radix (b : Base) : Z :=
  match b with
  | Dec => 10
  | Hex => 16
  end.

Definition digitOf (upper : bool) (d : Z) : ascii :=
  if d <? 10 then ascii_of_N (Z.to_N (48 + d))
  else ascii_of_N (Z.to_N ((if upper then 55 else 87) + d)).

(** The digits of [n] in front of [acc]; [fuel] bounds their number. *)
Fixpoint digitsOf (fuel : nat) (base : Z) (upper : bool) (n : Z)
    (acc : string) : string :=
  match fuel with
  | O => acc
  | S fuel' =>
      let acc' := String (digitOf upper (n mod base)) acc in
      if n / base =? 0 then acc'
      else digitsOf fuel' base upper (n / base) acc'
  end.

(** The digits of an unsigned number of at most 64 bits. *)
Definition showNum (b : Base) (upper : bool) (n : Z) : string :=
  digitsOf 64 (radix b) upper n "".

(** [out << n] for an unsigned number (or an [int] that is not negative) *)
Definition put_num (out : t) (n : Z) : t :=
  put out (showNum (base out) (upper out) n).

(** [for (auto &v : vs) out << v << std::endl;] *)
Definition put_lines (out : t) (vs : list string) : t :=
  fold_left (fun o v => endl (put o v)) vs out.

End ostream.

(** ** The emitter: Segment::print and ObjectFile::print *)

Module Emit.

Import ostream.

(** [std::map::count] *)
Definition count {V : Type} (m : gmap Z V) (k : Z) : bool :=
  match m !! k with
  | Some _ => true
  | None => false
  end.

(** The start of an output line of a segment: the headers and labels at
    offset [i], the address, and the blanks in front of a byte that does
    not start a word. *)
Definition print_head (s : Segment.t) (i : Z) (out : t) : t :=
  let out := match Segment.header s !! i with
             | Some vs => put_lines out vs
             | None => out
             end in
  let out := match Segment.label s !! i with
             | Some vs => put_lines out vs
             | None => out
             end in
  let out := put out "0x" in
  let out := put_num (uppercase (hex (setfill "0" (setw 16 out))))
               (wrap64 (i + Segment.baseAddr s)) in
  let out := put out ": " in
  let addr := wrap64 (i + Segment.baseAddr s) in
  if negb (addr mod 4 =? 0)
  then put (setfill " " (setw (3 * (addr mod 4)) out)) " "
  else out.

(** One round of the inner loop: the stream, and whether the round ends
    in [break]. [memory.at(i)] throws [std::out_of_range], which nothing
    catches. *)
Definition print_byte (s : Segment.t) (strip : bool) (i : Z) (out : t)
  : Result (t * bool) :=
  match Segment.memory s !! i with
  | None => Fail (Crash "std::out_of_range")
  | Some b =>
      let out := put_num (uppercase (hex (setfill "0" (setw 2 out)))) b in
      let out := put out (if strip then "" else " ") in
      if strip then Ok (out, false)
      else
        let addr := wrap64 (i + Segment.baseAddr s) in
        match Segment.annotation s !! i with
        | Some a =>
            let out :=
              if negb (addr mod 4 =? 3)
              then put (setfill " " (setw (3 * (3 - addr mod 4)) out)) " "
              else out in
            Ok (endl (put out a), true)
        | None =>
            if count (Segment.header s) (wrap64 (i + 1)) ||
               count (Segment.label s) (wrap64 (i + 1))
            then Ok (endl out, true)
            else Ok (if addr mod 4 =? 3
                     then put (setfill " " (setw 20 (endl out))) " "
                     else out,
                     false)
        end
  end.

(** The two nested loops over [i]. [head] says that the next test of [i]
    is that of the outer loop, whose body starts a line. When the inner
    loop ends at [i = size()] the outer one increments [i] once more: with
    [2^64 - 1] bytes that wraps to 0 and the loops start again. *)
Fixpoint printLoop (fuel : nat) (s : Segment.t) (strip : bool) (i : Z)
    (head : bool) (out : t) : Result t :=
  if i <? Segment.size s then
    match fuel with
    | O => Fail OutOfFuel
    | S fuel' =>
        let out := if head && negb strip then print_head s i out else out in
        r <- print_byte s strip i out ;;
        printLoop fuel' s strip (wrap64 (i + 1)) (snd r) (fst r)
    end
  else if head then Ok out
  else if wrap64 (i + 1) <? Segment.size s then Fail (Spin "print")
  else Ok out.

(** [Segment::print(out, strip)] *)
Definition Segment_print (s : Segment.t) (strip : bool) (out : t) : Result t :=
  out <- printLoop (Z.to_nat (Segment.size s)) s strip 0 true out ;;
  let out := if negb (count (Segment.annotation s) (wrap64 (Segment.size s - 1)))
             then endl out else out in
  Ok (match Segment.header s !! Segment.size s with
      | Some vs => put_lines out vs
      | None => out
      end).

(** [printSegment(out, seg, printAddr)]: the third argument is passed on
    as [strip]. *)
Definition printSegment (o : ObjectFile.t) (seg : nat) (printAddr : bool)
    (out : t) : Result t :=
  if negb (Segment.size (ObjectFile.seg o seg) =? 0)
  then Segment_print (ObjectFile.seg o seg) printAddr out
  else Ok out.

(** A line of the symbol table *)
Definition print_symbol (out : t) (k : string) (e : SymEntry) : t :=
  let out := put (put_char out (fst e)) " " in
  let out := put (setfill " " (setw 27 (set_left out))) k in
  let out := put out " 0x" in
  endl (put_num (uppercase (hex (setfill "0" (setw 16 (set_right out)))))
          (snd e)).

(** The lines [#BSS] and [#(begins at] *)
Definition print_bss (o : ObjectFile.t) (out : t) : t :=
  let out := put out "#BSS " in
  let out := put_num out (Segment.alignment (ObjectFile.seg o 2)) in
  let out := put out " " in
  let out := endl (put_num (dec out) (Segment.size (ObjectFile.seg o 2))) in
  let out := put out "#(begins at 0x" in
  let out := put_num (hex out) (Segment.baseAddr (ObjectFile.seg o 2)) in
  endl (put out ")").

(** The output up to the line [#DATA] and the data segment *)
Definition print_text_data (o : ObjectFile.t) (ulm : string) (strip : bool)
    (out : t) : Result t :=
  let out := endl (put (put out "#!/usr/bin/env -S ") ulm) in
  let out := endl (put_num (dec (put out "#TEXT "))
                     (Segment.alignment (ObjectFile.seg o 0))) in
  out <- printSegment o 0 strip out ;;
  let out := endl (put_num (dec (put out "#DATA "))
                     (Segment.alignment (ObjectFile.seg o 1))) in
  printSegment o 1 strip out.

Definition print_symtab (o : ObjectFile.t) (out : t) : t :=
  let out := endl (put out "#SYMTAB ") in
  let out := fold_left (fun out x => print_symbol out (fst x) (snd x))
               (ObjectFile.symTab o) out in
  fold_left
    (fun out x => fold_left (fun out e => print_symbol out (fst x) e)
                    (snd x) out)
    (ObjectFile.localSymTab o) out.

(** [ObjectFile::print(out, ulm, strip)] *)
Definition ObjectFile_print (o : ObjectFile.t) (ulm : string) (strip : bool)
    (out : t) : Result t :=
  out <- print_text_data o ulm strip out ;;
  Ok (print_symtab o (print_bss o out)).

End Emit.

(** ** The bytes of a segment as a string of hex digits *)

(** A byte as [print] writes it: two upper-case hex digits. *)
Definition hexByte (b : Z) : string :=
  String (ostream.digitOf true (b / 16))
    (String (ostream.digitOf true (b mod 16)) "").

Fixpoint hexDump (bytes : list Z) : string :=
  match bytes with
  | [] => ""
  | b :: bytes' => hexByte b +:+ hexDump bytes'
  end.

(** The bytes at the offsets [k], [k + 1], ... *)
Fixpoint bytesAt (n : nat) (k : Z) (m : gmap Z Z) : list Z :=
  match n with
  | O => []
  | S n' => default 0 (m !! k) :: bytesAt n' (k + 1) m
  end.

(** The lines [vs], each with its line feed. *)
Fixpoint unlines (vs : list string) : string :=
  match vs with
  | [] => ""
  | v :: vs' => v +:+ String "010" "" +:+ unlines vs'
  end.

(** S6 once it is linked, as [main] prints it, [ulm] being the name of
    the virtual machine. *)
Definition S6_output : string :=
  match Emit.ObjectFile_print S6_linked "ulm" false ostream.init with
  | Ok out => ostream.buf out
  | Fail _ => ""
  end.

(** ** Further scenarios *)

(** A link job whose bss segment holds three bytes of the unit [a.o]. *)
Definition S9_state : ObjectFile.t :=
  match ObjectFile.readBss (ObjectFile.init None) (Some (1, 3)) "a.o" with
  | Ok o => o
  | Fail _ => ObjectFile.init None
  end.

(** Two directories that both hold a [libm.a]. *)
Definition S10_files : FS :=
  fsOf [("a.o", FText (object [LText None; byteLine "01"]));
        ("zlib/libm.a",
         archive [member "z.o" (object [LText None; byteLine "5A"])]);
        ("alib/libm.a",
         archive [member "a1.o" (object [LText None; byteLine "A1"])])].
Definition S10_argv : list string := ["-L"; "zlib"; "-L"; "alib"; "a.o"].
Definition S10_state : MainState :=
  match processArgs 0 None S10_files S10_argv with
  | Ok st => st
  | Fail _ => {| objectFile := ObjectFile.init None; startAddr := 0;
                 pOut := None; startGroup := None; files := S10_files |}
  end.



(** The format state in which [Segment::print] writes its bytes. *)
Definition hexState (out : ostream.t) : Prop :=
  ostream.base out = ostream.Hex /\ ostream.upper out = true /\
  ostream.width out = 0%nat.

(** Every output appends to the stream. *)
Definition extends (a b : ostream.t) : Prop :=
  exists t, ostream.buf b = ostream.buf a +:+ t.

(** ** Formatted input

    What [std::getline] and the extractors [>>] make of the characters of
    a stream. *)

Module istream.

(** [std::isspace] in the "C" locale *)
Definition isspace (c : ascii) : bool :=
  let n := N_of_ascii c in ((n =? 32) || ((9 <=? n) && (n <=? 13)))%N.

(** The lines that [while (std::getline(in, line))] yields: a line ends at
    a line feed or at the end of the stream, and at the end of the stream
    [getline] fails when it extracts no character. *)
Fixpoint getlines (s : string) : list string :=
  match s with
  | "" => []
  | String c s' =>
      if Ascii.eqb c "010" then "" :: getlines s'
      else match getlines s' with
           | [] => [String c ""]
           | l :: ls => String c l :: ls
           end
  end.

(** The sentry of [>>] skips white space. *)
Fixpoint skipws (s : string) : string :=
  match s with
  | "" => ""
  | String c s' => if isspace c then skipws s' else s
  end.

(** The characters up to the next white space, and the rest. *)
Fixpoint word (s : string) : string * string :=
  match s with
  | "" => ("", "")
  | String c s' =>
      if isspace c then ("", s)
      else (String c (fst (word s')), snd (word s'))
  end.

(** [in >> c] for a [char] and [in >> s] for a [std::string]: the value
    and the rest of the stream, [None] when the stream fails. *)
Definition get_char (s : string) : option (ascii * string) :=
  match skipws s with
  | "" => None
  | String c r => Some (c, r)
  end.

Definition get_string (s : string) : option (string * string) :=
  match skipws s with
  | "" => None
  | String c r => Some (word (String c r))
  end.

End istream.

(** [std::istringstream(line) >> kind >> ident >> member] of
    [readSymtabIndex]: the ident and the member, which stay empty when
    the stream has failed before. *)
Definition lexIndexLine (line : string) : string * string :=
  match istream.get_char line with
  | None => ("", "")
  | Some (_, r) =>
      match istream.get_string r with
      | None => ("", "")
      | Some (ident, r') =>
          (ident, match istream.get_string r' with
                  | None => ""
                  | Some (member, _) => member
                  end)
      end
  end.

(** The index of an archive as [readSymtabIndex] reads it from the
    characters of the member [__SYMTAB_INDEX]. *)
Definition indexOf (s : string) : list IndexLine :=
  map (fun l => {| ix_kind := match istream.get_char l with
                              | Some (k, _) => k
                              | None => zero
                              end;
                   ix_ident := fst (lexIndexLine l);
                   ix_member := snd (lexIndexLine l) |})
      (istream.getlines s).

(** ** ulmranlib_mkindex *)

Module Mkindex.

(** [std::cout << kind << " " << std::setw(27) << std::left << ident
    << " " << member.name << std::endl] *)
Definition print_entry (out : ostream.t) (kind : ascii) (ident name : string)
  : ostream.t :=
  let out := ostream.put_char out kind in
  let out := ostream.put out " " in
  let out := ostream.set_left (ostream.setw 27 out) in
  let out := ostream.put out ident in
  let out := ostream.put out " " in
  let out := ostream.put out name in
  ostream.endl out.

(** [std::istringstream(line) >> kind >> ident >> addr]: [kind] is not
    initialised, it keeps the value [garbage] that it happens to have
    when the line has no character but white space. *)
Definition lex (garbage : ascii) (line : string) : ascii * string :=
  match istream.get_char line with
  | None => (garbage, "")
  | Some (kind, r) =>
      (kind, match istream.get_string r with
             | None => ""
             | Some (ident, _) => ident
             end)
  end.

(** The inner [while]: the lines after [#SYMTAB] up to [#FIXUPS]. *)
Fixpoint symtabLoop (garbage : nat -> ascii) (n : nat) (name : string)
    (ls : list string) (out : ostream.t) : ostream.t :=
  match ls with
  | [] => out
  | line :: ls' =>
      let r := lex (garbage n) line in
      if String.eqb line "#FIXUPS" then out
      else
        symtabLoop garbage (S n) name ls'
          (if isupper (fst r) && negb (Ascii.eqb (fst r) "U")
           then print_entry out (fst r) (snd r) name
           else out)
  end.

(** The outer [while]: the lines up to the first [#SYMTAB]; after the
    inner loop it is left with [break]. *)
Fixpoint memberLoop (garbage : nat -> ascii) (name : string)
    (ls : list string) (out : ostream.t) : ostream.t :=
  match ls with
  | [] => out
  | line :: ls' =>
      if negb (String.eqb line "#SYMTAB") then memberLoop garbage name ls' out
      else symtabLoop garbage 0 name ls' out
  end.

(** [for (auto& member: archive)]: the directory in the order of its
    keys. *)
Fixpoint forMembers (garbage : string -> nat -> ascii) (file : list ascii)
    (r : ArReader.t) (ms : list (string * ArReader.member))
    (out : ostream.t) : ostream.t :=
  match ms with
  | [] => out
  | (_, m) :: ms' =>
      let name := ArReader.m_name m in
      if String.eqb name "__SYMTAB_INDEX" then
        forMembers garbage file r ms' out
      else
        let content :=
          match ArReader.stream_open file r name with
          | Some cs => string_of_list_ascii cs
          | None => ""
          end in
        forMembers garbage file r ms'
          (memberLoop (garbage name) name (istream.getlines content) out)
  end.

(** [main], with [argv] behind the name of the command: what is written
    to [std::cout]. [fs] gives the characters of the regular files that
    can be mapped. *)
Definition main (garbage : string -> nat -> ascii)
    (fs : string -> option (list ascii)) (cmdname : string)
    (argv : list string) : Result ostream.t :=
  match argv with
  | [a] =>
      archive <- match fs a with
                 | Some file => ArReader.open file
                 | None => Ok None
                 end ;;
      match archive, fs a with
      | Some r, Some file =>
          Ok (forMembers garbage file r (ArReader.members r) ostream.init)
      | _, _ =>
          Fail (Exit 1 (cmdname +:+ ": could not open as archive: " +:+ a))
      end
  | _ => Fail (Exit 1 ("Usage: " +:+ cmdname +:+ " archive"))
  end.

End Mkindex.

(** A string without white space that is not empty. *)
Fixpoint string_forall (p : ascii -> bool) (s : string) : bool :=
  match s with
  | "" => true
  | String c s' => p c && string_forall p s'
  end.

Definition nows (s : string) : bool :=
  string_forall (fun c => negb (istream.isspace c)) s.

Definition isToken (s : string) : bool :=
  negb (String.eqb s "") && nows s.

(** The line that [print_entry] writes, without its line feed. *)
Definition entry_line (kind : ascii) (ident name : string) : string :=
  String kind (" " +:+ ident +:+
               ostream.fill " " (27 - String.length ident) +:+ " " +:+ name).

(** A line of an index as [readSymtabIndex] takes it: it starts with an
    upper-case kind other than [U] and names the member, or it has no
    ident, and the name of the member is then read as the ident. *)
Definition indexLineOk (name : string) (l : string) : Prop :=
  exists kind rest,
    l = String kind rest /\ isupper kind = true /\ kind <> "U"%char /\
    (snd (lexIndexLine l) = name \/ lexIndexLine l = (name, "")).

(** An archive with the single member [a.o]. *)
Definition S11_archive : list ascii :=
  ArReader.ARMAG ++
  ar_member "a.o/" "41" "#SYMTAB
T main 0
U ext 0
t loc 0
#FIXUPS
".

(** The state of [std::cout] between two entries: no width is pending,
    the fill character is the blank, and the text ends with a line. *)
Definition indexState (Q : string -> Prop) (out : ostream.t) : Prop :=
  ostream.width out = 0%nat /\ ostream.fillc out = " "%char /\
  (forall r, istream.getlines (ostream.buf out +:+ r)
             = istream.getlines (ostream.buf out) ++ istream.getlines r) /\
  Forall Q (istream.getlines (ostream.buf out)).

Definition S11_files (f : string) : option (list ascii) :=
  if String.eqb f "lib.a" then Some S11_archive else None.

Definition S11_reader : ArReader.t :=
  match ArReader.open S11_archive with
  | Ok (Some r) => r
  | _ => {| ArReader.symtable := None; ArReader.members := [] |}
  end.

(** A line of the index of an archive with the directory [r]. *)
Definition indexLineOf (r : ArReader.t) (l : string) : Prop :=
  exists km,
    In km (ArReader.members r) /\
    ArReader.m_name km.2 <> "__SYMTAB_INDEX" /\
    indexLineOk (ArReader.m_name km.2) l.

Definition S11_output : ostream.t :=
  match Mkindex.main (fun _ _ => "Z"%char) S11_files "mkindex" ["lib.a"] with
  | Ok out => out
  | Fail _ => ostream.init
  end.

(** A link job in which [main] is unresolved. *)
Definition S11_linking : ObjectFile.t :=
  ObjectFile.with_unresolved (ObjectFile.init None) {["main"]}.

(** * Lemmas *)

(** ** Results and machine integers *)

Lemma bind_Ok {A B : Type} (r : Result A) (k : A -> Result B) (b : B) :
  bind r k = Ok b -> exists a, r = Ok a /\ k a = Ok b.
Proof. destruct r as [a|f]; simpl; [eauto | discriminate]. Qed.

Lemma assert_Ok (b : bool) (what : string) (u : unit) :
  assert b what = Ok u -> b = true.
Proof. destruct b; [reflexivity | discriminate]. Qed.

Lemma two64_pos : 0 < two64.
Proof. reflexivity. Qed.

Lemma wrap64_range (z : Z) : 0 <= wrap64 z < two64.
Proof. apply Z.mod_pos_bound, two64_pos. Qed.

Lemma wrap64_small (z : Z) : 0 <= z < two64 -> wrap64 z = z.
Proof. apply Z.mod_small. Qed.

(** ** The loop of [patchBytes] *)

Lemma mem_store_Ok (m m' : gmap Z Z) (k v : Z) :
  mem_store m k v = Ok m' -> m' = <[k := v]> m.
Proof.
  unfold mem_store. destruct (m !! k); [congruence |].
  destruct (_ <? _); congruence.
Qed.

Lemma mem_store_present (m : gmap Z Z) (k v : Z) :
  is_Some (m !! k) -> mem_store m k v = Ok (<[k := v]> m).
Proof. intros [x Hx]. unfold mem_store. now rewrite Hx. Qed.

(** Offsets [addr + j] below [2^64] apart do not collide. *)
Lemma wrap64_add_inj (addr i j : Z) :
  0 <= i < two64 -> 0 <= j < two64 ->
  wrap64 (addr + i) = wrap64 (addr + j) -> i = j.
Proof.
  unfold wrap64. intros Hi Hj H.
  assert (E : (addr + i) mod two64 - (addr + j) mod two64 = 0) by lia.
  pose proof (Z.div_mod (addr + i) two64 ltac:(unfold two64; lia)) as D1.
  pose proof (Z.div_mod (addr + j) two64 ltac:(unfold two64; lia)) as D2.
  assert (i - j = two64 * ((addr + i) / two64 - (addr + j) / two64)) by lia.
  assert (- two64 < i - j < two64) by lia.
  assert ((addr + i) / two64 - (addr + j) / two64 = 0) by (unfold two64 in *; nia).
  lia.
Qed.

Lemma patchLoop_spec (i : nat) :
  forall (addr value : Z) (m m' : gmap Z Z),
    Z.of_nat i <= two64 ->
    Segment.patchLoop i addr value m = Ok m' ->
    (forall j, 0 <= j < Z.of_nat i ->
       m' !! wrap64 (addr + j) =
       Some (Z.land (Z.shiftr value (8 * (Z.of_nat i - 1 - j))) 255)) /\
    (forall k, (forall j, 0 <= j < Z.of_nat i -> k <> wrap64 (addr + j)) ->
       m' !! k = m !! k).
Proof.
  induction i as [|i IH]; intros addr value m m' Hi H.
  - simpl in H. injection H as <-. split; [lia | reflexivity].
  - simpl in H. apply bind_Ok in H as (m1 & H1 & H2).
    apply mem_store_Ok in H1. subst m1.
    apply IH in H2 as [Hin Hout]; [| lia].
    split.
    + intros j Hj.
      destruct (Z.eq_dec j (Z.of_nat i)) as [-> | Hne].
      * rewrite Hout.
        -- rewrite lookup_insert_eq.
           replace (8 * (Z.of_nat (S i) - 1 - Z.of_nat i)) with 0 by lia.
           now rewrite Z.shiftr_0_r.
        -- intros j' Hj' E. apply wrap64_add_inj in E; lia.
      * rewrite Hin by lia. f_equal. f_equal.
        rewrite Z.shiftr_shiftr by lia. f_equal. lia.
    + intros k Hk. rewrite Hout.
      * apply lookup_insert_ne. intros E. apply (Hk (Z.of_nat i)); [lia | now symmetry].
      * intros j Hj. apply Hk. lia.
Qed.

Lemma patchLoop_present (i : nat) :
  forall (addr value : Z) (m : gmap Z Z),
    (forall j, 0 <= j < Z.of_nat i -> is_Some (m !! wrap64 (addr + j))) ->
    exists m', Segment.patchLoop i addr value m = Ok m'.
Proof.
  induction i as [|i IH]; intros addr value m Hp.
  - simpl. eauto.
  - simpl. rewrite mem_store_present by (apply Hp; lia). simpl.
    apply IH. intros j Hj.
    destruct (decide (wrap64 (addr + Z.of_nat i) = wrap64 (addr + j))) as [E | E].
    + rewrite <- E, lookup_insert_eq. eauto.
    + rewrite lookup_insert_ne by exact E. apply Hp. lia.
Qed.

(** ** The store has no holes *)

Lemma size_of_inv (s : Segment.t) :
  SegInv s -> Segment.size s = Z.of_nat (size (Segment.memory s)).
Proof.
  intros [_ Hr _]. unfold Segment.size. apply wrap64_small.
  unfold map_max_size in Hr. lia.
Qed.

Lemma contiguous_empty : contiguous ∅.
Proof.
  intros k. rewrite lookup_empty, map_size_empty. split.
  - intros [x Hx]. discriminate.
  - simpl. lia.
Qed.

Lemma insert_inside (m : gmap Z Z) (k v : Z) :
  contiguous m -> 0 <= k < Z.of_nat (size m) ->
  contiguous (<[k := v]> m) /\ size (<[k := v]> m) = size m.
Proof.
  intros Hc Hk.
  assert (Hi : is_Some (m !! k)) by (apply Hc; lia).
  assert (Hs : size (<[k := v]> m) = size m).
  { now apply map_size_insert_Some. }
  split; [| exact Hs].
  intros j. rewrite Hs. destruct (Z.eq_dec j k) as [-> | Hne].
  - rewrite lookup_insert_eq. split; [lia | eauto].
  - rewrite lookup_insert_ne by congruence. apply Hc.
Qed.

Lemma insert_at_end (m : gmap Z Z) (v : Z) :
  contiguous m ->
  contiguous (<[Z.of_nat (size m) := v]> m) /\
  size (<[Z.of_nat (size m) := v]> m) = S (size m).
Proof.
  intros Hc.
  assert (Hn : m !! Z.of_nat (size m) = None).
  { apply eq_None_not_Some. intros Hi. apply Hc in Hi. lia. }
  assert (Hs : size (<[Z.of_nat (size m) := v]> m) = S (size m))
    by (now apply map_size_insert_None).
  split; [| exact Hs].
  intros j. rewrite Hs. destruct (Z.eq_dec j (Z.of_nat (size m))) as [-> | Hne].
  - rewrite lookup_insert_eq. split; [lia | eauto].
  - rewrite lookup_insert_ne by congruence.
    split; intros H; [apply Hc in H; lia | apply Hc; lia].
Qed.

Lemma store_contiguous (m m' : gmap Z Z) (k v : Z) :
  contiguous m -> Z.of_nat (size m) <= map_max_size ->
  0 <= k <= Z.of_nat (size m) ->
  mem_store m k v = Ok m' ->
  contiguous m' /\ Z.of_nat (size m') <= map_max_size /\
  Z.of_nat (size m') = Z.max (Z.of_nat (size m)) (k + 1).
Proof.
  intros Hc Hr Hk H.
  destruct (Z.eq_dec k (Z.of_nat (size m))) as [E | E].
  - subst k. destruct (insert_at_end m v Hc) as [Hc' Hs].
    assert (Hn : m !! Z.of_nat (size m) = None).
    { apply eq_None_not_Some. intros Hi. apply Hc in Hi. lia. }
    unfold mem_store in H. rewrite Hn in H.
    destruct (Z.of_nat (size m) <? map_max_size) eqn:Hlt; [| discriminate].
    apply Z.ltb_lt in Hlt. injection H as <-.
    rewrite Hs. split; [exact Hc' | lia].
  - destruct (insert_inside m k v Hc ltac:(lia)) as [Hc' Hs].
    rewrite mem_store_present in H by (apply Hc; lia). injection H as <-.
    rewrite Hs. split; [exact Hc' | lia].
Qed.

Lemma appendByte_inv (s s' : Segment.t) (b : Z) :
  SegInv s -> Segment.appendByte s b = Ok s' ->
  SegInv s' /\ Segment.size s' = Segment.size s + 1 /\
  Segment.fill s' = Segment.fill s.
Proof.
  intros Hi H. pose proof (size_of_inv s Hi) as Hsz.
  destruct Hi as [Hc Hr Hb].
  unfold Segment.appendByte in H. apply bind_Ok in H as (m & H1 & H2).
  injection H2 as <-. rewrite Hsz in H1.
  apply store_contiguous in H1 as (Hc' & Hr' & Hs'); [| assumption | assumption | lia].
  assert (Hi' : SegInv (Segment.with_memory s m)) by (split; assumption).
  split; [exact Hi' |]. split; [| reflexivity].
  rewrite (size_of_inv _ Hi'), Hsz. simpl. lia.
Qed.

Lemma advanceLoop_inv (budget : nat) :
  forall (addr : Z) (s s' : Segment.t),
    SegInv s -> Segment.advanceLoop budget addr s = Ok s' -> SegInv s'.
Proof.
  induction budget as [|n IH]; intros addr s s' Hi H; simpl in H.
  - destruct (addr >? Segment.size s); [discriminate | congruence].
  - destruct (addr >? Segment.size s); [| congruence].
    apply bind_Ok in H as (s1 & H1 & H2).
    apply appendByte_inv in H1 as [Hi1 _]; [| exact Hi].
    eapply IH; eassumption.
Qed.

Lemma insertAnnotation_inv (s : Segment.t) (text : string) (addr : Z) :
  SegInv s -> SegInv (Segment.insertAnnotation s text addr).
Proof. intros [Hc Hr Hb]. split; assumption. Qed.

Lemma appendAnnotation_inv (s : Segment.t) (text : string) :
  SegInv s -> SegInv (Segment.appendAnnotation s text).
Proof. apply insertAnnotation_inv. Qed.

Lemma advanceTo_inv (s s' : Segment.t) (addr : Z) :
  SegInv s -> Segment.advanceTo s addr = Ok s' ->
  SegInv s' /\ Segment.size s' = wrap64 (addr - Segment.baseAddr s).
Proof.
  intros Hi H. unfold Segment.advanceTo in H.
  apply bind_Ok in H as (u & _ & H).
  apply bind_Ok in H as (s1 & H1 & H).
  apply bind_Ok in H as (u' & Ha & H). injection H as <-.
  apply assert_Ok in Ha. apply Z.eqb_eq in Ha.
  apply advanceLoop_inv in H1; [| exact Hi].
  split; [| exact Ha].
  destruct (Segment.size s1 =? Segment.size s); [exact H1 |].
  now apply appendAnnotation_inv.
Qed.

Lemma with_alignment_inv (s : Segment.t) (a : Z) :
  SegInv s -> SegInv (Segment.with_alignment s a).
Proof. intros [Hc Hr Hb]. split; assumption. Qed.

Lemma setAlignment_inv (s s' : Segment.t) (a : Z) :
  SegInv s -> Segment.setAlignment s a = Ok s' -> SegInv s'.
Proof.
  intros Hi H. unfold Segment.setAlignment in H.
  destruct (a =? 0); [discriminate |].
  apply bind_Ok in H as (u & _ & H).
  apply bind_Ok in H as (newSize & _ & H).
  apply advanceTo_inv in H as [H _]; [exact H |].
  destruct (a >? Segment.alignment s); [now apply with_alignment_inv | exact Hi].
Qed.

Lemma insertLoop_inv (n : nat) :
  forall (i addr : Z) (hexDigits : string) (m m' : gmap Z Z),
    contiguous m -> Z.of_nat (size m) <= map_max_size ->
    0 <= addr + i <= Z.of_nat (size m) ->
    Segment.insertLoop n i addr hexDigits m = Ok m' ->
    contiguous m' /\ Z.of_nat (size m') <= map_max_size.
Proof.
  induction n as [|n IH]; intros i addr hexDigits m m' Hc Hr Hk H; simpl in H.
  - injection H as <-. auto.
  - destruct hexDigits as [|c1 [|c2 rest]]; try discriminate.
    apply bind_Ok in H as (byte & _ & H).
    apply bind_Ok in H as (m1 & H1 & H).
    rewrite wrap64_small in H1 by (unfold map_max_size in Hr; lia).
    apply store_contiguous in H1 as (Hc1 & Hr1 & Hs1); [| assumption | assumption | lia].
    eapply IH; [exact Hc1 | exact Hr1 | | exact H]. lia.
Qed.

Lemma insertByteString_inv (s s' : Segment.t) (addr : Z) (hexDigits : string) :
  SegInv s -> Segment.insertByteString s addr hexDigits = Ok s' -> SegInv s'.
Proof.
  intros Hi H. unfold Segment.insertByteString in H.
  apply bind_Ok in H as (s1 & H1 & H).
  apply bind_Ok in H as (u & _ & H).
  apply bind_Ok in H as (m & Hm & H). injection H as <-.
  pose proof (inv_base s Hi) as Hb. rewrite Hb in *.
  rewrite Z.sub_0_r in *.
  assert (Hs1 : SegInv s1 /\ wrap64 addr <= Segment.size s1).
  { unfold Segment.requiresAdvanceTo in H1. rewrite Hb, Z.sub_0_r in H1.
    rewrite (wrap64_small (wrap64 addr)) in H1 by apply wrap64_range.
    destruct (wrap64 addr >? Segment.size s) eqn:Hgt.
    - apply advanceTo_inv in H1 as [Hi1 Hsz]; [| exact Hi].
      rewrite Hb, Z.sub_0_r in Hsz.
      rewrite (wrap64_small (wrap64 addr)) in Hsz by apply wrap64_range.
      split; [exact Hi1 | lia].
    - injection H1 as <-. split; [exact Hi | lia]. }
  destruct Hs1 as [Hi1 Hle]. rewrite (size_of_inv _ Hi1) in Hle.
  destruct Hi1 as [Hc1 Hr1 Hb1].
  apply insertLoop_inv in Hm as [Hc' Hr']; [| assumption | assumption |].
  - split; assumption.
  - pose proof (wrap64_range addr). lia.
Qed.

Lemma init_inv : SegInv Segment.init.
Proof.
  split; [apply contiguous_empty | | reflexivity].
  simpl. rewrite map_size_empty. unfold map_max_size, two64. lia.
Qed.

Lemma runOp_inv (s s' : Segment.t) (op : ParseOp) :
  SegInv s -> runOp s op = Ok s' -> SegInv s'.
Proof.
  intros Hi H. destruct op; simpl in H.
  - now apply appendByte_inv in H as [H _].
  - now apply advanceTo_inv in H as [H _].
  - eapply setAlignment_inv; eassumption.
  - destruct (Segment.requiresAdvanceTo s addr); [discriminate |].
    eapply insertByteString_inv; eassumption.
  - injection H as <-. destruct Hi. split; assumption.
  - injection H as <-. destruct Hi. split; assumption.
  - injection H as <-. now apply appendAnnotation_inv.
  - injection H as <-. destruct Hi. split; assumption.
Qed.

Lemma runOps_inv (ops : list ParseOp) :
  forall s0 s, SegInv s0 -> runOps s0 ops = Ok s -> SegInv s.
Proof.
  induction ops as [|op ops IH]; intros s0 s Hi0 H; simpl in H.
  - now injection H as <-.
  - apply bind_Ok in H as (s1 & H1 & H).
    eapply IH; [| exact H]. eapply runOp_inv; eassumption.
Qed.

(** ** Lookup after update in a [std::map<std::string, V>] *)

Lemma compare_refl (k : string) : String.compare k k = Eq.
Proof. now apply OrderedTypeEx.String_as_OT.cmp_eq. Qed.

Lemma find_set_eq {V : Type} (k : string) (v : V) (m : SMap.t V) :
  SMap.find k (SMap.set k v m) = Some v.
Proof.
  induction m as [|[k' v'] m IH]; simpl.
  - now rewrite String.eqb_refl.
  - destruct (String.compare k k') eqn:E; simpl.
    + now rewrite String.eqb_refl.
    + now rewrite String.eqb_refl.
    + destruct (String.eqb k k') eqn:E'; [| exact IH].
      apply String.eqb_eq in E'. subst k'.
      rewrite compare_refl in E. discriminate.
Qed.

Lemma find_set_ne {V : Type} (k k0 : string) (v : V) (m : SMap.t V) :
  k0 <> k -> SMap.find k0 (SMap.set k v m) = SMap.find k0 m.
Proof.
  intros Hne. induction m as [|[k' v'] m IH]; simpl.
  - destruct (String.eqb k0 k) eqn:E; [| reflexivity].
    apply String.eqb_eq in E. contradiction.
  - destruct (String.compare k k') eqn:E; simpl.
    + apply String.compare_eq_iff in E. subst k'.
      destruct (String.eqb k0 k) eqn:E'; [| reflexivity].
      apply String.eqb_eq in E'. contradiction.
    + destruct (String.eqb k0 k) eqn:E'; [| reflexivity].
      apply String.eqb_eq in E'. contradiction.
    + now rewrite IH.
Qed.

Lemma find_In {V : Type} (k : string) (v : V) (m : SMap.t V) :
  SMap.find k m = Some v -> In (k, v) m.
Proof.
  induction m as [|[k' v'] m IH]; simpl; [discriminate |].
  destruct (String.eqb k k') eqn:E.
  - apply String.eqb_eq in E. subst k'. intros H. injection H as <-. now left.
  - intros H. right. now apply IH.
Qed.


Lemma Forall_keys_set {V : Type} (P : string -> Prop) (k : string) (v : V)
    (m : SMap.t V) :
  P k -> Forall P (SMap.keys m) -> Forall P (SMap.keys (SMap.set k v m)).
Proof.
  intros Hk. induction m as [|[k' v'] m IH]; intros Hm; simpl.
  - constructor; [exact Hk | constructor].
  - inversion Hm as [|? ? Hk' Hm']; subst.
    destruct (String.compare k k'); simpl.
    + constructor; assumption.
    + constructor; [exact Hk | exact Hm].
    + constructor; [exact Hk' | now apply IH].
Qed.

Lemma slt_trans (a b c : string) : slt a b -> slt b c -> slt a c.
Proof.
  unfold slt. intros H1 H2.
  apply OrderedTypeEx.String_as_OT.cmp_lt in H1, H2.
  apply OrderedTypeEx.String_as_OT.cmp_lt.
  eapply OrderedTypeEx.String_as_OT.lt_trans; eassumption.
Qed.

Lemma compare_Gt_slt (a b : string) : String.compare a b = Gt -> slt b a.
Proof.
  unfold slt. intros H. rewrite String.compare_antisym, H. reflexivity.
Qed.

Lemma set_sorted {V : Type} (k : string) (v : V) (m : SMap.t V) :
  StronglySorted slt (SMap.keys m) ->
  StronglySorted slt (SMap.keys (SMap.set k v m)).
Proof.
  induction m as [|[k' v'] m IH]; intros Hs; simpl.
  - constructor; constructor.
  - inversion Hs as [|? ? Hs' Hall]; subst.
    destruct (String.compare k k') eqn:E; simpl.
    + apply String.compare_eq_iff in E. subst k'. constructor; assumption.
    + constructor; [exact Hs |]. constructor; [exact E |].
      eapply Forall_impl; [exact Hall |].
      intros x Hx. eapply slt_trans; [exact E | exact Hx].
    + constructor; [now apply IH |].
      apply Forall_keys_set; [now apply compare_Gt_slt | exact Hall].
Qed.

Lemma slt_irrefl (a : string) : ~ slt a a.
Proof. unfold slt. rewrite compare_refl. discriminate. Qed.

Lemma ascending_sorted (l : list string) :
  ascending l = true <-> StronglySorted slt l.
Proof.
  induction l as [|a l IH].
  - split; [constructor | reflexivity].
  - destruct l as [|b l].
    + split; [repeat constructor | reflexivity].
    + cbn [ascending]. split.
      * intros H. destruct (String.compare a b) eqn:E; try discriminate.
        apply IH in H. constructor; [exact H |].
        constructor; [exact E |].
        inversion H as [|? ? _ Hall]; subst.
        eapply Forall_impl; [exact Hall |].
        intros x Hx. eapply slt_trans; [exact E | exact Hx].
      * intros H. inversion H as [|? ? Hs Hall]; subst.
        inversion Hall as [|? ? Hab _]; subst.
        unfold slt in Hab. rewrite Hab. now apply IH.
Qed.

Lemma sorted_NoDup (l : list string) : StronglySorted slt l -> NoDup l.
Proof.
  induction 1 as [|a l Hs IH Hall]; [constructor |].
  constructor; [| exact IH].
  rewrite List.Forall_forall in Hall.
  intros Hin. apply list_elem_of_In in Hin. apply Hall in Hin.
  now apply slt_irrefl in Hin.
Qed.

Lemma wfKeys_set {V : Type} (k : string) (v : V) (m : SMap.t V) :
  wfKeys (SMap.keys m) = true -> noDot k = true ->
  wfKeys (SMap.keys (SMap.set k v m)) = true.
Proof.
  unfold wfKeys. intros H Hk. apply andb_true_iff in H as [H1 H2].
  apply andb_true_iff. split.
  - apply forallb_forall. apply List.Forall_forall.
    apply (Forall_keys_set (fun id => noDot id = true)); [exact Hk |].
    apply List.Forall_forall. apply forallb_forall. exact H1.
  - apply ascending_sorted. apply set_sorted. now apply ascending_sorted.
Qed.

Lemma symTab_wf_find (o : ObjectFile.t) (id : string) (e : SymEntry) :
  symTab_wf o -> SMap.find id (ObjectFile.symTab o) = Some e ->
  Ascii.eqb (firstChar id) "." = false.
Proof.
  unfold symTab_wf, wfKeys. intros Hw Hf.
  apply andb_true_iff in Hw as [Hw _].
  apply find_In in Hf. apply (in_map fst) in Hf. simpl in Hf.
  rewrite forallb_forall in Hw. apply Hw in Hf.
  unfold noDot in Hf. now apply negb_true_iff in Hf.
Qed.

Lemma symTab_wf_NoDup (o : ObjectFile.t) :
  symTab_wf o -> NoDup (SMap.keys (ObjectFile.symTab o)).
Proof.
  unfold symTab_wf, wfKeys. intros Hw.
  apply andb_true_iff in Hw as [_ Hw].
  now apply sorted_NoDup, ascending_sorted.
Qed.

(** ** The segments and the symbol table during the parse phase *)

Lemma seg_set_seg (P : Segment.t -> Prop) (o : ObjectFile.t) (i : nat)
    (s : Segment.t) :
  (forall j, P (ObjectFile.seg o j)) -> P s ->
  forall j, P (ObjectFile.seg (ObjectFile.set_seg o i s) j).
Proof.
  intros Ho Hs j. unfold ObjectFile.seg, ObjectFile.set_seg. simpl.
  destruct (decide (i = j)) as [-> | Hne].
  - destruct (decide (j < length (ObjectFile.segments o))%nat) as [Hlt | Hge].
    + now rewrite list_lookup_insert_eq.
    + rewrite list_insert_ge by lia. apply Ho.
  - rewrite list_lookup_insert_ne by exact Hne. apply Ho.
Qed.

Lemma set_seg_inv (o : ObjectFile.t) (i : nat) (s : Segment.t) :
  ObjInv o -> SegInv s -> ObjInv (ObjectFile.set_seg o i s).
Proof.
  intros [Hs Hw] Hi. split.
  - now apply seg_set_seg.
  - exact Hw.
Qed.

Lemma setMark_inv (s : Segment.t) (f : string) :
  SegInv s -> SegInv (Segment.setMark s f).
Proof. intros [Hc Hr Hb]. split; assumption. Qed.

Lemma appendHeader_inv (s : Segment.t) (t : string) :
  SegInv s -> SegInv (Segment.appendHeader s t).
Proof. intros [Hc Hr Hb]. split; assumption. Qed.

Lemma insertLabel_inv (s : Segment.t) (t : string) (a : Z) :
  SegInv s -> SegInv (Segment.insertLabel s t a).
Proof. intros [Hc Hr Hb]. split; assumption. Qed.

Lemma readTextData_inv (o o' : ObjectFile.t) (i : nat) (a : option Z)
    (source : string) :
  ObjInv o -> ObjectFile.readTextData o i a source = Ok o' -> ObjInv o'.
Proof.
  intros Hi H. unfold ObjectFile.readTextData in H.
  apply bind_Ok in H as (s & H1 & H). injection H as <-.
  apply set_seg_inv; [exact Hi |]. apply setMark_inv.
  destruct a as [al|].
  - eapply setAlignment_inv; [apply (inv_segments o Hi) | exact H1].
  - injection H1 as <-. apply (inv_segments o Hi).
Qed.

Lemma readBss_inv (o o' : ObjectFile.t) (args : option (Z * Z))
    (source : string) :
  ObjInv o -> ObjectFile.readBss o args source = Ok o' -> ObjInv o'.
Proof.
  intros Hi H. unfold ObjectFile.readBss in H.
  destruct args as [[al sz]|]; [| discriminate].
  apply bind_Ok in H as (s1 & H1 & H).
  apply bind_Ok in H as (s2 & H2 & H). injection H as <-.
  apply setAlignment_inv in H1;
    [| apply setMark_inv, (inv_segments o Hi)].
  apply set_seg_inv; [exact Hi |].
  destruct (sz =? 0).
  - now injection H2 as <-.
  - now apply advanceTo_inv in H2 as [H2 _].
Qed.

Lemma readBytes_inv (o : ObjectFile.t) (i : nat) (base : Z) (source : string)
    (b : ByteLine) (r : ObjectFile.t * Z) :
  ObjInv o -> ObjectFile.readBytes o i base source b = Ok r -> ObjInv (fst r).
Proof.
  intros Hi H. unfold ObjectFile.readBytes in H.
  set (s := if Segment.isAtMark (ObjectFile.seg o i) source
            then Segment.appendHeader (ObjectFile.seg o i) ("# from: " +:+ source)
            else ObjectFile.seg o i) in *.
  assert (Hs : SegInv s).
  { subst s. destruct (Segment.isAtMark _ _);
      [apply appendHeader_inv |]; apply (inv_segments o Hi). }
  clearbody s.
  destruct (Segment.requiresAdvanceTo s _); [discriminate |].
  apply bind_Ok in H as (s' & H1 & H). injection H as <-. simpl.
  apply insertByteString_inv in H1; [| exact Hs].
  apply set_seg_inv; [exact Hi |].
  destruct (0 <? String.length (bl_comment b))%nat;
    [now apply appendAnnotation_inv | exact H1].
Qed.

Lemma biasSym_inv (o : ObjectFile.t) (source : string) (i : nat)
    (upper : bool) (ident : string) (value : Z) :
  ObjInv o ->
  ObjInv (fst (ObjectFile.biasSym o source i upper ident value)) /\
  ObjectFile.symTab (fst (ObjectFile.biasSym o source i upper ident value)) =
  ObjectFile.symTab o.
Proof.
  intros Hi. unfold ObjectFile.biasSym. simpl.
  assert (Hu : ObjInv (if upper
                       then ObjectFile.with_unresolved o
                              (ObjectFile.unresolved o ∖ {[ident]})
                       else o) /\
               ObjectFile.symTab (if upper
                       then ObjectFile.with_unresolved o
                              (ObjectFile.unresolved o ∖ {[ident]})
                       else o) = ObjectFile.symTab o).
  { destruct upper; [| auto]. destruct Hi as [Hs Hw]. split; [split |]; auto. }
  destruct Hu as [Hu Hst]. split; [| exact Hst].
  apply set_seg_inv; [exact Hu |].
  apply insertLabel_inv, (inv_segments _ Hu).
Qed.

Lemma symSwitch_inv (o : ObjectFile.t) (source : string) (l : SymLine) :
  ObjInv o ->
  ObjInv (fst (ObjectFile.symSwitch o source l)) /\
  ObjectFile.symTab (fst (ObjectFile.symSwitch o source l)) = ObjectFile.symTab o.
Proof.
  intros Hi. unfold ObjectFile.symSwitch.
  repeat match goal with
         | |- context [if ?b then _ else _] =>
             destruct b; [now apply biasSym_inv |]
         end.
  auto.
Qed.

Lemma keeps_refl (o : ObjectFile.t) : keeps o o.
Proof. split; auto. Qed.

Lemma keeps_trans (o1 o2 o3 : ObjectFile.t) :
  keeps o1 o2 -> keeps o2 o3 -> keeps o1 o3.
Proof. intros [A1 B1] [A2 B2]. split; auto. Qed.

Lemma keeps_same_symTab (o o' : ObjectFile.t) :
  (ObjInv o -> ObjInv o') ->
  ObjectFile.symTab o' = ObjectFile.symTab o -> keeps o o'.
Proof. intros Hi E. split; [exact Hi |]. intros id e. now rewrite E. Qed.

Lemma readTextData_keeps (o o' : ObjectFile.t) (i : nat) (a : option Z)
    (source : string) :
  ObjectFile.readTextData o i a source = Ok o' -> keeps o o'.
Proof.
  intros H. apply keeps_same_symTab.
  - intros Hi. eapply readTextData_inv; eassumption.
  - unfold ObjectFile.readTextData in H.
    apply bind_Ok in H as (s & _ & H). now injection H as <-.
Qed.

Lemma readBss_keeps (o o' : ObjectFile.t) (args : option (Z * Z))
    (source : string) :
  ObjectFile.readBss o args source = Ok o' -> keeps o o'.
Proof.
  intros H. apply keeps_same_symTab.
  - intros Hi. eapply readBss_inv; eassumption.
  - unfold ObjectFile.readBss in H. destruct args as [[al sz]|]; [| discriminate].
    apply bind_Ok in H as (s1 & _ & H).
    apply bind_Ok in H as (s2 & _ & H). now injection H as <-.
Qed.

Lemma readBytes_keeps (o : ObjectFile.t) (i : nat) (base : Z)
    (source : string) (b : ByteLine) (r : ObjectFile.t * Z) :
  ObjectFile.readBytes o i base source b = Ok r -> keeps o (fst r).
Proof.
  intros H. apply keeps_same_symTab.
  - intros Hi. eapply readBytes_inv; eassumption.
  - unfold ObjectFile.readBytes in H.
    destruct (Segment.requiresAdvanceTo _ _); [discriminate |].
    apply bind_Ok in H as (s & _ & H). now injection H as <-.
Qed.

Lemma readSym_keeps (o o' : ObjectFile.t) (source : string) (l : SymLine) :
  ObjectFile.readSym o source l = Ok o' -> keeps o o'.
Proof.
  intros H. unfold ObjectFile.readSym in H.
  pose proof (symSwitch_inv o source l) as Hsw.
  set (o1 := fst (ObjectFile.symSwitch o source l)) in *.
  set (value := snd (ObjectFile.symSwitch o source l)) in *.
  assert (K1 : keeps o o1).
  { split; [intros Hi; now apply Hsw |].
    intros id e He. destruct (ObjectFile.symSwitch o source l) as [o2 v2] eqn:E.
    subst o1. simpl.
    assert (Hst : ObjectFile.symTab o2 = ObjectFile.symTab o).
    { unfold ObjectFile.symSwitch, ObjectFile.biasSym in E.
      repeat match type of E with
             | (if ?b then _ else _) = _ => destruct b
             end; injection E as <- _; simpl; try reflexivity;
        repeat match goal with |- context [if ?b then _ else _] => destruct b end;
        reflexivity. }
    now rewrite Hst. }
  clearbody o1 value. clear Hsw.
  apply (keeps_trans o o1 o'); [exact K1 |].
  destruct (Ascii.eqb (sl_kind l) "U").
  { injection H as <-. destruct (_ || _).
    - apply keeps_same_symTab; [| reflexivity].
      intros [Hs Hw]. split; assumption.
    - apply keeps_refl. }
  destruct (Ascii.eqb (firstChar (sl_ident l)) ".") eqn:Hdot.
  { injection H as <-. apply keeps_refl. }
  destruct (negb ((toupper (toInt (sl_kind l)) =? toInt (sl_kind l)))).
  { injection H as <-. apply keeps_same_symTab; [| reflexivity].
    intros [Hs Hw]. split; assumption. }
  destruct (SMap.count (sl_ident l) (ObjectFile.symTab o1)) eqn:Hc;
    [discriminate |].
  injection H as <-. split.
  - intros [Hs Hw]. split; [exact Hs |].
    unfold symTab_wf in *. simpl.
    apply wfKeys_set; [exact Hw |]. unfold noDot. now rewrite Hdot.
  - intros id e He. simpl.
    destruct (String.eqb id (sl_ident l)) eqn:E.
    + apply String.eqb_eq in E. subst id.
      unfold SMap.count in Hc. now rewrite He in Hc.
    + apply String.eqb_neq in E. now rewrite find_set_ne.
Qed.

Lemma readFixup_keeps (o o' : ObjectFile.t) (source : string) (l : FixLine) :
  ObjectFile.readFixup o source l = Ok o' -> keeps o o'.
Proof.
  intros H. unfold ObjectFile.readFixup in H.
  apply bind_Ok in H as (u1 & _ & H).
  apply bind_Ok in H as (u2 & _ & H). injection H as <-.
  apply keeps_same_symTab; [| reflexivity].
  intros [Hs Hw]. split; assumption.
Qed.

Lemma readLine_keeps (source : string) (st st' : ObjectFile.Locals)
    (line : Line) :
  ObjectFile.readLine source st line = Ok st' ->
  keeps (ObjectFile.obj st) (ObjectFile.obj st').
Proof.
  intros H. destruct line; simpl in H.
  - apply bind_Ok in H as (o' & H1 & H). injection H as <-.
    eapply readTextData_keeps; eassumption.
  - apply bind_Ok in H as (o' & H1 & H). injection H as <-.
    eapply readTextData_keeps; eassumption.
  - apply bind_Ok in H as (o' & H1 & H). injection H as <-.
    eapply readBss_keeps; eassumption.
  - injection H as <-. apply keeps_refl.
  - injection H as <-. apply keeps_refl.
  - injection H as <-. apply keeps_refl.
  - injection H as <-. apply keeps_refl.
  - destruct ((ObjectFile.cur st =? 0) || (ObjectFile.cur st =? 1)).
    { apply bind_Ok in H as (r & H1 & H). injection H as <-.
      eapply readBytes_keeps; eassumption. }
    destruct (ObjectFile.cur st =? 3).
    { apply bind_Ok in H as (o' & H1 & H). injection H as <-.
      eapply readSym_keeps; eassumption. }
    destruct (ObjectFile.cur st =? 4).
    { apply bind_Ok in H as (o' & H1 & H). injection H as <-.
      eapply readFixup_keeps; eassumption. }
    injection H as <-. apply keeps_refl.
Qed.

Lemma readLines_keeps (source : string) (ls : list Line) :
  forall st st',
    ObjectFile.readLines source st ls = Ok st' ->
    keeps (ObjectFile.obj st) (ObjectFile.obj st').
Proof.
  induction ls as [|l ls IH]; intros st st' H;
    cbn [ObjectFile.readLines] in H.
  - injection H as <-. apply keeps_refl.
  - apply bind_Ok in H as (st1 & H1 & H).
    eapply keeps_trans; [eapply readLine_keeps; eassumption | now apply IH].
Qed.

Lemma readSegments_keeps (o o' : ObjectFile.t) (text : option Text)
    (source : string) :
  ObjectFile.readSegments o text source = Ok o' -> keeps o o'.
Proof.
  intros H. unfold ObjectFile.readSegments in H.
  destruct text as [tx|]; [| discriminate].
  destruct (startsWithHash tx); [| discriminate].
  apply bind_Ok in H as (st & H1 & H). injection H as <-.
  now apply readLines_keeps in H1.
Qed.

Lemma readMembers_keeps (file : string) (members : SMap.t Text) :
  forall o o', ObjectFile.readMembers o file members = Ok o' -> keeps o o'.
Proof.
  induction members as [|[name body] ms IH]; intros o o' H;
    cbn [ObjectFile.readMembers] in H.
  - injection H as <-. apply keeps_refl.
  - apply bind_Ok in H as (o1 & H1 & H).
    eapply keeps_trans; [eapply readSegments_keeps; eassumption | now apply IH].
Qed.

Lemma readIndexed_keeps (fuel : nat) (file : string)
    (archive : Ar.archive_reader) (idx : Text) :
  forall o resolved r,
    ObjectFile.readIndexed fuel o file archive idx resolved = Ok r ->
    keeps o (fst r).
Proof.
  induction fuel as [|fuel IH]; intros o resolved r H;
    cbn [ObjectFile.readIndexed] in H.
  - destruct (ObjectFile.readSymtabIndex o (index idx)); [discriminate |].
    injection H as <-. apply keeps_refl.
  - destruct (ObjectFile.readSymtabIndex o (index idx)).
    + apply bind_Ok in H as (o1 & H1 & H).
      eapply keeps_trans; [eapply readSegments_keeps; eassumption |].
      eapply IH; eassumption.
    + injection H as <-. apply keeps_refl.
Qed.

Lemma addLibOrObject_keeps (fuel : nat) (fs : FS) (o : ObjectFile.t)
    (file : string) (onlyLibs : bool) (r : ObjectFile.t * Z) :
  ObjectFile.addLibOrObject fuel fs o file onlyLibs = Ok r -> keeps o (fst r).
Proof.
  intros H. unfold ObjectFile.addLibOrObject in H.
  destruct (if ObjectFile.isLibArg file then _ else _) as [[file' archive]|].
  - destruct (SMap.find "__SYMTAB_INDEX" (Ar.members archive)).
    + eapply readIndexed_keeps; eassumption.
    + apply bind_Ok in H as (o1 & H1 & H). injection H as <-.
      eapply readMembers_keeps; eassumption.
  - destruct (negb onlyLibs).
    + destruct (fs file) as [[a|tx]|]; try discriminate.
      apply bind_Ok in H as (o1 & H1 & H). injection H as <-.
      eapply readSegments_keeps; eassumption.
    + injection H as <-. apply keeps_refl.
Qed.

Lemma groupSweep_keeps (fuel : nat) (fs : FS) (group : list string) :
  forall o resolved r,
    groupSweep fuel fs o group resolved = Ok r -> keeps o (fst r).
Proof.
  induction group as [|file group IH]; intros o resolved r H;
    cbn [groupSweep] in H.
  - injection H as <-. apply keeps_refl.
  - apply bind_Ok in H as (r1 & H1 & H).
    eapply keeps_trans; [eapply addLibOrObject_keeps; eassumption |].
    eapply IH; eassumption.
Qed.

Lemma groupLoop_keeps (fuel inner : nat) (fs : FS) (group : list string) :
  forall o o', groupLoop fuel inner fs o group = Ok o' -> keeps o o'.
Proof.
  induction fuel as [|fuel IH]; intros o o' H; cbn [groupLoop] in H;
    [discriminate |].
  apply bind_Ok in H as (r & H1 & H).
  apply groupSweep_keeps in H1.
  destruct (snd r =? 0).
  - now injection H as <-.
  - eapply keeps_trans; [exact H1 | now apply IH].
Qed.

Lemma argLoop_keeps (fuel : nat) (argv : list string) (n : nat) :
  forall i st st',
    argLoop fuel n i argv st = Ok st' ->
    keeps (objectFile st) (objectFile st').
Proof.
  induction n as [|n IH]; intros i st st' H; cbn [argLoop] in H.
  - injection H as <-. apply keeps_refl.
  - destruct (argv !! i) as [a|]; [| injection H as <-; apply keeps_refl].
    destruct (String.eqb a "-o").
    { destruct (argv !! S i); [| discriminate].
      apply bind_Ok in H as (fs' & _ & H). now apply IH in H. }
    destruct (String.eqb a "-textseg").
    { destruct (argv !! S i); [| discriminate]. now apply IH in H. }
    destruct (String.eqb a "-L"); [now apply IH in H |].
    destruct (String.prefix "-L" a); [now apply IH in H |].
    destruct (String.eqb a "--start-group" || String.eqb a "-(");
      [now apply IH in H |].
    destruct (String.eqb a "--end-group" || String.eqb a "-)").
    { destruct (startGroup st); [| discriminate].
      apply bind_Ok in H as (o1 & H1 & H).
      apply groupLoop_keeps in H1. apply IH in H.
      eapply keeps_trans; eassumption. }
    apply bind_Ok in H as (r & H1 & H).
    apply addLibOrObject_keeps in H1. apply IH in H.
    eapply keeps_trans; eassumption.
Qed.

Lemma seg_init (i : nat) (l : SSet.t) :
  SegInv (ObjectFile.seg
            (ObjectFile.mk (replicate ObjectFile.numSegments Segment.init)
               [] [] ∅ [] l) i).
Proof.
  unfold ObjectFile.seg. simpl.
  destruct i as [|[|[|i]]]; simpl; apply init_inv.
Qed.

Lemma libArgs_inv (argv : list string) (n : nat) :
  forall i o o', libArgs n i argv o = Ok o' -> ObjInv o -> ObjInv o'.
Proof.
  induction n as [|n IH]; intros i o o' H Hi; cbn [libArgs] in H.
  - now injection H as <-.
  - destruct (argv !! i) as [a|]; [| now injection H as <-].
    destruct (String.eqb a "-L").
    { destruct (argv !! S i); [| discriminate].
      eapply IH; [exact H |]. destruct Hi as [Hs Hw]. split; assumption. }
    destruct (String.prefix "-L" a).
    { eapply IH; [exact H |]. destruct Hi as [Hs Hw]. split; assumption. }
    eapply IH; eassumption.
Qed.

Lemma init_ObjInv (env : option string) : ObjInv (ObjectFile.init env).
Proof.
  split.
  - intros i. apply seg_init.
  - reflexivity.
Qed.

Lemma processArgs_inv (fuel : nat) (env : option string) (fs : FS)
    (argv : list string) (st : MainState) :
  processArgs fuel env fs argv = Ok st -> ObjInv (objectFile st).
Proof.
  intros H. unfold processArgs in H.
  destruct (Nat.eqb (length argv) 0); [discriminate |].
  apply bind_Ok in H as (o & H1 & H).
  apply libArgs_inv in H1; [| apply init_ObjInv].
  apply argLoop_keeps in H. now apply H.
Qed.

(** ** The lines of [#SYMTAB] and [#FIXUPS] *)

Lemma symSwitch_symTab (o : ObjectFile.t) (source : string) (l : SymLine) :
  ObjectFile.symTab (fst (ObjectFile.symSwitch o source l)) =
  ObjectFile.symTab o.
Proof.
  unfold ObjectFile.symSwitch, ObjectFile.biasSym.
  repeat match goal with
         | |- context [if ?b then _ else _] => destruct b; simpl; try reflexivity
         end.
Qed.

Lemma readSym_wf (o o' : ObjectFile.t) (source : string) (l : SymLine) :
  symTab_wf o -> ObjectFile.readSym o source l = Ok o' -> symTab_wf o'.
Proof.
  intros Hw H. unfold ObjectFile.readSym in H.
  pose proof (symSwitch_symTab o source l) as Hst.
  set (o1 := fst (ObjectFile.symSwitch o source l)) in *.
  assert (Hw1 : symTab_wf o1) by (unfold symTab_wf; now rewrite Hst).
  clearbody o1.
  destruct (Ascii.eqb (sl_kind l) "U").
  { injection H as <-. destruct (_ || _); exact Hw1. }
  destruct (Ascii.eqb (firstChar (sl_ident l)) ".") eqn:Hdot.
  { now injection H as <-. }
  destruct (negb ((toupper (toInt (sl_kind l)) =? toInt (sl_kind l)))).
  { now injection H as <-. }
  destruct (SMap.count (sl_ident l) (ObjectFile.symTab o1)); [discriminate |].
  injection H as <-. unfold symTab_wf in *. simpl.
  apply wfKeys_set; [exact Hw1 |]. unfold noDot. now rewrite Hdot.
Qed.

Lemma isDefinitionKind_upper (k : ascii) :
  isDefinitionKind k = true ->
  Ascii.eqb k "U" = false /\ (toupper (toInt k) =? toInt k) = true.
Proof.
  unfold isDefinitionKind. intros H.
  destruct (Ascii.eqb k "T") eqn:ET.
  { apply Ascii.eqb_eq in ET. subst k. auto. }
  destruct (Ascii.eqb k "D") eqn:ED.
  { apply Ascii.eqb_eq in ED. subst k. auto. }
  destruct (Ascii.eqb k "B") eqn:EB.
  { apply Ascii.eqb_eq in EB. subst k. auto. }
  destruct (Ascii.eqb k "A") eqn:EA; [| discriminate].
  apply Ascii.eqb_eq in EA. subst k. auto.
Qed.

(** A definition of an ident that the global table holds is refused. *)
Lemma readSym_present (o : ObjectFile.t) (source : string) (l : SymLine)
    (e : SymEntry) :
  symTab_wf o ->
  SMap.find (sl_ident l) (ObjectFile.symTab o) = Some e ->
  isDefinitionKind (sl_kind l) = true ->
  ObjectFile.readSym o source l =
  Fail (Throw (" multiple definition of `" +:+ sl_ident l)).
Proof.
  intros Hwf He Hk.
  apply isDefinitionKind_upper in Hk as [HU Hup].
  unfold ObjectFile.readSym.
  rewrite symSwitch_symTab, HU, (symTab_wf_find _ _ _ Hwf He), Hup.
  unfold SMap.count. now rewrite He.
Qed.

Lemma find_push_back {V : Type} (k : string) (v : V) (m : SMap.t (list V)) :
  SMap.find k (SMap.push_back k v m) =
  Some (default [] (SMap.find k m) ++ [v]).
Proof. unfold SMap.push_back. apply find_set_eq. Qed.

(** ** The text segment never moves *)

Lemma patchBytes_base (s s' : Segment.t) (addr n value : Z) :
  Segment.patchBytes s addr n value = Ok s' ->
  Segment.baseAddr s' = Segment.baseAddr s.
Proof.
  unfold Segment.patchBytes. intros H.
  apply bind_Ok in H as (m & _ & H). now injection H as <-.
Qed.

Lemma seg_set_seg_ne (o : ObjectFile.t) (i j : nat) (s : Segment.t) :
  i <> j -> ObjectFile.seg (ObjectFile.set_seg o i s) j = ObjectFile.seg o j.
Proof.
  intros Hne. unfold ObjectFile.seg, ObjectFile.set_seg. simpl.
  now rewrite list_lookup_insert_ne.
Qed.

Lemma seg_set_seg_eq (o : ObjectFile.t) (i : nat) (s : Segment.t) :
  (i < length (ObjectFile.segments o))%nat ->
  ObjectFile.seg (ObjectFile.set_seg o i s) i = s.
Proof.
  intros Hlt. unfold ObjectFile.seg, ObjectFile.set_seg. simpl.
  now rewrite list_lookup_insert_eq.
Qed.

Lemma textAtZero_set_seg (o : ObjectFile.t) (i : nat) (s : Segment.t) :
  textAtZero o -> (i = 0%nat -> Segment.baseAddr s = 0) ->
  textAtZero (ObjectFile.set_seg o i s).
Proof.
  intros Ho Hs. unfold textAtZero.
  destruct (decide (i = 0%nat)) as [-> | Hne].
  - unfold ObjectFile.seg, ObjectFile.set_seg. simpl.
    destruct (decide (0 < length (ObjectFile.segments o))%nat).
    + rewrite list_lookup_insert_eq by assumption. simpl. now apply Hs.
    + rewrite list_insert_ge by lia. exact Ho.
  - rewrite seg_set_seg_ne by exact Hne. exact Ho.
Qed.

Section Relocation.

Variables textAddr dataAddr bssAddr : Z.

Lemma applyFixup_textAtZero (o o' : ObjectFile.t) (ident : string)
    (f : FixEntry.t) :
  ObjectFile.applyFixup textAddr dataAddr bssAddr o ident f = Ok o' ->
  textAtZero o -> textAtZero o'.
Proof.
  unfold ObjectFile.applyFixup. intros H Ho.
  apply bind_Ok in H as (site & H1 & H).
  apply bind_Ok in H as (v1 & _ & H).
  apply bind_Ok in H as (v2 & _ & H).
  apply bind_Ok in H as (s & Hs & H). injection H as <-.
  apply textAtZero_set_seg; [exact Ho |].
  intros E. rewrite E in Hs. apply patchBytes_base in Hs. now rewrite Hs.
Qed.

Lemma applyFixups_textAtZero (ident : string) (fs : list FixEntry.t) :
  forall o o',
    ObjectFile.applyFixups textAddr dataAddr bssAddr o ident fs = Ok o' ->
    textAtZero o -> textAtZero o'.
Proof.
  induction fs as [|f fs IH]; intros o o' H Ho;
    cbn [ObjectFile.applyFixups] in H.
  - now injection H as <-.
  - apply bind_Ok in H as (o1 & H1 & H).
    eapply IH; [exact H |]. eapply applyFixup_textAtZero; eassumption.
Qed.

Lemma resolveFixables_textAtZero (fx : SMap.t (list FixEntry.t)) :
  forall o o',
    ObjectFile.resolveFixables textAddr dataAddr bssAddr o fx = Ok o' ->
    textAtZero o -> textAtZero o'.
Proof.
  induction fx as [|[ident fs] fx IH]; intros o o' H Ho;
    cbn [ObjectFile.resolveFixables] in H.
  - now injection H as <-.
  - apply bind_Ok in H as (o1 & H1 & H).
    eapply IH; [exact H |]. eapply applyFixups_textAtZero; eassumption.
Qed.

Lemma applyFixup_passed (o o' : ObjectFile.t) (ident : string)
    (f : FixEntry.t) :
  ObjectFile.applyFixup textAddr dataAddr bssAddr o ident f = Ok o' ->
  fixupPassed textAddr dataAddr bssAddr (ObjectFile.symTab o) ident f /\
  ObjectFile.symTab o' = ObjectFile.symTab o.
Proof.
  unfold ObjectFile.applyFixup. intros H.
  apply bind_Ok in H as ([site i] & H1 & H).
  apply bind_Ok in H as (V & HV & H).
  apply bind_Ok in H as (v & Hv & H).
  apply bind_Ok in H as (s & _ & H). injection H as <-.
  split; [| reflexivity].
  exists site, i, V. split; [exact H1 |]. split; [exact HV |].
  intros Hk. cbn [fst] in Hv. unfold ObjectFile.fixupValue in Hv.
  rewrite Hk in Hv. cbn [String.eqb Ascii.eqb Bool.eqb] in Hv.
  destruct (wrap64 (V - site) mod 4 =? 0) eqn:E; [| discriminate].
  apply Z.eqb_eq in E.
  rewrite <- (Z.mod_mod_divide (V - site) two64 4) by (exists (2 ^ 62); reflexivity).
  exact E.
Qed.

Lemma applyFixups_passed (ident : string) (fs : list FixEntry.t) :
  forall o o',
    ObjectFile.applyFixups textAddr dataAddr bssAddr o ident fs = Ok o' ->
    Forall (fixupPassed textAddr dataAddr bssAddr (ObjectFile.symTab o) ident) fs /\
    ObjectFile.symTab o' = ObjectFile.symTab o.
Proof.
  induction fs as [|f fs IH]; intros o o' H;
    cbn [ObjectFile.applyFixups] in H.
  - injection H as <-. split; [constructor | reflexivity].
  - apply bind_Ok in H as (o1 & H1 & H).
    apply applyFixup_passed in H1 as [Hp E1].
    apply IH in H as [Hps E2]. rewrite E1 in *.
    split; [constructor; assumption | exact E2].
Qed.

Lemma resolveFixables_passed (fx : SMap.t (list FixEntry.t)) :
  forall o o',
    ObjectFile.resolveFixables textAddr dataAddr bssAddr o fx = Ok o' ->
    Forall (fun e =>
              Forall (fixupPassed textAddr dataAddr bssAddr
                        (ObjectFile.symTab o) (fst e)) (snd e)) fx.
Proof.
  induction fx as [|[ident fs] fx IH]; intros o o' H;
    cbn [ObjectFile.resolveFixables] in H.
  - constructor.
  - apply bind_Ok in H as (o1 & H1 & H).
    apply applyFixups_passed in H1 as [Hp E1].
    apply IH in H. rewrite E1 in H.
    constructor; assumption.
Qed.

End Relocation.

Lemma place_textAtZero (o : ObjectFile.t) (p : ObjectFile.Placement) :
  ObjInv o -> ObjectFile.place o = Ok p ->
  textAtZero (ObjectFile.placed p) /\ ObjectFile.textAddr p = 0.
Proof.
  intros Hi H. unfold ObjectFile.place in H.
  apply bind_Ok in H as (dataAddr & _ & H).
  apply bind_Ok in H as (s1 & _ & H).
  apply bind_Ok in H as (s0 & H0 & H).
  apply bind_Ok in H as (bssAddr & _ & H).
  apply bind_Ok in H as (s2 & _ & H).
  apply bind_Ok in H as (st & _ & H). injection H as <-. simpl.
  split; [| apply (inv_base _ (inv_segments o Hi 0%nat))].
  rewrite seg_set_seg_ne in H0 by discriminate.
  apply advanceTo_inv in H0 as [H0 _]; [| apply (inv_segments o Hi)].
  unfold textAtZero.
  change (textAtZero
            (ObjectFile.set_seg
               (ObjectFile.set_seg (ObjectFile.set_seg o 1 s1) 0 s0) 2 s2)).
  apply textAtZero_set_seg; [| discriminate].
  apply textAtZero_set_seg; [| intros _; apply (inv_base _ H0)].
  apply textAtZero_set_seg; [| discriminate].
  apply (inv_base _ (inv_segments o Hi 0%nat)).
Qed.

(** ** Relocation arithmetic *)

Lemma wrap64_mod4 (z : Z) : wrap64 z mod 4 = z mod 4.
Proof.
  unfold wrap64. apply Z.mod_mod_divide.
  exists (2 ^ 62). reflexivity.
Qed.

Lemma wrap64_div4 (z : Z) : wrap64 z / 4 = (z / 4) mod 2 ^ 62.
Proof.
  unfold wrap64. change two64 with (4 * 2 ^ 62).
  rewrite Z.rem_mul_r by lia.
  rewrite (Z.mul_comm 4), Z.div_add by lia.
  rewrite (Z.div_small (z mod 4)) by (apply Z.mod_pos_bound; lia).
  reflexivity.
Qed.

(** In a field of up to seven bytes the unsigned quotient and the exact
    one are the same two's-complement number. *)
Lemma field_of_quotient (z n : Z) :
  0 <= n <= 7 ->
  (wrap64 z / 4) mod 2 ^ (8 * n) = (z / 4) mod 2 ^ (8 * n).
Proof.
  intros Hn. rewrite wrap64_div4. apply Z.mod_mod_divide.
  exists (2 ^ (62 - 8 * n)). rewrite <- Z.pow_add_r by lia.
  f_equal. lia.
Qed.

Lemma fixupSite_addr (textAddr dataAddr : Z) (f : FixEntry.t) (site : Z)
    (i : nat) :
  ObjectFile.fixupSite textAddr dataAddr f = Ok (site, i) ->
  (i = 0%nat /\ site = wrap64 (FixEntry.addr f + textAddr)) \/
  (i = 1%nat /\ site = wrap64 (FixEntry.addr f + dataAddr)).
Proof.
  unfold ObjectFile.fixupSite. intros H.
  destruct (String.eqb (FixEntry.segment f) "text").
  - injection H as <- <-. auto.
  - destruct (String.eqb (FixEntry.segment f) "data"); [| discriminate].
    injection H as <- <-. auto.
Qed.

(** In a field of up to seven bytes every byte of the unsigned quotient
    is the byte of the exact one. *)
Lemma quotient_byte (d n k : Z) :
  0 <= k < n -> n <= 7 ->
  Z.land (Z.shiftr (wrap64 d / 4) (8 * (n - 1 - k))) 255 =
  Z.land (Z.shiftr (d / 4) (8 * (n - 1 - k))) 255.
Proof.
  intros Hk Hn. rewrite wrap64_div4.
  apply Z.bits_inj'. intros j Hj.
  rewrite !Z.land_spec, !Z.shiftr_spec by lia.
  destruct (Z.ltb_spec j 8) as [Hlt | Hge].
  - rewrite Z.mod_pow2_bits_low by lia. reflexivity.
  - change 255 with (Z.ones 8). rewrite Z.ones_spec_high by lia.
    now rewrite !andb_false_r.
Qed.

Lemma patchBytes_halfword (s : Segment.t) (addr value : Z) :
  Segment.memory s !! patchSite s addr 0 <> None ->
  Segment.memory s !! patchSite s addr 1 <> None ->
  exists s',
    Segment.patchBytes s addr 2 value = Ok s' /\
    Segment.memory s' !! patchSite s addr 0 =
      Some (Z.land (Z.shiftr value 8) 255) /\
    Segment.memory s' !! patchSite s addr 1 = Some (Z.land value 255).
Proof.
  unfold patchSite. intros H0 H1.
  set (a := wrap64 (addr - Segment.baseAddr s)) in *.
  destruct (patchLoop_present 2 a value (Segment.memory s)) as [m' Hm'].
  { intros j Hj. apply not_eq_None_Some.
    assert (E : j = 0 \/ j = 1) by lia. destruct E as [-> | ->]; assumption. }
  exists (Segment.with_memory s m').
  unfold Segment.patchBytes. fold a.
  change (Z.to_nat 2) with 2%nat. rewrite Hm'. split; [reflexivity |].
  apply patchLoop_spec in Hm' as [Hin _]; [| unfold two64; lia].
  cbn [Segment.with_memory Segment.memory]. split.
  - now rewrite (Hin 0) by lia.
  - rewrite (Hin 1) by lia. now rewrite Z.shiftr_0_r.
Qed.

(** ** The directory of an archive *)


Lemma insert_Some {V : Type} (k : string) (v : V) (m m' : SMap.t V) :
  SMap.insert k v m = Some m' ->
  SMap.find k m = None /\ m' = SMap.set k v m.
Proof.
  unfold SMap.insert, SMap.count. destruct (SMap.find k m); [discriminate |].
  intros H. injection H as <-. auto.
Qed.



(** ** Two definitions of one ident *)

Lemma readLine_cur (source : string) (st st' : ObjectFile.Locals) (l : Line) :
  ObjectFile.readLine source st l = Ok st' ->
  ObjectFile.cur st' = nextCur (ObjectFile.cur st) l.
Proof.
  intros H. destruct l; simpl in H;
    try (apply bind_Ok in H as (x & _ & H)); try (now injection H as <-).
  destruct ((ObjectFile.cur st =? 0) || (ObjectFile.cur st =? 1)).
  { apply bind_Ok in H as (x & _ & H). now injection H as <-. }
  destruct (ObjectFile.cur st =? 3).
  { apply bind_Ok in H as (x & _ & H). now injection H as <-. }
  destruct (ObjectFile.cur st =? 4).
  { apply bind_Ok in H as (x & _ & H). now injection H as <-. }
  now injection H as <-.
Qed.

Lemma readSym_defines (o o' : ObjectFile.t) (source : string) (l : SymLine) :
  ObjectFile.readSym o source l = Ok o' ->
  isDefinitionKind (sl_kind l) = true ->
  Ascii.eqb (firstChar (sl_ident l)) "." = false ->
  SMap.find (sl_ident l) (ObjectFile.symTab o) = None /\
  is_Some (SMap.find (sl_ident l) (ObjectFile.symTab o')).
Proof.
  intros H Hk Hdot. unfold ObjectFile.readSym in H.
  apply isDefinitionKind_upper in Hk as [HU Hup].
  rewrite HU, Hdot, Hup in H. cbn [negb] in H.
  rewrite symSwitch_symTab in H.
  unfold SMap.count in H.
  destruct (SMap.find (sl_ident l) (ObjectFile.symTab o)) eqn:Hf;
    [discriminate |].
  injection H as <-. split; [reflexivity |]. simpl.
  rewrite find_set_eq. eauto.
Qed.

Lemma readLines_defines (source id : string) (ls : list Line) :
  forall st st',
    ObjectFile.readLines source st ls = Ok st' ->
    definesFrom (ObjectFile.cur st) ls id = true ->
    SMap.find id (ObjectFile.symTab (ObjectFile.obj st)) = None /\
    is_Some (SMap.find id (ObjectFile.symTab (ObjectFile.obj st'))).
Proof.
  induction ls as [|l ls IH]; intros st st' H Hd;
    cbn [ObjectFile.readLines] in H; simpl in Hd; [discriminate |].
  apply bind_Ok in H as (st1 & H1 & H).
  pose proof (readLine_cur _ _ _ _ H1) as Hcur.
  pose proof (readLine_keeps _ _ _ _ H1) as [_ K1].
  pose proof (readLines_keeps _ _ _ _ H) as [_ K2].
  apply orb_true_iff in Hd as [Hd | Hd].
  - destruct l; try discriminate. simpl in Hd.
    apply andb_true_iff in Hd as [Hd Hnd].
    apply andb_true_iff in Hd as [Hd Hid].
    apply andb_true_iff in Hd as [H3 Hk].
    apply String.eqb_eq in Hid. subst id.
    apply negb_true_iff in Hnd.
    simpl in H1. apply Z.eqb_eq in H3. rewrite H3 in H1. simpl in H1.
    apply bind_Ok in H1 as (o1 & H1 & E). injection E as <-.
    apply readSym_defines in H1 as [Hn [e He]]; [| assumption | assumption].
    split; [exact Hn |]. simpl in K2. apply K2 in He. eauto.
  - rewrite <- Hcur in Hd. destruct (IH _ _ H Hd) as [Hn Hs].
    split; [| exact Hs].
    destruct (SMap.find id (ObjectFile.symTab (ObjectFile.obj st))) eqn:E;
      [| reflexivity].
    apply K1 in E. congruence.
Qed.

Lemma readSegments_defines (o o' : ObjectFile.t) (tx : Text)
    (source id : string) :
  ObjectFile.readSegments o (Some tx) source = Ok o' ->
  defines tx id = true ->
  SMap.find id (ObjectFile.symTab o) = None /\
  is_Some (SMap.find id (ObjectFile.symTab o')).
Proof.
  unfold ObjectFile.readSegments, defines. intros H Hd.
  destruct (startsWithHash tx); [| discriminate].
  apply bind_Ok in H as (st & H1 & H). injection H as <-.
  apply (readLines_defines source id) in H1; [exact H1 | exact Hd].
Qed.




(** ** More fuel does not change a result *)

Lemma readIndexed_fuel (fuel k : nat) (file : string)
    (archive : Ar.archive_reader) (idx : Text) :
  forall o resolved r,
    ObjectFile.readIndexed fuel o file archive idx resolved = r ->
    r <> Fail OutOfFuel ->
    ObjectFile.readIndexed (fuel + k) o file archive idx resolved = r.
Proof.
  induction fuel as [|fuel IH]; intros o resolved r H Hr.
  - cbn [ObjectFile.readIndexed] in H.
    destruct (ObjectFile.readSymtabIndex o (index idx)) eqn:E;
      [congruence |].
    destruct k; cbn [Nat.add ObjectFile.readIndexed]; now rewrite E.
  - cbn [Nat.add ObjectFile.readIndexed] in *.
    destruct (ObjectFile.readSymtabIndex o (index idx)); [| exact H].
    destruct (ObjectFile.readSegments o _ _) as [o1|e]; cbn [bind] in *;
      [now apply IH | exact H].
Qed.

Lemma addLibOrObject_fuel (fuel k : nat) (fs : FS) (o : ObjectFile.t)
    (file : string) (onlyLibs : bool) (r : Result (ObjectFile.t * Z)) :
  ObjectFile.addLibOrObject fuel fs o file onlyLibs = r ->
  r <> Fail OutOfFuel ->
  ObjectFile.addLibOrObject (fuel + k) fs o file onlyLibs = r.
Proof.
  unfold ObjectFile.addLibOrObject. intros H Hr.
  destruct (if ObjectFile.isLibArg file then _ else _) as [[file' archive]|];
    [| exact H].
  destruct (SMap.find "__SYMTAB_INDEX" (Ar.members archive)); [| exact H].
  now apply readIndexed_fuel.
Qed.

Lemma bind_not_fuel {A B : Type} (c : Result A) (g : A -> Result B)
    (r : Result B) :
  bind c g = r -> r <> Fail OutOfFuel -> c <> Fail OutOfFuel.
Proof. intros H Hr E. rewrite E in H. simpl in H. congruence. Qed.

Lemma groupSweep_fuel (fuel k : nat) (fs : FS) (group : list string) :
  forall o resolved r,
    groupSweep fuel fs o group resolved = r ->
    r <> Fail OutOfFuel ->
    groupSweep (fuel + k) fs o group resolved = r.
Proof.
  induction group as [|file group IH]; intros o resolved r H Hr;
    cbn [groupSweep] in *; [exact H |].
  pose proof (bind_not_fuel _ _ _ H Hr) as Hc.
  rewrite (addLibOrObject_fuel fuel k fs o file true _ eq_refl Hc).
  destruct (ObjectFile.addLibOrObject fuel fs o file true) as [r1|e];
    cbn [bind] in *; [now apply IH | exact H].
Qed.

Lemma groupLoop_fuel (fuel k inner k' : nat) (fs : FS) (group : list string) :
  forall o r,
    groupLoop fuel inner fs o group = r ->
    r <> Fail OutOfFuel ->
    groupLoop (fuel + k) (inner + k') fs o group = r.
Proof.
  induction fuel as [|fuel IH]; intros o r H Hr;
    cbn [Nat.add groupLoop] in *; [congruence |].
  pose proof (bind_not_fuel _ _ _ H Hr) as Hc.
  rewrite (groupSweep_fuel inner k' fs group o 0 _ eq_refl Hc).
  destruct (groupSweep inner fs o group 0) as [r1|e]; cbn [bind] in *;
    [| exact H].
  destruct (snd r1 =? 0); [exact H | now apply IH].
Qed.

Lemma argLoop_fuel (fuel k : nat) (argv : list string) (n : nat) :
  forall i st r,
    argLoop fuel n i argv st = r ->
    r <> Fail OutOfFuel ->
    argLoop (fuel + k) n i argv st = r.
Proof.
  induction n as [|n IH]; intros i st r H Hr; cbn [argLoop] in *;
    [exact H |].
  destruct (argv !! i) as [a|]; [| exact H].
  destruct (String.eqb a "-o").
  { destruct (argv !! S i); [| exact H].
    destruct (open_executable (files st) _) as [fs'|e]; cbn [bind] in *;
      [now apply IH | exact H]. }
  destruct (String.eqb a "-textseg").
  { destruct (argv !! S i); [now apply IH | exact H]. }
  destruct (String.eqb a "-L"); [now apply IH |].
  destruct (String.prefix "-L" a); [now apply IH |].
  destruct (String.eqb a "--start-group" || String.eqb a "-(");
    [now apply IH |].
  destruct (String.eqb a "--end-group" || String.eqb a "-)").
  { destruct (startGroup st) as [g|]; [| exact H].
    pose proof (bind_not_fuel _ _ _ H Hr) as Hc.
    rewrite (groupLoop_fuel fuel k fuel k _ _ _ _ eq_refl Hc).
    destruct (groupLoop fuel fuel _ _ _) as [o1|e]; cbn [bind] in *;
      [now apply IH | exact H]. }
  pose proof (bind_not_fuel _ _ _ H Hr) as Hc.
  rewrite (addLibOrObject_fuel fuel k _ _ _ _ _ eq_refl Hc).
  destruct (ObjectFile.addLibOrObject fuel _ _ _ _) as [r1|e]; cbn [bind] in *;
    [now apply IH | exact H].
Qed.

Lemma processArgs_fuel (fuel k : nat) (env : option string) (fs : FS)
    (argv : list string) (r : Result MainState) :
  processArgs fuel env fs argv = r ->
  r <> Fail OutOfFuel ->
  processArgs (fuel + k) env fs argv = r.
Proof.
  unfold processArgs. intros H Hr.
  destruct (Nat.eqb (length argv) 0); [exact H |].
  destruct (libArgs _ _ _ _) as [o|e]; cbn [bind] in *; [| exact H].
  now apply argLoop_fuel.
Qed.

Lemma main_fuel (fuel k : nat) (env : option string) (fs : FS)
    (argv : list string) (r : Result ObjectFile.t) :
  main fuel env fs argv = r ->
  r <> Fail OutOfFuel ->
  main (fuel + k) env fs argv = r.
Proof.
  unfold main. intros H Hr.
  pose proof (bind_not_fuel _ _ _ H Hr) as Hc.
  now rewrite (processArgs_fuel fuel k env fs argv _ eq_refl Hc).
Qed.



(** ** The operations keep the base address *)

Lemma appendByte_base (s s' : Segment.t) (b : Z) :
  Segment.appendByte s b = Ok s' -> Segment.baseAddr s' = Segment.baseAddr s.
Proof.
  unfold Segment.appendByte. intros H.
  apply bind_Ok in H as (m & _ & H). now injection H as <-.
Qed.

Lemma advanceLoop_base (budget : nat) :
  forall (addr : Z) (s s' : Segment.t),
    Segment.advanceLoop budget addr s = Ok s' ->
    Segment.baseAddr s' = Segment.baseAddr s.
Proof.
  induction budget as [|n IH]; intros addr s s' H; simpl in H.
  - destruct (addr >? Segment.size s); [discriminate | congruence].
  - destruct (addr >? Segment.size s); [| congruence].
    apply bind_Ok in H as (s1 & H1 & H2).
    apply appendByte_base in H1. apply IH in H2. congruence.
Qed.

Lemma advanceTo_base (s s' : Segment.t) (addr : Z) :
  Segment.advanceTo s addr = Ok s' ->
  Segment.baseAddr s' = Segment.baseAddr s.
Proof.
  unfold Segment.advanceTo. intros H.
  apply bind_Ok in H as (u & _ & H).
  apply bind_Ok in H as (s1 & H1 & H).
  apply bind_Ok in H as (u' & _ & H). injection H as <-.
  apply advanceLoop_base in H1.
  destruct (Segment.size s1 =? Segment.size s); [exact H1 |].
  exact H1.
Qed.

Lemma setBaseAddr_base (s s' : Segment.t) (b : Z) :
  Segment.setBaseAddr s b = Ok s' -> Segment.baseAddr s' = b.
Proof.
  unfold Segment.setBaseAddr. intros H.
  destruct (Segment.alignment s =? 0); [discriminate |].
  apply bind_Ok in H as (u & _ & H). now injection H as <-.
Qed.

(** ** Alignment and padding of a segment *)

Lemma alignAddr_spec (addr alignTo : Z) :
  0 <= addr -> 0 < alignTo -> addr + alignTo <= two64 ->
  exists r, alignAddr addr alignTo = Ok r /\
            r mod alignTo = 0 /\ addr <= r < addr + alignTo.
Proof.
  intros Ha Hal Hr. unfold alignAddr.
  destruct (alignTo =? 0) eqn:E; [apply Z.eqb_eq in E; lia |].
  eexists; split; [reflexivity |].
  rewrite (wrap64_small (addr + alignTo - 1)) by lia.
  pose proof (Z.div_mod (addr + alignTo - 1) alignTo ltac:(lia)) as D.
  pose proof (Z.mod_pos_bound (addr + alignTo - 1) alignTo Hal) as B.
  set (q := (addr + alignTo - 1) / alignTo) in *.
  assert (0 <= q * alignTo < two64) by nia.
  rewrite wrap64_small by assumption.
  split; [apply Z.mod_mul; lia | nia].
Qed.

Lemma gtb_false (a b : Z) : a <= b -> (a >? b) = false.
Proof. intros H. rewrite Z.gtb_ltb. now apply Z.ltb_ge. Qed.

Lemma gtb_true (a b : Z) : b < a -> (a >? b) = true.
Proof. intros H. rewrite Z.gtb_ltb. now apply Z.ltb_lt. Qed.

Lemma with_memory_same (s : Segment.t) : Segment.with_memory s (Segment.memory s) = s.
Proof. now destruct s. Qed.

Lemma three_bytes_inv : SegInv three_bytes.
Proof.
  apply (insertByteString_inv Segment.init three_bytes 0 "AABBCC" init_inv).
  vm_compute. reflexivity.
Qed.

Lemma advanceLoop_fill (budget : nat) :
  forall (addr : Z) (s : Segment.t),
    SegInv s -> Segment.size s <= addr -> addr <= map_max_size ->
    addr - Segment.size s <= Z.of_nat budget ->
    exists m,
      Segment.advanceLoop budget addr s = Ok (Segment.with_memory s m) /\
      SegInv (Segment.with_memory s m) /\
      Segment.size (Segment.with_memory s m) = addr /\
      (forall k, 0 <= k < Segment.size s -> m !! k = Segment.memory s !! k) /\
      (forall k, Segment.size s <= k < addr -> m !! k = Some (Segment.fill s)).
Proof.
  induction budget as [|n IH]; intros addr s Hi Hle Hmax Hb;
    cbn [Segment.advanceLoop].
  - assert (E : addr = Segment.size s) by lia.
    rewrite gtb_false by lia.
    exists (Segment.memory s). rewrite with_memory_same.
    split; [reflexivity |]. split; [exact Hi |]. split; [lia |].
    split; [reflexivity | intros; lia].
  - destruct (addr >? Segment.size s) eqn:Hgt.
    + rewrite Z.gtb_ltb in Hgt. apply Z.ltb_lt in Hgt.
      pose proof (size_of_inv s Hi) as Hsz.
      assert (Ha : Segment.appendByte s (Segment.fill s) =
                   Ok (Segment.with_memory s
                         (<[Segment.size s := Segment.fill s]> (Segment.memory s)))).
      { unfold Segment.appendByte, mem_store.
        assert (Hn : Segment.memory s !! Segment.size s = None).
        { apply eq_None_not_Some. intros Hs.
          apply (inv_contiguous s Hi) in Hs. lia. }
        rewrite Hn.
        replace (Z.of_nat (size (Segment.memory s)) <? map_max_size) with true
          by (symmetry; apply Z.ltb_lt; lia).
        reflexivity. }
      rewrite Ha. cbn [bind].
      set (s1 := Segment.with_memory s _).
      destruct (appendByte_inv s s1 (Segment.fill s) Hi Ha) as (Hi1 & Hs1 & Hf1).
      destruct (IH addr s1 Hi1 ltac:(lia) Hmax ltac:(lia))
        as (m & Hm & Him & Hsm & Hold & Hnew).
      exists m. split; [exact Hm |]. split; [exact Him |]. split; [exact Hsm |].
      split.
      * intros k Hk. rewrite Hold by lia. subst s1. simpl.
        apply lookup_insert_ne. lia.
      * intros k Hk. destruct (Z.eq_dec k (Segment.size s)) as [-> | Hne].
        -- rewrite Hold by lia. subst s1. simpl. apply lookup_insert_eq.
        -- rewrite Hnew by lia. reflexivity.
    + rewrite Z.gtb_ltb in Hgt. apply Z.ltb_ge in Hgt.
      assert (E : addr = Segment.size s) by lia.
      exists (Segment.memory s). rewrite with_memory_same.
      split; [reflexivity |]. split; [exact Hi |]. split; [lia |].
    split; [reflexivity | intros; lia].
Qed.

Lemma size_appendAnnotation (s : Segment.t) (text : string) :
  Segment.size (Segment.appendAnnotation s text) = Segment.size s.
Proof. reflexivity. Qed.

(** [advanceTo] on a segment of the parse phase: the padding. *)
Lemma advanceTo_spec (s : Segment.t) (addr : Z) :
  SegInv s -> Segment.size s <= addr <= map_max_size ->
  exists s',
    Segment.advanceTo s addr = Ok s' /\ SegInv s' /\
    Segment.size s' = addr /\
    Segment.alignment s' = Segment.alignment s /\
    Segment.fill s' = Segment.fill s /\
    Segment.mark s' = Segment.mark s /\
    (addr = Segment.size s -> s' = s) /\
    (forall k, 0 <= k < Segment.size s ->
       Segment.memory s' !! k = Segment.memory s !! k) /\
    (forall k, Segment.size s <= k < addr ->
       Segment.memory s' !! k = Some (Segment.fill s)).
Proof.
  intros Hi [Hle Hmax]. unfold Segment.advanceTo.
  rewrite (inv_base s Hi), Z.sub_0_r.
  pose proof (wrap64_range (Z.of_nat (size (Segment.memory s)))) as Hr.
  fold (Segment.size s) in Hr.
  rewrite wrap64_small by (unfold map_max_size in Hmax; lia).
  replace (addr >=? Segment.size s) with true
    by (symmetry; apply Z.geb_le; lia).
  cbn [assert bind].
  destruct (advanceLoop_fill (Z.to_nat (addr - Segment.size s)) addr s Hi Hle Hmax
              ltac:(lia)) as (m & Hm & Him & Hsm & Hold & Hnew).
  rewrite Hm. cbn [bind].
  destruct (Segment.size (Segment.with_memory s m) =? Segment.size s) eqn:E.
  - rewrite Hsm, Z.eqb_refl. cbn [assert bind].
    eexists. split; [reflexivity |]. split; [exact Him |].
    split; [exact Hsm |]. do 3 (split; [reflexivity |]).
    split; [| split; assumption].
    intros _. apply Z.eqb_eq in E.
    assert (Hm' : Segment.advanceLoop (Z.to_nat (addr - Segment.size s)) addr s = Ok s).
    { replace (addr - Segment.size s) with 0 by lia. simpl.
      rewrite gtb_false by lia.
      reflexivity. }
    congruence.
  - rewrite size_appendAnnotation, Hsm, Z.eqb_refl. cbn [assert bind].
    eexists. split; [reflexivity |].
    split; [now apply appendAnnotation_inv |].
    split; [exact Hsm |]. do 3 (split; [reflexivity |]).
    split; [| split; assumption].
    intros ->. rewrite Hsm, Z.eqb_refl in E. discriminate.
Qed.

(** [patchBytes] within the store *)
Lemma patchLoop_inside (i : nat) :
  forall (addr value : Z) (m : gmap Z Z),
    contiguous m -> Z.of_nat (size m) <= map_max_size ->
    0 <= addr -> addr + Z.of_nat i <= Z.of_nat (size m) ->
    exists m', Segment.patchLoop i addr value m = Ok m' /\
               contiguous m' /\ size m' = size m.
Proof.
  induction i as [|i IH]; intros addr value m Hc Hr Ha Hin;
    cbn [Segment.patchLoop].
  - eauto.
  - rewrite wrap64_small by (unfold map_max_size in Hr; lia).
    rewrite mem_store_present by (apply Hc; lia). cbn [bind].
    destruct (insert_inside m (addr + Z.of_nat i) (Z.land value 255) Hc
                ltac:(lia)) as [Hc' Hs'].
    destruct (IH addr (Z.shiftr value 8) _ Hc' ltac:(rewrite Hs'; lia) Ha
                ltac:(rewrite Hs'; lia)) as (m' & Hm' & Hc'' & Hs'').
    exists m'. split; [exact Hm' |]. split; [exact Hc'' | congruence].
Qed.

(** [patchBytes] on offsets that the store does not hold *)
Lemma patchLoop_fresh (i : nat) :
  forall (addr value : Z) (m : gmap Z Z),
    (forall j, 0 <= j < Z.of_nat i -> m !! (addr + j) = None) ->
    Z.of_nat (size m) + Z.of_nat i <= map_max_size ->
    0 <= addr -> addr + Z.of_nat i <= two64 ->
    exists m', Segment.patchLoop i addr value m = Ok m' /\
               Z.of_nat (size m') = Z.of_nat (size m) + Z.of_nat i.
Proof.
  induction i as [|i IH]; intros addr value m Hn Hr Ha Hin;
    cbn [Segment.patchLoop].
  - exists m. split; [reflexivity | lia].
  - rewrite wrap64_small by lia.
    unfold mem_store. rewrite Hn by lia.
    replace (Z.of_nat (size m) <? map_max_size) with true
      by (symmetry; apply Z.ltb_lt; lia).
    cbn [bind].
    assert (Hs : size (<[addr + Z.of_nat i := Z.land value 255]> m) = S (size m)).
    { apply map_size_insert_None, Hn. lia. }
    destruct (IH addr (Z.shiftr value 8)
                (<[addr + Z.of_nat i := Z.land value 255]> m)) as (m' & Hm' & Hs').
    + intros j Hj. rewrite lookup_insert_ne by lia. apply Hn. lia.
    + rewrite Hs. lia.
    + exact Ha.
    + lia.
    + exists m'. split; [exact Hm' |]. rewrite Hs', Hs. lia.
Qed.

(** [setAlignment] on a segment of the parse phase: the padding. *)
Lemma setAlignment_spec (s : Segment.t) (a : Z) :
  SegInv s -> 0 < a -> 0 < Segment.alignment s ->
  Segment.size s + Z.max (Segment.alignment s) a <= map_max_size ->
  exists s',
    Segment.setAlignment s a = Ok s' /\ SegInv s' /\
    Segment.mark s' = Segment.mark s /\
    Segment.alignment s' = Z.max (Segment.alignment s) a /\
    Segment.size s' mod Segment.alignment s' = 0 /\
    Segment.size s <= Segment.size s' < Segment.size s + Segment.alignment s' /\
    (forall k, 0 <= k < Segment.size s ->
       Segment.memory s' !! k = Segment.memory s !! k) /\
    (forall k, Segment.size s <= k < Segment.size s' ->
       Segment.memory s' !! k = Some (Segment.fill s)).
Proof.
  intros Hinv Ha Hal Hroom.
  unfold Segment.setAlignment.
  destruct (a =? 0) eqn:E0; [apply Z.eqb_eq in E0; lia |].
  rewrite (inv_base s Hinv), Z.mod_0_l by lia. cbn [Z.eqb assert bind].
  set (s1 := if a >? Segment.alignment s then Segment.with_alignment s a else s).
  assert (H1 : SegInv s1 /\ Segment.size s1 = Segment.size s /\
               Segment.alignment s1 = Z.max (Segment.alignment s) a /\
               Segment.fill s1 = Segment.fill s /\
               Segment.memory s1 = Segment.memory s /\
               Segment.mark s1 = Segment.mark s).
  { subst s1. destruct (a >? Segment.alignment s) eqn:Hgt.
    - rewrite Z.gtb_ltb in Hgt. apply Z.ltb_lt in Hgt.
      split; [now apply with_alignment_inv |].
      repeat split. simpl. lia.
    - rewrite Z.gtb_ltb in Hgt. apply Z.ltb_ge in Hgt.
      split; [exact Hinv |]. repeat split. lia. }
  destruct H1 as (Hi1 & Hs1 & Ha1 & Hf1 & Hm1 & Hk1).
  pose proof (wrap64_range (Z.of_nat (size (Segment.memory s)))) as Hr.
  fold (Segment.size s) in Hr.
  destruct (alignAddr_spec (Segment.size s1) (Segment.alignment s1))
    as (r & Hr1 & Hr2 & Hr3).
  { lia. } { lia. } { unfold map_max_size in Hroom. lia. }
  rewrite Hr1. cbn [bind].
  destruct (advanceTo_spec s1 r Hi1)
    as (s' & H & Hi' & Hs' & Hal' & _ & Hmk' & _ & Hold & Hnew).
  { lia. }
  exists s'. split; [exact H |]. split; [exact Hi' |].
  split; [congruence |].
  rewrite Hal', Hs', Ha1.
  split; [reflexivity |]. split; [congruence |]. split; [lia |].
  rewrite <- Hs1, <- Hm1, <- Hf1. split; assumption.
Qed.

(** ** What a step of the parse phase changes *)

Lemma readTextData_frame (o o' : ObjectFile.t) (i : nat) (a : option Z)
    (source : string) :
  ObjectFile.readTextData o i a source = Ok o' ->
  exists s, o' = ObjectFile.set_seg o i s.
Proof.
  unfold ObjectFile.readTextData. intros H.
  apply bind_Ok in H as (s & _ & H). injection H as <-. eauto.
Qed.

Lemma readBss_frame (o o' : ObjectFile.t) (args : option (Z * Z))
    (source : string) :
  ObjectFile.readBss o args source = Ok o' ->
  exists s, o' = ObjectFile.set_seg o 2 s.
Proof.
  unfold ObjectFile.readBss. intros H.
  destruct args as [[al sz]|]; [| discriminate].
  apply bind_Ok in H as (s1 & _ & H).
  apply bind_Ok in H as (s2 & _ & H). injection H as <-. eauto.
Qed.

Lemma readBytes_frame (o : ObjectFile.t) (i : nat) (base : Z)
    (source : string) (b : ByteLine) (r : ObjectFile.t * Z) :
  ObjectFile.readBytes o i base source b = Ok r ->
  exists s, fst r = ObjectFile.set_seg o i s.
Proof.
  unfold ObjectFile.readBytes. intros H.
  destruct (Segment.requiresAdvanceTo _ _); [discriminate |].
  apply bind_Ok in H as (s & _ & H). injection H as <-. simpl. eauto.
Qed.

Lemma readFixup_frame (o o' : ObjectFile.t) (source : string) (l : FixLine) :
  ObjectFile.readFixup o source l = Ok o' ->
  exists f, o' = ObjectFile.with_fixables o f.
Proof.
  unfold ObjectFile.readFixup. intros H.
  apply bind_Ok in H as (u1 & _ & H).
  apply bind_Ok in H as (u2 & _ & H). injection H as <-. eauto.
Qed.

(** ** Induction over the parse phase

    A relation between the states of the link job that is reflexive and
    transitive and that holds across each kind of line holds across every
    composite step, up to the two argument loops of [main]. *)

Section ParseSteps.

Variable R : ObjectFile.t -> ObjectFile.t -> Prop.

Hypothesis R_refl : forall o, R o o.
Hypothesis R_trans : forall o1 o2 o3, R o1 o2 -> R o2 o3 -> R o1 o3.
Hypothesis R_textData :
  forall o o' i a source,
    ObjectFile.readTextData o i a source = Ok o' -> R o o'.
Hypothesis R_bss :
  forall o o' args source, ObjectFile.readBss o args source = Ok o' -> R o o'.
Hypothesis R_bytes :
  forall o i base source b r,
    ObjectFile.readBytes o i base source b = Ok r -> R o (fst r).
Hypothesis R_sym :
  forall o o' source l, ObjectFile.readSym o source l = Ok o' -> R o o'.
Hypothesis R_fixup :
  forall o o' source l, ObjectFile.readFixup o source l = Ok o' -> R o o'.
Hypothesis R_libpath :
  forall o l, R o (ObjectFile.with_libpath o l).

Lemma readLine_steps (source : string) (st st' : ObjectFile.Locals)
    (line : Line) :
  ObjectFile.readLine source st line = Ok st' ->
  R (ObjectFile.obj st) (ObjectFile.obj st').
Proof.
  intros H. destruct line; simpl in H.
  - apply bind_Ok in H as (o' & H1 & H). injection H as <-.
    eapply R_textData; eassumption.
  - apply bind_Ok in H as (o' & H1 & H). injection H as <-.
    eapply R_textData; eassumption.
  - apply bind_Ok in H as (o' & H1 & H). injection H as <-.
    eapply R_bss; eassumption.
  - injection H as <-. apply R_refl.
  - injection H as <-. apply R_refl.
  - injection H as <-. apply R_refl.
  - injection H as <-. apply R_refl.
  - destruct ((ObjectFile.cur st =? 0) || (ObjectFile.cur st =? 1)).
    { apply bind_Ok in H as (r & H1 & H). injection H as <-.
      eapply R_bytes; eassumption. }
    destruct (ObjectFile.cur st =? 3).
    { apply bind_Ok in H as (o' & H1 & H). injection H as <-.
      eapply R_sym; eassumption. }
    destruct (ObjectFile.cur st =? 4).
    { apply bind_Ok in H as (o' & H1 & H). injection H as <-.
      eapply R_fixup; eassumption. }
    injection H as <-. apply R_refl.
Qed.

Lemma readLines_steps (source : string) (ls : list Line) :
  forall st st',
    ObjectFile.readLines source st ls = Ok st' ->
    R (ObjectFile.obj st) (ObjectFile.obj st').
Proof.
  induction ls as [|l ls IH]; intros st st' H;
    cbn [ObjectFile.readLines] in H.
  - injection H as <-. apply R_refl.
  - apply bind_Ok in H as (st1 & H1 & H).
    eapply R_trans; [eapply readLine_steps; eassumption | now apply IH].
Qed.

Lemma readSegments_steps (o o' : ObjectFile.t) (text : option Text)
    (source : string) :
  ObjectFile.readSegments o text source = Ok o' -> R o o'.
Proof.
  intros H. unfold ObjectFile.readSegments in H.
  destruct text as [tx|]; [| discriminate].
  destruct (startsWithHash tx); [| discriminate].
  apply bind_Ok in H as (st & H1 & H). injection H as <-.
  now apply readLines_steps in H1.
Qed.

Lemma readMembers_steps (file : string) (members : SMap.t Text) :
  forall o o', ObjectFile.readMembers o file members = Ok o' -> R o o'.
Proof.
  induction members as [|[name body] ms IH]; intros o o' H;
    cbn [ObjectFile.readMembers] in H.
  - injection H as <-. apply R_refl.
  - apply bind_Ok in H as (o1 & H1 & H).
    eapply R_trans; [eapply readSegments_steps; eassumption | now apply IH].
Qed.

Lemma readIndexed_steps (fuel : nat) (file : string)
    (archive : Ar.archive_reader) (idx : Text) :
  forall o resolved r,
    ObjectFile.readIndexed fuel o file archive idx resolved = Ok r ->
    R o (fst r).
Proof.
  induction fuel as [|fuel IH]; intros o resolved r H;
    cbn [ObjectFile.readIndexed] in H.
  - destruct (ObjectFile.readSymtabIndex o (index idx)); [discriminate |].
    injection H as <-. apply R_refl.
  - destruct (ObjectFile.readSymtabIndex o (index idx)).
    + apply bind_Ok in H as (o1 & H1 & H).
      eapply R_trans; [eapply readSegments_steps; eassumption |].
      eapply IH; eassumption.
    + injection H as <-. apply R_refl.
Qed.

Lemma addLibOrObject_steps (fuel : nat) (fs : FS) (o : ObjectFile.t)
    (file : string) (onlyLibs : bool) (r : ObjectFile.t * Z) :
  ObjectFile.addLibOrObject fuel fs o file onlyLibs = Ok r -> R o (fst r).
Proof.
  intros H. unfold ObjectFile.addLibOrObject in H.
  destruct (if ObjectFile.isLibArg file then _ else _) as [[file' archive]|].
  - destruct (SMap.find "__SYMTAB_INDEX" (Ar.members archive)).
    + eapply readIndexed_steps; eassumption.
    + apply bind_Ok in H as (o1 & H1 & H). injection H as <-.
      eapply readMembers_steps; eassumption.
  - destruct (negb onlyLibs).
    + destruct (fs file) as [[a|tx]|]; try discriminate.
      apply bind_Ok in H as (o1 & H1 & H). injection H as <-.
      eapply readSegments_steps; eassumption.
    + injection H as <-. apply R_refl.
Qed.

Lemma groupSweep_steps (fuel : nat) (fs : FS) (group : list string) :
  forall o resolved r,
    groupSweep fuel fs o group resolved = Ok r -> R o (fst r).
Proof.
  induction group as [|file group IH]; intros o resolved r H;
    cbn [groupSweep] in H.
  - injection H as <-. apply R_refl.
  - apply bind_Ok in H as (r1 & H1 & H).
    eapply R_trans; [eapply addLibOrObject_steps; eassumption |].
    eapply IH; eassumption.
Qed.

Lemma groupLoop_steps (fuel inner : nat) (fs : FS) (group : list string) :
  forall o o', groupLoop fuel inner fs o group = Ok o' -> R o o'.
Proof.
  induction fuel as [|fuel IH]; intros o o' H; cbn [groupLoop] in H;
    [discriminate |].
  apply bind_Ok in H as (r & H1 & H).
  apply groupSweep_steps in H1.
  destruct (snd r =? 0).
  - now injection H as <-.
  - eapply R_trans; [exact H1 | now apply IH].
Qed.

Lemma argLoop_steps (fuel : nat) (argv : list string) (n : nat) :
  forall i st st',
    argLoop fuel n i argv st = Ok st' ->
    R (objectFile st) (objectFile st').
Proof.
  induction n as [|n IH]; intros i st st' H; cbn [argLoop] in H.
  - injection H as <-. apply R_refl.
  - destruct (argv !! i) as [a|]; [| injection H as <-; apply R_refl].
    destruct (String.eqb a "-o").
    { destruct (argv !! S i); [| discriminate].
      apply bind_Ok in H as (fs' & _ & H). now apply IH in H. }
    destruct (String.eqb a "-textseg").
    { destruct (argv !! S i); [| discriminate]. now apply IH in H. }
    destruct (String.eqb a "-L"); [now apply IH in H |].
    destruct (String.prefix "-L" a); [now apply IH in H |].
    destruct (String.eqb a "--start-group" || String.eqb a "-(");
      [now apply IH in H |].
    destruct (String.eqb a "--end-group" || String.eqb a "-)").
    { destruct (startGroup st); [| discriminate].
      apply bind_Ok in H as (o1 & H1 & H).
      apply groupLoop_steps in H1. apply IH in H.
      eapply R_trans; eassumption. }
    apply bind_Ok in H as (r & H1 & H).
    apply addLibOrObject_steps in H1. apply IH in H.
    eapply R_trans; eassumption.
Qed.

Lemma libArgs_steps (argv : list string) (n : nat) :
  forall i o o', libArgs n i argv o = Ok o' -> R o o'.
Proof.
  induction n as [|n IH]; intros i o o' H; cbn [libArgs] in H.
  - injection H as <-. apply R_refl.
  - destruct (argv !! i) as [a|]; [| injection H as <-; apply R_refl].
    destruct (String.eqb a "-L").
    { destruct (argv !! S i); [| discriminate].
      eapply R_trans; [apply R_libpath | eapply IH; exact H]. }
    destruct (String.prefix "-L" a).
    { eapply R_trans; [apply R_libpath | eapply IH; exact H]. }
    eapply IH; eassumption.
Qed.

Lemma processArgs_steps (fuel : nat) (env : option string) (fs : FS)
    (argv : list string) (st : MainState) :
  processArgs fuel env fs argv = Ok st ->
  R (ObjectFile.init env) (objectFile st).
Proof.
  intros H. unfold processArgs in H.
  destruct (Nat.eqb (length argv) 0); [discriminate |].
  apply bind_Ok in H as (o & H1 & H).
  apply libArgs_steps in H1. apply argLoop_steps in H.
  eapply R_trans; eassumption.
Qed.

End ParseSteps.

(** ** The symbol tables during the parse phase *)

Lemma symSwitch_unresolved (o : ObjectFile.t) (source : string) (l : SymLine) :
  ObjectFile.unresolved (fst (ObjectFile.symSwitch o source l)) =
  if isSegmentKind (sl_kind l)
  then ObjectFile.unresolved o ∖ {[sl_ident l]}
  else ObjectFile.unresolved o.
Proof.
  unfold ObjectFile.symSwitch, ObjectFile.biasSym, isSegmentKind.
  destruct (Ascii.eqb (sl_kind l) "T") eqn:ET; [reflexivity |].
  destruct (Ascii.eqb (sl_kind l) "t") eqn:Et.
  { apply Ascii.eqb_eq in Et. rewrite Et. reflexivity. }
  destruct (Ascii.eqb (sl_kind l) "D") eqn:ED; [reflexivity |].
  destruct (Ascii.eqb (sl_kind l) "d") eqn:Ed.
  { apply Ascii.eqb_eq in Ed. rewrite Ed. reflexivity. }
  destruct (Ascii.eqb (sl_kind l) "B") eqn:EB; [reflexivity |].
  destruct (Ascii.eqb (sl_kind l) "b") eqn:Eb; reflexivity.
Qed.

Lemma symSwitch_localSymTab (o : ObjectFile.t) (source : string) (l : SymLine) :
  ObjectFile.localSymTab (fst (ObjectFile.symSwitch o source l)) =
  ObjectFile.localSymTab o.
Proof.
  unfold ObjectFile.symSwitch, ObjectFile.biasSym.
  repeat match goal with |- context [if ?b then _ else _] => destruct b end;
    reflexivity.
Qed.

Lemma isSegmentKind_upper (k : ascii) :
  isSegmentKind k = true -> isupper k = true.
Proof.
  unfold isSegmentKind. intros H.
  apply orb_true_iff in H as [H | H];
    [apply orb_true_iff in H as [H | H] |];
    apply Ascii.eqb_eq in H; subst k; reflexivity.
Qed.

(** What [readSym] returns, by the case of the line. *)
Lemma readSym_cases (o o' : ObjectFile.t) (source : string) (l : SymLine) :
  ObjectFile.readSym o source l = Ok o' ->
  let o1 := fst (ObjectFile.symSwitch o source l) in
  let value := snd (ObjectFile.symSwitch o source l) in
  (Ascii.eqb (sl_kind l) "U" = true /\
   o' = (if negb (SMap.count (sl_ident l) (ObjectFile.symTab o1)) ||
            negb (isupper (fst (default (zero, 0)
                                  (SMap.find (sl_ident l) (ObjectFile.symTab o1)))))
         then ObjectFile.with_unresolved o1
                ({[sl_ident l]} ∪ ObjectFile.unresolved o1)
         else o1)) \/
  (Ascii.eqb (sl_kind l) "U" = false /\
   Ascii.eqb (firstChar (sl_ident l)) "." = true /\ o' = o1) \/
  (Ascii.eqb (sl_kind l) "U" = false /\
   Ascii.eqb (firstChar (sl_ident l)) "." = false /\
   (toupper (toInt (sl_kind l)) =? toInt (sl_kind l)) = false /\
   o' = ObjectFile.with_localSymTab o1
          (SMap.push_back (sl_ident l) (sl_kind l, value)
             (ObjectFile.localSymTab o1))) \/
  (Ascii.eqb (sl_kind l) "U" = false /\
   Ascii.eqb (firstChar (sl_ident l)) "." = false /\
   (toupper (toInt (sl_kind l)) =? toInt (sl_kind l)) = true /\
   SMap.count (sl_ident l) (ObjectFile.symTab o1) = false /\
   o' = ObjectFile.with_symTab o1
          (SMap.set (sl_ident l) (sl_kind l, value) (ObjectFile.symTab o1))).
Proof.
  unfold ObjectFile.readSym. intros H. cbv zeta.
  destruct (Ascii.eqb (sl_kind l) "U") eqn:EU.
  { left. injection H as <-. auto. }
  right. destruct (Ascii.eqb (firstChar (sl_ident l)) ".") eqn:Edot.
  { left. injection H as <-. auto. }
  right. destruct ((toupper (toInt (sl_kind l)) =? toInt (sl_kind l))) eqn:Eup;
    cbn [negb] in H.
  - right. destruct (SMap.count _ _) eqn:Ec; [discriminate |].
    injection H as <-. auto.
  - left. injection H as <-. auto.
Qed.

Lemma find_count {V : Type} (k : string) (m : SMap.t V) (v : V) :
  SMap.find k m = Some v -> SMap.count k m = true.
Proof. unfold SMap.count. now intros ->. Qed.

Lemma count_find {V : Type} (k : string) (m : SMap.t V) :
  SMap.count k m = false -> SMap.find k m = None.
Proof. unfold SMap.count. destruct (SMap.find k m); [discriminate | auto]. Qed.

Lemma find_set {V : Type} (k k0 : string) (v : V) (m : SMap.t V) :
  SMap.find k0 (SMap.set k v m) =
  if String.eqb k0 k then Some v else SMap.find k0 m.
Proof.
  destruct (String.eqb k0 k) eqn:E.
  - apply String.eqb_eq in E. subst. apply find_set_eq.
  - apply String.eqb_neq in E. now apply find_set_ne.
Qed.

Lemma readSym_definedIsResolved (o o' : ObjectFile.t) (source : string)
    (l : SymLine) :
  ObjectFile.readSym o source l = Ok o' ->
  definedIsResolved o -> definedIsResolved o'.
Proof.
  intros H Hd. apply readSym_cases in H. cbv zeta in H.
  pose proof (symSwitch_symTab o source l) as Hst.
  pose proof (symSwitch_unresolved o source l) as Hun.
  set (o1 := fst (ObjectFile.symSwitch o source l)) in *.
  assert (Hd1 : definedIsResolved o1).
  { intros id e He Hk. rewrite Hst in He. rewrite Hun.
    specialize (Hd id e He Hk). destruct (isSegmentKind _); [| exact Hd].
    rewrite elem_of_difference. tauto. }
  destruct H as [(EU & ->) | [(EU & Edot & ->) | [(EU & Edot & Eup & ->) |
                 (EU & Edot & Eup & Ec & ->)]]].
  - destruct (_ || _) eqn:Ecase; [| exact Hd1].
    intros id e He Hk. simpl in *.
    specialize (Hd1 id e He Hk).
    destruct (String.eqb id (sl_ident l)) eqn:E.
    + apply String.eqb_eq in E. subst id.
      rewrite (find_count _ _ _ He), He in Ecase. simpl in Ecase.
      rewrite (isSegmentKind_upper _ Hk) in Ecase. discriminate.
    + apply String.eqb_neq in E.
      rewrite elem_of_union, elem_of_singleton. tauto.
  - exact Hd1.
  - exact Hd1.
  - intros id e He Hk. simpl in *. rewrite find_set in He.
    destruct (String.eqb id (sl_ident l)) eqn:E.
    + apply String.eqb_eq in E. subst id. injection He as <-. simpl in Hk.
      fold o1. rewrite Hun, Hk, elem_of_difference, elem_of_singleton.
      tauto.
    + exact (Hd1 id e He Hk).
Qed.

Lemma set_seg_tables (o : ObjectFile.t) (i : nat) (s : Segment.t) :
  ObjectFile.symTab (ObjectFile.set_seg o i s) = ObjectFile.symTab o /\
  ObjectFile.unresolved (ObjectFile.set_seg o i s) = ObjectFile.unresolved o /\
  ObjectFile.localSymTab (ObjectFile.set_seg o i s) = ObjectFile.localSymTab o.
Proof. repeat split. Qed.

(** A property of the symbol tables that the lines of [#SYMTAB] keep holds
    after the argument loops. *)
Section TableInvariant.

Variable P : ObjectFile.t -> Prop.

Hypothesis P_tables :
  forall o o',
    ObjectFile.symTab o' = ObjectFile.symTab o ->
    ObjectFile.unresolved o' = ObjectFile.unresolved o ->
    ObjectFile.localSymTab o' = ObjectFile.localSymTab o ->
    P o -> P o'.
Hypothesis P_sym :
  forall o o' source l, ObjectFile.readSym o source l = Ok o' -> P o -> P o'.

Lemma processArgs_tables (fuel : nat) (env : option string) (fs : FS)
    (argv : list string) (st : MainState) :
  processArgs fuel env fs argv = Ok st ->
  P (ObjectFile.init env) -> P (objectFile st).
Proof.
  apply (processArgs_steps (fun o o' => P o -> P o')).
  - auto.
  - auto.
  - intros o o' i a source H. apply readTextData_frame in H as [s ->].
    now apply P_tables.
  - intros o o' args source H. apply readBss_frame in H as [s ->].
    now apply P_tables.
  - intros o i base source b r H. apply readBytes_frame in H as [s ->].
    now apply P_tables.
  - exact P_sym.
  - intros o o' source l H. apply readFixup_frame in H as [f ->].
    now apply P_tables.
  - intros o l. now apply P_tables.
Qed.

Lemma addLibOrObject_tables (fuel : nat) (fs : FS) (o : ObjectFile.t)
    (file : string) (onlyLibs : bool) (r : ObjectFile.t * Z) :
  ObjectFile.addLibOrObject fuel fs o file onlyLibs = Ok r ->
  P o -> P (fst r).
Proof.
  apply (addLibOrObject_steps (fun o o' => P o -> P o')).
  - auto.
  - auto.
  - intros o0 o' i a source H. apply readTextData_frame in H as [s ->].
    now apply P_tables.
  - intros o0 o' args source H. apply readBss_frame in H as [s ->].
    now apply P_tables.
  - intros o0 i base source b r0 H. apply readBytes_frame in H as [s ->].
    now apply P_tables.
  - exact P_sym.
  - intros o0 o' source l H. apply readFixup_frame in H as [f ->].
    now apply P_tables.
Qed.

End TableInvariant.

Lemma definedIsResolved_tables (o o' : ObjectFile.t) :
  ObjectFile.symTab o' = ObjectFile.symTab o ->
  ObjectFile.unresolved o' = ObjectFile.unresolved o ->
  ObjectFile.localSymTab o' = ObjectFile.localSymTab o ->
  definedIsResolved o -> definedIsResolved o'.
Proof.
  intros Hs Hu _ Hd id e He Hk. rewrite Hu. rewrite Hs in He. eauto.
Qed.

Lemma readSym_tablesByCase (o o' : ObjectFile.t) (source : string)
    (l : SymLine) :
  ObjectFile.readSym o source l = Ok o' -> tablesByCase o -> tablesByCase o'.
Proof.
  intros H [Hg Hl]. apply readSym_cases in H. cbv zeta in H.
  pose proof (symSwitch_symTab o source l) as Hst.
  pose proof (symSwitch_localSymTab o source l) as Hlt.
  set (o1 := fst (ObjectFile.symSwitch o source l)) in *.
  destruct H as [(EU & ->) | [(EU & Edot & ->) | [(EU & Edot & Eup & ->) |
                 (EU & Edot & Eup & Ec & ->)]]].
  - destruct (_ || _); split; simpl; rewrite ?Hst, ?Hlt; assumption.
  - split; rewrite ?Hst, ?Hlt; assumption.
  - split; simpl; [rewrite Hst; exact Hg |].
    intros id es e He Hin. unfold SMap.push_back in He.
    rewrite find_set in He. rewrite Hlt in He.
    destruct (String.eqb id (sl_ident l)) eqn:E.
    + injection He as <-. apply in_app_or in Hin as [Hin | [<- | []]].
      * revert Hin.
        match goal with
        | |- context [default _ ?f] => destruct f as [es0|] eqn:Ef
        end; simpl; intros Hin; [| destruct Hin].
        exact (Hl _ _ _ Ef Hin).
      * simpl. now apply Z.eqb_neq.
    + exact (Hl _ _ _ He Hin).
  - split; simpl; [| rewrite Hlt; exact Hl].
    intros id e He. rewrite find_set, Hst in He.
    destruct (String.eqb id (sl_ident l)).
    + injection He as <-. simpl. split.
      * now apply Z.eqb_eq.
      * intros Heq. rewrite Heq in EU. discriminate.
    + exact (Hg _ _ He).
Qed.

Lemma tablesByCase_tables (o o' : ObjectFile.t) :
  ObjectFile.symTab o' = ObjectFile.symTab o ->
  ObjectFile.unresolved o' = ObjectFile.unresolved o ->
  ObjectFile.localSymTab o' = ObjectFile.localSymTab o ->
  tablesByCase o -> tablesByCase o'.
Proof. intros Hs _ Hl [H1 H2]. split; rewrite ?Hs, ?Hl; assumption. Qed.

Lemma count_set {V : Type} (k k0 : string) (v : V) (m : SMap.t V) :
  SMap.count k0 m = true -> SMap.count k0 (SMap.set k v m) = true.
Proof.
  unfold SMap.count. rewrite find_set.
  destruct (String.eqb k0 k); [reflexivity | auto].
Qed.

Lemma isupper_toupper (k : ascii) :
  isupper k = true -> toupper (toInt k) = toInt k.
Proof.
  unfold isupper, toupper, toInt. cbv zeta.
  rewrite andb_true_iff, !N.leb_le. intros [H1 H2].
  assert (E : (Z.of_N (N_of_ascii k) <? 128) = true)
    by (apply Z.ltb_lt; lia).
  rewrite E.
  replace ((97 <=? Z.of_N (N_of_ascii k)) && (Z.of_N (N_of_ascii k) <=? 122))
    with false
    by (symmetry; apply andb_false_iff; left; apply Z.leb_gt; lia).
  replace ((-128 <=? Z.of_N (N_of_ascii k)) && (Z.of_N (N_of_ascii k) <? -1))
    with false
    by (symmetry; apply andb_false_iff; right; apply Z.ltb_ge; lia).
  reflexivity.
Qed.

Lemma readSym_stuck (id : string) (o o' : ObjectFile.t) (source : string)
    (l : SymLine) :
  noDot id = true ->
  ObjectFile.readSym o source l = Ok o' -> stuck id o -> stuck id o'.
Proof.
  intros Hdot H [Hu Hc]. apply readSym_cases in H. cbv zeta in H.
  pose proof (symSwitch_symTab o source l) as Hst.
  pose proof (symSwitch_unresolved o source l) as Hun.
  set (o1 := fst (ObjectFile.symSwitch o source l)) in *.
  unfold noDot in Hdot. apply negb_true_iff in Hdot.
  assert (Hcases :
    (isSegmentKind (sl_kind l) = true /\ sl_ident l = id) \/
    id ∈ ObjectFile.unresolved o1).
  { rewrite Hun. destruct (isSegmentKind (sl_kind l)) eqn:Ek; [| now right].
    destruct (String.eqb (sl_ident l) id) eqn:E.
    - apply String.eqb_eq in E. now left.
    - apply String.eqb_neq in E. right.
      rewrite elem_of_difference, elem_of_singleton. split; [exact Hu | congruence]. }
  destruct H as [(EU & ->) | [(EU & Edot & ->) | [(EU & Edot & Eup & ->) |
                 (EU & Edot & Eup & Ec & ->)]]].
  - destruct Hcases as [[Hk _] | Hu1].
    { apply Ascii.eqb_eq in EU. rewrite EU in Hk. discriminate. }
    destruct (_ || _); split; simpl; rewrite ?Hst; try assumption.
    rewrite elem_of_union. now right.
  - destruct Hcases as [[_ Hid] | Hu1].
    { rewrite Hid in Edot. congruence. }
    split; [exact Hu1 | now rewrite Hst].
  - destruct Hcases as [[Hk _] | Hu1].
    { apply isSegmentKind_upper in Hk.
      unfold isSegmentKind in *. exfalso.
      apply isupper_toupper in Hk. rewrite Hk, Z.eqb_refl in Eup.
      discriminate. }
    split; simpl; [exact Hu1 | now rewrite Hst].
  - destruct Hcases as [[_ Hid] | Hu1].
    { rewrite Hid, Hst, Hc in Ec. discriminate. }
    split; simpl; [exact Hu1 |]. apply count_set. now rewrite Hst.
Qed.

Lemma stuck_tables (id : string) (o o' : ObjectFile.t) :
  ObjectFile.symTab o' = ObjectFile.symTab o ->
  ObjectFile.unresolved o' = ObjectFile.unresolved o ->
  ObjectFile.localSymTab o' = ObjectFile.localSymTab o ->
  stuck id o -> stuck id o'.
Proof. intros Hs Hu _ [H1 H2]. split; rewrite ?Hs, ?Hu; assumption. Qed.

(** ** The fields that the operations on a segment leave alone *)

Lemma with_annotation_same (s : Segment.t) :
  Segment.with_annotation s (Segment.annotation s) = s.
Proof. now destruct s. Qed.

Lemma advanceLoop_shape (budget : nat) :
  forall (addr : Z) (s s' : Segment.t),
    Segment.advanceLoop budget addr s = Ok s' ->
    exists m, s' = Segment.with_memory s m.
Proof.
  induction budget as [|n IH]; intros addr s s' H; cbn [Segment.advanceLoop] in H.
  - destruct (addr >? Segment.size s); [discriminate |].
    injection H as <-. exists (Segment.memory s). now rewrite with_memory_same.
  - destruct (addr >? Segment.size s).
    + apply bind_Ok in H as (s1 & H1 & H).
      unfold Segment.appendByte in H1. apply bind_Ok in H1 as (m1 & _ & H1).
      injection H1 as <-. apply IH in H as [m ->]. now exists m.
    + injection H as <-. exists (Segment.memory s). now rewrite with_memory_same.
Qed.

Lemma advanceTo_shape (s s' : Segment.t) (addr : Z) :
  Segment.advanceTo s addr = Ok s' ->
  exists m an, s' = Segment.with_annotation (Segment.with_memory s m) an.
Proof.
  unfold Segment.advanceTo. intros H.
  apply bind_Ok in H as (u & _ & H).
  apply bind_Ok in H as (s1 & H1 & H).
  apply bind_Ok in H as (u' & _ & H). injection H as <-.
  apply advanceLoop_shape in H1 as [m ->].
  destruct (_ =? _).
  - exists m, (Segment.annotation s). reflexivity.
  - eexists m, _. reflexivity.
Qed.

Lemma advanceTo_ge (s s' : Segment.t) (addr : Z) :
  Segment.advanceTo s addr = Ok s' ->
  Segment.size s <= wrap64 (addr - Segment.baseAddr s).
Proof.
  unfold Segment.advanceTo. intros H.
  apply bind_Ok in H as (u & Ha & _). apply assert_Ok in Ha.
  rewrite Z.geb_leb in Ha. now apply Z.leb_le in Ha.
Qed.

Lemma insertByteString_shape (s s' : Segment.t) (addr : Z) (hexDigits : string) :
  Segment.insertByteString s addr hexDigits = Ok s' ->
  exists m an, s' = Segment.with_annotation (Segment.with_memory s m) an.
Proof.
  unfold Segment.insertByteString. intros H.
  apply bind_Ok in H as (s1 & H1 & H).
  apply bind_Ok in H as (u & _ & H).
  apply bind_Ok in H as (m & _ & H). injection H as <-.
  destruct (Segment.requiresAdvanceTo _ _).
  - apply advanceTo_shape in H1 as (m1 & an & ->). now exists m, an.
  - injection H1 as <-. exists m, (Segment.annotation s). reflexivity.
Qed.

Lemma setAlignment_shape (s s' : Segment.t) (a : Z) :
  Segment.setAlignment s a = Ok s' ->
  exists m an,
    s' = Segment.with_annotation
           (Segment.with_memory
              (Segment.with_alignment s (Z.max (Segment.alignment s) a)) m) an.
Proof.
  unfold Segment.setAlignment. intros H.
  destruct (a =? 0); [discriminate |].
  apply bind_Ok in H as (u & _ & H).
  apply bind_Ok in H as (newSize & _ & H).
  apply advanceTo_shape in H as (m & an & ->).
  exists m, an. destruct (a >? Segment.alignment s) eqn:Hgt.
  - rewrite Z.gtb_ltb in Hgt. apply Z.ltb_lt in Hgt.
    now rewrite Z.max_r by lia.
  - rewrite Z.gtb_ltb in Hgt. apply Z.ltb_ge in Hgt.
    rewrite Z.max_l by lia. now destruct s.
Qed.

Lemma seg_set_seg_rel (Q : Segment.t -> Segment.t -> Prop) (o : ObjectFile.t)
    (i : nat) (s : Segment.t) :
  (forall x, Q x x) -> Q (ObjectFile.seg o i) s ->
  forall j, Q (ObjectFile.seg o j) (ObjectFile.seg (ObjectFile.set_seg o i s) j).
Proof.
  intros Hrefl Hs j. destruct (Nat.eq_dec i j) as [-> | Hne].
  - destruct (lt_dec j (length (ObjectFile.segments o))) as [Hlt | Hge].
    + now rewrite seg_set_seg_eq.
    + unfold ObjectFile.seg, ObjectFile.set_seg. simpl.
      rewrite list_insert_ge by lia. apply Hrefl.
  - rewrite seg_set_seg_ne by exact Hne. apply Hrefl.
Qed.

(** ** The alignments never decrease *)

Lemma alignmentsGrow_set_seg (o : ObjectFile.t) (i : nat) (s : Segment.t) :
  Segment.alignment (ObjectFile.seg o i) <= Segment.alignment s ->
  alignmentsGrow o (ObjectFile.set_seg o i s).
Proof.
  intros H. unfold alignmentsGrow.
  apply (seg_set_seg_rel (fun x y => Segment.alignment x <= Segment.alignment y));
    [intros; lia | exact H].
Qed.

Lemma alignmentsGrow_refl (o : ObjectFile.t) : alignmentsGrow o o.
Proof. intros i. lia. Qed.

Lemma alignmentsGrow_trans (o1 o2 o3 : ObjectFile.t) :
  alignmentsGrow o1 o2 -> alignmentsGrow o2 o3 -> alignmentsGrow o1 o3.
Proof. intros H1 H2 i. specialize (H1 i). specialize (H2 i). lia. Qed.

Lemma readTextData_alignments (o o' : ObjectFile.t) (i : nat) (a : option Z)
    (source : string) :
  ObjectFile.readTextData o i a source = Ok o' -> alignmentsGrow o o'.
Proof.
  unfold ObjectFile.readTextData. intros H.
  apply bind_Ok in H as (s & H1 & H). injection H as <-.
  apply alignmentsGrow_set_seg. destruct a as [al|].
  - apply setAlignment_shape in H1 as (m & an & ->). simpl. lia.
  - injection H1 as <-. simpl. lia.
Qed.

Lemma readBss_alignments (o o' : ObjectFile.t) (args : option (Z * Z))
    (source : string) :
  ObjectFile.readBss o args source = Ok o' -> alignmentsGrow o o'.
Proof.
  unfold ObjectFile.readBss. intros H.
  destruct args as [[al sz]|]; [| discriminate].
  apply bind_Ok in H as (s1 & H1 & H).
  apply bind_Ok in H as (s2 & H2 & H). injection H as <-.
  apply alignmentsGrow_set_seg.
  apply setAlignment_shape in H1 as (m & an & ->).
  destruct (sz =? 0).
  - injection H2 as <-. simpl. lia.
  - apply advanceTo_shape in H2 as (m2 & an2 & ->). simpl. lia.
Qed.

Lemma readBytes_alignments (o : ObjectFile.t) (i : nat) (base : Z)
    (source : string) (b : ByteLine) (r : ObjectFile.t * Z) :
  ObjectFile.readBytes o i base source b = Ok r -> alignmentsGrow o (fst r).
Proof.
  unfold ObjectFile.readBytes. intros H.
  destruct (Segment.requiresAdvanceTo _ _); [discriminate |].
  apply bind_Ok in H as (s & H1 & H). injection H as <-. simpl.
  apply alignmentsGrow_set_seg.
  apply insertByteString_shape in H1 as (m & an & ->).
  destruct (Segment.isAtMark _ _); destruct (_ <? _)%nat; simpl; lia.
Qed.

Lemma symSwitch_segments (Q : Segment.t -> Segment.t -> Prop)
    (o : ObjectFile.t) (source : string) (l : SymLine) :
  (forall x, Q x x) ->
  (forall x t a, Q x (Segment.insertLabel x t a)) ->
  forall j, Q (ObjectFile.seg o j)
              (ObjectFile.seg (fst (ObjectFile.symSwitch o source l)) j).
Proof.
  intros Hrefl Hlab j.
  unfold ObjectFile.symSwitch, ObjectFile.biasSym.
  repeat match goal with |- context [if ?b then _ else _] => destruct b end;
    simpl; try apply Hrefl;
    match goal with
    | |- Q _ (ObjectFile.seg (ObjectFile.set_seg ?o' ?i ?s) _) =>
        apply (seg_set_seg_rel Q o' i s Hrefl); apply Hlab
    end.
Qed.

Lemma readSym_segments (Q : Segment.t -> Segment.t -> Prop)
    (o o' : ObjectFile.t) (source : string) (l : SymLine) :
  (forall x, Q x x) ->
  (forall x t a, Q x (Segment.insertLabel x t a)) ->
  ObjectFile.readSym o source l = Ok o' ->
  forall j, Q (ObjectFile.seg o j) (ObjectFile.seg o' j).
Proof.
  intros Hrefl Hlab H j. apply readSym_cases in H. cbv zeta in H.
  pose proof (symSwitch_segments Q o source l Hrefl Hlab j) as Hs.
  destruct H as [(EU & ->) | [(EU & Edot & ->) | [(EU & Edot & Eup & ->) |
                 (EU & Edot & Eup & Ec & ->)]]]; try exact Hs.
  destruct (_ || _); exact Hs.
Qed.

Lemma readSym_alignments (o o' : ObjectFile.t) (source : string) (l : SymLine) :
  ObjectFile.readSym o source l = Ok o' -> alignmentsGrow o o'.
Proof.
  intros H. unfold alignmentsGrow.
  apply (readSym_segments (fun x y => Segment.alignment x <= Segment.alignment y)
           o o' source l); [intros; lia | intros; simpl; lia | exact H].
Qed.

Lemma readFixup_alignments (o o' : ObjectFile.t) (source : string) (l : FixLine) :
  ObjectFile.readFixup o source l = Ok o' -> alignmentsGrow o o'.
Proof.
  intros H. apply readFixup_frame in H as [f ->]. intros i.
  change (ObjectFile.seg (ObjectFile.with_fixables o f) i) with (ObjectFile.seg o i).
  lia.
Qed.

Lemma processArgs_alignments (fuel : nat) (env : option string) (fs : FS)
    (argv : list string) (st : MainState) :
  processArgs fuel env fs argv = Ok st ->
  forall i, 1 <= Segment.alignment (ObjectFile.seg (objectFile st) i).
Proof.
  intros H i.
  assert (Hg : alignmentsGrow (ObjectFile.init env) (objectFile st)).
  { revert H. apply (processArgs_steps alignmentsGrow).
    - exact alignmentsGrow_refl.
    - exact alignmentsGrow_trans.
    - exact readTextData_alignments.
    - exact readBss_alignments.
    - exact readBytes_alignments.
    - exact readSym_alignments.
    - exact readFixup_alignments.
    - intros o l j.
      change (ObjectFile.seg (ObjectFile.with_libpath o l) j)
        with (ObjectFile.seg o j).
      lia. }
  specialize (Hg i).
  assert (Hi : Segment.alignment (ObjectFile.seg (ObjectFile.init env) i) = 1).
  { unfold ObjectFile.seg. simpl. destruct i as [|[|[|i]]]; reflexivity. }
  lia.
Qed.

Lemma processArgs_length (fuel : nat) (env : option string) (fs : FS)
    (argv : list string) (st : MainState) :
  processArgs fuel env fs argv = Ok st ->
  length (ObjectFile.segments (objectFile st)) = ObjectFile.numSegments.
Proof.
  intros H.
  assert (Hl : length (ObjectFile.segments (objectFile st)) =
               length (ObjectFile.segments (ObjectFile.init env))).
  { revert H.
    apply (processArgs_steps
             (fun o o' => length (ObjectFile.segments o') =
                          length (ObjectFile.segments o))).
    - reflexivity.
    - intros o1 o2 o3 H1 H2. congruence.
    - intros o o' i a source H. apply readTextData_frame in H as [s ->].
      simpl. apply length_insert.
    - intros o o' args source H. apply readBss_frame in H as [s ->].
      simpl. apply length_insert.
    - intros o i base source b r H. apply readBytes_frame in H as [s ->].
      simpl. apply length_insert.
    - intros o o' source l H.
      apply readSym_cases in H. cbv zeta in H.
      assert (Hs : length (ObjectFile.segments
                             (fst (ObjectFile.symSwitch o source l))) =
                   length (ObjectFile.segments o)).
      { unfold ObjectFile.symSwitch, ObjectFile.biasSym.
        repeat match goal with |- context [if ?b then _ else _] => destruct b end;
          simpl; try reflexivity; apply length_insert. }
      destruct H as [(EU & ->) | [(EU & Edot & ->) | [(EU & Edot & Eup & ->) |
                     (EU & Edot & Eup & Ec & ->)]]]; try exact Hs.
      destruct (_ || _); exact Hs.
    - intros o o' source l H. apply readFixup_frame in H as [f ->]. reflexivity.
    - reflexivity. }
  rewrite Hl. reflexivity.
Qed.

(** ** Placement *)

Lemma alignAddr_upper (addr a r : Z) :
  0 <= addr -> 0 < a -> alignAddr addr a = Ok r ->
  0 <= r /\ r mod a = 0 /\ r < addr + a.
Proof.
  unfold alignAddr. intros Ha Hal H.
  destruct (a =? 0); [discriminate |]. injection H as <-.
  pose proof (wrap64_range (addr + a - 1)) as Hw.
  assert (Hle : wrap64 (addr + a - 1) <= addr + a - 1).
  { apply Z.mod_le; [lia | apply two64_pos]. }
  set (w := wrap64 (addr + a - 1)) in *.
  pose proof (Z.div_mod w a ltac:(lia)) as D.
  pose proof (Z.mod_pos_bound w a Hal) as B.
  pose proof (Z.mod_le w a ltac:(lia) Hal) as M.
  assert (0 <= w / a * a <= w) by lia.
  rewrite wrap64_small by lia.
  split; [lia |]. split; [apply Z.mod_mul; lia | lia].
Qed.

Lemma size_range (s : Segment.t) : 0 <= Segment.size s < two64.
Proof. apply wrap64_range. Qed.

Lemma setBaseAddr_Ok (s s' : Segment.t) (b : Z) :
  Segment.setBaseAddr s b = Ok s' ->
  s' = Segment.with_baseAddr s b /\ b mod Segment.alignment s = 0.
Proof.
  unfold Segment.setBaseAddr. intros H.
  destruct (Segment.alignment s =? 0); [discriminate |].
  apply bind_Ok in H as (u & Ha & H). injection H as <-.
  apply assert_Ok in Ha. apply Z.eqb_eq in Ha. auto.
Qed.

Lemma place_spec (o : ObjectFile.t) (p : ObjectFile.Placement) :
  ObjInv o -> length (ObjectFile.segments o) = ObjectFile.numSegments ->
  ObjectFile.place o = Ok p ->
  ObjectFile.textAddr p = 0 /\
  alignAddr (Segment.size (ObjectFile.seg o 0))
    (Segment.alignment (ObjectFile.seg o 1)) = Ok (ObjectFile.dataAddr p) /\
  ObjectFile.dataAddr p mod Segment.alignment (ObjectFile.seg o 1) = 0 /\
  Segment.advanceTo (ObjectFile.seg o 0) (ObjectFile.dataAddr p) =
    Ok (ObjectFile.seg (ObjectFile.placed p) 0) /\
  ObjectFile.seg (ObjectFile.placed p) 1 =
    Segment.with_baseAddr (ObjectFile.seg o 1) (ObjectFile.dataAddr p) /\
  alignAddr (wrap64 (ObjectFile.dataAddr p + Segment.size (ObjectFile.seg o 1)))
    (Segment.alignment (ObjectFile.seg o 2)) = Ok (ObjectFile.bssAddr p) /\
  ObjectFile.bssAddr p mod Segment.alignment (ObjectFile.seg o 2) = 0 /\
  ObjectFile.seg (ObjectFile.placed p) 2 =
    Segment.with_baseAddr (ObjectFile.seg o 2) (ObjectFile.bssAddr p) /\
  ObjectFile.placeSymbols 0 (ObjectFile.dataAddr p) (ObjectFile.bssAddr p)
    (ObjectFile.symTab o) = Ok (ObjectFile.symTab (ObjectFile.placed p)) /\
  ObjectFile.fixables (ObjectFile.placed p) = ObjectFile.fixables o /\
  length (ObjectFile.segments (ObjectFile.placed p)) = ObjectFile.numSegments.
Proof.
  intros Hinv Hlen H. unfold ObjectFile.place in H.
  pose proof (inv_base _ (inv_segments o Hinv 0%nat)) as Hb0.
  apply bind_Ok in H as (dA & HdA & H).
  apply bind_Ok in H as (s1 & Hs1 & H).
  apply bind_Ok in H as (s0 & Hs0 & H).
  apply bind_Ok in H as (bA & HbA & H).
  apply bind_Ok in H as (s2 & Hs2 & H).
  apply bind_Ok in H as (st & Hst & H). injection H as <-. simpl.
  apply setBaseAddr_Ok in Hs1 as [-> Hm1].
  rewrite seg_set_seg_ne in Hs0 by lia.
  assert (L1 : forall s, (1 < length (ObjectFile.segments
                   (ObjectFile.set_seg o 1 s)))%nat).
  { intros s. simpl. rewrite length_insert, Hlen. unfold ObjectFile.numSegments. lia. }
  assert (L0 : forall o', length (ObjectFile.segments o') = ObjectFile.numSegments ->
                 forall i s, length (ObjectFile.segments (ObjectFile.set_seg o' i s)) =
                             ObjectFile.numSegments).
  { intros o' Ho' i s. simpl. now rewrite length_insert. }
  rewrite (seg_set_seg_ne _ 0 1) in HbA by lia.
  rewrite (seg_set_seg_ne _ 0 2) in HbA, Hs2 by lia.
  rewrite seg_set_seg_eq in HbA
    by (rewrite Hlen; unfold ObjectFile.numSegments; lia).
  rewrite (seg_set_seg_ne _ 1 2) in HbA, Hs2 by lia.
  apply setBaseAddr_Ok in Hs2 as [-> Hm2].
  unfold Segment.getEndAddr in HdA, HbA. simpl in HbA.
  rewrite Hb0, Z.add_0_l in HdA. rewrite Hb0 in Hst.
  rewrite (wrap64_small (Segment.size _)) in HdA by apply size_range.
  assert (Hl2 : length (ObjectFile.segments
                   (ObjectFile.set_seg (ObjectFile.set_seg o 1
                      (Segment.with_baseAddr (ObjectFile.seg o 1) dA)) 0 s0)) =
                ObjectFile.numSegments).
  { rewrite L0; [reflexivity |]. now rewrite L0. }
  split; [exact Hb0 |]. split; [exact HdA |]. split; [exact Hm1 |].
  split.
  { change (ObjectFile.seg (ObjectFile.with_symTab ?x st) ?j)
      with (ObjectFile.seg x j).
    rewrite (seg_set_seg_ne _ 2 0) by lia.
    rewrite seg_set_seg_eq
      by (rewrite L0; [unfold ObjectFile.numSegments; lia | exact Hlen]).
    exact Hs0. }
  split.
  { change (ObjectFile.seg (ObjectFile.with_symTab ?x st) ?j)
      with (ObjectFile.seg x j).
    rewrite (seg_set_seg_ne _ 2 1) by lia.
    rewrite (seg_set_seg_ne _ 0 1) by lia.
    rewrite seg_set_seg_eq by (rewrite Hlen; unfold ObjectFile.numSegments; lia).
    reflexivity. }
  split; [exact HbA |]. split; [exact Hm2 |].
  split.
  { change (ObjectFile.seg (ObjectFile.with_symTab ?x st) ?j)
      with (ObjectFile.seg x j).
    rewrite seg_set_seg_eq by (rewrite Hl2; unfold ObjectFile.numSegments; lia).
    reflexivity. }
  split; [exact Hst |]. split; [reflexivity |].
  now rewrite !length_insert.
Qed.

(** ** The addresses of the symbols *)

Lemma placeSymbols_map (textAddr dataAddr bssAddr : Z) (st : SMap.t SymEntry) :
  forall st',
    ObjectFile.placeSymbols textAddr dataAddr bssAddr st = Ok st' ->
    st' = map (fun x => (fst x, relocate textAddr dataAddr bssAddr (snd x))) st /\
    Forall (fun x => isDefinitionKind (fst (snd x)) = true) st.
Proof.
  induction st as [|[ident [k v]] st IH]; intros st' H;
    cbn [ObjectFile.placeSymbols] in H.
  - injection H as <-. split; [reflexivity | constructor].
  - apply bind_Ok in H as (v' & Hv & H).
    apply bind_Ok in H as (rest & Hrest & H). injection H as <-.
    apply IH in Hrest as [-> Hall].
    unfold relocate. cbn [fst snd map].
    assert (Hk : isDefinitionKind k = true).
    { unfold isDefinitionKind.
      destruct (Ascii.eqb k "T"); [reflexivity |].
      destruct (Ascii.eqb k "D"); [reflexivity |].
      destruct (Ascii.eqb k "B"); [reflexivity |].
      destruct (Ascii.eqb k "A"); [reflexivity | discriminate]. }
    split; [| constructor; [exact Hk | exact Hall]].
    destruct (Ascii.eqb k "T"); [now injection Hv as <- |].
    destruct (Ascii.eqb k "D"); [now injection Hv as <- |].
    destruct (Ascii.eqb k "B"); [now injection Hv as <- |].
    destruct (Ascii.eqb k "A"); [| discriminate].
    now injection Hv as <-.
Qed.

Lemma find_map_values {V W : Type} (f : V -> W) (k : string) (m : SMap.t V) :
  SMap.find k (map (fun x => (fst x, f (snd x))) m) =
  option_map f (SMap.find k m).
Proof.
  induction m as [|[k' v] m IH]; simpl; [reflexivity |].
  destruct (String.eqb k k'); [reflexivity | exact IH].
Qed.

Lemma keys_map_values {V W : Type} (f : V -> W) (m : SMap.t V) :
  SMap.keys (map (fun x => (fst x, f (snd x))) m) = SMap.keys m.
Proof.
  unfold SMap.keys. rewrite map_map. reflexivity.
Qed.

(** ** The fixups change bytes only *)

Lemma sameButMemory_refl (s : Segment.t) : sameButMemory s s.
Proof. exists (Segment.memory s). now rewrite with_memory_same. Qed.

Lemma sameButMemory_trans (s1 s2 s3 : Segment.t) :
  sameButMemory s1 s2 -> sameButMemory s2 s3 -> sameButMemory s1 s3.
Proof. intros [m1 ->] [m2 ->]. now exists m2. Qed.

Section FixupFrame.

Variables textAddr dataAddr bssAddr : Z.

Lemma applyFixup_frame (o o' : ObjectFile.t) (ident : string) (f : FixEntry.t) :
  ObjectFile.applyFixup textAddr dataAddr bssAddr o ident f = Ok o' ->
  ObjectFile.symTab o' = ObjectFile.symTab o /\
  ObjectFile.unresolved o' = ObjectFile.unresolved o /\
  forall j, sameButMemory (ObjectFile.seg o j) (ObjectFile.seg o' j).
Proof.
  unfold ObjectFile.applyFixup. intros H.
  apply bind_Ok in H as ([site i] & H1 & H).
  apply bind_Ok in H as (V & HV & H).
  apply bind_Ok in H as (v & Hv & H).
  apply bind_Ok in H as (s & Hs & H). injection H as <-.
  split; [reflexivity |]. split; [reflexivity |].
  apply (seg_set_seg_rel sameButMemory); [exact sameButMemory_refl |].
  unfold Segment.patchBytes in Hs. apply bind_Ok in Hs as (m & _ & Hs).
  injection Hs as <-. now exists m.
Qed.

Lemma applyFixups_frame (ident : string) (fs : list FixEntry.t) :
  forall o o',
    ObjectFile.applyFixups textAddr dataAddr bssAddr o ident fs = Ok o' ->
    ObjectFile.symTab o' = ObjectFile.symTab o /\
    ObjectFile.unresolved o' = ObjectFile.unresolved o /\
    forall j, sameButMemory (ObjectFile.seg o j) (ObjectFile.seg o' j).
Proof.
  induction fs as [|f fs IH]; intros o o' H;
    cbn [ObjectFile.applyFixups] in H.
  - injection H as <-. repeat split. intros j. apply sameButMemory_refl.
  - apply bind_Ok in H as (o1 & H1 & H).
    apply applyFixup_frame in H1 as (E1 & U1 & S1).
    apply IH in H as (E2 & U2 & S2).
    split; [congruence |]. split; [congruence |].
    intros j. eapply sameButMemory_trans; [apply S1 | apply S2].
Qed.

Lemma resolveFixables_frame (fx : SMap.t (list FixEntry.t)) :
  forall o o',
    ObjectFile.resolveFixables textAddr dataAddr bssAddr o fx = Ok o' ->
    ObjectFile.symTab o' = ObjectFile.symTab o /\
    ObjectFile.unresolved o' = ObjectFile.unresolved o /\
    forall j, sameButMemory (ObjectFile.seg o j) (ObjectFile.seg o' j).
Proof.
  induction fx as [|[ident fs] fx IH]; intros o o' H;
    cbn [ObjectFile.resolveFixables] in H.
  - injection H as <-. repeat split. intros j. apply sameButMemory_refl.
  - apply bind_Ok in H as (o1 & H1 & H).
    apply applyFixups_frame in H1 as (E1 & U1 & S1).
    apply IH in H as (E2 & U2 & S2).
    split; [congruence |]. split; [congruence |].
    intros j. eapply sameButMemory_trans; [apply S1 | apply S2].
Qed.

End FixupFrame.

(** A fixup that was applied refers to a segment or to an ident of the
    global table. *)
Lemma fixupPassed_defined (textAddr dataAddr bssAddr : Z) (st : SMap.t SymEntry)
    (ident : string) (f : FixEntry.t) :
  fixupPassed textAddr dataAddr bssAddr st ident f ->
  isSegmentName ident = true \/ SMap.count ident st = true.
Proof.
  intros (site & i & V & _ & HV & _).
  unfold ObjectFile.fixupTarget in HV. unfold isSegmentName, SMap.count.
  destruct (String.eqb ident "[text]"); [now left |].
  destruct (String.eqb ident "[data]"); [now left |].
  destruct (String.eqb ident "[bss]"); [now left |].
  destruct (SMap.find ident st); [now right | discriminate].
Qed.

(** ** Archives with and without index *)

Lemma readSymtabIndex_None (o : ObjectFile.t) (idx : list IndexLine) :
  ObjectFile.readSymtabIndex o idx = None <->
  Forall (fun l => ix_ident l ∉ ObjectFile.unresolved o) idx.
Proof.
  induction idx as [|l idx IH]; cbn [ObjectFile.readSymtabIndex].
  - split; [constructor | reflexivity].
  - destruct (bool_decide (ix_ident l ∈ ObjectFile.unresolved o)) eqn:E.
    + apply bool_decide_eq_true in E. split; [discriminate |].
      intros H. inversion H; subst. contradiction.
    + apply bool_decide_eq_false in E. rewrite IH. split.
      * intros H. now constructor.
      * intros H. now inversion H.
Qed.

Lemma readIndexed_done (fuel : nat) (file : string)
    (archive : Ar.archive_reader) (idx : Text) :
  forall o resolved r,
    ObjectFile.readIndexed fuel o file archive idx resolved = Ok r ->
    ObjectFile.readSymtabIndex (fst r) (index idx) = None.
Proof.
  induction fuel as [|fuel IH]; intros o resolved r H;
    cbn [ObjectFile.readIndexed] in H.
  - destruct (ObjectFile.readSymtabIndex o (index idx)) eqn:E; [discriminate |].
    now injection H as <-.
  - destruct (ObjectFile.readSymtabIndex o (index idx)) eqn:E.
    + apply bind_Ok in H as (o1 & H1 & H). eapply IH; eassumption.
    + now injection H as <-.
Qed.

Lemma readIndexed_nothing (fuel : nat) (file : string)
    (archive : Ar.archive_reader) (idx : Text) (o : ObjectFile.t)
    (resolved : Z) :
  ObjectFile.readSymtabIndex o (index idx) = None ->
  ObjectFile.readIndexed fuel o file archive idx resolved = Ok (o, resolved).
Proof. intros H. destruct fuel; cbn [ObjectFile.readIndexed]; now rewrite H. Qed.

Lemma readMembers_In (file : string) (n : string) (b : Text)
    (members : SMap.t Text) :
  In (n, b) members ->
  forall o o',
    ObjectFile.readMembers o file members = Ok o' ->
    exists o1 o2,
      keeps o o1 /\
      ObjectFile.readSegments o1 (Some b) (file +:+ "(" +:+ n +:+ ")") = Ok o2 /\
      keeps o2 o'.
Proof.
  induction members as [|[n' b'] ms IH]; intros Hin o o' H; [destruct Hin |].
  cbn [ObjectFile.readMembers] in H.
  apply bind_Ok in H as (o1 & H1 & H).
  destruct Hin as [E | Hin].
  - injection E as -> ->. exists o, o1.
    split; [apply keeps_refl |]. split; [exact H1 |].
    eapply readMembers_keeps; eassumption.
  - destruct (IH Hin o1 o' H) as (o2 & o3 & K1 & H2 & K2).
    exists o2, o3. split; [| split; assumption].
    eapply keeps_trans; [eapply readSegments_keeps; eassumption | exact K1].
Qed.

(** An ident that a member read from an archive defines is in the global
    table afterwards. *)
Lemma readMembers_defined (file : string) (n id : string) (b : Text)
    (members : SMap.t Text) (o o' : ObjectFile.t) :
  In (n, b) members -> defines b id = true ->
  ObjectFile.readMembers o file members = Ok o' ->
  SMap.find id (ObjectFile.symTab o) = None /\
  is_Some (SMap.find id (ObjectFile.symTab o')).
Proof.
  intros Hin Hdef H.
  destruct (readMembers_In file n b members Hin o o' H)
    as (o1 & o2 & K1 & H2 & K2).
  apply (readSegments_defines _ _ _ _ id) in H2 as [Hn [e He]]; [| exact Hdef].
  split.
  - destruct (SMap.find id (ObjectFile.symTab o)) as [e0|] eqn:E; [| reflexivity].
    apply K1 in E. congruence.
  - exists e. now apply K2.
Qed.

Lemma stuck_listed (id : string) (o : ObjectFile.t) (idx : list IndexLine) :
  stuck id o ->
  existsb (fun l => String.eqb (ix_ident l) id) idx = true ->
  ObjectFile.readSymtabIndex o idx <> None.
Proof.
  intros [Hu _] Hex Hn. apply readSymtabIndex_None in Hn.
  apply existsb_exists in Hex as (l & Hin & E). apply String.eqb_eq in E.
  rewrite List.Forall_forall in Hn. apply (Hn l Hin). now rewrite E.
Qed.

(** ** The fields of a member header *)

Lemma geb_false (a b : Z) : a < b -> (a >=? b) = false.
Proof. intros H. rewrite Z.geb_leb. now apply Z.leb_gt. Qed.

Lemma code_digitChar (d : Z) : 0 <= d <= 9 -> ArHeader.code (digitChar d) = 48 + d.
Proof.
  intros H. unfold ArHeader.code, digitChar.
  rewrite N_ascii_embedding by lia. lia.
Qed.

Lemma digitChar_class (d : Z) :
  0 <= d <= 9 ->
  ArHeader.isBlank (digitChar d) = false /\
  ArHeader.notDigit (digitChar d) = false /\
  ArHeader.isSlash (digitChar d) = false.
Proof.
  intros H. unfold ArHeader.isBlank, ArHeader.notDigit, ArHeader.isSlash.
  rewrite code_digitChar by exact H.
  repeat split.
  - apply Z.eqb_neq. lia.
  - apply orb_false_iff. split; [apply Z.ltb_ge; lia | apply gtb_false; lia].
  - apply Z.eqb_neq. lia.
Qed.

Lemma fold_digits_ge (base : Z) (ds : list Z) :
  0 < base -> Forall (fun d => 0 <= d < base) ds ->
  forall acc, 0 <= acc -> acc <= fold_left (fun a d => a * base + d) ds acc.
Proof.
  intros Hb Hds. induction Hds as [|d ds Hd _ IH]; intros acc Hacc; simpl.
  - lia.
  - specialize (IH (acc * base + d) ltac:(nia)). nia.
Qed.

Lemma fold_digits_bound (base : Z) (ds : list Z) :
  0 < base <= 10 -> Forall (fun d => 0 <= d < base) ds ->
  forall acc, 0 <= acc ->
    fold_left (fun a d => a * base + d) ds acc < (acc + 1) * 10 ^ Z.of_nat (length ds).
Proof.
  intros Hb Hds. induction Hds as [|d ds Hd _ IH]; intros acc Hacc.
  - simpl. lia.
  - cbn [fold_left length]. specialize (IH (acc * base + d) ltac:(nia)).
    rewrite Nat2Z.inj_succ, Z.pow_succ_r by lia.
    assert (0 < 10 ^ Z.of_nat (length ds)) by (apply Z.pow_pos_nonneg; lia).
    nia.
Qed.

Lemma digitsValue_small (base : Z) (ds : list Z) :
  0 < base <= 10 -> Forall (fun d => 0 <= d < base) ds ->
  (length ds <= 19)%nat -> 0 <= digitsValue base ds < two64.
Proof.
  intros Hb Hds Hlen. unfold digitsValue. split.
  - apply (fold_digits_ge base ds ltac:(lia) Hds 0). lia.
  - pose proof (fold_digits_bound base ds Hb Hds 0 ltac:(lia)) as B.
    assert (10 ^ Z.of_nat (length ds) <= 10 ^ 19).
    { apply Z.pow_le_mono_r; lia. }
    unfold two64. lia.
Qed.

Lemma value_loop_blanks_skip (n : nat) (s : list ascii) (base val : Z)
    (padding : bool) :
  ArHeader.extract_value_loop (blanks n ++ s) base val true padding =
  ArHeader.extract_value_loop s base val true padding.
Proof. induction n as [|n IH]; simpl; [reflexivity | exact IH]. Qed.

Lemma value_loop_blanks_end (n : nat) (base val : Z) (padding : bool) :
  ArHeader.extract_value_loop (blanks n) base val false padding =
  Some (val, false).
Proof.
  revert padding. induction n as [|n IH]; intros padding; simpl; [reflexivity |].
  destruct padding; simpl; apply IH.
Qed.

Lemma value_loop_digits (base : Z) (ds : list Z) :
  0 < base <= 10 -> Forall (fun d => 0 <= d < base) ds ->
  forall (d : Z) (rest : list ascii) (val : Z) (skip : bool),
    0 <= d < base -> 0 <= val ->
    fold_left (fun a d => a * base + d) (d :: ds) val < two64 ->
    ArHeader.extract_value_loop (map digitChar (d :: ds) ++ rest) base val
      skip false =
    ArHeader.extract_value_loop rest base
      (fold_left (fun a d => a * base + d) (d :: ds) val) false false.
Proof.
  intros Hb Hds. induction Hds as [|d' ds Hd' Hds IH];
    intros d rest val skip Hd Hval Hfit.
  - cbn [map app fold_left ArHeader.extract_value_loop] in *.
    destruct (digitChar_class d ltac:(lia)) as (E1 & E2 & _).
    rewrite E1, E2, andb_false_r. cbn [negb].
    rewrite code_digitChar by lia.
    replace (48 + d - 48) with d by lia.
    rewrite geb_false by lia.
    rewrite wrap64_small by nia. reflexivity.
  - cbn [map app fold_left] in *.
    cbn [ArHeader.extract_value_loop].
    destruct (digitChar_class d ltac:(lia)) as (E1 & E2 & _).
    rewrite E1, E2, andb_false_r.
    rewrite code_digitChar by lia.
    replace (48 + d - 48) with d by lia.
    rewrite geb_false by lia.
    assert (Hstep : 0 <= val * base + d < two64).
    { split; [nia |].
      pose proof (fold_digits_ge base (d' :: ds) ltac:(lia)
                    ltac:(constructor; assumption) (val * base + d) ltac:(nia)).
      cbn [fold_left] in H. lia. }
    rewrite wrap64_small by exact Hstep.
    apply (IH d' rest (val * base + d) false Hd' ltac:(lia) Hfit).
Qed.

Lemma extract_value_loop_range (s : list ascii) (base : Z) :
  forall val skip padding r,
    0 <= val < two64 ->
    ArHeader.extract_value_loop s base val skip padding = Some r ->
    0 <= fst r < two64.
Proof.
  induction s as [|ch s IH]; intros val skip padding r Hval H;
    cbn [ArHeader.extract_value_loop] in H.
  - injection H as <-. exact Hval.
  - destruct (skip && ArHeader.isBlank ch); [eapply IH; eassumption |].
    destruct padding.
    { destruct (negb (ArHeader.isBlank ch)); [discriminate |].
      eapply IH; eassumption. }
    destruct (ArHeader.isBlank ch); [eapply IH; eassumption |].
    destruct (ArHeader.notDigit ch); [discriminate |].
    destruct (_ >=? base); [discriminate |].
    eapply IH; [| exact H]. apply wrap64_range.
Qed.

Lemma extract_value_range (s : list ascii) (base v : Z) :
  ArHeader.extract_value s base = Some v -> 0 <= v <= ArHeader.uint_max.
Proof.
  unfold ArHeader.extract_value. intros H.
  destruct (ArHeader.extract_value_loop s base 0 true false) as [[val skip]|] eqn:E;
    [| discriminate].
  apply extract_value_loop_range in E; [| unfold two64; lia]. simpl in E.
  destruct skip; [discriminate |].
  destruct (val >? ArHeader.uint_max) eqn:G; [discriminate |].
  injection H as <-. rewrite Z.gtb_ltb in G. apply Z.ltb_ge in G. lia.
Qed.

(** Once the padding has begun, a character that is no blank ends the
    function. *)
Lemma value_loop_padding (s : list ascii) (base val : Z) (skip : bool) :
  Exists (fun c => ArHeader.isBlank c = false) s ->
  ArHeader.extract_value_loop s base val skip true = None.
Proof.
  intros H. revert skip. induction H as [c s Hc | c s _ IH]; intros skip;
    cbn [ArHeader.extract_value_loop].
  - rewrite Hc, andb_false_r. reflexivity.
  - destruct (skip && ArHeader.isBlank c); [apply IH |].
    destruct (negb (ArHeader.isBlank c)); [reflexivity | apply IH].
Qed.

Lemma value_loop_all_blank (s : list ascii) (base val : Z) (padding : bool) :
  Forall (fun c => ArHeader.isBlank c = true) s ->
  ArHeader.extract_value_loop s base val true padding = Some (val, true).
Proof.
  induction 1 as [|c s Hc _ IH]; cbn [ArHeader.extract_value_loop];
    [reflexivity |].
  rewrite Hc. exact IH.
Qed.

Lemma value_loop_junk (s : list ascii) (base : Z) :
  Exists (fun c => ArHeader.isBlank c = false /\ ArHeader.notDigit c = true) s ->
  forall val skip padding,
    ArHeader.extract_value_loop s base val skip padding = None.
Proof.
  induction 1 as [c s [Hb Hn] | c s _ IH]; intros val skip padding;
    cbn [ArHeader.extract_value_loop].
  - rewrite Hb, Hn, andb_false_r. destruct padding; reflexivity.
  - destruct (skip && ArHeader.isBlank c); [apply IH |].
    destruct padding.
    { destruct (negb (ArHeader.isBlank c)); [reflexivity | apply IH]. }
    destruct (ArHeader.isBlank c); [apply IH |].
    destruct (ArHeader.notDigit c); [reflexivity |].
    destruct (_ >=? base); [reflexivity | apply IH].
Qed.

Lemma isBlank_blanks (n : nat) :
  Forall (fun c => ArHeader.isBlank c = true) (blanks n).
Proof. induction n; simpl; constructor; [reflexivity | assumption]. Qed.

(** A blank between two characters that are no blanks. *)
Lemma value_loop_embedded (pre : list ascii) (c1 c2 : ascii) (k : nat)
    (post : list ascii) (base : Z) :
  ArHeader.isBlank c1 = false -> ArHeader.isBlank c2 = false ->
  forall val skip padding,
    ArHeader.extract_value_loop (pre ++ c1 :: blanks (S k) ++ c2 :: post)
      base val skip padding = None.
Proof.
  intros H1 H2.
  assert (Hpad : forall val skip,
            ArHeader.extract_value_loop (blanks k ++ c2 :: post) base val skip true
            = None).
  { intros val skip. apply value_loop_padding.
    apply Exists_app. right. now constructor. }
  assert (Hc1 : forall val skip padding,
            ArHeader.extract_value_loop (c1 :: blanks (S k) ++ c2 :: post)
              base val skip padding = None).
  { intros val skip padding.
    cbn [ArHeader.extract_value_loop blanks repeat app].
    rewrite H1, andb_false_r. cbn [negb].
    destruct padding; [reflexivity |].
    destruct (ArHeader.notDigit c1); [reflexivity |].
    destruct (_ >=? base); [reflexivity |].
    cbn [ArHeader.extract_value_loop]. simpl (ArHeader.isBlank " ").
    cbn [andb]. apply Hpad. }
  induction pre as [|c pre IH]; intros val skip padding; [apply Hc1 |].
  cbn [app ArHeader.extract_value_loop].
  destruct (skip && ArHeader.isBlank c); [apply IH |].
  destruct padding.
  { destruct (negb (ArHeader.isBlank c)); [reflexivity | apply IH]. }
  destruct (ArHeader.isBlank c); [apply IH |].
  destruct (ArHeader.notDigit c); [reflexivity |].
  destruct (_ >=? base); [reflexivity | apply IH].
Qed.

(** The loop of [extract_offset] *)

Lemma offset_loop_digits (ds : list Z) :
  Forall (fun d => 0 <= d < 10) ds ->
  forall (d : Z) (rest : list ascii) (val : Z) (first : bool),
    0 <= d < 10 -> 0 <= val ->
    fold_left (fun a d => a * 10 + d) (d :: ds) val < two64 ->
    ArHeader.extract_offset_loop (map digitChar (d :: ds) ++ rest) first val =
    ArHeader.extract_offset_loop rest false
      (fold_left (fun a d => a * 10 + d) (d :: ds) val).
Proof.
  induction 1 as [|d' ds Hd' Hds IH]; intros d rest val first Hd Hval Hfit.
  - cbn [map app fold_left ArHeader.extract_offset_loop] in *.
    destruct (digitChar_class d ltac:(lia)) as (E1 & E2 & _).
    rewrite E1, E2, code_digitChar by lia.
    replace (48 + d - 48) with d by lia.
    rewrite wrap64_small by lia. reflexivity.
  - cbn [map app fold_left] in *. cbn [ArHeader.extract_offset_loop].
    destruct (digitChar_class d ltac:(lia)) as (E1 & E2 & _).
    rewrite E1, E2, code_digitChar by lia.
    replace (48 + d - 48) with d by lia.
    assert (Hstep : 0 <= val * 10 + d < two64).
    { split; [lia |].
      pose proof (fold_digits_ge 10 (d' :: ds) ltac:(lia)
                    ltac:(constructor; assumption) (val * 10 + d) ltac:(lia)).
      cbn [fold_left] in H. lia. }
    rewrite wrap64_small by exact Hstep.
    apply (IH d' rest (val * 10 + d) false Hd' ltac:(lia) Hfit).
Qed.

(** The loop over a name that lies in the header *)

Lemma name_loop_app (p : list ascii) :
  Forall (fun c => ArHeader.isSlash c = false) p ->
  forall (s : list ascii) (i blank : nat),
    ArHeader.name_loop (p ++ s) i blank =
    ArHeader.name_loop s (i + length p)
      (snd (fold_left (fun st c => (S (fst st), blank_after (fst st) (snd st) c))
              p (i, blank))).
Proof.
  induction 1 as [|c p Hc _ IH]; intros s i blank.
  - simpl. now rewrite Nat.add_0_r.
  - cbn [app ArHeader.name_loop fold_left length fst snd]. rewrite Hc.
    rewrite IH. unfold blank_after at 2. f_equal. lia.
Qed.

Lemma fold_blank_fst (p : list ascii) :
  forall i blank,
    fst (fold_left (fun st c => (S (fst st), blank_after (fst st) (snd st) c))
           p (i, blank)) = (i + length p)%nat.
Proof.
  induction p as [|c p IH]; intros i blank; simpl; [lia |].
  rewrite IH. lia.
Qed.

Lemma fold_blank_last (p : list ascii) (c : ascii) (i blank : nat) :
  ArHeader.isBlank c = false ->
  snd (fold_left (fun st c => (S (fst st), blank_after (fst st) (snd st) c))
         (p ++ [c]) (i, blank)) = 0%nat.
Proof.
  intros Hc. rewrite fold_left_app. simpl. unfold blank_after. now rewrite Hc.
Qed.

Lemma fold_blank_blanks (k : nat) :
  forall i blank,
    (0 < blank)%nat ->
    snd (fold_left (fun st c => (S (fst st), blank_after (fst st) (snd st) c))
           (blanks k) (i, blank)) = blank.
Proof.
  induction k as [|k IH]; intros i blank Hb; simpl; [reflexivity |].
  unfold blank_after at 2. simpl.
  destruct blank as [|b]; [lia |]. simpl. apply IH. lia.
Qed.

Lemma isSlash_blanks (n : nat) :
  Forall (fun c => ArHeader.isSlash c = false) (blanks n).
Proof. induction n; simpl; constructor; [reflexivity | assumption]. Qed.

Lemma isSlash_slash : ArHeader.isSlash "/"%char = true.
Proof. reflexivity. Qed.

Lemma isBlank_blank : ArHeader.isBlank " "%char = true.
Proof. reflexivity. Qed.

Lemma blank_after_first (i : nat) : blank_after i 0 " "%char = i.
Proof. reflexivity. Qed.

(** ** The scan of an archive file *)

Lemma header_scan_size (hdr : ArHeader.ar_hdr) (st : option (list ascii))
    (h : ArHeader.t) :
  ArHeader.scan hdr st = Some h -> 0 <= ArHeader.size h <= ArHeader.uint_max.
Proof.
  unfold ArHeader.scan. intros H.
  match type of H with (if ?b then _ else _) = _ => destruct b end;
    [discriminate |].
  match type of H with (if ?b then _ else _) = _ => destruct b end.
  - destruct (ArHeader.extract_value (ArHeader.ar_size hdr) 10) eqn:E;
      [| discriminate].
    injection H as <-. simpl. eapply extract_value_range; eassumption.
  - match type of H with match ?b with _ => _ end = _ => destruct b end;
      [| discriminate].
    destruct (ArHeader.extract_value (ArHeader.ar_date hdr) 10); [| discriminate].
    destruct (ArHeader.extract_value (ArHeader.ar_uid hdr) 10); [| discriminate].
    destruct (ArHeader.extract_value (ArHeader.ar_gid hdr) 10); [| discriminate].
    destruct (ArHeader.extract_value (ArHeader.ar_mode hdr) 8); [| discriminate].
    destruct (ArHeader.extract_value (ArHeader.ar_size hdr) 10) eqn:E;
      [| discriminate].
    injection H as <-. simpl. eapply extract_value_range; eassumption.
Qed.

Lemma even_step (cp : nat) (size : Z) :
  Nat.even cp = true -> 0 <= size ->
  Nat.even (cp + ArReader.hdr_size) = true /\
  Nat.even (cp + ArReader.hdr_size + Z.to_nat size +
            (if size mod 2 =? 0 then 0 else 1)) = true.
Proof.
  intros Hcp Hs. rewrite !Nat.even_spec in *.
  destruct Hcp as [a Ha]. unfold ArReader.hdr_size.
  split; [exists (a + 30)%nat; lia |].
  pose proof (Z.div_mod size 2 ltac:(lia)) as D.
  pose proof (Z.mod_pos_bound size 2 ltac:(lia)) as B.
  destruct (size mod 2 =? 0) eqn:E.
  - apply Z.eqb_eq in E. exists (a + 30 + Z.to_nat (size / 2))%nat. lia.
  - apply Z.eqb_neq in E. exists (a + 30 + Z.to_nat (size / 2) + 1)%nat. lia.
Qed.

Lemma readerOk_mono (b b' : nat) (r : ArReader.t) :
  (b <= b')%nat -> readerOk b r -> readerOk b' r.
Proof.
  intros Hle [Hm Hs]. split.
  - intros name m Hf. destruct (Hm name m Hf) as (H1 & H2 & H3 & H4 & H5).
    repeat split; try assumption; lia.
  - intros b0 l Hf. destruct (Hs b0 l Hf) as (H1 & H2 & H3).
    repeat split; try assumption; lia.
Qed.

Lemma string_of_list_nonempty (l : list ascii) :
  Nat.eqb (length l) 0 = false -> string_of_list_ascii l <> "".
Proof. destruct l; [discriminate | simpl; discriminate]. Qed.

Lemma scanLoop_ok (fuel : nat) (file : list ascii) :
  forall (cp : nat) (st : option (nat * Z)) (r : ArReader.t),
    Nat.even cp = true -> readerOk cp r ->
    (length file <= cp + fuel)%nat ->
    exists res,
      ArReader.scanLoop fuel file cp st r = Ok res /\
      forall r', res = Some r' -> readerOk (length file) r'.
Proof.
  induction fuel as [|fuel IH]; intros cp st r Hev Hok Hfuel;
    cbn [ArReader.scanLoop].
  - destruct (cp + ArReader.hdr_size <=? length file)%nat eqn:E.
    { apply Nat.leb_le in E. unfold ArReader.hdr_size in E. lia. }
    eexists. split; [reflexivity |].
    intros r' Hr. destruct (Nat.eqb cp (length file)) eqn:Ec; [| discriminate].
    injection Hr as <-. apply Nat.eqb_eq in Ec. now rewrite <- Ec.
  - destruct (cp + ArReader.hdr_size <=? length file)%nat eqn:E.
    2:{ eexists. split; [reflexivity |].
        intros r' Hr. destruct (Nat.eqb cp (length file)) eqn:Ec; [| discriminate].
        injection Hr as <-. apply Nat.eqb_eq in Ec. now rewrite <- Ec. }
    destruct (ArHeader.scan _ _) as [header|] eqn:Eh.
    2:{ eexists. split; [reflexivity | discriminate]. }
    pose proof (header_scan_size _ _ _ Eh) as Hsize.
    destruct (even_step cp (ArHeader.size header) Hev ltac:(lia)) as [Hev1 Hev2].
    cbv zeta.
    set (cp' := (cp + ArReader.hdr_size + Z.to_nat (ArHeader.size header) +
                 (if (ArHeader.size header mod 2 =? 0)%Z then 0 else 1))%nat) in *.
    assert (Hcp' : (cp + ArReader.hdr_size + Z.to_nat (ArHeader.size header) <= cp')%nat)
      by (subst cp'; lia).
    assert (Hfuel' : (length file <= cp' + fuel)%nat)
      by (unfold ArReader.hdr_size in Hcp'; lia).
    destruct (ArHeader.is_string_table header).
    { destruct (_ || _).
      - eexists. split; [reflexivity | discriminate].
      - apply IH; [exact Hev2 | | exact Hfuel'].
        apply (readerOk_mono cp); [unfold ArReader.hdr_size in Hcp'; lia | exact Hok]. }
    destruct (Nat.eqb (length (ArHeader.name header)) 0) eqn:En.
    { destruct (ArReader.symtable r) as [[b0 l0]|] eqn:Es.
      - eexists. split; [reflexivity | discriminate].
      - apply IH; [exact Hev2 | | exact Hfuel'].
        destruct Hok as [Hm Hs]. split.
        + intros name m Hf. simpl in Hf.
          destruct (Hm name m Hf) as (H1 & H2 & H3 & H4 & H5).
          repeat split; try assumption; unfold ArReader.hdr_size in Hcp'; lia.
        + intros b l Hf. simpl in Hf. injection Hf as <- <-.
          repeat split; [exact Hev1 | lia | lia | lia]. }
    destruct (SMap.insert _ _ (ArReader.members r)) as [members'|] eqn:Ei.
    2:{ eexists. split; [reflexivity | discriminate]. }
    apply insert_Some in Ei as [Hnone ->].
    apply IH; [exact Hev2 | | exact Hfuel'].
    destruct Hok as [Hm Hs]. split.
    + intros name m Hf. simpl in Hf. rewrite find_set in Hf.
      destruct (String.eqb name _) eqn:Ename.
      * apply String.eqb_eq in Ename. injection Hf as <-. simpl.
        split; [now symmetry |].
        split; [rewrite Ename; now apply string_of_list_nonempty |].
        split; [exact Hev1 |].
        split; [unfold ArReader.hdr_size in *; simpl; lia | simpl; lia].
      * destruct (Hm name m Hf) as (H1 & H2 & H3 & H4 & H5).
        repeat split; try assumption; unfold ArReader.hdr_size in Hcp'; lia.
    + intros b l Hf. simpl in Hf.
      destruct (Hs b l Hf) as (H1 & H2 & H3).
      repeat split; try assumption; unfold ArReader.hdr_size in Hcp'; lia.
Qed.

(** ** Strings *)

Lemma append_nil_l (b : string) : "" +:+ b = b.
Proof. reflexivity. Qed.

Lemma append_cons (c : ascii) (a b : string) :
  String c a +:+ b = String c (a +:+ b).
Proof. reflexivity. Qed.

Lemma append_assoc (a b c : string) : (a +:+ b) +:+ c = a +:+ (b +:+ c).
Proof.
  induction a as [|x a IH]; [reflexivity |].
  now rewrite !append_cons, IH.
Qed.

Lemma append_nil_r (a : string) : a +:+ "" = a.
Proof.
  induction a as [|x a IH]; [reflexivity |]. now rewrite append_cons, IH.
Qed.

Lemma length_append (a b : string) :
  String.length (a +:+ b) = (String.length a + String.length b)%nat.
Proof.
  induction a as [|x a IH]; [reflexivity |].
  rewrite append_cons. simpl. now rewrite IH.
Qed.

(** ** Hex digits *)

Lemma small_cases (P : Z -> Prop) (d : Z) :
  0 <= d < 16 ->
  P 0 -> P 1 -> P 2 -> P 3 -> P 4 -> P 5 -> P 6 -> P 7 -> P 8 -> P 9 ->
  P 10 -> P 11 -> P 12 -> P 13 -> P 14 -> P 15 -> P d.
Proof.
  intros H. intros.
  assert (E : d = 0 \/ d = 1 \/ d = 2 \/ d = 3 \/ d = 4 \/ d = 5 \/ d = 6 \/
              d = 7 \/ d = 8 \/ d = 9 \/ d = 10 \/ d = 11 \/ d = 12 \/
              d = 13 \/ d = 14 \/ d = 15) by lia.
  repeat (destruct E as [-> | E]; [assumption |]). now subst.
Qed.

Lemma hexDigit_digitOf (d : Z) :
  0 <= d < 16 ->
  hexDigit (ostream.digitOf true d) = Some d /\
  isspace (ostream.digitOf true d) = false.
Proof.
  intros H.
  apply (small_cases
           (fun d => hexDigit (ostream.digitOf true d) = Some d /\
                     isspace (ostream.digitOf true d) = false) d H);
    split; reflexivity.
Qed.

Lemma hexExtract_hexByte (b : Z) :
  0 <= b <= 255 ->
  hexExtract (ostream.digitOf true (b / 16)) (ostream.digitOf true (b mod 16)) =
  Parsed b.
Proof.
  intros H.
  assert (H1 : 0 <= b / 16 < 16).
  { split; [apply Z.div_pos; lia | apply Z.div_lt_upper_bound; lia]. }
  assert (H2 : 0 <= b mod 16 < 16) by (apply Z.mod_pos_bound; lia).
  destruct (hexDigit_digitOf _ H1) as [E1 S1].
  destruct (hexDigit_digitOf _ H2) as [E2 _].
  unfold hexExtract. rewrite S1, E1, E2. f_equal.
  pose proof (Z.div_mod b 16 ltac:(lia)). lia.
Qed.

Lemma showNum_byte (b : Z) :
  0 <= b <= 255 ->
  ostream.showNum ostream.Hex true b =
  if b / 16 =? 0 then String (ostream.digitOf true (b mod 16)) ""
  else hexByte b.
Proof.
  intros H. unfold ostream.showNum, hexByte.
  cbn [ostream.digitsOf ostream.radix].
  destruct (b / 16 =? 0) eqn:E; [reflexivity |].
  assert (H1 : 0 <= b / 16 < 16).
  { split; [apply Z.div_pos; lia | apply Z.div_lt_upper_bound; lia]. }
  rewrite (Z.mod_small (b / 16)) by exact H1.
  rewrite (Z.div_small (b / 16)) by exact H1. reflexivity.
Qed.

(** A byte as the inner loop of [print] writes it. *)
Lemma put_byte (out : ostream.t) (b : Z) :
  0 <= b <= 255 -> ostream.left out = false ->
  ostream.buf
    (ostream.put_num
       (ostream.uppercase (ostream.hex (ostream.setfill "0" (ostream.setw 2 out))))
       b) = ostream.buf out +:+ hexByte b.
Proof.
  intros H Hl. unfold ostream.put_num, ostream.put. simpl.
  rewrite Hl, showNum_byte by exact H.
  destruct (b / 16 =? 0) eqn:E.
  - apply Z.eqb_eq in E. unfold hexByte. rewrite E. reflexivity.
  - reflexivity.
Qed.

Lemma length_hexDump (bytes : list Z) :
  String.length (hexDump bytes) = (2 * length bytes)%nat.
Proof.
  induction bytes as [|b bytes IH]; [reflexivity |].
  cbn [hexDump]. unfold hexByte. rewrite !append_cons, append_nil_l.
  cbn [String.length length]. rewrite IH. lia.
Qed.

Lemma even_double (n : nat) : Nat.even (2 * n) = true.
Proof. rewrite Nat.even_spec. now exists n. Qed.

Lemma div2_double (n : nat) : Nat.div2 (2 * n) = n.
Proof. apply Nat.div2_double. Qed.

Lemma land_byte (b : Z) : 0 <= b <= 255 -> Z.land b 255 = b.
Proof.
  intros H. change 255 with (Z.ones 8). rewrite Z.land_ones by lia.
  apply Z.mod_small. lia.
Qed.

(** The loop of [insertByteString] on a dump of bytes. *)
Lemma insertLoop_hexDump (bytes : list Z) :
  forall (i : Z) (m : gmap Z Z),
    Forall (fun b => 0 <= b <= 255) bytes ->
    0 <= i -> i + Z.of_nat (length bytes) <= two64 ->
    Z.of_nat (size m) + Z.of_nat (length bytes) <= map_max_size ->
    exists m',
      Segment.insertLoop (length bytes) i 0 (hexDump bytes) m = Ok m' /\
      forall k,
        m' !! k = if decide (i <= k < i + Z.of_nat (length bytes))
                  then bytes !! Z.to_nat (k - i) else m !! k.
Proof.
  induction bytes as [|b bytes IH]; intros i m Hb Hi Hend Hroom.
  - exists m. split; [reflexivity |]. intros k.
    destruct (decide _) as [H|H]; [simpl in H; lia | reflexivity].
  - inversion Hb as [|? ? Hb0 Hbs]; subst.
    cbn [length] in Hend, Hroom. rewrite Nat2Z.inj_succ in Hend, Hroom.
    cbn [hexDump length]. unfold hexByte.
    rewrite !append_cons, append_nil_l. cbn [Segment.insertLoop].
    rewrite hexExtract_hexByte by exact Hb0. cbn [bind].
    rewrite Z.add_0_l, wrap64_small by lia.
    rewrite land_byte by exact Hb0.
    assert (Hstore : mem_store m i b = Ok (<[i := b]> m)).
    { unfold mem_store. destruct (m !! i); [reflexivity |].
      replace (Z.of_nat (size m) <? map_max_size) with true; [reflexivity |].
      symmetry. apply Z.ltb_lt. lia. }
    rewrite Hstore. cbn [bind].
    assert (Hsz : Z.of_nat (size (<[i := b]> m)) <= Z.of_nat (size m) + 1).
    { destruct (m !! i) as [x|] eqn:E.
      - rewrite map_size_insert_Some by eauto. lia.
      - rewrite map_size_insert_None by exact E. lia. }
    assert (Hroom' : Z.of_nat (size (<[i := b]> m)) + Z.of_nat (length bytes) <=
                     map_max_size).
    { lia. }
    destruct (IH (i + 1) (<[i := b]> m) Hbs ltac:(lia) ltac:(lia) Hroom')
      as (m' & Hm' & Hlook).
    exists m'. split; [exact Hm' |]. intros k. rewrite Hlook.
    destruct (decide (i + 1 <= k < i + 1 + Z.of_nat (length bytes))) as [H1|H1];
      destruct (decide (i <= k < i + Z.of_nat (S (length bytes)))) as [H2|H2];
      try lia.
    + replace (Z.to_nat (k - i)) with (S (Z.to_nat (k - (i + 1)))) by lia.
      reflexivity.
    + assert (k = i) by lia. subst k.
      rewrite lookup_insert_eq. now rewrite Z.sub_diag.
    + rewrite lookup_insert_ne by lia. reflexivity.
Qed.

Lemma bytesAt_length (n : nat) (k : Z) (m : gmap Z Z) :
  length (bytesAt n k m) = n.
Proof. revert k. induction n as [|n IH]; intros k; simpl; [reflexivity | now rewrite IH]. Qed.

Lemma bytesAt_lookup (n : nat) :
  forall (k : Z) (m : gmap Z Z) (j : nat),
    (j < n)%nat -> bytesAt n k m !! j = Some (default 0 (m !! (k + Z.of_nat j))).
Proof.
  induction n as [|n IH]; intros k m j Hj; [lia |].
  destruct j as [|j]; simpl.
  - now rewrite Z.add_0_r.
  - rewrite IH by lia. do 3 f_equal. lia.
Qed.

(** ** The format state of the stream *)

Lemma put_lines_state (vs : list string) :
  forall out,
    ostream.base (ostream.put_lines out vs) = ostream.base out /\
    ostream.upper (ostream.put_lines out vs) = ostream.upper out /\
    ostream.left (ostream.put_lines out vs) = ostream.left out /\
    (ostream.width out = 0%nat ->
     ostream.width (ostream.put_lines out vs) = 0%nat).
Proof.
  unfold ostream.put_lines.
  induction vs as [|v vs IH]; intros out; simpl; [auto |].
  destruct (IH (ostream.endl (ostream.put out v))) as (H1 & H2 & H3 & H4).
  rewrite H1, H2, H3. simpl. auto.
Qed.

Lemma print_head_state (s : Segment.t) (i : Z) (out : ostream.t) :
  hexState (Emit.print_head s i out) /\
  ostream.left (Emit.print_head s i out) = ostream.left out.
Proof.
  unfold Emit.print_head, hexState.
  set (o1 := match Segment.header s !! i with
             | Some vs => ostream.put_lines out vs | None => out end).
  set (o2 := match Segment.label s !! i with
             | Some vs => ostream.put_lines o1 vs | None => o1 end).
  assert (L1 : ostream.left o1 = ostream.left out).
  { subst o1. destruct (Segment.header s !! i); [apply put_lines_state | reflexivity]. }
  assert (L2 : ostream.left o2 = ostream.left out).
  { subst o2. destruct (Segment.label s !! i); [| exact L1].
    rewrite <- L1. apply put_lines_state. }
  destruct (negb _); simpl; rewrite L2; auto.
Qed.

Lemma print_byte_state (s : Segment.t) (strip : bool) (i : Z)
    (out : ostream.t) (r : ostream.t * bool) :
  Emit.print_byte s strip i out = Ok r ->
  hexState (fst r) /\ ostream.left (fst r) = ostream.left out.
Proof.
  unfold Emit.print_byte, hexState. intros H.
  destruct (Segment.memory s !! i) as [b|]; [| discriminate].
  destruct strip.
  { injection H as <-. simpl. auto. }
  destruct (Segment.annotation s !! i) as [a|].
  { injection H as <-. destruct (negb _); simpl; auto. }
  destruct (_ || _).
  { injection H as <-. simpl. auto. }
  injection H as <-. destruct (_ =? 3); simpl; auto.
Qed.

Lemma printLoop_state (fuel : nat) (s : Segment.t) (strip : bool) :
  forall (i : Z) (head : bool) (out out' : ostream.t),
    Emit.printLoop fuel s strip i head out = Ok out' ->
    ostream.left out' = ostream.left out /\
    (hexState out \/ i < Segment.size s -> hexState out').
Proof.
  induction fuel as [|fuel IH]; intros i head out out' H;
    cbn [Emit.printLoop] in H.
  - destruct (i <? Segment.size s) eqn:E; [discriminate |].
    apply Z.ltb_ge in E.
    assert (out' = out).
    { destruct head; [congruence |].
      destruct (_ <? _); [discriminate | congruence]. }
    subst. split; [reflexivity |]. intros [Hs | Hlt]; [exact Hs | lia].
  - destruct (i <? Segment.size s) eqn:E.
    + apply bind_Ok in H as (r & Hr & H).
      apply print_byte_state in Hr as [Hs Hl].
      apply IH in H as [Hl' Hs'].
      split.
      * rewrite Hl', Hl. destruct (head && negb strip); [| reflexivity].
        apply print_head_state.
      * intros _. apply Hs'. now left.
    + apply Z.ltb_ge in E.
      assert (out' = out).
      { destruct head; [congruence |].
        destruct (_ <? _); [discriminate | congruence]. }
      subst. split; [reflexivity |]. intros [Hs | Hlt]; [exact Hs | lia].
Qed.

Lemma Segment_print_state (s : Segment.t) (strip : bool) (out out' : ostream.t) :
  Emit.Segment_print s strip out = Ok out' ->
  0 < Segment.size s ->
  hexState out' /\ ostream.left out' = ostream.left out.
Proof.
  unfold Emit.Segment_print. intros H Hsz.
  apply bind_Ok in H as (o1 & H1 & H). injection H as <-.
  apply printLoop_state in H1 as [Hl Hs]. specialize (Hs (or_intror Hsz)).
  set (o2 := if negb _ then ostream.endl o1 else o1).
  assert (H2 : hexState o2 /\ ostream.left o2 = ostream.left out).
  { subst o2. destruct (negb _); [| auto].
    destruct Hs as (A & B & C). unfold hexState. simpl. auto. }
  destruct H2 as [(A & B & C) L].
  destruct (Segment.header s !! Segment.size s) as [vs|]; [| unfold hexState; auto].
  destruct (put_lines_state vs o2) as (H1 & H2 & H3 & H4).
  unfold hexState. rewrite H1, H2, H3. auto.
Qed.

(** ** What the stream holds *)

Lemma buf_put (out : ostream.t) (s : string) :
  ostream.width out = 0%nat ->
  ostream.buf (ostream.put out s) = ostream.buf out +:+ s.
Proof.
  intros H. unfold ostream.put. simpl. rewrite H. simpl.
  destruct (ostream.left out); [now rewrite append_nil_r | reflexivity].
Qed.

Lemma buf_endl (out : ostream.t) :
  ostream.buf (ostream.endl out) = ostream.buf out +:+ String "010" "".
Proof. reflexivity. Qed.

Lemma buf_put_lines (vs : list string) :
  forall out,
    ostream.width out = 0%nat ->
    ostream.buf (ostream.put_lines out vs) = ostream.buf out +:+ unlines vs.
Proof.
  unfold ostream.put_lines.
  induction vs as [|v vs IH]; intros out H; cbn [fold_left unlines].
  - now rewrite append_nil_r.
  - rewrite IH by reflexivity. rewrite buf_endl, buf_put by exact H.
    now rewrite !append_assoc.
Qed.

Lemma showNum_dec (u : bool) (n : Z) :
  ostream.showNum ostream.Dec u n = ostream.showNum ostream.Dec true n.
Proof.
  unfold ostream.showNum. generalize "" as acc. generalize 64%nat as fuel.
  intros fuel. revert n. induction fuel as [|fuel IH]; intros n acc;
    cbn [ostream.digitsOf ostream.radix]; [reflexivity |].
  assert (E : ostream.digitOf u (n mod 10) = ostream.digitOf true (n mod 10)).
  { unfold ostream.digitOf.
    pose proof (Z.mod_pos_bound n 10 ltac:(lia)) as B.
    replace (n mod 10 <? 10) with true by (symmetry; apply Z.ltb_lt; lia).
    reflexivity. }
  rewrite E. destruct (n / 10 =? 0); [reflexivity | apply IH].
Qed.

(** The loops of [print] without addresses: the bytes, two digits each. *)
Lemma printLoop_strip (fuel : nat) (s : Segment.t) :
  SegInv s -> Segment.size s < map_max_size ->
  forall (i : Z) (head : bool) (out : ostream.t),
    Forall (fun b => 0 <= b <= 255)
      (bytesAt (Z.to_nat (Segment.size s - i)) i (Segment.memory s)) ->
    ostream.left out = false ->
    0 <= i <= Segment.size s -> Segment.size s - i <= Z.of_nat fuel ->
    exists out',
      Emit.printLoop fuel s true i head out = Ok out' /\
      ostream.buf out' =
        ostream.buf out +:+
        hexDump (bytesAt (Z.to_nat (Segment.size s - i)) i (Segment.memory s)).
Proof.
  intros Hinv Hmax. pose proof (size_of_inv s Hinv) as Hsz.
  induction fuel as [|fuel IH]; intros i head out Hb Hl Hi Hf;
    cbn [Emit.printLoop].
  - assert (i = Segment.size s) by lia. subst i.
    rewrite Z.ltb_irrefl, Z.sub_diag.
    rewrite wrap64_small by (unfold map_max_size in Hmax; lia).
    replace (Segment.size s + 1 <? Segment.size s) with false
      by (symmetry; apply Z.ltb_ge; lia).
    exists out. split; [now destruct head |].
    simpl. now rewrite append_nil_r.
  - destruct (i <? Segment.size s) eqn:E.
    + apply Z.ltb_lt in E. rewrite andb_false_r.
      assert (Hsome : is_Some (Segment.memory s !! i)).
      { apply (inv_contiguous s Hinv). lia. }
      destruct Hsome as [b Hbv].
      replace (Z.to_nat (Segment.size s - i))
        with (S (Z.to_nat (Segment.size s - (i + 1)))) in * by lia.
      cbn [bytesAt hexDump] in *. rewrite Hbv in *. cbn [default] in *.
      inversion Hb as [|? ? Hb0 Hbs]; subst.
      unfold Emit.print_byte. rewrite Hbv. cbn [bind fst snd].
      rewrite wrap64_small by (unfold map_max_size in Hmax; lia).
      match goal with
      | |- exists out', Emit.printLoop _ _ _ _ _ ?o = _ /\ _ =>
          destruct (IH (i + 1) false o Hbs) as (out' & Hout & Hbuf);
            [reflexivity || (simpl; exact Hl) | lia | lia |]
      end.
      exists out'. split; [exact Hout |].
      rewrite Hbuf, buf_put by reflexivity.
      rewrite put_byte by assumption.
      now rewrite append_nil_r, append_assoc.
    + apply Z.ltb_ge in E. assert (i = Segment.size s) by lia. subst i.
      rewrite Z.sub_diag.
      rewrite wrap64_small by (unfold map_max_size in Hmax; lia).
      replace (Segment.size s + 1 <? Segment.size s) with false
        by (symmetry; apply Z.ltb_ge; lia).
      exists out. split; [now destruct head |].
      simpl. now rewrite append_nil_r.
Qed.

Lemma extends_refl (a : ostream.t) : extends a a.
Proof. exists "". now rewrite append_nil_r. Qed.

Lemma extends_trans (a b c : ostream.t) : extends a b -> extends b c -> extends a c.
Proof.
  intros [t Ht] [u Hu]. exists (t +:+ u). now rewrite Hu, Ht, append_assoc.
Qed.

Lemma extends_put (a : ostream.t) (s : string) : extends a (ostream.put a s).
Proof. unfold ostream.put. eexists. simpl. reflexivity. Qed.

Lemma extends_endl (a : ostream.t) : extends a (ostream.endl a).
Proof. unfold ostream.endl. eexists. simpl. reflexivity. Qed.

Lemma extends_print_symbol (out : ostream.t) (k : string) (e : SymEntry) :
  extends out (Emit.print_symbol out k e).
Proof.
  unfold Emit.print_symbol, ostream.put_char, ostream.put_num.
  eapply extends_trans; [| apply extends_endl].
  eapply extends_trans; [| apply extends_put].
  eapply extends_trans; [| exact (extends_put _ " 0x")].
  eapply extends_trans; [| apply extends_put].
  eapply extends_trans; [| exact (extends_put _ " ")].
  apply extends_put.
Qed.

Lemma extends_fold {A : Type} (f : ostream.t -> A -> ostream.t) (l : list A) :
  (forall out x, extends out (f out x)) ->
  forall out, extends out (fold_left f l out).
Proof.
  intros Hf. induction l as [|x l IH]; intros out; simpl.
  - apply extends_refl.
  - eapply extends_trans; [apply Hf | apply IH].
Qed.

Lemma extends_print_symtab (o : ObjectFile.t) (out : ostream.t) :
  extends out (Emit.print_symtab o out).
Proof.
  unfold Emit.print_symtab.
  eapply extends_trans; [| apply extends_fold].
  - eapply extends_trans; [| apply extends_fold].
    + eapply extends_trans; [apply extends_put | apply extends_endl].
    + intros out0 x. apply extends_print_symbol.
  - intros out0 x. apply extends_fold. intros out1 e.
    apply extends_print_symbol.
Qed.

Lemma buf_hex (out : ostream.t) : ostream.buf (ostream.hex out) = ostream.buf out.
Proof. reflexivity. Qed.

Lemma buf_dec (out : ostream.t) : ostream.buf (ostream.dec out) = ostream.buf out.
Proof. reflexivity. Qed.

Lemma buf_print_bss (o : ObjectFile.t) (out : ostream.t) :
  ostream.width out = 0%nat ->
  ostream.buf (Emit.print_bss o out) =
  ostream.buf out +:+ "#BSS " +:+
  ostream.showNum (ostream.base out) (ostream.upper out)
    (Segment.alignment (ObjectFile.seg o 2)) +:+
  " " +:+
  ostream.showNum ostream.Dec (ostream.upper out)
    (Segment.size (ObjectFile.seg o 2)) +:+
  String "010" "" +:+ "#(begins at 0x" +:+
  ostream.showNum ostream.Hex (ostream.upper out)
    (Segment.baseAddr (ObjectFile.seg o 2)) +:+
  ")" +:+ String "010" "".
Proof.
  intros Hw. unfold Emit.print_bss, ostream.put_num. cbv zeta.
  repeat first [rewrite buf_endl | rewrite buf_hex | rewrite buf_dec
               | rewrite buf_put by (reflexivity || exact Hw)].
  cbn [ostream.base ostream.upper ostream.dec ostream.put ostream.hex
       ostream.endl].
  rewrite !append_assoc. reflexivity.
Qed.

(** ** The set of library directories *)

Lemma sset_insert_In (k x : string) (s : SSet.t) :
  In x (SSet.insert k s) <-> x = k \/ In x s.
Proof.
  induction s as [|k' s IH]; simpl.
  - intuition (subst; auto).
  - destruct (String.compare k k') eqn:E; simpl.
    + apply String.compare_eq_iff in E. subst k'. intuition (subst; auto).
    + intuition (subst; auto).
    + rewrite IH. intuition (subst; auto).
Qed.

Lemma sset_insert_sorted (k : string) (s : SSet.t) :
  StronglySorted slt s -> StronglySorted slt (SSet.insert k s).
Proof.
  induction s as [|k' s IH]; intros Hs; simpl.
  - constructor; constructor.
  - inversion Hs as [|? ? Hs' Hall]; subst.
    destruct (String.compare k k') eqn:E.
    + exact Hs.
    + constructor; [exact Hs |]. constructor; [exact E |].
      eapply Forall_impl; [exact Hall |].
      intros x Hx. eapply slt_trans; [exact E | exact Hx].
    + constructor; [now apply IH |].
      rewrite List.Forall_forall. intros x Hx.
      apply sset_insert_In in Hx as [-> | Hx].
      * now apply compare_Gt_slt.
      * rewrite List.Forall_forall in Hall. now apply Hall.
Qed.

Lemma fold_insert_sorted (ps : list string) :
  forall s, StronglySorted slt s ->
            StronglySorted slt (fold_left (fun s p => SSet.insert p s) ps s).
Proof.
  induction ps as [|p ps IH]; intros s Hs; simpl; [exact Hs |].
  apply IH. now apply sset_insert_sorted.
Qed.

Lemma init_libpath_sorted (env : option string) :
  StronglySorted slt (ObjectFile.libpath (ObjectFile.init env)).
Proof.
  unfold ObjectFile.init. simpl. destruct env; [| constructor].
  apply fold_insert_sorted. constructor.
Qed.

Lemma libArgs_sorted (argv : list string) (n : nat) :
  forall i o o',
    libArgs n i argv o = Ok o' ->
    StronglySorted slt (ObjectFile.libpath o) ->
    StronglySorted slt (ObjectFile.libpath o').
Proof.
  induction n as [|n IH]; intros i o o' H Hs; cbn [libArgs] in H.
  - now injection H as <-.
  - destruct (argv !! i) as [a|]; [| now injection H as <-].
    destruct (String.eqb a "-L").
    { destruct (argv !! S i); [| discriminate].
      eapply IH; [exact H |]. simpl. now apply sset_insert_sorted. }
    destruct (String.prefix "-L" a).
    { eapply IH; [exact H |]. simpl. now apply sset_insert_sorted. }
    eapply IH; eassumption.
Qed.

Lemma readSym_libpath (o o' : ObjectFile.t) (source : string) (l : SymLine) :
  ObjectFile.readSym o source l = Ok o' ->
  ObjectFile.libpath o' = ObjectFile.libpath o.
Proof.
  intros H. apply readSym_cases in H. cbv zeta in H.
  assert (Hs : ObjectFile.libpath (fst (ObjectFile.symSwitch o source l)) =
               ObjectFile.libpath o).
  { unfold ObjectFile.symSwitch, ObjectFile.biasSym.
    repeat match goal with |- context [if ?b then _ else _] => destruct b end;
      reflexivity. }
  destruct H as [(EU & ->) | [(EU & Edot & ->) | [(EU & Edot & Eup & ->) |
                 (EU & Edot & Eup & Ec & ->)]]]; try exact Hs.
  destruct (_ || _); exact Hs.
Qed.

Lemma argLoop_libpath (fuel : nat) (argv : list string) (n : nat) :
  forall i st st',
    argLoop fuel n i argv st = Ok st' ->
    ObjectFile.libpath (objectFile st') = ObjectFile.libpath (objectFile st).
Proof.
  apply (argLoop_steps
           (fun o o' => ObjectFile.libpath o' = ObjectFile.libpath o)).
  - reflexivity.
  - intros o1 o2 o3 H1 H2. congruence.
  - intros o o' i a source H. apply readTextData_frame in H as [s ->]. reflexivity.
  - intros o o' args source H. apply readBss_frame in H as [s ->]. reflexivity.
  - intros o i base source b r H. apply readBytes_frame in H as [s ->]. reflexivity.
  - exact readSym_libpath.
  - intros o o' source l H. apply readFixup_frame in H as [f ->]. reflexivity.
Qed.

Lemma processArgs_libpath_sorted (fuel : nat) (env : option string) (fs : FS)
    (argv : list string) (st : MainState) :
  processArgs fuel env fs argv = Ok st ->
  StronglySorted slt (ObjectFile.libpath (objectFile st)).
Proof.
  intros H. unfold processArgs in H.
  destruct (Nat.eqb (length argv) 0); [discriminate |].
  apply bind_Ok in H as (o & H1 & H).
  apply libArgs_sorted in H1; [| apply init_libpath_sorted].
  apply argLoop_libpath in H. simpl in H. now rewrite H.
Qed.

(** [findLib] returns the first directory of the list that holds the
    archive. *)
Lemma findLib_first (fs : FS) (name : string) (paths : list string) :
  forall path r,
    ObjectFile.findLib fs paths name = Some (path, r) ->
    exists l1 dir l2,
      paths = l1 ++ dir :: l2 /\
      path = dir +:+ "/lib" +:+ name +:+ ".a" /\
      archive_open fs path = Some r /\
      forall d, In d l1 ->
                archive_open fs (d +:+ "/lib" +:+ name +:+ ".a") = None.
Proof.
  induction paths as [|p paths IH]; intros path r H;
    cbn [ObjectFile.findLib] in H; [discriminate |].
  destruct (archive_open fs (p +:+ "/lib" +:+ name +:+ ".a")) as [r0|] eqn:E.
  - injection H as <- <-. exists [], p, paths.
    split; [reflexivity |]. split; [reflexivity |]. split; [exact E |].
    intros d [].
  - destruct (IH path r H) as (l1 & dir & l2 & -> & Hp & Ho & Hn).
    exists (p :: l1), dir, l2. split; [reflexivity |].
    split; [exact Hp |]. split; [exact Ho |].
    intros d [<- | Hd]; [exact E | now apply Hn].
Qed.

Lemma sorted_before (l1 l2 : list string) (dir d : string) :
  StronglySorted slt (l1 ++ dir :: l2) ->
  In d (l1 ++ dir :: l2) -> slt d dir -> In d l1.
Proof.
  induction l1 as [|x l1 IH]; intros Hs Hin Hlt; simpl in *.
  - inversion Hs as [|? ? _ Hall]; subst.
    destruct Hin as [<- | Hin]; [now apply slt_irrefl in Hlt |].
    rewrite List.Forall_forall in Hall. specialize (Hall d Hin).
    exfalso. apply (slt_irrefl d). eapply slt_trans; eassumption.
  - inversion Hs as [|? ? Hs' _]; subst.
    destruct Hin as [<- | Hin]; [now left | right; now apply IH].
Qed.

(** ** The [#BSS] line *)

Lemma S9_ObjInv : ObjInv S9_state.
Proof.
  assert (E : ObjectFile.readBss (ObjectFile.init None) (Some (1, 3)) "a.o"
              = Ok S9_state) by (vm_compute; reflexivity).
  eapply readBss_inv; [apply (init_ObjInv None) | exact E].
Qed.

(** ** An input file named after [-o] *)







(** ** The idents of the fixups *)








(** ** Lines and words *)

Lemma isspace_blank : istream.isspace " " = true.
Proof. reflexivity. Qed.

Lemma eqb_newline_space (c : ascii) :
  Ascii.eqb c "010" = true -> istream.isspace c = true.
Proof. intros H. apply Ascii.eqb_eq in H. now subst c. Qed.

Lemma isupper_not_space (c : ascii) :
  isupper c = true -> istream.isspace c = false.
Proof.
  unfold isupper, istream.isspace. cbv zeta.
  rewrite andb_true_iff, !N.leb_le. intros [H1 H2].
  rewrite orb_false_iff, andb_false_iff, N.eqb_neq, !N.leb_gt. lia.
Qed.

Lemma skipws_fill (k : nat) (r : string) :
  istream.skipws (ostream.fill " " k +:+ r) = istream.skipws r.
Proof.
  induction k as [|k IH]; cbn [ostream.fill].
  - now rewrite append_nil_l.
  - rewrite append_cons. cbn [istream.skipws]. now rewrite isspace_blank.
Qed.

Lemma skipws_blank (r : string) :
  istream.skipws (" " +:+ r) = istream.skipws r.
Proof. rewrite append_cons, append_nil_l. reflexivity. Qed.

(** A word ends where white space follows it. *)
Lemma word_append (w r : string) :
  nows w = true -> istream.skipws r <> r \/ r = "" ->
  istream.word (w +:+ r) = (w, r).
Proof.
  intros Hw Hr. induction w as [|c w IH].
  - rewrite append_nil_l. destruct r as [|c r]; [reflexivity |].
    cbn [istream.word]. destruct (istream.isspace c) eqn:E; [reflexivity |].
    destruct Hr as [Hr | Hr]; [| discriminate].
    cbn [istream.skipws] in Hr. rewrite E in Hr. now contradiction Hr.
  - cbn [nows string_forall] in Hw. apply andb_true_iff in Hw as [Hc Hw].
    apply negb_true_iff in Hc. fold (nows w) in Hw.
    rewrite append_cons. cbn [istream.word]. rewrite Hc, (IH Hw).
    reflexivity.
Qed.

Lemma word_nows (s : string) : nows (fst (istream.word s)) = true.
Proof.
  induction s as [|c s IH]; [reflexivity |].
  cbn [istream.word]. destruct (istream.isspace c) eqn:E; [reflexivity |].
  cbn [fst nows string_forall]. rewrite E. exact IH.
Qed.

Lemma get_string_token (s w r : string) :
  istream.get_string s = Some (w, r) -> isToken w = true.
Proof.
  unfold istream.get_string.
  assert (H : forall s, match istream.skipws s with
                        | "" => True
                        | String c _ => istream.isspace c = false
                        end).
  { clear. induction s as [|c s IH]; [exact I |].
    cbn [istream.skipws]. destruct (istream.isspace c) eqn:E; [exact IH | exact E]. }
  specialize (H s). destruct (istream.skipws s) as [|c t]; [discriminate |].
  intros E0.
  assert (E : istream.word (String c t) = (w, r)) by congruence. clear E0.
  pose proof (word_nows (String c t)) as Hn.
  rewrite E in Hn. cbn [fst] in Hn. cbn [istream.word] in E.
  rewrite H in E. injection E as <- <-. unfold isToken.
  rewrite Hn. reflexivity.
Qed.

Lemma get_string_word (w r : string) :
  isToken w = true -> istream.skipws r <> r \/ r = "" ->
  istream.get_string (w +:+ r) = Some (w, r).
Proof.
  intros Hw Hr. unfold istream.get_string.
  pose proof Hw as Hn. unfold isToken in Hn.
  apply andb_true_iff in Hn as [Hne Hn].
  destruct w as [|c w]; [discriminate |].
  rewrite append_cons.
  cbn [nows string_forall] in Hn. apply andb_true_iff in Hn as [Hc Hn'].
  apply negb_true_iff in Hc. cbn [istream.skipws]. rewrite Hc.
  rewrite <- append_cons. rewrite word_append; [reflexivity | | exact Hr].
  cbn [nows string_forall]. now rewrite Hc.
Qed.

(** ** The lines that mkindex writes *)

Lemma blank_first (r : string) : istream.skipws (" " +:+ r) <> " " +:+ r.
Proof.
  rewrite append_cons, append_nil_l. cbn [istream.skipws].
  rewrite isspace_blank. intros E.
  assert (H : forall s,
             (String.length (istream.skipws s) <= String.length s)%nat).
  { clear. induction s as [|c s IH]; [simpl; lia |].
    cbn [istream.skipws]. destruct (istream.isspace c); simpl in *; lia. }
  specialize (H r). rewrite E in H. simpl in H. lia.
Qed.

Lemma fill_blank_first (k : nat) (r : string) :
  istream.skipws (ostream.fill " " k +:+ " " +:+ r)
  <> ostream.fill " " k +:+ " " +:+ r.
Proof.
  destruct k as [|k]; cbn [ostream.fill].
  - rewrite append_nil_l. apply blank_first.
  - rewrite append_cons.
    change (String " " (ostream.fill " " k +:+ " " +:+ r))
      with (" " +:+ (ostream.fill " " k +:+ " " +:+ r)).
    apply blank_first.
Qed.

Lemma skipws_idem (s : string) :
  istream.skipws (istream.skipws s) = istream.skipws s.
Proof.
  induction s as [|c s IH]; [reflexivity |].
  cbn [istream.skipws]. destruct (istream.isspace c) eqn:E; [exact IH |].
  cbn [istream.skipws]. now rewrite E.
Qed.

Lemma get_string_skipws (s : string) :
  istream.get_string (istream.skipws s) = istream.get_string s.
Proof. unfold istream.get_string. now rewrite skipws_idem. Qed.

Lemma skipws_token_append (w r : string) :
  isToken w = true -> istream.skipws (w +:+ r) = w +:+ r.
Proof.
  destruct w as [|c w]; [discriminate |].
  unfold isToken. cbn [nows string_forall].
  rewrite !andb_true_iff. intros (_ & Hc & _). apply negb_true_iff in Hc.
  rewrite append_cons. cbn [istream.skipws]. now rewrite Hc.
Qed.

Lemma get_string_name (name : string) :
  isToken name = true -> istream.get_string name = Some (name, "").
Proof.
  intros Hn. pose proof (get_string_word name "" Hn (or_intror eq_refl)) as H.
  now rewrite append_nil_r in H.
Qed.

Lemma get_char_upper (kind : ascii) (r : string) :
  isupper kind = true -> istream.get_char (String kind r) = Some (kind, r).
Proof.
  intros Hk. unfold istream.get_char. cbn [istream.skipws].
  now rewrite (isupper_not_space kind Hk).
Qed.

Lemma lexIndexLine_entry (kind : ascii) (ident name : string) :
  isupper kind = true -> nows ident = true -> isToken name = true ->
  lexIndexLine (entry_line kind ident name)
  = if String.eqb ident "" then (name, "") else (ident, name).
Proof.
  intros Hk Hi Hn. unfold lexIndexLine, entry_line.
  rewrite (get_char_upper kind _ Hk), <- get_string_skipws, skipws_blank.
  destruct (String.eqb ident "") eqn:E.
  - apply String.eqb_eq in E. subst ident.
    rewrite append_nil_l, skipws_fill, skipws_blank, get_string_skipws.
    rewrite (get_string_name name Hn). reflexivity.
  - assert (Ht : isToken ident = true) by (unfold isToken; now rewrite E, Hi).
    rewrite (skipws_token_append ident _ Ht).
    rewrite (get_string_word ident _ Ht (or_introl (fill_blank_first _ _))).
    rewrite <- get_string_skipws, skipws_fill, skipws_blank, get_string_skipws.
    rewrite (get_string_name name Hn). reflexivity.
Qed.

Lemma entry_line_ok (kind : ascii) (ident name : string) :
  isupper kind = true -> kind <> "U"%char -> nows ident = true ->
  isToken name = true ->
  indexLineOk name (entry_line kind ident name).
Proof.
  intros Hk Hu Hi Hn. exists kind. eexists. split; [reflexivity |].
  split; [exact Hk |]. split; [exact Hu |].
  rewrite (lexIndexLine_entry kind ident name Hk Hi Hn).
  destruct (String.eqb ident ""); [right | left]; reflexivity.
Qed.

Lemma entry_line_nows_line (kind : ascii) (ident name : string) (r : string) :
  isupper kind = true -> nows ident = true -> isToken name = true ->
  istream.getlines (entry_line kind ident name +:+ String "010" r)
  = entry_line kind ident name :: istream.getlines r.
Proof.
  intros Hk Hi Hn.
  assert (Hl : forall s, string_forall (fun c => negb (Ascii.eqb c "010")) s = true ->
               forall r, istream.getlines (s +:+ String "010" r)
                         = s :: istream.getlines r).
  { clear. induction s as [|c s IH]; intros Hs r.
    - now rewrite append_nil_l.
    - cbn [string_forall] in Hs. apply andb_true_iff in Hs as [Hc Hs].
      apply negb_true_iff in Hc. rewrite append_cons.
      cbn [istream.getlines]. rewrite Hc, (IH Hs). reflexivity. }
  apply Hl.
  assert (Happ : forall a b,
             string_forall (fun c => negb (Ascii.eqb c "010")) (a +:+ b)
             = string_forall (fun c => negb (Ascii.eqb c "010")) a &&
               string_forall (fun c => negb (Ascii.eqb c "010")) b).
  { clear. induction a as [|c a IH]; intros b.
    - now rewrite append_nil_l.
    - rewrite append_cons. cbn [string_forall]. rewrite IH. apply andb_assoc. }
  assert (Hw : forall s, nows s = true ->
               string_forall (fun c => negb (Ascii.eqb c "010")) s = true).
  { clear. induction s as [|c s IH]; [reflexivity |].
    cbn [nows string_forall]. rewrite !andb_true_iff, !negb_true_iff.
    intros [Hc Hs]. split; [| now apply IH].
    destruct (Ascii.eqb c "010") eqn:E; [| reflexivity].
    apply eqb_newline_space in E. congruence. }
  assert (Hf : forall k,
             string_forall (fun c => negb (Ascii.eqb c "010"))
               (ostream.fill " " k) = true).
  { clear. induction k as [|k IH]; [reflexivity |].
    cbn [ostream.fill string_forall]. now rewrite IH. }
  unfold entry_line. cbn [string_forall]. rewrite !Happ, Hf, (Hw ident Hi).
  unfold isToken in Hn. apply andb_true_iff in Hn as [_ Hn].
  rewrite (Hw name Hn).
  destruct (Ascii.eqb kind "010") eqn:E; [| reflexivity].
  apply eqb_newline_space in E. rewrite (isupper_not_space kind Hk) in E.
  discriminate.
Qed.

Lemma print_entry_buf (out : ostream.t) (kind : ascii) (ident name : string) :
  ostream.width out = 0%nat -> ostream.fillc out = " "%char ->
  ostream.buf (Mkindex.print_entry out kind ident name)
  = ostream.buf out +:+ entry_line kind ident name +:+ String "010" "" /\
  ostream.width (Mkindex.print_entry out kind ident name) = 0%nat /\
  ostream.fillc (Mkindex.print_entry out kind ident name) = " "%char.
Proof.
  intros Hw Hf. unfold Mkindex.print_entry. cbv zeta.
  split; [| split; [reflexivity | exact Hf]].
  rewrite buf_endl, !buf_put by reflexivity.
  unfold ostream.set_left, ostream.setw, ostream.put at 1.
  cbn [ostream.buf ostream.left ostream.width ostream.fillc].
  rewrite !buf_put by (exact Hw || reflexivity).
  unfold ostream.put_char. rewrite buf_put by exact Hw.
  change (ostream.fillc (ostream.put (ostream.put out (String kind "")) " "))
    with (ostream.fillc out).
  rewrite Hf. unfold entry_line.
  change (Z.to_nat 27) with 27%nat.
  repeat (progress rewrite ?append_assoc, ?append_cons, ?append_nil_l).
  reflexivity.
Qed.

Lemma indexState_entry (Q : string -> Prop) (out : ostream.t)
    (kind : ascii) (ident name : string) :
  isupper kind = true -> nows ident = true -> isToken name = true ->
  Q (entry_line kind ident name) ->
  indexState Q out -> indexState Q (Mkindex.print_entry out kind ident name).
Proof.
  intros Hk Hi Hn Hq (Hw & Hf & Hl & Hall).
  destruct (print_entry_buf out kind ident name Hw Hf) as (Hb & Hw' & Hf').
  assert (E : forall r,
             istream.getlines
               (ostream.buf (Mkindex.print_entry out kind ident name) +:+ r)
             = istream.getlines (ostream.buf out) ++
               entry_line kind ident name :: istream.getlines r).
  { intros r. rewrite Hb, !append_assoc, Hl, append_cons, append_nil_l.
    now rewrite entry_line_nows_line. }
  split; [exact Hw' |]. split; [exact Hf' |]. split.
  - intros r. rewrite E. pose proof (E "") as E0.
    rewrite append_nil_r in E0. rewrite E0, <- app_assoc. reflexivity.
  - pose proof (E "") as E0. rewrite append_nil_r in E0. rewrite E0.
    apply Forall_app. split; [exact Hall |].
    constructor; [exact Hq | constructor].
Qed.

Lemma lex_nows (g : ascii) (line : string) :
  nows (snd (Mkindex.lex g line)) = true.
Proof.
  unfold Mkindex.lex. destruct (istream.get_char line) as [[k r]|];
    [| reflexivity].
  cbn [snd]. destruct (istream.get_string r) as [[w r']|] eqn:E;
    [| reflexivity].
  apply get_string_token in E. unfold isToken in E.
  now apply andb_true_iff in E as [_ E].
Qed.

Lemma symtabLoop_state (Q : string -> Prop) (garbage : nat -> ascii)
    (name : string) (ls : list string) :
  isToken name = true ->
  (forall kind ident,
     isupper kind = true -> kind <> "U"%char -> nows ident = true ->
     Q (entry_line kind ident name)) ->
  forall n out,
    indexState Q out ->
    indexState Q (Mkindex.symtabLoop garbage n name ls out).
Proof.
  intros Hn Hq. induction ls as [|line ls IH]; intros n out Hs;
    cbn [Mkindex.symtabLoop]; [exact Hs |].
  cbv zeta. destruct (String.eqb line "#FIXUPS"); [exact Hs |].
  apply IH.
  destruct (isupper (Mkindex.lex (garbage n) line).1) eqn:Ek;
    [| exact Hs].
  destruct (Ascii.eqb (Mkindex.lex (garbage n) line).1 "U") eqn:Eu;
    [exact Hs |].
  cbn [andb negb]. apply Ascii.eqb_neq in Eu.
  apply indexState_entry; try assumption; [apply lex_nows |].
  apply Hq; [exact Ek | exact Eu | apply lex_nows].
Qed.

Lemma memberLoop_state (Q : string -> Prop) (garbage : nat -> ascii)
    (name : string) (ls : list string) :
  isToken name = true ->
  (forall kind ident,
     isupper kind = true -> kind <> "U"%char -> nows ident = true ->
     Q (entry_line kind ident name)) ->
  forall out,
    indexState Q out ->
    indexState Q (Mkindex.memberLoop garbage name ls out).
Proof.
  intros Hn Hq. induction ls as [|line ls IH]; intros out Hs;
    cbn [Mkindex.memberLoop]; [exact Hs |].
  destruct (negb (String.eqb line "#SYMTAB")); [now apply IH |].
  now apply symtabLoop_state.
Qed.

Lemma forMembers_state (Q : string -> Prop)
    (garbage : string -> nat -> ascii) (file : list ascii) (r : ArReader.t)
    (ms : list (string * ArReader.member)) :
  (forall km kind ident,
     In km ms -> isupper kind = true -> kind <> "U"%char ->
     nows ident = true ->
     ArReader.m_name km.2 <> "__SYMTAB_INDEX" ->
     Q (entry_line kind ident (ArReader.m_name km.2))) ->
  forallb (fun km => isToken (ArReader.m_name km.2)) ms = true ->
  forall out,
    indexState Q out ->
    indexState Q (Mkindex.forMembers garbage file r ms out).
Proof.
  induction ms as [|[k m] ms IH]; intros Hq Hn out Hs;
    cbn [Mkindex.forMembers]; [exact Hs |].
  cbn [forallb snd] in Hn. apply andb_true_iff in Hn as [Hm Hn].
  cbv zeta.
  assert (Hq' : forall km kind ident,
             In km ms -> isupper kind = true -> kind <> "U"%char ->
             nows ident = true ->
             ArReader.m_name km.2 <> "__SYMTAB_INDEX" ->
             Q (entry_line kind ident (ArReader.m_name km.2))).
  { intros km kind ident Hin. apply Hq. now right. }
  destruct (String.eqb (ArReader.m_name m) "__SYMTAB_INDEX") eqn:E.
  - now apply IH.
  - apply IH; [exact Hq' | exact Hn |].
    apply memberLoop_state; [exact Hm | | exact Hs].
    intros kind ident Hk Hu Hi.
    apply (Hq (k, m) kind ident); [now left | exact Hk | exact Hu | exact Hi |].
    cbn [snd]. now apply String.eqb_neq.
Qed.

Lemma indexState_init (Q : string -> Prop) : indexState Q ostream.init.
Proof.
  split; [reflexivity |]. split; [reflexivity |]. split.
  - intros r. reflexivity.
  - constructor.
Qed.

Lemma mkindex_main_state (garbage : string -> nat -> ascii)
    (fs : string -> option (list ascii)) (cmdname a : string)
    (file : list ascii) (r : ArReader.t) :
  fs a = Some file -> ArReader.open file = Ok (Some r) ->
  forallb (fun km => isToken (ArReader.m_name km.2)) (ArReader.members r)
  = true ->
  exists out,
    Mkindex.main garbage fs cmdname [a] = Ok out /\
    indexState (indexLineOf r) out.
Proof.
  intros Hf Ho Hn. unfold Mkindex.main. rewrite Hf, Ho. simpl bind.
  eexists. split; [reflexivity |].
  apply forMembers_state; [| exact Hn | apply indexState_init].
  intros km kind ident Hin Hk Hu Hi Hne.
  exists km. split; [exact Hin |]. split; [exact Hne |].
  apply entry_line_ok; try assumption.
  rewrite forallb_forall in Hn. apply (Hn km Hin).
Qed.

Lemma readSymtabIndex_In (o : ObjectFile.t) (idx : list IndexLine)
    (member : string) :
  ObjectFile.readSymtabIndex o idx = Some member ->
  exists l, In l idx /\ ix_member l = member /\ ix_ident l ∈ ObjectFile.unresolved o.
Proof.
  induction idx as [|l idx IH]; cbn [ObjectFile.readSymtabIndex];
    [discriminate |].
  destruct (bool_decide (ix_ident l ∈ ObjectFile.unresolved o)) eqn:E.
  - intros H. injection H as <-. exists l. apply bool_decide_eq_true in E.
    split; [now left |]. split; [reflexivity | exact E].
  - intros H. destruct (IH H) as (l' & Hin & Hm & Hu).
    exists l'. split; [now right |]. split; assumption.
Qed.

(** * The claims *)

(** ** C1: the byte order of [patchBytes] *)

(** Claim C1, as amended. For every call [patchBytes(addr, n, value)] the
    [n] bytes at offsets [addr - baseAddr .. addr - baseAddr + n - 1] are
    overwritten with [value] in big-endian order: the least-significant
    byte goes to the highest offset, and byte [k] of the range equals
    [(value >> (8 * (n - 1 - k))) & 0xFF]. No other byte and no base
    address changes, and the call returns whenever the [n] bytes are
    present. *)
Theorem patchBytes_big_endian (s : Segment.t) (addr n value : Z)
    (Hn : 0 <= n < two64) :
  ((forall k, 0 <= k < n -> is_Some (Segment.memory s !! patchSite s addr k)) ->
   exists s', Segment.patchBytes s addr n value = Ok s') /\
  (forall s', Segment.patchBytes s addr n value = Ok s' ->
     (forall k, 0 <= k < n ->
        Segment.memory s' !! patchSite s addr k =
        Some (Z.land (Z.shiftr value (8 * (n - 1 - k))) 255)) /\
     (forall j, (forall k, 0 <= k < n -> j <> patchSite s addr k) ->
        Segment.memory s' !! j = Segment.memory s !! j) /\
     Segment.baseAddr s' = Segment.baseAddr s).
Proof.
  unfold Segment.patchBytes, patchSite. split.
  - intros Hp.
    destruct (patchLoop_present (Z.to_nat n) (wrap64 (addr - Segment.baseAddr s))
                value (Segment.memory s)) as [m' Hm'].
    + intros j Hj. apply Hp. lia.
    + rewrite Hm'. simpl. eauto.
  - intros s' H. apply bind_Ok in H as (m' & H1 & H2).
    injection H2 as <-. simpl.
    apply patchLoop_spec in H1 as [Hin Hout]; [| lia].
    rewrite Z2Nat.id in * by lia. auto.
Qed.

(** Claim C1, as amended, at [patchBytes(0, 2, 0xBEEF)] on four bytes. *)
Lemma patchBytes_big_endian_witness :
  0 <= 2 < two64 /\
  forall s', Segment.patchBytes four_bytes 0 2 0xBEEF = Ok s' ->
    Segment.memory s' !! patchSite four_bytes 0 0 = Some 0xBE /\
    Segment.memory s' !! patchSite four_bytes 0 1 = Some 0xEF.
Proof.
  assert (Hn : 0 <= 2 < two64) by (unfold two64; lia).
  split; [exact Hn |].
  intros s' H.
  destruct (patchBytes_big_endian four_bytes 0 2 0xBEEF Hn) as [_ Hspec].
  destruct (Hspec s' H) as (Hbytes & _ & _).
  split; [apply (Hbytes 0) | apply (Hbytes 1)]; lia.
Defined.

(** Claim C1 as it is stated fails: patching the two bytes at offset 0 of
    a four-byte segment with [0xBEEF] stores [BE] at offset 0, not the
    least-significant byte [EF]. *)
Lemma patchBytes_is_not_little_endian : ~ patchBytes_is_little_endian.
Proof.
  intros H.
  destruct (Segment.patchBytes four_bytes 0 2 0xBEEF) as [s'|f] eqn:E;
    [| vm_compute in E; discriminate].
  specialize (H four_bytes s' 0 2 0xBEEF ltac:(unfold two64; lia) E 0
                ltac:(lia)).
  vm_compute in E. injection E as <-.
  vm_compute in H. discriminate.
Qed.

(** ** C2: the base address of the text segment *)

(** Claim C2 against the code. Whatever the arguments are, [-textseg]
    included, a link that succeeds leaves the text segment at base
    address 0: [startAddr] is parsed and never stored in the segment. *)
Theorem text_base_is_zero (fuel : nat) (env : option string) (fs : FS)
    (argv : list string) (o : ObjectFile.t)
    (Hmain : main fuel env fs argv = Ok o) :
  Segment.baseAddr (ObjectFile.seg o 0) = 0.
Proof.
  unfold main in Hmain. apply bind_Ok in Hmain as (st & H1 & H).
  apply processArgs_inv in H1.
  destruct (startGroup st); [discriminate |].
  apply bind_Ok in H as (out & _ & H).
  unfold ObjectFile.link in H. apply bind_Ok in H as (p & Hp & H).
  apply place_textAtZero in Hp as [Hp _]; [| exact H1].
  eapply resolveFixables_textAtZero; eassumption.
Qed.

(** Claim C2 against the code, at scenario S1 with [-textseg 1000] (and a
    file named [1000], without which the link aborts): the text base is
    0, not [0x1000]. *)
Lemma text_base_is_zero_witness :
  main 0 None S1_files' S1_argv = Ok S1_linked /\
  Segment.baseAddr (ObjectFile.seg S1_linked 0) = 0.
Proof.
  assert (H : main 0 None S1_files' S1_argv = Ok S1_linked)
    by (vm_compute; reflexivity).
  split; [exact H |].
  apply (text_base_is_zero 0 None S1_files' S1_argv S1_linked H).
Defined.

(** The operand of [-textseg] is taken for an input file. *)
Lemma textseg_operand_is_an_input (fuel : nat) :
  main fuel None S1_files S1_argv = Fail (Throw "can not open 1000") /\
  textBytes (main fuel None S1_files' S1_argv) = Some [0x00; 0x11; 0x22; 0x33].
Proof. split; vm_compute; reflexivity. Qed.

(** ** C3: scenario S5, a [w1] fixup *)

(** Claim C3, as amended. Applying a fixup of kind [w1] with
    [numBytes = 2] and [offset = 0], whose target symbol has the value
    [0xDEADBEEFCAFEBABE] and displacement 0, writes the two bytes [CA FE]
    at the fixup site: the big-endian encoding of
    [0xCAFE = (S >> 16) & 0xFFFF]. *)
Theorem w1_fixup_stores_CA_FE (textAddr dataAddr bssAddr : Z)
    (o : ObjectFile.t) (ident : string) (f : FixEntry.t) (k : ascii)
    (site : Z) (i : nat)
    (Hlen : length (ObjectFile.segments o) = ObjectFile.numSegments)
    (Hkind : FixEntry.kind f = "w1")
    (HnumBytes : FixEntry.numBytes f = 2)
    (Hoffset : FixEntry.offset f = 0)
    (Hdisplace : FixEntry.displace f = 0)
    (Hident : String.eqb ident "[text]" = false /\
              String.eqb ident "[data]" = false /\
              String.eqb ident "[bss]" = false)
    (Hsym : SMap.find ident (ObjectFile.symTab o) = Some (k, S5_value))
    (Hsite : ObjectFile.fixupSite textAddr dataAddr f = Ok (site, i))
    (Hpresent0 : Segment.memory (ObjectFile.seg o i) !!
                   patchSite (ObjectFile.seg o i) site 0 <> None)
    (Hpresent1 : Segment.memory (ObjectFile.seg o i) !!
                   patchSite (ObjectFile.seg o i) site 1 <> None) :
  exists o',
    ObjectFile.applyFixup textAddr dataAddr bssAddr o ident f = Ok o' /\
    Segment.memory (ObjectFile.seg o' i) !!
      patchSite (ObjectFile.seg o i) site 0 = Some 0xCA /\
    Segment.memory (ObjectFile.seg o' i) !!
      patchSite (ObjectFile.seg o i) site 1 = Some 0xFE.
Proof.
  assert (Hrange : wrap64 (site + 0) = site).
  { rewrite Z.add_0_r. apply wrap64_small.
    apply fixupSite_addr in Hsite as [[_ ->] | [_ ->]]; apply wrap64_range. }
  assert (Hi : (i < length (ObjectFile.segments o))%nat).
  { rewrite Hlen. apply fixupSite_addr in Hsite as [[-> _] | [-> _]];
      unfold ObjectFile.numSegments; lia. }
  destruct Hident as (H1 & H2 & H3).
  destruct (patchBytes_halfword (ObjectFile.seg o i) site 51966
              Hpresent0 Hpresent1) as (s' & Hs' & Hb0 & Hb1).
  exists (ObjectFile.set_seg o i s').
  split; [| split].
  - unfold ObjectFile.applyFixup.
    rewrite Hsite. cbn [bind fst snd].
    unfold ObjectFile.fixupTarget. rewrite H1, H2, H3, Hsym, Hdisplace.
    cbn [bind snd].
    unfold ObjectFile.fixupValue. rewrite Hkind.
    cbn [String.eqb Ascii.eqb Bool.eqb bind].
    rewrite Hoffset, HnumBytes, Hrange.
    change (Z.land (Z.shiftr (wrap64 (wrap64 0 + S5_value)) 16) 65535)
      with 51966.
    rewrite Hs'. reflexivity.
  - rewrite seg_set_seg_eq by exact Hi. exact Hb0.
  - rewrite seg_set_seg_eq by exact Hi. exact Hb1.
Qed.

(** Claim C3, as amended, at the placed object of scenario S5. *)
Lemma w1_fixup_stores_CA_FE_witness :
  exists o',
    ObjectFile.applyFixup 0 4 4 (ObjectFile.placed S5_placed) "S" S5_fixup =
      Ok o' /\
    Segment.memory (ObjectFile.seg o' 0) !!
      patchSite (ObjectFile.seg (ObjectFile.placed S5_placed) 0) 0 0 =
      Some 0xCA /\
    Segment.memory (ObjectFile.seg o' 0) !!
      patchSite (ObjectFile.seg (ObjectFile.placed S5_placed) 0) 0 1 =
      Some 0xFE.
Proof.
  apply (w1_fixup_stores_CA_FE 0 4 4 (ObjectFile.placed S5_placed) "S"
           S5_fixup "A" 0 0%nat).
  - vm_compute. reflexivity.
  - reflexivity.
  - reflexivity.
  - reflexivity.
  - reflexivity.
  - vm_compute. auto.
  - vm_compute. reflexivity.
  - vm_compute. reflexivity.
  - vm_compute. discriminate.
  - vm_compute. discriminate.
Defined.

(** Claim C3 as it is stated fails: linking the object of scenario S5
    leaves [CA FE] at the site, not [EF BE]. *)
Lemma w1_fixup_counterexample :
  exists o,
    main 0 None S5_files ["a.o"] = Ok o /\
    take 2 (segBytes o 0) = [0xCA; 0xFE] /\
    take 2 (segBytes o 0) <> [0xEF; 0xBE].
Proof.
  eexists. split; [vm_compute; reflexivity |].
  split; [vm_compute; reflexivity | vm_compute; discriminate].
Qed.

(** ** C4: relative fixups *)

(** Claim C4, as amended. For a fixup of kind [relative] with resolved
    target value [V] and site [site = segment.baseAddr + fixup.addr]: if
    [(V - site) % 4 != 0] the link fails with a fatal error; otherwise,
    when the bytes of the field are present, the fixup is applied and the
    field, whatever its length, holds the quotient that the code takes on
    [std::uint64_t], the most significant byte first. In a field of up to
    seven bytes this is the exact quotient [(V - site) / 4] in two's
    complement. No other byte and no other segment changes. *)
Theorem relative_fixup_value (textAddr dataAddr bssAddr : Z)
    (o : ObjectFile.t) (ident : string) (f : FixEntry.t) (site V : Z)
    (i : nat)
    (Hlen : length (ObjectFile.segments o) = ObjectFile.numSegments)
    (Hkind : FixEntry.kind f = "relative")
    (Htext : textAddr = Segment.baseAddr (ObjectFile.seg o 0))
    (Hdata : dataAddr = Segment.baseAddr (ObjectFile.seg o 1))
    (Hsite : ObjectFile.fixupSite textAddr dataAddr f = Ok (site, i))
    (HV : ObjectFile.fixupTarget textAddr dataAddr bssAddr
            (ObjectFile.symTab o) ident f = Ok V) :
  site = wrap64 (FixEntry.addr f + Segment.baseAddr (ObjectFile.seg o i)) /\
  ((V - site) mod 4 <> 0 ->
   ObjectFile.applyFixup textAddr dataAddr bssAddr o ident f =
   Fail (Throw "address for relative jump is not a multiple of 4 ")) /\
  ((V - site) mod 4 = 0 ->
   0 <= FixEntry.numBytes f < two64 ->
   (forall k, 0 <= k < FixEntry.numBytes f ->
      is_Some (Segment.memory (ObjectFile.seg o i) !!
                 patchSite (ObjectFile.seg o i)
                   (wrap64 (site + FixEntry.offset f)) k)) ->
   exists o',
     ObjectFile.applyFixup textAddr dataAddr bssAddr o ident f = Ok o' /\
     (forall k, 0 <= k < FixEntry.numBytes f ->
        Segment.memory (ObjectFile.seg o' i) !!
          patchSite (ObjectFile.seg o i)
            (wrap64 (site + FixEntry.offset f)) k =
        Some (Z.land (Z.shiftr (wrap64 (V - site) / 4)
                        (8 * (FixEntry.numBytes f - 1 - k))) 255)) /\
     (FixEntry.numBytes f <= 7 ->
      forall k, 0 <= k < FixEntry.numBytes f ->
        Segment.memory (ObjectFile.seg o' i) !!
          patchSite (ObjectFile.seg o i)
            (wrap64 (site + FixEntry.offset f)) k =
        Some (Z.land (Z.shiftr ((V - site) / 4)
                        (8 * (FixEntry.numBytes f - 1 - k))) 255)) /\
     (forall j,
        (forall k, 0 <= k < FixEntry.numBytes f ->
           j <> patchSite (ObjectFile.seg o i)
                  (wrap64 (site + FixEntry.offset f)) k) ->
        Segment.memory (ObjectFile.seg o' i) !! j =
        Segment.memory (ObjectFile.seg o i) !! j) /\
     (forall i', i' <> i -> ObjectFile.seg o' i' = ObjectFile.seg o i')).
Proof.
  split; [| split].
  - apply fixupSite_addr in Hsite as [[-> ->] | [-> ->]]; congruence.
  - intros Hne. unfold ObjectFile.applyFixup.
    rewrite Hsite. cbn [bind fst snd]. rewrite HV. cbn [bind].
    unfold ObjectFile.fixupValue. rewrite Hkind. cbn [String.eqb Ascii.eqb Bool.eqb].
    rewrite wrap64_mod4.
    destruct ((V - site) mod 4 =? 0) eqn:E; [apply Z.eqb_eq in E; contradiction |].
    reflexivity.
  - intros He Hn Hpresent.
    assert (Hi : (i < length (ObjectFile.segments o))%nat).
    { rewrite Hlen. apply fixupSite_addr in Hsite as [[-> _] | [-> _]];
        unfold ObjectFile.numSegments; lia. }
    set (s := ObjectFile.seg o i) in *.
    set (a := wrap64 (site + FixEntry.offset f)) in *.
    set (n := FixEntry.numBytes f) in *.
    set (value := wrap64 (V - site) / 4).
    unfold patchSite in *.
    destruct (patchLoop_present (Z.to_nat n) (wrap64 (a - Segment.baseAddr s))
                value (Segment.memory s)) as [m' Hm'].
    { intros j Hj. apply Hpresent. lia. }
    pose proof Hm' as Hspec.
    apply patchLoop_spec in Hspec as [Hin Hout];
      [| rewrite Z2Nat.id by lia; lia].
    rewrite Z2Nat.id in Hin, Hout by lia.
    exists (ObjectFile.set_seg o i (Segment.with_memory s m')).
    split; [| split; [| split; [| split]]].
    + unfold ObjectFile.applyFixup.
      rewrite Hsite. cbn [bind fst snd]. rewrite HV. cbn [bind].
      unfold ObjectFile.fixupValue. rewrite Hkind.
      cbn [String.eqb Ascii.eqb Bool.eqb].
      rewrite wrap64_mod4, He. cbn [Z.eqb negb bind].
      fold s. fold a. fold n. fold value.
      unfold Segment.patchBytes. rewrite Hm'. reflexivity.
    + intros k Hk. rewrite seg_set_seg_eq by exact Hi.
      cbn [Segment.memory Segment.with_memory]. now apply Hin.
    + intros H7 k Hk. rewrite seg_set_seg_eq by exact Hi.
      cbn [Segment.memory Segment.with_memory]. rewrite Hin by exact Hk.
      unfold value. now rewrite quotient_byte.
    + intros j Hj. rewrite seg_set_seg_eq by exact Hi.
      cbn [Segment.memory Segment.with_memory]. now apply Hout.
    + intros i' Hne. now apply seg_set_seg_ne.
Qed.

(** Claim C4, as amended, at a jump backwards from the site 8 to the
    target 0 in a field of three bytes: the field holds [FF FF FE], the
    quotient -2, and the byte in front of it stays. *)
Lemma relative_fixup_value_witness :
  exists o',
    ObjectFile.applyFixup 0 16 16 (ObjectFile.placed back_placed) "f"
      back_fixup3 = Ok o' /\
    Segment.memory (ObjectFile.seg o' 0) !! 9 = Some 0xFF /\
    Segment.memory (ObjectFile.seg o' 0) !! 10 = Some 0xFF /\
    Segment.memory (ObjectFile.seg o' 0) !! 11 = Some 0xFE /\
    Segment.memory (ObjectFile.seg o' 0) !! 8 = Some 0.
Proof.
  destruct (relative_fixup_value 0 16 16 (ObjectFile.placed back_placed) "f"
              back_fixup3 8 0 0%nat) as (_ & _ & H).
  - vm_compute. reflexivity.
  - reflexivity.
  - vm_compute. reflexivity.
  - vm_compute. reflexivity.
  - reflexivity.
  - vm_compute. reflexivity.
  - destruct H as (o' & Ha & _ & H7 & Hframe & _).
    + reflexivity.
    + cbn [FixEntry.numBytes back_fixup3]. unfold two64. lia.
    + cbn [FixEntry.numBytes back_fixup3]. intros k Hk.
      assert (Ek : k = 0 \/ k = 1 \/ k = 2) by lia.
      destruct Ek as [-> | [-> | ->]]; vm_compute; eauto.
    + assert (E : forall k,
                 patchSite (ObjectFile.seg (ObjectFile.placed back_placed) 0)
                   (wrap64 (8 + FixEntry.offset back_fixup3)) k
                 = wrap64 (9 + k)).
      { intros k. unfold patchSite.
        replace (wrap64 (wrap64 (8 + FixEntry.offset back_fixup3) -
                         Segment.baseAddr
                           (ObjectFile.seg (ObjectFile.placed back_placed) 0)))
          with 9 by (vm_compute; reflexivity).
        reflexivity. }
      cbn [FixEntry.numBytes back_fixup3] in H7, Hframe.
      exists o'. split; [exact Ha |].
      split; [| split; [| split]].
      * pose proof (H7 ltac:(lia) 0 ltac:(lia)) as B. rewrite E in B. exact B.
      * pose proof (H7 ltac:(lia) 1 ltac:(lia)) as B. rewrite E in B. exact B.
      * pose proof (H7 ltac:(lia) 2 ltac:(lia)) as B. rewrite E in B. exact B.
      * rewrite (Hframe 8); [vm_compute; reflexivity |].
        intros k Hk. rewrite E.
        assert (Ek : k = 0 \/ k = 1 \/ k = 2) by lia.
        destruct Ek as [-> | [-> | ->]]; vm_compute; discriminate.
Defined.

(** Claim C4 as it is stated fails in a field of eight bytes: for the
    same jump backwards the first byte of the field is [3F], not the [FF]
    of the quotient -2; the quotient is taken on [std::uint64_t], its two
    leading bits are 0. *)
Lemma relative_field_counterexample : ~ relative_field_is_quotient.
Proof.
  intros H.
  destruct (ObjectFile.applyFixup 0 16 16 (ObjectFile.placed back_placed) "f"
              back_fixup8) as [o'|e] eqn:E;
    [| vm_compute in E; discriminate].
  specialize (H 0 16 16 (ObjectFile.placed back_placed) o' "f" back_fixup8
                8 0 0%nat eq_refl ltac:(vm_compute; reflexivity)
                ltac:(vm_compute; reflexivity) eq_refl E 0
                ltac:(cbn; lia)).
  vm_compute in E. injection E as <-.
  vm_compute in H. discriminate.
Qed.

(** The addresses that [link] hands to the relocator are the base
    addresses of the placed segments. *)
Lemma place_addresses (o : ObjectFile.t) (p : ObjectFile.Placement) :
  length (ObjectFile.segments o) = ObjectFile.numSegments ->
  ObjectFile.place o = Ok p ->
  ObjectFile.textAddr p =
    Segment.baseAddr (ObjectFile.seg (ObjectFile.placed p) 0) /\
  ObjectFile.dataAddr p =
    Segment.baseAddr (ObjectFile.seg (ObjectFile.placed p) 1) /\
  ObjectFile.bssAddr p =
    Segment.baseAddr (ObjectFile.seg (ObjectFile.placed p) 2) /\
  length (ObjectFile.segments (ObjectFile.placed p)) = ObjectFile.numSegments.
Proof.
  intros Hlen H. unfold ObjectFile.place in H.
  apply bind_Ok in H as (dataAddr & _ & H).
  apply bind_Ok in H as (s1 & H1 & H).
  apply bind_Ok in H as (s0 & H0 & H).
  apply bind_Ok in H as (bssAddr & _ & H).
  apply bind_Ok in H as (s2 & H2 & H).
  apply bind_Ok in H as (st & _ & H). injection H as <-.
  cbn [ObjectFile.placed ObjectFile.textAddr ObjectFile.dataAddr
         ObjectFile.bssAddr].
  apply setBaseAddr_base in H1, H2. apply advanceTo_base in H0.
  rewrite seg_set_seg_ne in H0 by discriminate.
  unfold ObjectFile.numSegments in *.
  unfold ObjectFile.seg, ObjectFile.set_seg in *.
  cbn [ObjectFile.segments ObjectFile.with_segments ObjectFile.with_symTab]
    in *.
  repeat split.
  - rewrite list_lookup_insert_ne by discriminate.
    rewrite list_lookup_insert_eq by (rewrite length_insert; lia).
    simpl. now rewrite H0.
  - rewrite list_lookup_insert_ne by discriminate.
    rewrite list_lookup_insert_ne by discriminate.
    rewrite list_lookup_insert_eq by lia. simpl. now rewrite H1.
  - rewrite list_lookup_insert_eq by (rewrite !length_insert; lia).
    simpl. now rewrite H2.
  - now rewrite !length_insert.
Qed.

(** A link that returns has passed every fixup: every relative target
    lies a multiple of 4 from its site, or else the link has failed. *)
Lemma link_passed (o o' : ObjectFile.t) :
  ObjectFile.link o = Ok o' ->
  exists p,
    ObjectFile.place o = Ok p /\
    Forall (fun e =>
              Forall (fixupPassed (ObjectFile.textAddr p)
                        (ObjectFile.dataAddr p) (ObjectFile.bssAddr p)
                        (ObjectFile.symTab (ObjectFile.placed p)) (fst e))
                (snd e))
      (ObjectFile.fixables (ObjectFile.placed p)).
Proof.
  unfold ObjectFile.link. intros H.
  apply bind_Ok in H as (p & Hp & H).
  exists p. split; [exact Hp |].
  eapply resolveFixables_passed; eassumption.
Qed.

(** ** C5: bits and bytes of a fixup *)

(** Claim C5 against the code. A [#FIXUPS] entry whose [offset] is a
    multiple of 8 bits and whose [numBytes] is 4 more than a multiple of
    8 bits is accepted: the assertion tests [numBytes % 4], and the entry
    is stored with [numBytes / 8] rounded down. *)
Theorem readFixup_rounds_numBytes (o : ObjectFile.t) (source : string)
    (l : FixLine)
    (Hoffset : fl_offset l mod 8 = 0)
    (HnumBytes : fl_numBytes l mod 8 = 4) :
  exists o' e,
    ObjectFile.readFixup o source l = Ok o' /\
    SMap.find (fst (ObjectFile.splitDisplace (fl_ident l)))
      (ObjectFile.fixables o') =
    Some (default [] (SMap.find (fst (ObjectFile.splitDisplace (fl_ident l)))
                        (ObjectFile.fixables o)) ++ [e]) /\
    FixEntry.offset e = fl_offset l / 8 /\
    FixEntry.numBytes e = fl_numBytes l / 8 /\
    8 * FixEntry.numBytes e < fl_numBytes l.
Proof.
  assert (H4 : fl_numBytes l mod 4 = 0).
  { rewrite <- (Z.mod_mod_divide (fl_numBytes l) 8 4) by (exists 2; reflexivity).
    now rewrite HnumBytes. }
  unfold ObjectFile.readFixup. rewrite Hoffset, H4. cbn [Z.eqb assert bind].
  eexists. eexists. split; [reflexivity |].
  cbn [ObjectFile.fixables ObjectFile.with_fixables].
  split; [apply find_push_back |].
  cbn [FixEntry.offset FixEntry.numBytes].
  split; [reflexivity |]. split; [reflexivity |].
  pose proof (Z.div_mod (fl_numBytes l) 8 ltac:(lia)). lia.
Qed.

(** Claim C5 against the code, at [numBytes = 12] bits: one byte is
    stored. *)
Lemma readFixup_rounds_numBytes_witness :
  exists o' e,
    ObjectFile.readFixup S2_parsed "c.o"
      {| fl_segment := "text"; fl_address := 0; fl_offset := 0;
         fl_numBytes := 12; fl_kind := "absolute"; fl_ident := "x" |} =
      Ok o' /\
    SMap.find "x" (ObjectFile.fixables o') = Some [e] /\
    FixEntry.offset e = 0 /\
    FixEntry.numBytes e = 1 /\
    8 * FixEntry.numBytes e < 12.
Proof.
  apply (readFixup_rounds_numBytes S2_parsed "c.o"
           {| fl_segment := "text"; fl_address := 0; fl_offset := 0;
              fl_numBytes := 12; fl_kind := "absolute"; fl_ident := "x" |}).
  - reflexivity.
  - reflexivity.
Defined.

(** ** C6: scenario S4, archives that need each other *)




(** A definition of kind [A] is not taken out of the unresolved idents:
    the index of [libp.a] lists [p] again after [p.o] is read, and the
    second reading of the member is a multiple definition. *)
Lemma mutual_archives_absolute (k : nat) :
  processArgs (2 + k) None (S4_files "A" "T" "p")
    ["a.o"; "libp.a"; "libq.a"] =
  Fail (Throw " multiple definition of `p").
Proof. apply processArgs_fuel; [vm_compute; reflexivity | discriminate]. Qed.

(** Without an index the archives are read whole, and either order
    resolves both symbols. *)
Lemma mutual_archives_without_index (fuel : nat) :
  symbolsAfter (processArgs fuel None (S4_plain "p")
                  ["a.o"; "libp.a"; "libq.a"]) = Some ([], ["p"; "q"]) /\
  symbolsAfter (processArgs fuel None (S4_plain "p")
                  ["a.o"; "libq.a"; "libp.a"]) = Some ([], ["p"; "q"]).
Proof. split; vm_compute; reflexivity. Qed.

(** A group is never closed: [startGroup] keeps its value, and [main]
    returns 1 after the argument loops. *)
Lemma group_is_never_closed (k : nat) :
  main (2 + k) None (S4_refers "p") ["a.o"; "-("; "libp.a"; "libq.a"; "-)"] =
  Fail (Exit 1 "--start-group not terminated with --end-group").
Proof. apply main_fuel; [vm_compute; reflexivity | discriminate]. Qed.

(** ** C7: archives without index *)




(** ** C8: multiple definition *)

(** Claim C8. The global symbol table holds at most one definition per
    ident. Whenever a [T], [D], [B] or [A] definition of an ident that is
    already in the global table is parsed, the link fails with the fatal
    error "multiple definition"; and a line of the symbol table that is
    read without error leaves every entry of the global table as it
    was. *)
Theorem second_definition_is_fatal (o : ObjectFile.t) (source : string)
    (l : SymLine) (Hwf : symTab_wf o) :
  NoDup (SMap.keys (ObjectFile.symTab o)) /\
  (forall e, SMap.find (sl_ident l) (ObjectFile.symTab o) = Some e ->
     isDefinitionKind (sl_kind l) = true ->
     ObjectFile.readSym o source l =
     Fail (Throw (" multiple definition of `" +:+ sl_ident l))) /\
  (forall o', ObjectFile.readSym o source l = Ok o' ->
     symTab_wf o' /\
     forall id e, SMap.find id (ObjectFile.symTab o) = Some e ->
       SMap.find id (ObjectFile.symTab o') = Some e).
Proof.
  split; [now apply symTab_wf_NoDup |]. split.
  - intros e He Hk. eapply readSym_present; eassumption.
  - intros o' H. split; [eapply readSym_wf; eassumption |].
    now apply readSym_keeps in H as [_ H].
Qed.

(** Claim C8 at the parsed objects of scenario S2 and a second definition
    of [main]. *)
Lemma second_definition_is_fatal_witness :
  symTab_wf S2_parsed /\
  ObjectFile.readSym S2_parsed "c.o"
    {| sl_kind := "T"; sl_ident := "main"; sl_value := 0 |} =
  Fail (Throw " multiple definition of `main").
Proof.
  assert (Hwf : symTab_wf S2_parsed) by reflexivity.
  split; [exact Hwf |].
  destruct (second_definition_is_fatal S2_parsed "c.o"
              {| sl_kind := "T"; sl_ident := "main"; sl_value := 0 |} Hwf)
    as (_ & H & _).
  apply (H ("T"%char, 0)); reflexivity.
Defined.

(** The refusal as [readSegments] meets it: a line under [#SYMTAB] that
    defines an ident of the global table ends the parse. *)
Lemma readLine_second_definition (source : string) (st : ObjectFile.Locals)
    (p : Payload) (e : SymEntry) :
  symTab_wf (ObjectFile.obj st) -> ObjectFile.cur st = 3 ->
  SMap.find (sl_ident (asSym p)) (ObjectFile.symTab (ObjectFile.obj st)) =
    Some e ->
  isDefinitionKind (sl_kind (asSym p)) = true ->
  ObjectFile.readLine source st (LPayload p) =
  Fail (Throw (" multiple definition of `" +:+ sl_ident (asSym p))).
Proof.
  intros Hwf Hcur He Hk. cbn [ObjectFile.readLine]. rewrite Hcur.
  cbn [Z.eqb orb].
  now rewrite (readSym_present _ source _ _ Hwf He Hk).
Qed.

(** ** C9: digits that are not hexadecimal *)

(** Claim C9 against the code. A two-character group that holds no
    hexadecimal digit, read at the end of a segment in the parse phase,
    is not fatal: [insertByteString] returns, and the byte stored is
    0. *)
Theorem nonhex_group_is_stored_as_zero (ops : list ParseOp) (s : Segment.t)
    (c1 c2 : ascii)
    (Hrun : runOps Segment.init ops = Ok s)
    (Hroom : (Segment.size s <? map_max_size) = true)
    (Hspace : isspace c1 = false)
    (Hc1 : hexDigit c1 = None)
    (Hc2 : hexDigit c2 = None) :
  exists s',
    runOp s (OpInsertByteString (Segment.size s) (String c1 (String c2 ""))) =
      Ok s' /\
    Segment.memory s' !! Segment.size s = Some 0 /\
    Segment.size s' = Segment.size s + 1.
Proof.
  pose proof (runOps_inv ops Segment.init s init_inv Hrun) as Hi.
  apply Z.ltb_lt in Hroom.
  pose proof (size_of_inv s Hi) as Hsz.
  pose proof (inv_base s Hi) as Hb.
  assert (Hr : 0 <= Segment.size s < two64).
  { unfold map_max_size in Hroom. rewrite Hsz in *. lia. }
  assert (Hn : Segment.memory s !! Segment.size s = None).
  { apply eq_None_not_Some. intros Hs.
    apply (inv_contiguous s Hi) in Hs. rewrite Hsz in Hs. lia. }
  assert (Hgate : Segment.requiresAdvanceTo s (Segment.size s) = false).
  { unfold Segment.requiresAdvanceTo.
    rewrite Hb, Z.sub_0_r, wrap64_small by exact Hr.
    rewrite Z.gtb_ltb. apply Z.ltb_irrefl. }
  cbn [runOp]. rewrite Hgate.
  unfold Segment.insertByteString.
  rewrite Hb, Z.sub_0_r, wrap64_small by exact Hr. rewrite Hgate.
  cbn [bind String.length Nat.even assert Nat.div2 Segment.insertLoop].
  unfold hexExtract. rewrite Hspace, Hc1, Hc2. cbn [bind].
  rewrite Z.add_0_r, wrap64_small by exact Hr.
  unfold mem_store. rewrite Hn.
  replace (Z.of_nat (size (Segment.memory s)) <? map_max_size) with true
    by (symmetry; apply Z.ltb_lt; rewrite <- Hsz; exact Hroom).
  cbn [bind]. eexists. split; [reflexivity |].
  cbn [Segment.with_memory Segment.memory]. split.
  - apply lookup_insert_eq.
  - unfold Segment.size at 1. cbn [Segment.with_memory Segment.memory].
    rewrite map_size_insert_None by exact Hn.
    rewrite wrap64_small; rewrite Hsz in *; unfold map_max_size in *; lia.
Qed.

(** Claim C9 against the code, at the group [ZZ]. *)
Lemma nonhex_group_is_stored_as_zero_witness :
  exists s',
    runOp sample_segment
      (OpInsertByteString (Segment.size sample_segment) "ZZ") = Ok s' /\
    Segment.memory s' !! Segment.size sample_segment = Some 0 /\
    Segment.size s' = Segment.size sample_segment + 1.
Proof.
  apply (nonhex_group_is_stored_as_zero sample_ops sample_segment "Z" "Z").
  - vm_compute. reflexivity.
  - vm_compute. reflexivity.
  - reflexivity.
  - reflexivity.
  - reflexivity.
Defined.

(** In a link the group [ZZ] yields the byte 0, the group [1G] the byte
    1, and the link succeeds. *)
Lemma nonhex_digits_are_linked (fuel : nat) :
  textBytes (main fuel None
               (fsOf [("a.o", FText (object [LText None; byteLine "ZZ"]))])
               ["a.o"]) = Some [0] /\
  textBytes (main fuel None
               (fsOf [("a.o", FText (object [LText None; byteLine "1G"]))])
               ["a.o"]) = Some [1].
Proof. split; vm_compute; reflexivity. Qed.

(** ** C10: the store has no holes *)

(** Claim C10. After any sequence of the parse-phase operations
    [appendByte], [advanceTo], [setAlignment] and [insertByteString]
    (behind the check of [requiresAdvanceTo]) on a fresh segment, the set
    of written offsets is exactly [0 .. size() - 1]: [size()] is one past
    the highest written offset and the store has no holes. *)
Theorem parse_ops_leave_no_holes (ops : list ParseOp) (s : Segment.t)
    (Hrun : runOps Segment.init ops = Ok s) :
  forall k, is_Some (Segment.memory s !! k) <-> 0 <= k < Segment.size s.
Proof.
  pose proof (runOps_inv ops Segment.init s init_inv Hrun) as Hi.
  intros k. rewrite (size_of_inv s Hi).
  split; intros H.
  - now apply (inv_contiguous s Hi).
  - now apply (inv_contiguous s Hi).
Qed.

(** Claim C10 at a run of ten operations that ends with 16 bytes. *)
Lemma parse_ops_leave_no_holes_witness :
  runOps Segment.init sample_ops = Ok sample_segment /\
  Segment.size sample_segment = 16 /\
  forall k, is_Some (Segment.memory sample_segment !! k) <->
            0 <= k < Segment.size sample_segment.
Proof.
  assert (H : runOps Segment.init sample_ops = Ok sample_segment)
    by (vm_compute; reflexivity).
  split; [exact H |]. split; [vm_compute; reflexivity |].
  apply (parse_ops_leave_no_holes sample_ops sample_segment H).
Defined.

(** The segments of a link job have no holes either, once the arguments
    are processed. *)
Lemma parsed_segments_have_no_holes (fuel : nat) (env : option string)
    (fs : FS) (argv : list string) (st : MainState) (i : nat) :
  processArgs fuel env fs argv = Ok st ->
  forall k, is_Some (Segment.memory (ObjectFile.seg (objectFile st) i) !! k) <->
            0 <= k < Segment.size (ObjectFile.seg (objectFile st) i).
Proof.
  intros H. apply processArgs_inv in H.
  pose proof (inv_segments _ H i) as Hi.
  intros k. rewrite (size_of_inv _ Hi). apply (inv_contiguous _ Hi).
Qed.

(** * Further properties of the code *)

(** X1. [alignAddr(addr, alignTo)] with a positive
    [alignTo], when [addr + alignTo] does not exceed [2^64]: the result is
    the least multiple of [alignTo] that is not below [addr]; an address
    that is aligned already is returned as it is. *)
Theorem alignAddr_rounds_up (addr alignTo : Z)
    (Haddr : 0 <= addr) (Halign : 0 < alignTo)
    (Hroom : addr + alignTo <= two64) :
  exists r,
    alignAddr addr alignTo = Ok r /\
    r mod alignTo = 0 /\ addr <= r < addr + alignTo /\
    (addr mod alignTo = 0 -> r = addr).
Proof.
  destruct (alignAddr_spec addr alignTo Haddr Halign Hroom) as (r & Hr & Hm & Hb).
  exists r. repeat split; try assumption; try lia.
  intros Ha.
  pose proof (Z.div_mod r alignTo ltac:(lia)) as D1.
  pose proof (Z.div_mod addr alignTo ltac:(lia)) as D2.
  rewrite Hm in D1. rewrite Ha in D2.
  assert (r / alignTo = addr / alignTo) by nia.
  nia.
Qed.

(** X1 at [alignAddr(5, 4)] and [alignAddr(8, 4)]. *)
Lemma alignAddr_rounds_up_witness :
  alignAddr 5 4 = Ok 8 /\ alignAddr 8 4 = Ok 8.
Proof.
  split.
  - destruct (alignAddr_rounds_up 5 4 ltac:(lia) ltac:(lia)
                ltac:(unfold two64; lia)) as (r & Hr & _).
    vm_compute in Hr. vm_compute. reflexivity.
  - destruct (alignAddr_rounds_up 8 4 ltac:(lia) ltac:(lia)
                ltac:(unfold two64; lia)) as (r & Hr & _).
    vm_compute. reflexivity.
Defined.

(** X2. [setAlignment(a)] on a segment of the parse phase
    with room for the padding: the alignment becomes the larger of the old
    one and [a] (it never decreases), the size becomes the next multiple
    of that alignment, the bytes present stay, and every byte added is the
    fill byte. *)
Theorem setAlignment_pads (s : Segment.t) (a : Z)
    (Hinv : SegInv s) (Ha : 0 < a) (Hal : 0 < Segment.alignment s)
    (Hroom : Segment.size s + Z.max (Segment.alignment s) a <= map_max_size) :
  exists s',
    Segment.setAlignment s a = Ok s' /\
    Segment.alignment s' = Z.max (Segment.alignment s) a /\
    Segment.size s' mod Segment.alignment s' = 0 /\
    Segment.size s <= Segment.size s' < Segment.size s + Segment.alignment s' /\
    (forall k, 0 <= k < Segment.size s ->
       Segment.memory s' !! k = Segment.memory s !! k) /\
    (forall k, Segment.size s <= k < Segment.size s' ->
       Segment.memory s' !! k = Some (Segment.fill s)).
Proof.
  destruct (setAlignment_spec s a Hinv Ha Hal Hroom)
    as (s' & H & _ & _ & H1 & H2 & H3 & H4 & H5).
  exists s'. repeat split; try assumption; apply H3.
Qed.

(** X2 at three bytes aligned to 4: one fill byte [FD]
    is added. *)
Lemma setAlignment_pads_witness :
  exists s',
    Segment.setAlignment three_bytes 4 = Ok s' /\
    Segment.alignment s' = 4 /\ Segment.size s' = 4 /\
    Segment.memory s' !! 3 = Some 253.
Proof.
  destruct (setAlignment_pads three_bytes 4 three_bytes_inv)
    as (s' & H & Hal & _ & _ & _ & _).
  - lia.
  - vm_compute. reflexivity.
  - vm_compute. discriminate.
  - exists s'. split; [exact H |].
    vm_compute in H. injection H as <-. vm_compute. auto.
Defined.

(** X3. [advanceTo(addr)] on a segment of the parse phase:
    an address below the size fails the assertion; otherwise the call
    returns with the size [addr], the bytes present unchanged and every
    byte added equal to the fill byte, and it changes nothing at all when
    [addr] is the size. *)
Theorem advanceTo_pads (s : Segment.t) (addr : Z)
    (Hinv : SegInv s) (Haddr : 0 <= addr <= map_max_size) :
  (addr < Segment.size s ->
   Segment.advanceTo s addr = Fail (AssertFail "addr >= size()")) /\
  (Segment.size s <= addr ->
   exists s',
     Segment.advanceTo s addr = Ok s' /\
     Segment.size s' = addr /\
     (addr = Segment.size s -> s' = s) /\
     (forall k, 0 <= k < Segment.size s ->
        Segment.memory s' !! k = Segment.memory s !! k) /\
     (forall k, Segment.size s <= k < addr ->
        Segment.memory s' !! k = Some (Segment.fill s))).
Proof.
  split.
  - intros Hlt. unfold Segment.advanceTo.
    rewrite (inv_base s Hinv), Z.sub_0_r.
    rewrite wrap64_small by (unfold map_max_size in Haddr; lia).
    replace (addr >=? Segment.size s) with false; [reflexivity |].
    symmetry. rewrite Z.geb_leb. apply Z.leb_gt. exact Hlt.
  - intros Hle.
    destruct (advanceTo_spec s addr Hinv ltac:(lia))
      as (s' & H & _ & Hs' & _ & _ & _ & Hsame & Hold & Hnew).
    exists s'. repeat split; assumption.
Qed.

(** X3 at three bytes: [advanceTo(2)] fails, [advanceTo(5)]
    adds two fill bytes. *)
Lemma advanceTo_pads_witness :
  Segment.advanceTo three_bytes 2 = Fail (AssertFail "addr >= size()") /\
  exists s',
    Segment.advanceTo three_bytes 5 = Ok s' /\ Segment.size s' = 5 /\
    Segment.memory s' !! 4 = Some 253.
Proof.
  split.
  - apply (advanceTo_pads three_bytes 2 three_bytes_inv);
      [unfold map_max_size, two64; lia | vm_compute; reflexivity].
  - destruct (advanceTo_pads three_bytes 5 three_bytes_inv) as [_ H].
    { unfold map_max_size, two64; lia. }
    destruct H as (s' & H & Hs & _ & _ & Hnew).
    { vm_compute. discriminate. }
    exists s'. split; [exact H |]. split; [exact Hs |].
    apply Hnew. vm_compute. split; [discriminate | reflexivity].
Defined.

(** X4. [patchBytes] on a range that lies within the
    bytes of a segment without holes always returns, and it changes
    neither the number of bytes nor the absence of holes: a fixup within
    a segment never grows it. *)
Theorem patchBytes_inside (s : Segment.t) (addr n value : Z)
    (Hc : contiguous (Segment.memory s))
    (Hroom : Z.of_nat (size (Segment.memory s)) <= map_max_size)
    (Hn : 0 <= n)
    (Hin : wrap64 (addr - Segment.baseAddr s) + n <=
           Z.of_nat (size (Segment.memory s))) :
  exists s',
    Segment.patchBytes s addr n value = Ok s' /\
    Segment.size s' = Segment.size s /\
    contiguous (Segment.memory s').
Proof.
  unfold Segment.patchBytes.
  destruct (patchLoop_inside (Z.to_nat n) (wrap64 (addr - Segment.baseAddr s))
              value (Segment.memory s) Hc Hroom) as (m' & Hm' & Hc' & Hs').
  - apply wrap64_range.
  - rewrite Z2Nat.id by lia. exact Hin.
  - rewrite Hm'. cbn [bind]. eexists. split; [reflexivity |].
    split; [| exact Hc']. unfold Segment.size. simpl. now rewrite Hs'.
Qed.

(** X4 at the last two of three bytes. *)
Lemma patchBytes_inside_witness :
  exists s',
    Segment.patchBytes three_bytes 1 2 0xBEEF = Ok s' /\
    Segment.size s' = Segment.size three_bytes /\
    contiguous (Segment.memory s').
Proof.
  apply (patchBytes_inside three_bytes 1 2 0xBEEF).
  - apply (inv_contiguous _ three_bytes_inv).
  - apply (inv_room _ three_bytes_inv).
  - lia.
  - vm_compute. discriminate.
Defined.

(** X5. [patchBytes] does not check its range
    against the size of the segment: on a range that starts beyond the
    last byte it returns, the segment has [n] bytes more, and the offset
    of the old size stays unset, so that the store has a hole. *)
Theorem patchBytes_beyond_the_end (s : Segment.t) (addr n value : Z)
    (Hc : contiguous (Segment.memory s))
    (Hn : 0 < n)
    (Hbeyond : Z.of_nat (size (Segment.memory s)) <
               wrap64 (addr - Segment.baseAddr s))
    (Hend : wrap64 (addr - Segment.baseAddr s) + n <= two64)
    (Hroom : Z.of_nat (size (Segment.memory s)) + n <= map_max_size) :
  exists s',
    Segment.patchBytes s addr n value = Ok s' /\
    Segment.size s' = Segment.size s + n /\
    Segment.memory s' !! Segment.size s = None /\
    Segment.memory s' !! wrap64 (addr - Segment.baseAddr s) =
      Some (Z.land (Z.shiftr value (8 * (n - 1))) 255) /\
    ~ contiguous (Segment.memory s').
Proof.
  unfold Segment.patchBytes.
  set (off := wrap64 (addr - Segment.baseAddr s)) in *.
  assert (Hoff : 0 <= off) by apply wrap64_range.
  destruct (patchLoop_fresh (Z.to_nat n) off value (Segment.memory s))
    as (m' & Hm' & Hs').
  - intros j Hj. apply eq_None_not_Some. intros Hs. apply Hc in Hs. lia.
  - lia.
  - exact Hoff.
  - lia.
  - rewrite Hm'. cbn [bind].
    pose proof (patchLoop_spec (Z.to_nat n) off value _ _ ltac:(lia) Hm')
      as [Hin Hout].
    rewrite Z2Nat.id in * by lia.
    assert (Hsz : Segment.size s = Z.of_nat (size (Segment.memory s))).
    { apply wrap64_small. unfold map_max_size in Hroom. lia. }
    assert (Hhole : m' !! Segment.size s = None).
    { rewrite Hout.
      - apply eq_None_not_Some. intros Hs. apply Hc in Hs. lia.
      - intros j Hj. rewrite wrap64_small by lia. lia. }
    assert (Hfirst : m' !! off = Some (Z.land (Z.shiftr value (8 * (n - 1))) 255)).
    { specialize (Hin 0 ltac:(lia)). rewrite Z.add_0_r in Hin.
      rewrite wrap64_small in Hin by lia.
      rewrite Hin. do 3 f_equal. lia. }
    eexists. split; [reflexivity |]. simpl.
    split.
    { unfold Segment.size. simpl. rewrite Hs'.
      fold (Segment.size s). rewrite <- Hsz.
      apply wrap64_small. unfold map_max_size in Hroom. lia. }
    split; [exact Hhole |]. split; [exact Hfirst |].
    intros Hc'. assert (Hs : is_Some (m' !! Segment.size s)).
    { apply Hc'. rewrite Hs'. lia. }
    rewrite Hhole in Hs. destruct Hs as [x Hx]. discriminate.
Qed.

(** X5 at three bytes and the range 5..6:
    offsets 3 and 4 stay unset. *)
Lemma patchBytes_beyond_the_end_witness :
  exists s',
    Segment.patchBytes three_bytes 5 2 0xBEEF = Ok s' /\
    Segment.size s' = 5 /\
    Segment.memory s' !! 3 = None /\
    Segment.memory s' !! 5 = Some 0xBE.
Proof.
  destruct (patchBytes_beyond_the_end three_bytes 5 2 0xBEEF)
    as (s' & H & Hs & Hh & Hf & _).
  - apply (inv_contiguous _ three_bytes_inv).
  - lia.
  - vm_compute. reflexivity.
  - vm_compute. discriminate.
  - vm_compute. discriminate.
  - exists s'. split; [exact H |]. split; [exact Hs |].
    split; [exact Hh | exact Hf].
Defined.

(** X6. After the argument loops of [main], no
    ident that the global table defines with kind [T], [D] or [B] is in
    the set of unresolved idents, whatever the order of definitions and
    references in the inputs was. *)
Theorem defined_symbols_are_resolved (fuel : nat) (env : option string)
    (fs : FS) (argv : list string) (st : MainState)
    (Hargs : processArgs fuel env fs argv = Ok st) :
  forall id e,
    SMap.find id (ObjectFile.symTab (objectFile st)) = Some e ->
    isSegmentKind (fst e) = true ->
    id ∉ ObjectFile.unresolved (objectFile st).
Proof.
  apply (processArgs_tables definedIsResolved definedIsResolved_tables
           (fun o o' source l H => readSym_definedIsResolved o o' source l H)
           fuel env fs argv st Hargs).
  intros id e He. discriminate.
Qed.

(** X6 at scenario S6, where [main] is
    referred to after its definition. *)
Lemma defined_symbols_are_resolved_witness :
  "main" ∉ ObjectFile.unresolved (objectFile S6_state).
Proof.
  apply (defined_symbols_are_resolved 0 None S6_files ["a.o"] S6_state
           ltac:(vm_compute; reflexivity) "main" ("T"%char, 0));
    vm_compute; reflexivity.
Defined.

(** X7. After the argument loops of [main], the global
    table holds no kind that [std::toupper] changes and no [U]; the table
    of the local symbols holds only kinds that [std::toupper] changes.
    These are the lower-case letters and, [char] being signed, the
    characters from 128 to 254, which the C library answers with their
    unsigned value. *)
Theorem tables_by_case (fuel : nat) (env : option string)
    (fs : FS) (argv : list string) (st : MainState)
    (Hargs : processArgs fuel env fs argv = Ok st) :
  (forall id e,
     SMap.find id (ObjectFile.symTab (objectFile st)) = Some e ->
     toupper (toInt (fst e)) = toInt (fst e) /\ fst e <> "U"%char) /\
  (forall id es e,
     SMap.find id (ObjectFile.localSymTab (objectFile st)) = Some es ->
     In e es -> toupper (toInt (fst e)) <> toInt (fst e)).
Proof.
  apply (processArgs_tables tablesByCase tablesByCase_tables
           (fun o o' source l H => readSym_tablesByCase o o' source l H)
           fuel env fs argv st Hargs).
  split; intros; discriminate.
Qed.

(** X7 at scenario S6: [loc] of kind [t] is in the local
    table only. *)
Lemma tables_by_case_witness :
  SMap.find "loc" (ObjectFile.symTab (objectFile S6_state)) = None /\
  forall es e,
    SMap.find "loc" (ObjectFile.localSymTab (objectFile S6_state)) = Some es ->
    In e es -> toupper (toInt (fst e)) <> toInt (fst e).
Proof.
  split; [vm_compute; reflexivity |].
  intros es e.
  apply (tables_by_case 0 None S6_files ["a.o"] S6_state
           ltac:(vm_compute; reflexivity)).
Defined.

(** X8. A line of [#SYMTAB] that defines a new
    global ident enters it in the global table; it removes the ident from
    the unresolved idents when its kind is [T], [D] or [B], and it leaves
    the unresolved idents as they are when its kind is [A]: an absolute
    symbol that was referred to before stays unresolved. *)
Theorem definition_and_unresolved (o : ObjectFile.t) (source : string)
    (l : SymLine)
    (Hkind : isDefinitionKind (sl_kind l) = true)
    (Hdot : noDot (sl_ident l) = true)
    (Hfresh : SMap.count (sl_ident l) (ObjectFile.symTab o) = false) :
  exists o',
    ObjectFile.readSym o source l = Ok o' /\
    SMap.count (sl_ident l) (ObjectFile.symTab o') = true /\
    forall id,
      id ∈ ObjectFile.unresolved o' <->
      id ∈ ObjectFile.unresolved o /\
      (id <> sl_ident l \/ sl_kind l = "A"%char).
Proof.
  destruct (isDefinitionKind_upper _ Hkind) as [EU Eup].
  unfold noDot in Hdot. apply negb_true_iff in Hdot.
  pose proof (symSwitch_symTab o source l) as Hst.
  pose proof (symSwitch_unresolved o source l) as Hun.
  unfold ObjectFile.readSym. rewrite EU, Hdot, Eup, Hst, Hfresh. cbn [negb].
  eexists. split; [reflexivity |]. cbn [ObjectFile.symTab ObjectFile.with_symTab
    ObjectFile.unresolved].
  split.
  { unfold SMap.count. now rewrite find_set_eq. }
  intros id. rewrite Hun.
  unfold isDefinitionKind in Hkind. unfold isSegmentKind.
  destruct (Ascii.eqb (sl_kind l) "T" || Ascii.eqb (sl_kind l) "D" ||
            Ascii.eqb (sl_kind l) "B") eqn:Eseg.
  - assert (HA : sl_kind l <> "A"%char).
    { intros E. rewrite E in Eseg. discriminate. }
    rewrite elem_of_difference, elem_of_singleton. tauto.
  - simpl in Hkind. apply Ascii.eqb_eq in Hkind. tauto.
Qed.

(** X8 at an ident [x] that is unresolved: the
    definition [A x 5] leaves it unresolved, the definition [T x 0]
    does not. *)
Lemma definition_and_unresolved_witness :
  (exists o',
     ObjectFile.readSym
       (ObjectFile.with_unresolved (ObjectFile.init None) {["x"]}) "a.o"
       {| sl_kind := "A"; sl_ident := "x"; sl_value := 5 |} = Ok o' /\
     "x" ∈ ObjectFile.unresolved o') /\
  (exists o',
     ObjectFile.readSym
       (ObjectFile.with_unresolved (ObjectFile.init None) {["x"]}) "a.o"
       {| sl_kind := "T"; sl_ident := "x"; sl_value := 0 |} = Ok o' /\
     "x" ∉ ObjectFile.unresolved o').
Proof.
  split.
  - destruct (definition_and_unresolved
                (ObjectFile.with_unresolved (ObjectFile.init None) {["x"]})
                "a.o" {| sl_kind := "A"; sl_ident := "x"; sl_value := 5 |}
                eq_refl eq_refl eq_refl) as (o' & H & _ & Hu).
    exists o'. split; [exact H |]. apply Hu. split.
    + simpl. now apply elem_of_singleton.
    + now right.
  - destruct (definition_and_unresolved
                (ObjectFile.with_unresolved (ObjectFile.init None) {["x"]})
                "a.o" {| sl_kind := "T"; sl_ident := "x"; sl_value := 0 |}
                eq_refl eq_refl eq_refl) as (o' & H & _ & Hu).
    exists o'. split; [exact H |]. intros Hx. apply Hu in Hx as [_ [Hx | Hx]].
    + now apply Hx.
    + discriminate.
Defined.

(** X9. Once an ident is unresolved and
    defined in the global table at the same time, [addLibOrObject] never
    returns from an archive whose index lists that ident: every step of
    the parse phase keeps the ident unresolved, and the loop over the
    index only ends when none of its idents is unresolved. *)
Theorem stuck_ident_blocks_indexed_archive (fuel : nat) (fs : FS)
    (o : ObjectFile.t) (file id : string) (onlyLibs : bool)
    (archive : Ar.archive_reader) (idx : Text)
    (Harg : ObjectFile.isLibArg file = false)
    (Hopen : archive_open fs file = Some archive)
    (Hidx : SMap.find "__SYMTAB_INDEX" (Ar.members archive) = Some idx)
    (Hlisted : existsb (fun l => String.eqb (ix_ident l) id) (index idx) = true)
    (Hdot : noDot id = true)
    (Hunresolved : id ∈ ObjectFile.unresolved o)
    (Hdefined : SMap.count id (ObjectFile.symTab o) = true) :
  forall r, ObjectFile.addLibOrObject fuel fs o file onlyLibs <> Ok r.
Proof.
  intros r H.
  assert (Hs : stuck id (fst r)).
  { apply (addLibOrObject_tables (stuck id) (stuck_tables id)
             (fun o o' source l H => readSym_stuck id o o' source l Hdot H)
             fuel fs o file onlyLibs r H).
    split; assumption. }
  unfold ObjectFile.addLibOrObject in H. rewrite Harg, Hopen, Hidx in H.
  apply readIndexed_done in H.
  exact (stuck_listed id (fst r) (index idx) Hs Hlisted H).
Qed.

(** X9 at scenario S8: [x] is referred
    to and then defined as absolute, and [libx.a] lists [x]. *)
Lemma stuck_ident_blocks_indexed_archive_witness :
  SMap.find "x" (ObjectFile.symTab (objectFile S8_state))
  = Some ("A"%char, 5) /\
  forall r,
    ObjectFile.addLibOrObject 5 S8_files (objectFile S8_state) "libx.a" false
    <> Ok r.
Proof.
  split; [vm_compute; reflexivity |].
  eapply (stuck_ident_blocks_indexed_archive 5 S8_files (objectFile S8_state)
            "libx.a" "x" false).
  - reflexivity.
  - vm_compute. reflexivity.
  - vm_compute. reflexivity.
  - vm_compute. reflexivity.
  - reflexivity.
  - vm_compute. reflexivity.
  - vm_compute. reflexivity.
Defined.

(** X10. In a link that succeeds the text
    segment stays at 0 and is padded up to the base of the data segment,
    which is the least multiple of the data alignment that is not below
    the size of the text; the base of the bss segment is a multiple of
    the bss alignment, and it is the least one that is not below the end
    of the data unless that address exceeds 64 bits. The fixups move no
    base address and change no alignment. *)
Theorem segments_are_placed_in_order (fuel : nat) (env : option string)
    (fs : FS) (argv : list string) (st : MainState) (o' : ObjectFile.t)
    (Hargs : processArgs fuel env fs argv = Ok st)
    (Hlink : ObjectFile.link (objectFile st) = Ok o') :
  Segment.baseAddr (ObjectFile.seg o' 0) = 0 /\
  Segment.size (ObjectFile.seg (objectFile st) 0) <=
    Segment.baseAddr (ObjectFile.seg o' 1) <
    Segment.size (ObjectFile.seg (objectFile st) 0) +
    Segment.alignment (ObjectFile.seg o' 1) /\
  Segment.baseAddr (ObjectFile.seg o' 1) mod
    Segment.alignment (ObjectFile.seg o' 1) = 0 /\
  Segment.baseAddr (ObjectFile.seg o' 2) mod
    Segment.alignment (ObjectFile.seg o' 2) = 0 /\
  (Segment.baseAddr (ObjectFile.seg o' 1) +
   Segment.size (ObjectFile.seg (objectFile st) 1) +
   Segment.alignment (ObjectFile.seg o' 2) <= two64 ->
   Segment.baseAddr (ObjectFile.seg o' 1) +
   Segment.size (ObjectFile.seg (objectFile st) 1) <=
     Segment.baseAddr (ObjectFile.seg o' 2) <
     Segment.baseAddr (ObjectFile.seg o' 1) +
     Segment.size (ObjectFile.seg (objectFile st) 1) +
     Segment.alignment (ObjectFile.seg o' 2)) /\
  (forall i, Segment.alignment (ObjectFile.seg o' i) =
             Segment.alignment (ObjectFile.seg (objectFile st) i)) /\
  exists p,
    ObjectFile.place (objectFile st) = Ok p /\
    Segment.getEndAddr (ObjectFile.seg (ObjectFile.placed p) 0) =
    Segment.baseAddr (ObjectFile.seg o' 1).
Proof.
  pose proof (processArgs_inv _ _ _ _ _ Hargs) as Hinv.
  pose proof (processArgs_length _ _ _ _ _ Hargs) as Hlen.
  pose proof (processArgs_alignments _ _ _ _ _ Hargs) as Hal.
  set (o := objectFile st) in *.
  unfold ObjectFile.link in Hlink. apply bind_Ok in Hlink as (p & Hp & Hfix).
  destruct (place_spec o p Hinv Hlen Hp)
    as (Ht & HdA & Hm1 & Hs0 & Hs1 & HbA & Hm2 & Hs2 & _ & _ & _).
  apply resolveFixables_frame in Hfix as (_ & _ & Hsame).
  destruct (Hsame 0%nat) as [m0 E0]. destruct (Hsame 1%nat) as [m1 E1].
  destruct (Hsame 2%nat) as [m2 E2].
  pose proof (advanceTo_shape _ _ _ Hs0) as (m & an & Eshape).
  pose proof (advanceTo_inv _ _ _ (inv_segments o Hinv 0%nat) Hs0) as [Hi0 Hsz0].
  pose proof (advanceTo_ge _ _ _ Hs0) as Hge.
  pose proof (inv_base _ (inv_segments o Hinv 0%nat)) as Hb0.
  rewrite Hb0, Z.sub_0_r in Hsz0, Hge.
  pose proof (Hal 1%nat) as Hal1. pose proof (Hal 2%nat) as Hal2.
  pose proof (alignAddr_upper (Segment.size (ObjectFile.seg o 0))
                (Segment.alignment (ObjectFile.seg o 1)) _
                (proj1 (size_range _)) ltac:(lia) HdA) as (Hd0 & _ & Hdu).
  assert (HdR : 0 <= ObjectFile.dataAddr p < two64).
  { unfold alignAddr in HdA. destruct (_ =? 0); [discriminate |].
    injection HdA as <-. apply wrap64_range. }
  rewrite (wrap64_small (ObjectFile.dataAddr p)) in Hsz0, Hge by exact HdR.
  rewrite E0, E1, E2, Hs1, Hs2, Eshape. simpl.
  split; [exact Hb0 |]. split; [lia |]. split; [exact Hm1 |].
  split; [exact Hm2 |]. split.
  - intros Hroom.
    pose proof (size_range (ObjectFile.seg o 1)) as Hr1.
    rewrite wrap64_small in HbA by lia.
    destruct (alignAddr_spec
                (ObjectFile.dataAddr p + Segment.size (ObjectFile.seg o 1))
                (Segment.alignment (ObjectFile.seg o 2)))
      as (r & Hr & _ & Hb); [lia | lia | lia |].
    rewrite HbA in Hr. injection Hr as <-. exact Hb.
  - split.
    + intros i. destruct (Hsame i) as [mi Ei]. rewrite Ei. simpl.
      destruct i as [|[|[|i]]].
      * now rewrite Eshape.
      * now rewrite Hs1.
      * now rewrite Hs2.
      * assert (Hout : forall x, length (ObjectFile.segments x) = ObjectFile.numSegments ->
                         ObjectFile.seg x (S (S (S i))) = Segment.init).
        { intros x Hx. unfold ObjectFile.seg.
          rewrite lookup_ge_None_2; [reflexivity |].
          rewrite Hx. unfold ObjectFile.numSegments. lia. }
        rewrite !Hout; [reflexivity | exact Hlen |].
        apply (place_spec o p Hinv Hlen Hp).
    + exists p. split; [exact Hp |].
      unfold Segment.getEndAddr. rewrite Eshape. simpl.
      rewrite Hb0, Z.add_0_l.
      change (Segment.size (Segment.with_annotation (Segment.with_memory
                (ObjectFile.seg o 0) m) an))
        with (Segment.size (Segment.with_memory (ObjectFile.seg o 0) m)).
      rewrite Eshape in Hsz0.
      change (Segment.size (Segment.with_annotation (Segment.with_memory
                (ObjectFile.seg o 0) m) an))
        with (Segment.size (Segment.with_memory (ObjectFile.seg o 0) m)) in Hsz0.
      rewrite Hsz0. apply wrap64_small. exact HdR.
Qed.

(** X10 at scenario S6: five bytes of text
    and alignment 8 of the data put the data at 8; three bytes of data
    and alignment 16 of the bss put the bss at 16. *)
Lemma segments_are_placed_in_order_witness :
  Segment.baseAddr (ObjectFile.seg S6_linked 0) = 0 /\
  5 <= Segment.baseAddr (ObjectFile.seg S6_linked 1) < 5 + 8 /\
  Segment.baseAddr (ObjectFile.seg S6_linked 1) mod 8 = 0 /\
  Segment.baseAddr (ObjectFile.seg S6_linked 2) mod 16 = 0.
Proof.
  destruct (segments_are_placed_in_order 0 None S6_files ["a.o"] S6_state
              S6_linked ltac:(vm_compute; reflexivity)
              ltac:(vm_compute; reflexivity))
    as (H0 & H1 & H2 & H3 & _).
  split; [exact H0 |]. split; [exact H1 |]. split; [exact H2 | exact H3].
Defined.

(** X11. A link that succeeds keeps the idents of
    the global table, in which every kind is then [T], [D], [B] or [A]:
    the value of a symbol of kind [T], [D] or [B] has grown by the base
    address of the text, data or bss segment of the linked object, and an
    absolute symbol has kept its value. *)
Theorem link_relocates_symbols (fuel : nat) (env : option string)
    (fs : FS) (argv : list string) (st : MainState) (o' : ObjectFile.t)
    (Hargs : processArgs fuel env fs argv = Ok st)
    (Hlink : ObjectFile.link (objectFile st) = Ok o') :
  SMap.keys (ObjectFile.symTab o') =
    SMap.keys (ObjectFile.symTab (objectFile st)) /\
  forall id e,
    SMap.find id (ObjectFile.symTab (objectFile st)) = Some e ->
    isDefinitionKind (fst e) = true /\
    SMap.find id (ObjectFile.symTab o') =
    Some (relocate (Segment.baseAddr (ObjectFile.seg o' 0))
            (Segment.baseAddr (ObjectFile.seg o' 1))
            (Segment.baseAddr (ObjectFile.seg o' 2)) e).
Proof.
  pose proof (processArgs_inv _ _ _ _ _ Hargs) as Hinv.
  pose proof (processArgs_length _ _ _ _ _ Hargs) as Hlen.
  set (o := objectFile st) in *.
  unfold ObjectFile.link in Hlink. apply bind_Ok in Hlink as (p & Hp & Hfix).
  destruct (place_spec o p Hinv Hlen Hp)
    as (Ht & _ & _ & Hs0 & Hs1 & _ & _ & Hs2 & Hsym & _ & _).
  apply resolveFixables_frame in Hfix as (Est & _ & Hsame).
  destruct (Hsame 0%nat) as [m0 E0]. destruct (Hsame 1%nat) as [m1 E1].
  destruct (Hsame 2%nat) as [m2 E2].
  pose proof (advanceTo_base _ _ _ Hs0) as Hb0.
  rewrite (inv_base _ (inv_segments o Hinv 0%nat)) in Hb0.
  rewrite E0, E1, E2, Hs1, Hs2. simpl. rewrite Hb0.
  apply placeSymbols_map in Hsym as [Emap Hall].
  rewrite Est, Emap. split; [apply keys_map_values |].
  intros id e He. split.
  - apply find_In in He. rewrite List.Forall_forall in Hall.
    exact (Hall _ He).
  - rewrite find_map_values, He. reflexivity.
Qed.

(** X11 at scenario S6: [d] of kind [D] with value 1
    lies at 9, the data being placed at 8. *)
Lemma link_relocates_symbols_witness :
  SMap.find "d" (ObjectFile.symTab S6_linked) = Some ("D"%char, 9).
Proof.
  destruct (link_relocates_symbols 0 None S6_files ["a.o"] S6_state
              S6_linked ltac:(vm_compute; reflexivity)
              ltac:(vm_compute; reflexivity)) as [_ H].
  destruct (H "d" ("D"%char, 1) ltac:(vm_compute; reflexivity)) as [_ Hd].
  rewrite Hd. vm_compute. reflexivity.
Defined.

(** X12. When [link] returns, every fixup that
    the parse phase recorded refers to one of the names [[text]],
    [[data]], [[bss]] or to an ident of the global table: a fixup to an
    undefined symbol never passes. *)
Theorem linked_fixups_are_defined (o o' : ObjectFile.t)
    (Hlink : ObjectFile.link o = Ok o') :
  forall ident fs f,
    In (ident, fs) (ObjectFile.fixables o) -> In f fs ->
    isSegmentName ident = true \/
    SMap.count ident (ObjectFile.symTab o) = true.
Proof.
  intros ident fs f Hin Hf.
  unfold ObjectFile.link in Hlink. apply bind_Ok in Hlink as (p & Hp & Hfix).
  apply resolveFixables_passed in Hfix.
  unfold ObjectFile.place in Hp.
  apply bind_Ok in Hp as (dA & _ & Hp).
  apply bind_Ok in Hp as (s1 & _ & Hp).
  apply bind_Ok in Hp as (s0 & _ & Hp).
  apply bind_Ok in Hp as (bA & _ & Hp).
  apply bind_Ok in Hp as (s2 & _ & Hp).
  apply bind_Ok in Hp as (st & Hst & Hp). injection Hp as <-.
  simpl in Hfix, Hst.
  rewrite List.Forall_forall in Hfix. specialize (Hfix _ Hin). simpl in Hfix.
  rewrite List.Forall_forall in Hfix. specialize (Hfix _ Hf).
  apply fixupPassed_defined in Hfix as [Hn | Hc]; [now left | right].
  apply placeSymbols_map in Hst as [-> _].
  unfold SMap.count in *. rewrite find_map_values in Hc.
  destruct (SMap.find ident (ObjectFile.symTab o)); [reflexivity | discriminate].
Qed.

(** X12 at scenario S6 and its fixup to [d]. *)
Lemma linked_fixups_are_defined_witness :
  isSegmentName "d" = true \/
  SMap.count "d" (ObjectFile.symTab (objectFile S6_state)) = true.
Proof.
  apply (linked_fixups_are_defined (objectFile S6_state) S6_linked
           ltac:(vm_compute; reflexivity) "d"
           [FixEntry.mk "text" "w0" 0 1 2 0] (FixEntry.mk "text" "w0" 0 1 2 0)).
  - vm_compute. right. left. reflexivity.
  - left. reflexivity.
Defined.

(** X13. The fixup kinds [w0], [w1], [w2] and [w3] select
    the four 16-bit parts of the 64-bit target address, least significant
    first: each value is below [2^16] and together they give the address
    back. *)
Theorem fixup_halfwords (addr value : Z) (Hvalue : 0 <= value < two64) :
  exists w0 w1 w2 w3,
    ObjectFile.fixupValue "w0" addr value = Ok w0 /\
    ObjectFile.fixupValue "w1" addr value = Ok w1 /\
    ObjectFile.fixupValue "w2" addr value = Ok w2 /\
    ObjectFile.fixupValue "w3" addr value = Ok w3 /\
    0 <= w0 < 2 ^ 16 /\ 0 <= w1 < 2 ^ 16 /\
    0 <= w2 < 2 ^ 16 /\ 0 <= w3 < 2 ^ 16 /\
    value = w0 + 2 ^ 16 * w1 + 2 ^ 32 * w2 + 2 ^ 48 * w3.
Proof.
  do 4 eexists. repeat (split; [reflexivity |]).
  change 65535 with (Z.ones 16). rewrite !Z.land_ones by lia.
  rewrite !Z.shiftr_div_pow2 by lia.
  unfold two64 in Hvalue.
  repeat (split; [apply Z.mod_pos_bound; lia |]).
  pose proof (Z.div_mod value (2 ^ 16) ltac:(lia)) as D0.
  pose proof (Z.div_mod (value / 2 ^ 16) (2 ^ 16) ltac:(lia)) as D1.
  pose proof (Z.div_mod (value / 2 ^ 32) (2 ^ 16) ltac:(lia)) as D2.
  assert (E2 : value / 2 ^ 16 / 2 ^ 16 = value / 2 ^ 32).
  { rewrite Z.div_div by lia. reflexivity. }
  assert (E3 : value / 2 ^ 32 / 2 ^ 16 = value / 2 ^ 48).
  { rewrite Z.div_div by lia. reflexivity. }
  assert (E4 : (value / 2 ^ 48) mod 2 ^ 16 = value / 2 ^ 48).
  { apply Z.mod_small. split.
    - apply Z.div_pos; lia.
    - apply Z.div_lt_upper_bound; lia. }
  rewrite E2 in D1. rewrite E3 in D2. rewrite E4. lia.
Qed.

(** X13 at the address [0xDEADBEEFCAFEBABE]. *)
Lemma fixup_halfwords_witness :
  exists w0 w1 w2 w3,
    ObjectFile.fixupValue "w0" 0 0xDEADBEEFCAFEBABE = Ok w0 /\
    ObjectFile.fixupValue "w1" 0 0xDEADBEEFCAFEBABE = Ok w1 /\
    ObjectFile.fixupValue "w2" 0 0xDEADBEEFCAFEBABE = Ok w2 /\
    ObjectFile.fixupValue "w3" 0 0xDEADBEEFCAFEBABE = Ok w3 /\
    0 <= w0 < 2 ^ 16 /\ 0 <= w1 < 2 ^ 16 /\
    0 <= w2 < 2 ^ 16 /\ 0 <= w3 < 2 ^ 16 /\
    0xDEADBEEFCAFEBABE = w0 + 2 ^ 16 * w1 + 2 ^ 32 * w2 + 2 ^ 48 * w3.
Proof.
  apply (fixup_halfwords 0 0xDEADBEEFCAFEBABE). unfold two64. lia.
Defined.

(** X14. When [addLibOrObject] returns from
    an archive with a symbol index, no ident of the index is unresolved;
    the same archive given again, at once or in a sweep over a group,
    reads no member and returns 0. *)
Theorem indexed_archive_is_idempotent (fuel fuel' : nat) (fs : FS)
    (o o' : ObjectFile.t) (file : string) (onlyLibs onlyLibs' : bool)
    (archive : Ar.archive_reader) (idx : Text) (resolved : Z)
    (Harg : ObjectFile.isLibArg file = false)
    (Hopen : archive_open fs file = Some archive)
    (Hidx : SMap.find "__SYMTAB_INDEX" (Ar.members archive) = Some idx)
    (Hfirst : ObjectFile.addLibOrObject fuel fs o file onlyLibs =
              Ok (o', resolved)) :
  Forall (fun l => ix_ident l ∉ ObjectFile.unresolved o') (index idx) /\
  ObjectFile.addLibOrObject fuel' fs o' file onlyLibs' = Ok (o', 0).
Proof.
  unfold ObjectFile.addLibOrObject in *. rewrite Harg, Hopen, Hidx in *.
  apply readIndexed_done in Hfirst. simpl in Hfirst.
  split; [now apply readSymtabIndex_None |].
  now apply readIndexed_nothing.
Qed.

(** X14 at the archive [libp.a] of scenario
    S4 and an object that refers to [p]. *)
Lemma indexed_archive_is_idempotent_witness :
  exists o o',
    ObjectFile.addLibOrObject 2 (S4_refers "p") o "libp.a" false = Ok (o', 1) /\
    ObjectFile.addLibOrObject 0 (S4_refers "p") o' "libp.a" true = Ok (o', 0).
Proof.
  destruct (ObjectFile.addLibOrObject 0 (S4_refers "p") (ObjectFile.init None)
              "a.o" false) as [[o r]|] eqn:Ea; [| vm_compute in Ea; discriminate].
  destruct (ObjectFile.addLibOrObject 2 (S4_refers "p") o "libp.a" false)
    as [[o' r']|] eqn:Eb;
    [| vm_compute in Ea; injection Ea as <- <-; vm_compute in Eb; discriminate].
  exists o, o'. split.
  - rewrite Eb. f_equal. f_equal.
    vm_compute in Ea. injection Ea as <- <-.
    vm_compute in Eb. now injection Eb as _ <-.
  - eapply (indexed_archive_is_idempotent 2 0 (S4_refers "p") o o' "libp.a"
              false true).
    + reflexivity.
    + vm_compute. reflexivity.
    + vm_compute. reflexivity.
    + exact Eb.
Defined.

(** X15. An archive without symbol index is read
    whole each time it is given, also in a sweep over a group: when one of
    its members defines a global ident and the archive was read once, a
    second call of [addLibOrObject] for it never returns. *)
Theorem plain_archive_twice_fails (fuel fuel' : nat) (fs : FS)
    (o o' : ObjectFile.t) (file : string) (onlyLibs onlyLibs' : bool)
    (archive : Ar.archive_reader) (resolved : Z)
    (name id : string) (body : Text)
    (Harg : ObjectFile.isLibArg file = false)
    (Hopen : archive_open fs file = Some archive)
    (Hidx : SMap.find "__SYMTAB_INDEX" (Ar.members archive) = None)
    (Hmember : In (name, body) (Ar.members archive))
    (Hdefines : defines body id = true)
    (Hfirst : ObjectFile.addLibOrObject fuel fs o file onlyLibs =
              Ok (o', resolved)) :
  forall r, ObjectFile.addLibOrObject fuel' fs o' file onlyLibs' <> Ok r.
Proof.
  intros r H.
  unfold ObjectFile.addLibOrObject in *. rewrite Harg, Hopen, Hidx in *.
  apply bind_Ok in Hfirst as (o1 & H1 & E). injection E as -> _.
  apply bind_Ok in H as (o2 & H2 & _).
  destruct (readMembers_defined file name id body _ o o' Hmember Hdefines H1)
    as [_ [e He]].
  destruct (readMembers_defined file name id body _ o' o2 Hmember Hdefines H2)
    as [Hn _].
  congruence.
Qed.

(** X15 at the archive [libp.a] of scenario S4
    without its index. *)
Lemma plain_archive_twice_fails_witness :
  exists o',
    ObjectFile.addLibOrObject 0 (S4_plain "p") (ObjectFile.init None)
      "libp.a" false = Ok (o', 0) /\
    forall r,
      ObjectFile.addLibOrObject 0 (S4_plain "p") o' "libp.a" true <> Ok r.
Proof.
  destruct (ObjectFile.addLibOrObject 0 (S4_plain "p") (ObjectFile.init None)
              "libp.a" false) as [[o' r']|] eqn:E;
    [| vm_compute in E; discriminate].
  exists o'. split.
  - f_equal. f_equal. vm_compute in E. now injection E as _ <-.
  - eapply (plain_archive_twice_fails 0 0 (S4_plain "p") (ObjectFile.init None)
              o' "libp.a" false true _ r' "p.o" "p" S4_p).
    + reflexivity.
    + vm_compute. reflexivity.
    + vm_compute. reflexivity.
    + vm_compute. left. reflexivity.
    + vm_compute. reflexivity.
    + exact E.
Defined.

(** X16. A byte line whose address lies [d] below
    the address of the first byte line of its unit is not rejected when
    the unit starts at least [d] bytes into the segment: the subtraction
    wraps around, the sum with the mark wraps back, and the byte is
    stored [d] below the mark, over a byte of an earlier unit. *)
Theorem byte_line_below_its_unit (o : ObjectFile.t) (i : nat) (base : Z)
    (source : string) (b : ByteLine) (a d v : Z) (c1 c2 : ascii)
    (Hi : (i < length (ObjectFile.segments o))%nat)
    (Hinv : SegInv (ObjectFile.seg o i))
    (Hmark : Segment.markOf (ObjectFile.seg o i) source <
             Segment.size (ObjectFile.seg o i))
    (Haddr : bl_addr b = Some a)
    (Hbelow : a = base - d)
    (Hd : 0 < d <= Segment.markOf (ObjectFile.seg o i) source)
    (Hdigits : bl_digits b = String c1 (String c2 ""))
    (Hhex : hexExtract c1 c2 = Parsed v) :
  exists r,
    ObjectFile.readBytes o i base source b = Ok r /\
    snd r = base /\
    Segment.memory (ObjectFile.seg (fst r) i) !!
      (Segment.markOf (ObjectFile.seg o i) source - d) =
      Some (Z.land v 255) /\
    Segment.size (ObjectFile.seg (fst r) i) = Segment.size (ObjectFile.seg o i).
Proof.
  set (s := ObjectFile.seg o i) in *.
  set (m := Segment.markOf s source) in *.
  pose proof (size_range s) as Hsr.
  pose proof (inv_base s Hinv) as Hb.
  pose proof (size_of_inv s Hinv) as Hsz.
  assert (Hnot : Segment.isAtMark s source = false).
  { unfold Segment.isAtMark. fold m. apply Z.eqb_neq. lia. }
  assert (Hget : Segment.getMark s source = m).
  { unfold Segment.getMark. fold m. rewrite Hb, Z.add_0_l.
    apply wrap64_small. lia. }
  assert (Hw : wrap64 (a - base) = two64 - d).
  { subst a. replace (base - d - base) with (- d) by lia.
    unfold wrap64. rewrite <- (Z.mod_add _ 1) by (unfold two64; lia).
    rewrite Z.mod_small by lia. lia. }
  assert (Hsum : wrap64 (two64 - d + m) = m - d).
  { unfold wrap64. replace (two64 - d + m) with (m - d + 1 * two64) by lia.
    rewrite Z.mod_add by (unfold two64; lia). apply Z.mod_small. lia. }
  unfold ObjectFile.readBytes. fold s. rewrite Hnot.
  unfold ObjectFile.lineAddr. rewrite Haddr, Hnot. cbn [fst snd].
  rewrite Hget, Hw, Hsum.
  assert (Hreq : Segment.requiresAdvanceTo s (m - d) = false).
  { unfold Segment.requiresAdvanceTo. rewrite Hb, Z.sub_0_r.
    rewrite wrap64_small by lia. apply gtb_false. lia. }
  rewrite Hreq.
  assert (Hins : Segment.insertByteString s (m - d) (bl_digits b) =
                 Ok (Segment.with_memory s
                       (<[m - d := Z.land v 255]> (Segment.memory s)))).
  { unfold Segment.insertByteString. rewrite Hb, Z.sub_0_r.
    rewrite (wrap64_small (m - d)) by lia. rewrite Hreq. cbn [bind].
    rewrite Hdigits. cbn [String.length Nat.even assert bind Nat.div2
                          Segment.insertLoop].
    rewrite Hhex. cbn [bind]. rewrite Z.add_0_r.
    rewrite (wrap64_small (m - d)) by lia.
    rewrite mem_store_present by (apply (inv_contiguous s Hinv); lia).
    reflexivity. }
  rewrite Hins. cbn [bind].
  eexists. split; [reflexivity |]. cbn [fst snd].
  split; [reflexivity |].
  rewrite seg_set_seg_eq by exact Hi.
  assert (Hmem : forall t,
            Segment.memory
              (if (0 <? String.length (bl_comment b))%nat
               then Segment.appendAnnotation
                      (Segment.with_memory s
                         (<[m - d := Z.land v 255]> (Segment.memory s))) t
               else Segment.with_memory s
                      (<[m - d := Z.land v 255]> (Segment.memory s))) =
            <[m - d := Z.land v 255]> (Segment.memory s)).
  { intros t. destruct (_ <? _)%nat; reflexivity. }
  split.
  - rewrite Hmem. apply lookup_insert_eq.
  - unfold Segment.size at 1. rewrite Hmem.
    destruct (insert_inside (Segment.memory s) (m - d) (Z.land v 255)
                (inv_contiguous s Hinv) ltac:(lia)) as [_ Hs'].
    rewrite Hs'. reflexivity.
Qed.

(** X16 at scenario S7: after [a.o] with the
    bytes [11 22] and the line [0x10: AA] of [b.o], the line [0x0F: BB]
    of [b.o] replaces the byte [22] of [a.o]. *)
Lemma byte_line_below_its_unit_witness :
  Segment.memory (ObjectFile.seg (objectFile S7_state) 0) !! 1 = Some 0x22 /\
  exists r,
    ObjectFile.readBytes (objectFile S7_state) 0 16 "b.o"
      {| bl_comment := ""; bl_addr := Some 15; bl_digits := "BB" |} = Ok r /\
    Segment.memory (ObjectFile.seg (fst r) 0) !! 1 = Some 0xBB.
Proof.
  split; [vm_compute; reflexivity |].
  assert (Hinv : SegInv (ObjectFile.seg (objectFile S7_state) 0)).
  { apply inv_segments.
    apply (processArgs_inv 0 None S7_files ["a.o"; "b.o"]).
    vm_compute. reflexivity. }
  destruct (byte_line_below_its_unit (objectFile S7_state) 0 16 "b.o"
              {| bl_comment := ""; bl_addr := Some 15; bl_digits := "BB" |}
              15 1 0xBB "B" "B") as (r & H & _ & Hm & _).
  - vm_compute. lia.
  - exact Hinv.
  - vm_compute. reflexivity.
  - reflexivity.
  - reflexivity.
  - vm_compute. split; [reflexivity | discriminate].
  - reflexivity.
  - reflexivity.
  - exists r. split; [exact H | exact Hm].
Defined.

(** X17. No input lowers the alignment of a
    segment: across a call of [addLibOrObject] every alignment stays or
    grows, and after the argument loops of [main] each of them is at
    least the 1 of the constructor. *)
Theorem alignment_never_decreases (fuel : nat) (env : option string)
    (fs : FS) (argv : list string) (st : MainState)
    (Hargs : processArgs fuel env fs argv = Ok st) :
  (forall i, 1 <= Segment.alignment (ObjectFile.seg (objectFile st) i)) /\
  forall fuel' file onlyLibs r,
    ObjectFile.addLibOrObject fuel' (files st) (objectFile st) file onlyLibs =
      Ok r ->
    forall i, Segment.alignment (ObjectFile.seg (objectFile st) i) <=
              Segment.alignment (ObjectFile.seg (fst r) i).
Proof.
  split; [exact (processArgs_alignments _ _ _ _ _ Hargs) |].
  intros fuel' file onlyLibs r.
  apply (addLibOrObject_steps alignmentsGrow).
  - exact alignmentsGrow_refl.
  - exact alignmentsGrow_trans.
  - exact readTextData_alignments.
  - exact readBss_alignments.
  - exact readBytes_alignments.
  - exact readSym_alignments.
  - exact readFixup_alignments.
Qed.

(** X17 at scenario S6. *)
Lemma alignment_never_decreases_witness :
  Segment.alignment (ObjectFile.seg (objectFile S6_state) 1) = 8 /\
  forall i, 1 <= Segment.alignment (ObjectFile.seg (objectFile S6_state) i).
Proof.
  split; [vm_compute; reflexivity |].
  apply (alignment_never_decreases 0 None S6_files ["a.o"] S6_state).
  vm_compute. reflexivity.
Defined.

(** X18. [extract_value] on a field that
    holds blanks, then at most nineteen digits below the base, then blanks
    to its end: the result is the value of the digits in that base, and
    the function returns false when that value exceeds the largest
    [unsigned int]. *)
Theorem extract_value_reads_padded_number (a b : nat) (d : Z) (ds : list Z)
    (base : Z)
    (Hbase : 0 < base <= 10)
    (Hdigits : Forall (fun d => 0 <= d < base) (d :: ds))
    (Hlen : (length (d :: ds) <= 19)%nat) :
  ArHeader.extract_value (blanks a ++ map digitChar (d :: ds) ++ blanks b) base =
  if digitsValue base (d :: ds) >? ArHeader.uint_max then None
  else Some (digitsValue base (d :: ds)).
Proof.
  pose proof (digitsValue_small base (d :: ds) Hbase Hdigits Hlen) as Hv.
  unfold ArHeader.extract_value.
  rewrite value_loop_blanks_skip.
  inversion Hdigits as [|? ? Hd Hds]; subst.
  rewrite (value_loop_digits base ds Hbase Hds d (blanks b) 0 true Hd
             ltac:(lia) (proj2 Hv)).
  rewrite value_loop_blanks_end. reflexivity.
Qed.

(** X18 at the field of [ar_date] with
    the characters [123] after two blanks, and at the octal digits [644]
    of a field of [ar_mode]. *)
Lemma extract_value_reads_padded_number_witness :
  ArHeader.extract_value (field 12 "  123") 10 = Some 123 /\
  ArHeader.extract_value (field 8 "644") 8 = Some 420.
Proof.
  split.
  - apply (extract_value_reads_padded_number 2 7 1 [2; 3] 10); [lia | | simpl; lia].
    repeat constructor; lia.
  - apply (extract_value_reads_padded_number 0 5 6 [4; 4] 8); [lia | | simpl; lia].
    repeat constructor; lia.
Defined.

(** X19. [extract_value] returns false on a field of
    blanks only, on a field that holds a character which is neither a
    blank nor a digit, and on a field with a blank between two other
    characters; a value that it yields is never above the largest
    [unsigned int]. *)
Theorem extract_value_rejects (s : list ascii) (base : Z) :
  (Forall (fun c => ArHeader.isBlank c = true) s ->
   ArHeader.extract_value s base = None) /\
  (Exists (fun c => ArHeader.isBlank c = false /\ ArHeader.notDigit c = true) s ->
   ArHeader.extract_value s base = None) /\
  (forall pre c1 k c2 post,
     s = pre ++ c1 :: blanks (S k) ++ c2 :: post ->
     ArHeader.isBlank c1 = false -> ArHeader.isBlank c2 = false ->
     ArHeader.extract_value s base = None) /\
  (forall v, ArHeader.extract_value s base = Some v ->
             0 <= v <= ArHeader.uint_max).
Proof.
  split; [| split; [| split]].
  - intros H. unfold ArHeader.extract_value.
    now rewrite value_loop_all_blank.
  - intros H. unfold ArHeader.extract_value.
    now rewrite value_loop_junk.
  - intros pre c1 k c2 post -> H1 H2. unfold ArHeader.extract_value.
    now rewrite value_loop_embedded.
  - intros v. apply extract_value_range.
Qed.

(** X20. [extract_offset] never looks at the
    first character of the field; it reads the digits that follow up to
    the first blank or to the end of the field and ignores whatever comes
    after that blank; a blank in the second place makes it return
    false. *)
Theorem extract_offset_reads_digits (c0 : ascii) (d : Z) (ds : list Z)
    (rest : list ascii)
    (Hdigits : Forall (fun d => 0 <= d < 10) (d :: ds))
    (Hlen : (length (d :: ds) <= 19)%nat) :
  ArHeader.extract_offset (c0 :: map digitChar (d :: ds) ++ " "%char :: rest) =
    (if digitsValue 10 (d :: ds) >? ArHeader.uint_max then None
     else Some (digitsValue 10 (d :: ds))) /\
  ArHeader.extract_offset (c0 :: map digitChar (d :: ds)) =
    (if digitsValue 10 (d :: ds) >? ArHeader.uint_max then None
     else Some (digitsValue 10 (d :: ds))) /\
  ArHeader.extract_offset (c0 :: " "%char :: rest) = None.
Proof.
  pose proof (digitsValue_small 10 (d :: ds) ltac:(lia) Hdigits Hlen) as Hv.
  inversion Hdigits as [|? ? Hd Hds]; subst.
  unfold ArHeader.extract_offset. cbn [tail].
  split; [| split].
  - rewrite (offset_loop_digits ds Hds d _ 0 true Hd ltac:(lia) (proj2 Hv)).
    reflexivity.
  - rewrite <- (app_nil_r (map digitChar (d :: ds))).
    rewrite (offset_loop_digits ds Hds d [] 0 true Hd ltac:(lia) (proj2 Hv)).
    reflexivity.
  - reflexivity.
Qed.

(** X20 at the name field [/12 junk]. *)
Lemma extract_offset_reads_digits_witness :
  ArHeader.extract_offset (field 16 "/12 junk") = Some 12.
Proof.
  apply (extract_offset_reads_digits "/" 1 [2]
           (list_ascii_of_string "junk" ++ blanks 8)).
  - repeat constructor; lia.
  - simpl. lia.
Defined.

(** X21. The name that lies in a header ends before the
    first '/'; without a '/' it ends before the blanks that fill the
    field; a field that a name fills to its last character is rejected,
    a field that starts with '/' gives the empty name of the symbol
    table, and a field of blanks only gives the name of one blank. *)
Theorem plain_name_ends (n : list ascii) (c : ascii) (k : nat)
    (rest : list ascii)
    (Hslash : Forall (fun c => ArHeader.isSlash c = false) (n ++ [c]))
    (Hc : ArHeader.isBlank c = false) :
  ArHeader.plain_name ((n ++ [c]) ++ "/"%char :: rest) = Some (n ++ [c]) /\
  ArHeader.plain_name ((n ++ [c]) ++ blanks (S k)) = Some (n ++ [c]) /\
  ArHeader.plain_name (n ++ [c]) = None /\
  ArHeader.plain_name ("/"%char :: rest) = Some [] /\
  ArHeader.plain_name (blanks (S (S k))) = Some [" "%char].
Proof.
  assert (Hlen : length (n ++ [c]) = S (length n)).
  { rewrite length_app. simpl. lia. }
  split; [| split; [| split; [| split]]].
  - unfold ArHeader.plain_name.
    rewrite (name_loop_app _ Hslash). cbn [ArHeader.name_loop fst snd].
    rewrite isSlash_slash. cbn [fst snd].
    rewrite Nat.add_0_l. now rewrite take_app_length.
  - unfold ArHeader.plain_name.
    rewrite (name_loop_app _ Hslash), fold_blank_last by exact Hc.
    rewrite Nat.add_0_l, Hlen.
    rewrite <- (app_nil_r (blanks (S k))).
    rewrite (name_loop_app _ (isSlash_blanks (S k))).
    cbn [ArHeader.name_loop fst snd blanks repeat fold_left].
    fold (blanks k). rewrite blank_after_first, fold_blank_blanks by lia.
    cbn [Nat.eqb negb]. rewrite <- Hlen. now rewrite take_app_length.
  - unfold ArHeader.plain_name.
    rewrite <- (app_nil_r (n ++ [c])).
    rewrite (name_loop_app _ Hslash), fold_blank_last by exact Hc.
    cbn [ArHeader.name_loop fst snd Nat.eqb negb].
    rewrite Nat.add_0_l, Hlen. reflexivity.
  - reflexivity.
  - unfold ArHeader.plain_name.
    rewrite <- (app_nil_r (blanks (S (S k)))).
    rewrite (name_loop_app _ (isSlash_blanks (S (S k)))).
    cbn [ArHeader.name_loop fst snd blanks repeat fold_left].
    fold (blanks k). rewrite !blank_after_first, fold_blank_blanks by lia.
    reflexivity.
Qed.

(** X21 at the fields [abc/], [abc] and [0123456789abcdef]
    of sixteen characters. *)
Lemma plain_name_ends_witness :
  ArHeader.plain_name (field 16 "abc/") = Some (list_ascii_of_string "abc") /\
  ArHeader.plain_name (field 16 "abc") = Some (list_ascii_of_string "abc") /\
  ArHeader.plain_name (field 16 "0123456789abcdef") = None.
Proof.
  assert (H : Forall (fun c => ArHeader.isSlash c = false) (["a"; "b"]%char ++ ["c"%char]))
    by (repeat constructor).
  destruct (plain_name_ends ["a"; "b"]%char "c" 12 (blanks 12) H eq_refl)
    as (H1 & H2 & _).
  split; [exact H1 |]. split; [exact H2 |].
  vm_compute. reflexivity.
Defined.

(** X22. [archive_reader::scan] always
    returns on an archive file; when it returns true, every member of the
    directory is entered under its own name, which is not empty, and its
    content starts at an even offset and ends within the file; the same
    holds for the symbol table. *)
Theorem scan_members_lie_in_the_file (file : list ascii) :
  exists res,
    ArReader.scan file = Ok res /\
    forall r, res = Some r -> readerOk (length file) r.
Proof.
  unfold ArReader.scan.
  apply scanLoop_ok.
  - reflexivity.
  - split; [intros name m H; discriminate | intros b l H; discriminate].
  - lia.
Qed.

(** X23. [Segment::print] with [strip] writes the
    bytes of a segment without holes as two upper-case hex digits each,
    without blanks or addresses, then a line feed unless the last byte
    carries an annotation, then the headers that stand behind the last
    byte; [insertByteString] on a fresh segment reads these digits back
    to the same bytes. *)
Theorem stripped_dump_reads_back (s : Segment.t) (out : ostream.t)
    (Hinv : SegInv s)
    (Hbytes : Forall (fun b => 0 <= b <= 255)
                (bytesAt (Z.to_nat (Segment.size s)) 0 (Segment.memory s)))
    (Hsize : 0 < Segment.size s < map_max_size)
    (Hleft : ostream.left out = false) :
  exists out' s',
    Emit.Segment_print s true out = Ok out' /\
    ostream.buf out' =
      ostream.buf out +:+
      hexDump (bytesAt (Z.to_nat (Segment.size s)) 0 (Segment.memory s)) +:+
      (if Emit.count (Segment.annotation s) (Segment.size s - 1)
       then "" else String "010" "") +:+
      unlines (default [] (Segment.header s !! Segment.size s)) /\
    Segment.insertByteString Segment.init 0
      (hexDump (bytesAt (Z.to_nat (Segment.size s)) 0 (Segment.memory s))) =
      Ok s' /\
    Segment.memory s' = Segment.memory s.
Proof.
  pose proof (size_of_inv s Hinv) as Hsz.
  set (bytes := bytesAt (Z.to_nat (Segment.size s)) 0 (Segment.memory s)) in *.
  assert (Hlen : length bytes = Z.to_nat (Segment.size s))
    by apply bytesAt_length.
  (* the output *)
  destruct (printLoop_strip (Z.to_nat (Segment.size s)) s Hinv (proj2 Hsize)
              0 true out) as (o1 & Ho1 & Hb1).
  { now rewrite Z.sub_0_r. } { exact Hleft. } { lia. } { lia. }
  rewrite Z.sub_0_r in Hb1. fold bytes in Hb1.
  destruct (printLoop_state _ _ _ _ _ _ _ Ho1) as [Hl1 Hs1].
  destruct (Hs1 (or_intror (proj1 Hsize))) as (_ & _ & Hw1).
  (* the digits read back *)
  destruct (insertLoop_hexDump bytes 0 ∅ Hbytes ltac:(lia)) as (m' & Hm' & Hlook).
  { rewrite Hlen. unfold map_max_size in Hsize. lia. }
  { rewrite map_size_empty, Hlen. lia. }
  eexists. exists (Segment.with_memory Segment.init m').
  split; [| split; [| split]].
  - unfold Emit.Segment_print. rewrite Ho1. cbn [bind]. reflexivity.
  - rewrite wrap64_small by (unfold map_max_size in Hsize; lia).
    set (o2 := if negb _ then ostream.endl o1 else o1).
    assert (H2 : ostream.width o2 = 0%nat /\
                 ostream.buf o2 =
                 ostream.buf o1 +:+
                 (if Emit.count (Segment.annotation s) (Segment.size s - 1)
                  then "" else String "010" "")).
    { subst o2. destruct (Emit.count _ _); cbn [negb].
      - split; [exact Hw1 | now rewrite append_nil_r].
      - split; [exact Hw1 | reflexivity]. }
    destruct H2 as [Hw2 Hb2].
    destruct (Segment.header s !! Segment.size s) as [vs|]; cbn [default unlines].
    + rewrite buf_put_lines by exact Hw2. rewrite Hb2, Hb1.
      now rewrite !append_assoc.
    + rewrite Hb2, Hb1. now rewrite append_nil_r, !append_assoc.
  - unfold Segment.insertByteString.
    change (Segment.baseAddr Segment.init) with 0.
    change (wrap64 (0 - 0)) with 0.
    change (Segment.requiresAdvanceTo Segment.init 0) with false.
    cbn [bind]. rewrite length_hexDump, even_double, div2_double.
    cbn [assert bind]. change (Segment.memory Segment.init) with (∅ : gmap Z Z).
    rewrite Hm'. reflexivity.
  - cbn [Segment.memory Segment.with_memory]. apply map_eq. intros k.
    rewrite Hlook, Hlen.
    destruct (decide (0 <= k < 0 + Z.of_nat (Z.to_nat (Segment.size s)))) as [H|H].
    + unfold bytes. rewrite bytesAt_lookup by lia.
      rewrite Z.add_0_l. replace (Z.of_nat (Z.to_nat (k - 0))) with k by lia.
      assert (Hs : is_Some (Segment.memory s !! k))
        by (apply (inv_contiguous s Hinv); lia).
      destruct Hs as [b Hs]. now rewrite Hs.
    + rewrite lookup_empty. symmetry. apply eq_None_not_Some.
      intros Hs. apply (inv_contiguous s Hinv) in Hs. lia.
Qed.

(** X23 at the segment of three bytes
    [AA BB CC]. *)
Lemma stripped_dump_reads_back_witness :
  exists out' s',
    Emit.Segment_print three_bytes true ostream.init = Ok out' /\
    ostream.buf out' = "AABBCC" +:+ String "010" "" /\
    Segment.insertByteString Segment.init 0 "AABBCC" = Ok s' /\
    Segment.memory s' = Segment.memory three_bytes.
Proof.
  destruct (stripped_dump_reads_back three_bytes ostream.init three_bytes_inv)
    as (out' & s' & H1 & H2 & H3 & H4).
  - vm_compute. repeat constructor; discriminate.
  - vm_compute. split; reflexivity.
  - reflexivity.
  - exists out', s'. split; [exact H1 |]. split; [| split; [exact H3 | exact H4]].
    rewrite H2. vm_compute. reflexivity.
Defined.

(** X24. [ObjectFile::print] sets
    [std::dec] on the line [#BSS] only after it has written the
    alignment: the alignment of the bss segment appears in hexadecimal
    whenever the data segment holds a byte, and in decimal otherwise; the
    size that follows is decimal in both cases. *)
Theorem bss_alignment_is_printed_in_hex (o : ObjectFile.t) (ulm : string)
    (strip : bool) (out : ostream.t)
    (Hprint : Emit.ObjectFile_print o ulm strip ostream.init = Ok out) :
  exists out1 post,
    Emit.print_text_data o ulm strip ostream.init = Ok out1 /\
    ostream.buf out =
      ostream.buf out1 +:+ "#BSS " +:+
      ostream.showNum
        (if Segment.size (ObjectFile.seg o 1) =? 0
         then ostream.Dec else ostream.Hex)
        true (Segment.alignment (ObjectFile.seg o 2)) +:+
      " " +:+
      ostream.showNum ostream.Dec true (Segment.size (ObjectFile.seg o 2)) +:+
      String "010" "" +:+ post.
Proof.
  unfold Emit.ObjectFile_print in Hprint.
  apply bind_Ok in Hprint as (out1 & H1 & H). injection H as <-.
  exists out1.
  assert (Hst : ostream.width out1 = 0%nat /\
                ostream.showNum (ostream.base out1) (ostream.upper out1)
                  (Segment.alignment (ObjectFile.seg o 2)) =
                ostream.showNum
                  (if Segment.size (ObjectFile.seg o 1) =? 0
                   then ostream.Dec else ostream.Hex)
                  true (Segment.alignment (ObjectFile.seg o 2))).
  { unfold Emit.print_text_data in H1.
    apply bind_Ok in H1 as (o0 & _ & H1).
    unfold Emit.printSegment in H1.
    destruct (Segment.size (ObjectFile.seg o 1) =? 0) eqn:E; cbn [negb] in H1.
    - injection H1 as <-. split; [reflexivity |]. simpl. apply showNum_dec.
    - apply Z.eqb_neq in E. pose proof (size_range (ObjectFile.seg o 1)).
      apply Segment_print_state in H1 as [(Hb & Hu & Hw) _]; [| lia].
      split; [exact Hw |]. now rewrite Hb, Hu. }
  destruct Hst as [Hw Hnum].
  destruct (extends_print_symtab o (Emit.print_bss o out1)) as [post Hpost].
  eexists. split; [exact H1 |]. rewrite Hpost.
  rewrite buf_print_bss by exact Hw.
  rewrite Hnum, showNum_dec.
  rewrite !append_assoc. reflexivity.
Qed.

(** X24 at scenario S6: the alignment 16
    of the bss segment is written as [10]. *)
Lemma bss_alignment_is_printed_in_hex_witness :
  exists out out1 post,
    Emit.ObjectFile_print S6_linked "ulm" false ostream.init = Ok out /\
    Segment.alignment (ObjectFile.seg S6_linked 2) = 16 /\
    ostream.buf out =
      ostream.buf out1 +:+ "#BSS " +:+ "10" +:+ " " +:+ "3" +:+
      String "010" "" +:+ post.
Proof.
  destruct (Emit.ObjectFile_print S6_linked "ulm" false ostream.init)
    as [out|f] eqn:E; [| vm_compute in E; discriminate].
  destruct (bss_alignment_is_printed_in_hex S6_linked "ulm" false out E)
    as (out1 & post & _ & H).
  exists out, out1, post. split; [reflexivity |].
  split; [vm_compute; reflexivity | exact H].
Defined.

(** X25 ([readSegments], the [#BSS]
    line): the mark of the unit is set before the segment is aligned.  For
    a line [#BSS al sz] with [sz > 0], met when the bss segment has [n]
    bytes and [a] is [n] rounded up to the alignment, the unit is recorded
    at [n] and not at [a], and the segment is advanced to [n + sz]: when
    this lies below [a] the assertion of [advanceTo] fails, otherwise the
    segment ends at [n + sz], so that the padding is taken out of the
    unit's own [sz] bytes. *)
Theorem bss_unit_starts_at_the_unaligned_mark
    (o : ObjectFile.t) (al sz : Z) (source : string)
    (Hinv : SegInv (ObjectFile.seg o 2))
    (Hlen : (2 < length (ObjectFile.segments o))%nat)
    (Hal : 0 < al) (Hsal : 0 < Segment.alignment (ObjectFile.seg o 2))
    (Hsz : 0 < sz)
    (Hroom : Segment.size (ObjectFile.seg o 2)
             + Z.max (Segment.alignment (ObjectFile.seg o 2)) al + sz
             <= map_max_size) :
  let n := Segment.size (ObjectFile.seg o 2) in
  let A := Z.max (Segment.alignment (ObjectFile.seg o 2)) al in
  exists a,
    a mod A = 0 /\ n <= a < n + A /\
    (n + sz < a ->
     ObjectFile.readBss o (Some (al, sz)) source
     = Fail (AssertFail "addr >= size()")) /\
    (a <= n + sz ->
     exists o',
       ObjectFile.readBss o (Some (al, sz)) source = Ok o' /\
       Segment.markOf (ObjectFile.seg o' 2) source = n /\
       Segment.size (ObjectFile.seg o' 2) = n + sz /\
       Segment.alignment (ObjectFile.seg o' 2) = A).
Proof.
  intros n A. set (s := ObjectFile.seg o 2) in *.
  pose proof Hinv as Hi.
  pose proof (size_range s) as Hn.
  set (sm := Segment.setMark s source).
  assert (Him : SegInv sm) by now apply setMark_inv.
  destruct (setAlignment_spec sm al Him Hal Hsal)
    as (s1 & H1 & Hi1 & Hm1 & Ha1 & Hmod & Hrange & _).
  { change (Segment.size sm) with (Segment.size s).
    change (Segment.alignment sm) with (Segment.alignment s). fold A. lia. }
  change (Segment.size sm) with (Segment.size s) in Hrange.
  change (Segment.alignment sm) with (Segment.alignment s) in Ha1.
  fold A in Ha1. rewrite Ha1 in Hmod, Hrange.
  assert (Hmark : Segment.markOf s1 source = Segment.size s).
  { unfold Segment.markOf. rewrite Hm1. unfold sm, Segment.setMark. simpl.
    now rewrite lookup_insert_eq. }
  assert (Hget : wrap64 (sz + Segment.getMark s1 source) = Segment.size s + sz).
  { unfold Segment.getMark. rewrite (inv_base s1 Hi1), Hmark.
    rewrite Z.add_0_l, (wrap64_small (Segment.size s)) by lia.
    rewrite (Z.add_comm sz). apply wrap64_small.
    unfold map_max_size in Hroom. lia. }
  exists (Segment.size s1). split; [exact Hmod |]. split; [exact Hrange |].
  unfold ObjectFile.readBss. fold s. fold sm. rewrite H1. simpl bind.
  assert (Ez : (sz =? 0) = false) by (apply Z.eqb_neq; lia).
  rewrite Ez, Hget. split.
  - intros Hlt. unfold Segment.advanceTo.
    rewrite (inv_base s1 Hi1), Z.sub_0_r.
    rewrite (wrap64_small (Segment.size s + sz))
      by (unfold map_max_size in Hroom; lia).
    replace (Segment.size s + sz >=? Segment.size s1) with false
      by (symmetry; apply geb_false; lia).
    reflexivity.
  - intros Hle.
    destruct (advanceTo_spec s1 (Segment.size s + sz) Hi1)
      as (s2 & H2 & _ & Hs2 & Ha2 & _ & Hm2 & _); [lia |].
    rewrite H2. simpl bind. eexists. split; [reflexivity |].
    rewrite seg_set_seg_eq by exact Hlen.
    split; [| split].
    + unfold Segment.markOf. rewrite Hm2. exact Hmark.
    + exact Hs2.
    + now rewrite Ha2.
Qed.

(** X25 at the bss segment that holds
    three bytes of [a.o], for the line [#BSS 8 6] of [b.o]. *)
Lemma bss_unit_starts_at_the_unaligned_mark_witness :
  exists a,
    a mod 8 = 0 /\ 3 <= a < 3 + 8 /\
    (3 + 6 < a ->
     ObjectFile.readBss S9_state (Some (8, 6)) "b.o"
     = Fail (AssertFail "addr >= size()")) /\
    (a <= 3 + 6 ->
     exists o',
       ObjectFile.readBss S9_state (Some (8, 6)) "b.o" = Ok o' /\
       Segment.markOf (ObjectFile.seg o' 2) "b.o" = 3 /\
       Segment.size (ObjectFile.seg o' 2) = 3 + 6 /\
       Segment.alignment (ObjectFile.seg o' 2) = 8).
Proof.
  apply (bss_unit_starts_at_the_unaligned_mark S9_state 8 6 "b.o").
  - apply (inv_segments S9_state S9_ObjInv).
  - vm_compute. lia.
  - lia.
  - vm_compute. reflexivity.
  - lia.
  - vm_compute. discriminate.
Defined.

(** X26 ([ObjectFile::libpath],
    [main], [addLibOrObject]): the directories of [LIBRARY_PATH] and of the
    [-L] options are kept in a [std::set], so after the argument loops they
    stand in ascending order of their names, whatever the order on the
    command line was, and [-lname] opens the archive of the first
    directory in that order that has one: every directory of the set with
    a smaller name has no archive [lib<name>.a] that opens. *)
Theorem libraries_are_searched_in_name_order
    (fuel : nat) (env : option string) (fs : FS) (argv : list string)
    (st : MainState)
    (Hargs : processArgs fuel env fs argv = Ok st) :
  StronglySorted slt (ObjectFile.libpath (objectFile st)) /\
  forall (fs' : FS) (name path : string) (r : Ar.archive_reader),
    ObjectFile.findLib fs' (ObjectFile.libpath (objectFile st)) name
    = Some (path, r) ->
    exists dir,
      In dir (ObjectFile.libpath (objectFile st)) /\
      path = dir +:+ "/lib" +:+ name +:+ ".a" /\
      archive_open fs' path = Some r /\
      forall d, In d (ObjectFile.libpath (objectFile st)) -> slt d dir ->
                archive_open fs' (d +:+ "/lib" +:+ name +:+ ".a") = None.
Proof.
  pose proof (processArgs_libpath_sorted fuel env fs argv st Hargs) as Hs.
  split; [exact Hs |].
  intros fs' name path r H.
  destruct (findLib_first fs' name _ path r H)
    as (l1 & dir & l2 & E & Hp & Ho & Hn).
  exists dir. rewrite E in *. split; [apply in_elt |].
  split; [exact Hp |]. split; [exact Ho |].
  intros d Hd Hlt. apply Hn. eapply sorted_before; eassumption.
Qed.

(** X26 at [-L zlib -L alib a.o]: the
    set is [alib, zlib] and [-lm] opens [alib/libm.a]. *)
Lemma libraries_are_searched_in_name_order_witness :
  ObjectFile.libpath (objectFile S10_state) = ["alib"; "zlib"] /\
  fst <$> ObjectFile.findLib S10_files
            (ObjectFile.libpath (objectFile S10_state)) "m"
  = Some "alib/libm.a" /\
  StronglySorted slt (ObjectFile.libpath (objectFile S10_state)).
Proof.
  split; [vm_compute; reflexivity |].
  split; [vm_compute; reflexivity |].
  assert (H : processArgs 0 None S10_files S10_argv = Ok S10_state)
    by (vm_compute; reflexivity).
  exact (proj1 (libraries_are_searched_in_name_order
                  0 None S10_files S10_argv S10_state H)).
Defined.





(** X29 ([main] of ulmranlib_mkindex against the
    extraction of [readSymtabIndex]): for an archive that opens and whose
    member names are not empty and hold no white space, mkindex succeeds,
    and every line that it writes starts with an upper-case kind other
    than [U] and belongs to a member other than [__SYMTAB_INDEX]: read
    by [>> kind >> ident >> member] it yields the name of that member,
    or, when the line of the symbol table had no ident, the name of the
    member as the ident and no member.  This holds whatever value the
    variable [kind], which is not initialised, has on a blank line. *)
Theorem mkindex_lines_read_back
    (garbage : string -> nat -> ascii) (fs : string -> option (list ascii))
    (cmdname a : string) (file : list ascii) (r : ArReader.t)
    (Hfile : fs a = Some file)
    (Hopen : ArReader.open file = Ok (Some r))
    (Hnames : forallb (fun km => isToken (ArReader.m_name km.2))
                (ArReader.members r) = true) :
  exists out,
    Mkindex.main garbage fs cmdname [a] = Ok out /\
    Forall (indexLineOf r) (istream.getlines (ostream.buf out)).
Proof.
  destruct (mkindex_main_state garbage fs cmdname a file r Hfile Hopen Hnames)
    as (out & Hm & _ & _ & _ & Hall).
  exists out. split; assumption.
Qed.

(** X29 at an archive with the member [a.o]. *)
Lemma mkindex_lines_read_back_witness :
  exists out,
    Mkindex.main (fun _ _ => "Z"%char) S11_files "mkindex" ["lib.a"] = Ok out /\
    Forall (indexLineOf S11_reader) (istream.getlines (ostream.buf out)).
Proof.
  apply (mkindex_lines_read_back (fun _ _ => "Z"%char) S11_files "mkindex"
           "lib.a" S11_archive S11_reader).
  - reflexivity.
  - vm_compute. reflexivity.
  - vm_compute. reflexivity.
Defined.

(** X30 ([readSymtabIndex] on the output of
    mkindex): when the index that mkindex writes for such an archive is
    stored as its member [__SYMTAB_INDEX], the member that
    [readSymtabIndex] returns for an unresolved ident is the name of a
    member of the archive other than the index, or it is empty. *)
Theorem index_of_mkindex_names_members
    (garbage : string -> nat -> ascii) (fs : string -> option (list ascii))
    (cmdname a : string) (file : list ascii) (r : ArReader.t)
    (out : ostream.t) (o : ObjectFile.t) (member : string)
    (Hfile : fs a = Some file)
    (Hopen : ArReader.open file = Ok (Some r))
    (Hnames : forallb (fun km => isToken (ArReader.m_name km.2))
                (ArReader.members r) = true)
    (Hout : Mkindex.main garbage fs cmdname [a] = Ok out)
    (Hread : ObjectFile.readSymtabIndex o (indexOf (ostream.buf out))
             = Some member) :
  member = "" \/
  exists km, In km (ArReader.members r) /\
             ArReader.m_name km.2 = member /\ member <> "__SYMTAB_INDEX".
Proof.
  destruct (mkindex_main_state garbage fs cmdname a file r Hfile Hopen Hnames)
    as (out' & Hm & _ & _ & _ & Hall).
  assert (out' = out) by congruence. subst out'.
  apply readSymtabIndex_In in Hread as (l & Hin & Hl & _).
  unfold indexOf in Hin. apply in_map_iff in Hin as (line & <- & Hin).
  cbn [ix_member] in Hl.
  rewrite List.Forall_forall in Hall.
  destruct (Hall line Hin) as (km & Hkm & Hne & kind & rest & _ & _ & _ & Hlex).
  destruct Hlex as [Hlex | Hlex].
  - right. exists km. rewrite Hlex in Hl. subst member.
    split; [exact Hkm |]. split; [reflexivity | exact Hne].
  - left. rewrite Hlex in Hl. now subst member.
Qed.

(** X30 at the archive with the member
    [a.o], for a link job in which [main] is unresolved. *)
Lemma index_of_mkindex_names_members_witness :
  "a.o" = "" \/
  exists km, In km (ArReader.members S11_reader) /\
             ArReader.m_name km.2 = "a.o" /\ "a.o" <> "__SYMTAB_INDEX".
Proof.
  apply (index_of_mkindex_names_members (fun _ _ => "Z"%char) S11_files
           "mkindex" "lib.a" S11_archive S11_reader S11_output S11_linking).
  - reflexivity.
  - vm_compute. reflexivity.
  - vm_compute. reflexivity.
  - vm_compute. reflexivity.
  - vm_compute. reflexivity.
Defined.
